(** * Ants vs. SomeBees: a shallow embedding of [ants.py]

    The Python objects of the game (places, ants, bees) live in a store
    indexed by object identity; every method of the source becomes a
    function in a state-and-exception monad over that store.  Python's
    [is] and default [==] on objects are identity, modelled by equality of
    store indices.  [place.bees] only ever receives insects for which
    [is_ant()] is false and [place.ant] only insects for which it is true
    (see [Place.add_insect]), so ants and bees are kept in two stores and an
    [Insect] reference records on which side it lives. *)

From Stdlib Require Import ZArith List String Bool Arith Lia.
From Stdlib Require Import DecimalString Sorted.
Import ListNotations.
Open Scope string_scope.
Open Scope list_scope.
Open Scope Z_scope.

Set Implicit Arguments.

(* ================================================================== *)
(** ** Classes and their class attributes *)
(* ================================================================== *)

Definition PlaceId := nat.
Definition AntId := nat.
Definition BeeId := nat.

(** The subclasses of [Place]. *)
Inductive PlaceClass := Place | Water | Hive.

(** [Ant] and every class derived from it. *)
Inductive AntClass :=
| Ant | HarvesterAnt | ThrowerAnt | FireAnt | LongThrower | ShortThrower
| WallAnt | NinjaAnt | ScubaThrower | HungryAnt | BodyguardAnt | QueenAnt
| AntRemover | SlowThrower | StunThrower.

Definition AntClass_eqb (c d : AntClass) : bool :=
  match c, d with
  | Ant, Ant | HarvesterAnt, HarvesterAnt | ThrowerAnt, ThrowerAnt
  | FireAnt, FireAnt | LongThrower, LongThrower | ShortThrower, ShortThrower
  | WallAnt, WallAnt | NinjaAnt, NinjaAnt | ScubaThrower, ScubaThrower
  | HungryAnt, HungryAnt | BodyguardAnt, BodyguardAnt | QueenAnt, QueenAnt
  | AntRemover, AntRemover | SlowThrower, SlowThrower
  | StunThrower, StunThrower => true
  | _, _ => false
  end.

(** The base class written in each [class] statement. *)
Definition base (c : AntClass) : option AntClass :=
  match c with
  | Ant => None
  | HarvesterAnt | FireAnt | WallAnt | NinjaAnt | HungryAnt | BodyguardAnt
  | AntRemover | ThrowerAnt => Some Ant
  | LongThrower | ShortThrower | ScubaThrower | SlowThrower | StunThrower =>
      Some ThrowerAnt
  | QueenAnt => Some ScubaThrower
  end.

(** Classes in the order of their [class] statements in the file. *)
Definition classes_in_definition_order : list AntClass :=
  [Ant; HarvesterAnt; ThrowerAnt; FireAnt; LongThrower; ShortThrower; WallAnt;
   NinjaAnt; ScubaThrower; HungryAnt; BodyguardAnt; QueenAnt; AntRemover;
   SlowThrower; StunThrower].

(** [c.__subclasses__()]: the direct subclasses, in definition order. *)
Definition subclasses (c : AntClass) : list AntClass :=
  filter (fun d => match base d with
                   | Some b => AntClass_eqb b c
                   | None => false
                   end) classes_in_definition_order.

(** Class attributes, resolved along the inheritance chain. *)
Definition class_name (c : AntClass) : option string :=
  match c with
  | Ant => None
  | HarvesterAnt => Some "Harvester"
  | ThrowerAnt => Some "Thrower"
  | FireAnt => Some "Fire"
  | LongThrower => Some "Long"
  | ShortThrower => Some "Short"
  | WallAnt => Some "Wall"
  | NinjaAnt => Some "Ninja"
  | ScubaThrower => Some "Scuba"
  | HungryAnt => Some "Hungry"
  | BodyguardAnt => Some "Bodyguard"
  | QueenAnt => Some "Queen"
  | AntRemover => Some "Remover"
  | SlowThrower => Some "Slow"
  | StunThrower => Some "Stun"
  end.

Definition implemented (c : AntClass) : bool :=
  match c with
  | Ant | HungryAnt | QueenAnt | SlowThrower | StunThrower => false
  | _ => true
  end.

Definition class_damage (c : AntClass) : Z :=
  match c with
  | ThrowerAnt | LongThrower | ShortThrower | ScubaThrower | QueenAnt
  | SlowThrower | StunThrower | NinjaAnt => 1
  | FireAnt => 3
  | _ => 0
  end.

Definition food_cost (c : AntClass) : Z :=
  match c with
  | Ant | AntRemover => 0
  | HarvesterAnt => 2
  | ThrowerAnt | SlowThrower | StunThrower => 4
  | FireAnt | WallAnt | HungryAnt | BodyguardAnt => 4
  | LongThrower | ShortThrower => 3
  | NinjaAnt | QueenAnt => 6
  | ScubaThrower => 5
  end.

Definition watersafe (c : AntClass) : bool :=
  match c with
  | ScubaThrower | QueenAnt => true
  | _ => false
  end.

Definition blocks_path (c : AntClass) : bool :=
  match c with
  | NinjaAnt => false
  | _ => true
  end.

Definition container (c : AntClass) : bool :=
  match c with
  | BodyguardAnt => true
  | _ => false
  end.

Definition min_range (c : AntClass) : Z :=
  match c with
  | LongThrower => 4
  | _ => 0
  end.

Definition max_range (c : AntClass) : Z :=
  match c with
  | ShortThrower => 2
  | _ => 10
  end.

(** [isinstance(x, ThrowerAnt)]. *)
Definition is_thrower (c : AntClass) : bool :=
  match c with
  | ThrowerAnt | LongThrower | ShortThrower | ScubaThrower | QueenAnt
  | SlowThrower | StunThrower => true
  | _ => false
  end.

Definition time_to_digest : Z := 3.

(* ================================================================== *)
(** ** Objects *)
(* ================================================================== *)

(** A reference to an insect; [is_ant] is the method of the same name. *)
Inductive Insect := IAnt (a : AntId) | IBee (b : BeeId).

Definition is_ant (i : Insect) : bool :=
  match i with IAnt _ => true | IBee _ => false end.

(** An [AssaultPlan]: its dictionary from times to waves, kept as an
    association list in insertion order (the iteration order of a Python
    dictionary), and its [bee_armor]. *)
Record AssaultPlan := mkPlan {
  waves : list (Z * list BeeId);
  bee_armor : Z
}.

Record PlaceObj := mkPlace {
  pclass : PlaceClass;
  name : string;
  exit : option PlaceId;
  bees : list BeeId;
  ant : option AntId;
  entrance : option PlaceId;
  assault_plan : AssaultPlan            (* only meaningful for a [Hive] *)
}.

Record BeeObj := mkBee {
  b_armor : Z;
  b_place : option PlaceId
}.

(** An instance of [Ant] or of a subclass.  [a_damage] is the value that
    [self.damage] reads: the class attribute until [damage *= 2] stores an
    instance attribute.  [a_ant] is the [ant] attribute of a
    [BodyguardAnt]; [instance_num] and [doubled_ants] belong to a
    [QueenAnt] and [digesting] to a [HungryAnt]. *)
Record AntObj := mkAnt {
  cls : AntClass;
  a_armor : Z;
  a_place : option PlaceId;
  a_damage : Z;
  a_ant : option AntId;
  instance_num : nat;
  doubled_ants : list AntId;
  digesting : Z
}.

(** [colony.queen] is a [Place] or, once the queen has acted, a
    [QueenPlace] joining that place and [self.place] of the queen. *)
Inductive QueenRef :=
| QPlace (p : PlaceId)
| QueenPlace (colony_queen : PlaceId) (ant_queen : option PlaceId).

(** What [print] writes. *)
Inductive Output :=
| Expired (i : Insect)               (* '... ran out of armor and expired' *)
| NotEnoughFood (ant_type_name : string)
| Added (i : Insect) (ws : bool)     (* Water.add_insect *)
| Perished                           (* 'The ant queen has perished...' *)
| Vanquished.                        (* 'All bees are vanquished...' *)

(** The store, the module-level state ([QueenAnt.number_of_queens], the
    random generator, standard output) and the attributes of the
    [AntColony]. *)
Record World := mkWorld {
  place_at : PlaceId -> PlaceObj;
  ant_at : AntId -> AntObj;
  bee_at : BeeId -> BeeObj;
  fresh : nat;
  number_of_queens : nat;
  rng : nat -> nat;
  out : list Output;
  time : Z;
  food : Z;
  hive : PlaceId;
  queen : QueenRef;
  places : list (string * PlaceId);
  bee_entrances : list PlaceId;
  ant_types : list (string * AntClass)
}.

Definition upd {A} (f : nat -> A) (k : nat) (v : A) : nat -> A :=
  fun i => if Nat.eqb i k then v else f i.

Lemma upd_same A (f : nat -> A) k v : upd f k v k = v.
Proof. unfold upd. now rewrite Nat.eqb_refl. Qed.

Lemma upd_other A (f : nat -> A) k v i : i <> k -> upd f k v i = f i.
Proof. unfold upd. intros H. apply Nat.eqb_neq in H. now rewrite H. Qed.

Arguments upd : simpl never.

(** Attribute assignment. *)
Definition set_exit (x : option PlaceId) (p : PlaceObj) :=
  mkPlace (pclass p) (name p) x (bees p) (ant p) (entrance p) (assault_plan p).
Definition set_bees (x : list BeeId) (p : PlaceObj) :=
  mkPlace (pclass p) (name p) (exit p) x (ant p) (entrance p) (assault_plan p).
Definition set_ant (x : option AntId) (p : PlaceObj) :=
  mkPlace (pclass p) (name p) (exit p) (bees p) x (entrance p) (assault_plan p).
Definition set_entrance (x : option PlaceId) (p : PlaceObj) :=
  mkPlace (pclass p) (name p) (exit p) (bees p) (ant p) x (assault_plan p).

Definition set_b_armor (x : Z) (b : BeeObj) := mkBee x (b_place b).
Definition set_b_place (x : option PlaceId) (b : BeeObj) := mkBee (b_armor b) x.

Definition set_a_armor (x : Z) (a : AntObj) :=
  mkAnt (cls a) x (a_place a) (a_damage a) (a_ant a) (instance_num a)
        (doubled_ants a) (digesting a).
Definition set_a_place (x : option PlaceId) (a : AntObj) :=
  mkAnt (cls a) (a_armor a) x (a_damage a) (a_ant a) (instance_num a)
        (doubled_ants a) (digesting a).
Definition set_a_damage (x : Z) (a : AntObj) :=
  mkAnt (cls a) (a_armor a) (a_place a) x (a_ant a) (instance_num a)
        (doubled_ants a) (digesting a).
Definition set_a_ant (x : option AntId) (a : AntObj) :=
  mkAnt (cls a) (a_armor a) (a_place a) (a_damage a) x (instance_num a)
        (doubled_ants a) (digesting a).
Definition set_doubled_ants (x : list AntId) (a : AntObj) :=
  mkAnt (cls a) (a_armor a) (a_place a) (a_damage a) (a_ant a)
        (instance_num a) x (digesting a).
Definition set_digesting (x : Z) (a : AntObj) :=
  mkAnt (cls a) (a_armor a) (a_place a) (a_damage a) (a_ant a)
        (instance_num a) (doubled_ants a) x.

Definition with_places_at (f : PlaceId -> PlaceObj) (w : World) :=
  mkWorld f (ant_at w) (bee_at w) (fresh w) (number_of_queens w) (rng w)
          (out w) (time w) (food w) (hive w) (queen w) (places w)
          (bee_entrances w) (ant_types w).
Definition with_ants_at (f : AntId -> AntObj) (w : World) :=
  mkWorld (place_at w) f (bee_at w) (fresh w) (number_of_queens w) (rng w)
          (out w) (time w) (food w) (hive w) (queen w) (places w)
          (bee_entrances w) (ant_types w).
Definition with_bees_at (f : BeeId -> BeeObj) (w : World) :=
  mkWorld (place_at w) (ant_at w) f (fresh w) (number_of_queens w) (rng w)
          (out w) (time w) (food w) (hive w) (queen w) (places w)
          (bee_entrances w) (ant_types w).
Definition with_fresh (x : nat) (w : World) :=
  mkWorld (place_at w) (ant_at w) (bee_at w) x (number_of_queens w) (rng w)
          (out w) (time w) (food w) (hive w) (queen w) (places w)
          (bee_entrances w) (ant_types w).
Definition with_number_of_queens (x : nat) (w : World) :=
  mkWorld (place_at w) (ant_at w) (bee_at w) (fresh w) x (rng w)
          (out w) (time w) (food w) (hive w) (queen w) (places w)
          (bee_entrances w) (ant_types w).
Definition with_rng (x : nat -> nat) (w : World) :=
  mkWorld (place_at w) (ant_at w) (bee_at w) (fresh w) (number_of_queens w) x
          (out w) (time w) (food w) (hive w) (queen w) (places w)
          (bee_entrances w) (ant_types w).
Definition with_out (x : list Output) (w : World) :=
  mkWorld (place_at w) (ant_at w) (bee_at w) (fresh w) (number_of_queens w)
          (rng w) x (time w) (food w) (hive w) (queen w) (places w)
          (bee_entrances w) (ant_types w).
Definition with_time (x : Z) (w : World) :=
  mkWorld (place_at w) (ant_at w) (bee_at w) (fresh w) (number_of_queens w)
          (rng w) (out w) x (food w) (hive w) (queen w) (places w)
          (bee_entrances w) (ant_types w).
Definition with_food (x : Z) (w : World) :=
  mkWorld (place_at w) (ant_at w) (bee_at w) (fresh w) (number_of_queens w)
          (rng w) (out w) (time w) x (hive w) (queen w) (places w)
          (bee_entrances w) (ant_types w).
Definition with_hive (x : PlaceId) (w : World) :=
  mkWorld (place_at w) (ant_at w) (bee_at w) (fresh w) (number_of_queens w)
          (rng w) (out w) (time w) (food w) x (queen w) (places w)
          (bee_entrances w) (ant_types w).
Definition with_queen (x : QueenRef) (w : World) :=
  mkWorld (place_at w) (ant_at w) (bee_at w) (fresh w) (number_of_queens w)
          (rng w) (out w) (time w) (food w) (hive w) x (places w)
          (bee_entrances w) (ant_types w).
Definition with_places (x : list (string * PlaceId)) (w : World) :=
  mkWorld (place_at w) (ant_at w) (bee_at w) (fresh w) (number_of_queens w)
          (rng w) (out w) (time w) (food w) (hive w) (queen w) x
          (bee_entrances w) (ant_types w).
Definition with_bee_entrances (x : list PlaceId) (w : World) :=
  mkWorld (place_at w) (ant_at w) (bee_at w) (fresh w) (number_of_queens w)
          (rng w) (out w) (time w) (food w) (hive w) (queen w) (places w)
          x (ant_types w).
Definition with_ant_types (x : list (string * AntClass)) (w : World) :=
  mkWorld (place_at w) (ant_at w) (bee_at w) (fresh w) (number_of_queens w)
          (rng w) (out w) (time w) (food w) (hive w) (queen w) (places w)
          (bee_entrances w) x.

(* ================================================================== *)
(** ** The monad of methods: state, exceptions, fuel for loops *)
(* ================================================================== *)

Inductive exn :=
| AssertionError | KeyError | ValueError | AttributeError | IndexError.

(** A call returns normally with a value, raises an exception (the store
    keeps what was written before the raise), or exceeds the bound put on
    the iterations of a [while] loop. *)
Inductive outcome (A : Type) :=
| Ok (a : A) (w : World)
| Raise (e : exn) (w : World)
| OutOfFuel.
Arguments Ok {A} a w.
Arguments Raise {A} e w.
Arguments OutOfFuel {A}.

Definition M (A : Type) := World -> outcome A.

Definition ret {A} (a : A) : M A := fun w => Ok a w.
Definition raise {A} (e : exn) : M A := fun w => Raise e w.
Definition bind {A B} (m : M A) (k : A -> M B) : M B :=
  fun w => match m w with
           | Ok a w' => k a w'
           | Raise e w' => Raise e w'
           | OutOfFuel => OutOfFuel
           end.
Definition get : M World := fun w => Ok w w.
Definition modify (f : World -> World) : M unit := fun w => Ok tt (f w).

Declare Scope monad_scope.
Delimit Scope monad_scope with monad.
Notation "x <- m ;; k" := (bind m (fun x => k))
  (at level 61, m at next level, right associativity) : monad_scope.
Notation "m ;; k" := (bind m (fun _ => k))
  (at level 61, right associativity) : monad_scope.
Open Scope monad_scope.

(** [for x in l: body(x)] over a list evaluated before the loop. *)
Fixpoint for_each {A} (l : list A) (body : A -> M unit) : M unit :=
  match l with
  | [] => ret tt
  | x :: l' => body x ;; for_each l' body
  end.

Definition print (o : Output) : M unit :=
  modify (fun w => with_out (out w ++ [o]) w).

(** Reads and writes of single attributes. *)
Definition the_place (p : PlaceId) : M PlaceObj := fun w => Ok (place_at w p) w.
Definition the_ant (a : AntId) : M AntObj := fun w => Ok (ant_at w a) w.
Definition the_bee (b : BeeId) : M BeeObj := fun w => Ok (bee_at w b) w.

Definition write_place (p : PlaceId) (f : PlaceObj -> PlaceObj) : M unit :=
  modify (fun w => with_places_at (upd (place_at w) p (f (place_at w p))) w).
Definition write_ant (a : AntId) (f : AntObj -> AntObj) : M unit :=
  modify (fun w => with_ants_at (upd (ant_at w) a (f (ant_at w a))) w).
Definition write_bee (b : BeeId) (f : BeeObj -> BeeObj) : M unit :=
  modify (fun w => with_bees_at (upd (bee_at w) b (f (bee_at w b))) w).

(** Attributes that ants and bees share. *)
Definition armor (w : World) (i : Insect) : Z :=
  match i with
  | IAnt a => a_armor (ant_at w a)
  | IBee b => b_armor (bee_at w b)
  end.

Definition place (w : World) (i : Insect) : option PlaceId :=
  match i with
  | IAnt a => a_place (ant_at w a)
  | IBee b => b_place (bee_at w b)
  end.

Definition set_armor (i : Insect) (x : Z) : M unit :=
  match i with
  | IAnt a => write_ant a (set_a_armor x)
  | IBee b => write_bee b (set_b_armor x)
  end.

Definition set_place (i : Insect) (x : option PlaceId) : M unit :=
  match i with
  | IAnt a => write_ant a (set_a_place x)
  | IBee b => write_bee b (set_b_place x)
  end.

(** [insect.watersafe]: [Bee.watersafe] is [True]. *)
Definition insect_watersafe (w : World) (i : Insect) : bool :=
  match i with
  | IAnt a => watersafe (cls (ant_at w a))
  | IBee _ => true
  end.

Definition opt_eqb (x : option nat) (y : nat) : bool :=
  match x with
  | Some x' => Nat.eqb x' y
  | None => false
  end.

Fixpoint mem (x : nat) (l : list nat) : bool :=
  match l with
  | [] => false
  | y :: l' => Nat.eqb y x || mem x l'
  end.

(** [l.remove(x)] on a list that contains [x]: drops the first
    occurrence. *)
Fixpoint remove_first (x : nat) (l : list nat) : list nat :=
  match l with
  | [] => []
  | y :: l' => if Nat.eqb y x then l' else y :: remove_first x l'
  end.

(* ================================================================== *)
(** ** [Place] *)
(* ================================================================== *)

(** [Ant.can_contain]. *)
Definition can_contain (w : World) (self other : AntId) : bool :=
  container (cls (ant_at w self))
  && match a_ant (ant_at w self) with None => true | Some _ => false end
  && negb (container (cls (ant_at w other))).

(** [BodyguardAnt.contain_ant]. *)
Definition contain_ant (self a : AntId) : M unit :=
  write_ant self (set_a_ant (Some a)).

Definition Place_add_insect (self : PlaceId) (insect : Insect) : M unit :=
  match insect with
  | IAnt a =>
      w <- get ;;
      match ant (place_at w self) with
      | None => write_place self (set_ant (Some a))
      | Some cur =>
          if can_contain w cur a then contain_ant cur a
          else if can_contain w a cur then
            contain_ant a cur ;; write_place self (set_ant (Some a))
          else raise AssertionError
      end ;;
      set_place insect (Some self)
  | IBee b =>
      write_place self (fun p => set_bees (bees p ++ [b]) p) ;;
      set_place insect (Some self)
  end.

Definition Place_remove_insect (self : PlaceId) (insect : Insect) : M unit :=
  match insect with
  | IBee b =>
      w <- get ;;
      if mem b (bees (place_at w self)) then
        write_place self (fun p => set_bees (remove_first b (bees p)) p) ;;
        set_place insect None
      else raise ValueError
  | IAnt a =>
      w <- get ;;
      if opt_eqb (ant (place_at w self)) a then
        if AntClass_eqb (cls (ant_at w a)) QueenAnt
           && Nat.eqb (instance_num (ant_at w a)) 0
        then ret tt
        else
          (if container (cls (ant_at w a))
              && match a_ant (ant_at w a) with Some _ => true | None => false end
           then write_place self (set_ant (a_ant (ant_at w a)))
           else write_place self (set_ant None)) ;;
          set_place insect None
      else raise AssertionError
  end.

(* ================================================================== *)
(** ** [Insect], [FireAnt]: losing armor *)
(* ================================================================== *)

(** [self.place.m(...)]: an [AttributeError] when [self.place] is [None]. *)
Definition at_place {A} (w : World) (i : Insect) (k : PlaceId -> M A) : M A :=
  match place w i with
  | Some p => k p
  | None => raise AttributeError
  end.

Definition Insect_reduce_armor (self : Insect) (amount : Z) : M unit :=
  w <- get ;;
  set_armor self (armor w self - amount) ;;
  w <- get ;;
  if armor w self <=? 0 then
    print (Expired self) ;;
    at_place w self (fun p => Place_remove_insect p self)
  else ret tt.

Definition FireAnt_reduce_armor (self : AntId) (amount : Z) : M unit :=
  w <- get ;;
  set_armor (IAnt self) (armor w (IAnt self) - amount) ;;
  w <- get ;;
  if armor w (IAnt self) <=? 0 then
    bs <- at_place w (IAnt self) (fun p => ret (bees (place_at w p))) ;;
    for_each bs (fun bee =>
      w <- get ;;
      Insect_reduce_armor (IBee bee) (a_damage (ant_at w self))) ;;
    w <- get ;;
    at_place w (IAnt self) (fun p => Place_remove_insect p (IAnt self))
  else ret tt.

(** [insect.reduce_armor(amount)], resolved on the class of [insect]. *)
Definition reduce_armor (insect : Insect) (amount : Z) : M unit :=
  match insect with
  | IBee _ => Insect_reduce_armor insect amount
  | IAnt a =>
      w <- get ;;
      match cls (ant_at w a) with
      | FireAnt => FireAnt_reduce_armor a amount
      | _ => Insect_reduce_armor insect amount
      end
  end.

(** [Water.add_insect]. *)
Definition Water_add_insect (self : PlaceId) (insect : Insect) : M unit :=
  w <- get ;;
  print (Added insect (insect_watersafe w insect)) ;;
  Place_add_insect self insect ;;
  w <- get ;;
  if negb (insect_watersafe w insect) then
    reduce_armor insect (armor w insect)
  else ret tt.

(** [place.add_insect(insect)], resolved on the class of [place]. *)
Definition add_insect (p : PlaceId) (insect : Insect) : M unit :=
  w <- get ;;
  match pclass (place_at w p) with
  | Water => Water_add_insect p insect
  | _ => Place_add_insect p insect
  end.

(* ================================================================== *)
(** ** [Bee] *)
(* ================================================================== *)

Definition Bee_sting (self : BeeId) (a : AntId) : M unit :=
  reduce_armor (IAnt a) 1.

(** [place.add_insect] where [place] may be [None]. *)
Definition add_insect_at (p : option PlaceId) (insect : Insect) : M unit :=
  match p with
  | Some p' => add_insect p' insect
  | None => raise AttributeError
  end.

Definition Bee_move_to (self : BeeId) (p : option PlaceId) : M unit :=
  w <- get ;;
  at_place w (IBee self) (fun q => Place_remove_insect q (IBee self)) ;;
  add_insect_at p (IBee self).

Definition Bee_blocked (self : BeeId) : M bool :=
  w <- get ;;
  at_place w (IBee self) (fun q =>
    ret match ant (place_at w q) with
        | Some a => blocks_path (cls (ant_at w a))
        | None => false
        end).

Definition Bee_action (self : BeeId) : M unit :=
  blocked <- Bee_blocked self ;;
  w <- get ;;
  if blocked then
    at_place w (IBee self) (fun q =>
      match ant (place_at w q) with
      | Some a => Bee_sting self a
      | None => raise AttributeError
      end)
  else
    at_place w (IBee self) (fun q =>
      if negb (String.eqb (name (place_at w q)) "Hive")
         && (0 <? b_armor (bee_at w self))
      then Bee_move_to self (exit (place_at w q))
      else ret tt).

(* ================================================================== *)
(** ** Ants and their actions *)
(* ================================================================== *)

(** [random.choice(l)]: an [IndexError] on the empty list; the generator
    is a stream of naturals consumed one draw at a time. *)
Definition random_choice (l : list nat) : M nat :=
  match l with
  | [] => raise IndexError
  | x :: _ =>
      w <- get ;;
      modify (fun w => with_rng (fun n => rng w (S n)) w) ;;
      ret (nth (Nat.modulo (rng w 0%nat) (List.length l)) l x)
  end.

Definition random_or_none (l : list nat) : M (option nat) :=
  match l with
  | [] => ret None
  | _ => x <- random_choice l ;; ret (Some x)
  end.

Definition HarvesterAnt_action (self : AntId) : M unit :=
  modify (fun w => with_food (food w + 1) w).

(** The [while place is not hive] loop of [ThrowerAnt.nearest_bee], from
    the state ([place], [distance]); [fuel] bounds its iterations. *)
Fixpoint nearest_bee_loop (fuel : nat) (self : AntId) (hive : PlaceId)
         (place : option PlaceId) (distance : Z) : M (option BeeId) :=
  match fuel with
  | O => fun _ => OutOfFuel
  | S fuel' =>
      match place with
      | Some p =>
          if Nat.eqb p hive then ret None
          else
            w <- get ;;
            if (min_range (cls (ant_at w self)) <=? distance)
               && (distance <=? max_range (cls (ant_at w self)))
               && match bees (place_at w p) with [] => false | _ => true end
            then random_or_none (bees (place_at w p))
            else nearest_bee_loop fuel' self hive (entrance (place_at w p))
                                  (distance + 1)
      | None => raise AttributeError
      end
  end.

Definition ThrowerAnt_nearest_bee (fuel : nat) (self : AntId) (hive : PlaceId)
  : M (option BeeId) :=
  w <- get ;;
  nearest_bee_loop fuel self hive (a_place (ant_at w self)) 0.

Definition ThrowerAnt_throw_at (self : AntId) (target : option BeeId) : M unit :=
  match target with
  | Some b => w <- get ;; reduce_armor (IBee b) (a_damage (ant_at w self))
  | None => ret tt
  end.

(** [SlowThrower.throw_at] and [StunThrower.throw_at] call [apply_effect],
    whose body is a docstring only. *)
Definition apply_effect : M unit := ret tt.

Definition SlowThrower_throw_at (self : AntId) (target : option BeeId) : M unit :=
  match target with
  | Some _ => apply_effect
  | None => ret tt
  end.

(** [self.throw_at(target)], resolved on the class of [self]. *)
Definition throw_at (self : AntId) (target : option BeeId) : M unit :=
  w <- get ;;
  match cls (ant_at w self) with
  | SlowThrower | StunThrower => SlowThrower_throw_at self target
  | _ => ThrowerAnt_throw_at self target
  end.

Definition ThrowerAnt_action (fuel : nat) (self : AntId) : M unit :=
  w <- get ;;
  target <- ThrowerAnt_nearest_bee fuel self (hive w) ;;
  throw_at self target.

Definition NinjaAnt_action (self : AntId) : M unit :=
  w <- get ;;
  bs <- at_place w (IAnt self) (fun p => ret (bees (place_at w p))) ;;
  for_each bs (fun bee =>
    w <- get ;;
    reduce_armor (IBee bee) (a_damage (ant_at w self))).

Definition HungryAnt_eat_bee (self : AntId) (bee : option BeeId) : M unit :=
  match bee with
  | Some b =>
      w <- get ;;
      reduce_armor (IBee b) (b_armor (bee_at w b)) ;;
      write_ant self (set_digesting time_to_digest)
  | None => ret tt
  end.

Definition HungryAnt_action (self : AntId) : M unit :=
  w <- get ;;
  if 0 <? digesting (ant_at w self) then
    write_ant self (set_digesting (digesting (ant_at w self) - 1))
  else
    bs <- at_place w (IAnt self) (fun p => ret (bees (place_at w p))) ;;
    bee <- random_or_none bs ;;
    HungryAnt_eat_bee self bee.

(** [QueenAnt.double_damage]. *)
Definition double_one (self a : AntId) : M unit :=
  w <- get ;;
  if negb (mem a (doubled_ants (ant_at w self))) && negb (Nat.eqb a self) then
    write_ant a (fun o => set_a_damage (a_damage o * 2) o) ;;
    write_ant self (fun o => set_doubled_ants (doubled_ants o ++ [a]) o)
  else ret tt.

Definition QueenAnt_double_damage (self a : AntId) : M unit :=
  w <- get ;;
  (match container (cls (ant_at w a)), a_ant (ant_at w a) with
   | true, Some inner => double_one self inner
   | _, _ => ret tt
   end) ;;
  double_one self a.

(** First loop of [QueenAnt.action]: follow entrances up to the place
    whose entrance is [None] or the hive. *)
Fixpoint walk_back (fuel : nat) (w : World) (current : PlaceId)
  : option PlaceId :=
  match fuel with
  | O => None
  | S fuel' =>
      match entrance (place_at w current) with
      | Some e =>
          if Nat.eqb e (hive w) then Some current
          else walk_back fuel' w e
      | None => Some current
      end
  end.

(** Second loop: follow exits to the end, doubling on the way. *)
Fixpoint walk_forward (fuel : nat) (self : AntId) (current : option PlaceId)
  : M unit :=
  match current with
  | None => ret tt
  | Some c =>
      match fuel with
      | O => fun _ => OutOfFuel
      | S fuel' =>
          w <- get ;;
          (match ant (place_at w c) with
           | Some a => QueenAnt_double_damage self a
           | None => ret tt
           end) ;;
          w <- get ;;
          walk_forward fuel' self (exit (place_at w c))
      end
  end.

Definition QueenAnt_action (fuel : nat) (self : AntId) : M unit :=
  w <- get ;;
  if (0 <? instance_num (ant_at w self))%nat then
    reduce_armor (IAnt self) (a_armor (ant_at w self))
  else
    (match queen w with
     | QPlace q =>
         modify (with_queen (QueenPlace q (a_place (ant_at w self))))
     | QueenPlace _ _ => ret tt
     end) ;;
    w <- get ;;
    start <- at_place w (IAnt self) (fun p =>
               match walk_back fuel w p with
               | Some c => ret c
               | None => fun _ => OutOfFuel
               end) ;;
    walk_forward fuel self (Some start) ;;
    ThrowerAnt_action fuel self.

Definition BodyguardAnt_action (inner_action : AntId -> M unit) (self : AntId)
  : M unit :=
  w <- get ;;
  match a_ant (ant_at w self) with
  | Some inner => inner_action inner
  | None => ret tt
  end.

(** [ant.action(colony)], resolved on the class of [ant].  [fuel] bounds
    both the loops and the depth of calls from a bodyguard to the ant it
    holds. *)
Fixpoint Ant_action (fuel : nat) (self : AntId) : M unit :=
  match fuel with
  | O => fun _ => OutOfFuel
  | S fuel' =>
      w <- get ;;
      match cls (ant_at w self) with
      | HarvesterAnt => HarvesterAnt_action self
      | ThrowerAnt | LongThrower | ShortThrower | ScubaThrower
      | SlowThrower | StunThrower => ThrowerAnt_action fuel self
      | NinjaAnt => NinjaAnt_action self
      | HungryAnt => HungryAnt_action self
      | BodyguardAnt => BodyguardAnt_action (Ant_action fuel') self
      | QueenAnt => QueenAnt_action fuel self
      | Ant | FireAnt | WallAnt | AntRemover => ret tt
      end
  end.

(* ================================================================== *)
(** ** Constructors *)
(* ================================================================== *)

Definition empty_plan : AssaultPlan := mkPlan [] 3.

(** [Bee(armor)]: [Insect.__init__] with [place=None]. *)
Definition new_Bee (armor : Z) : M BeeId :=
  w <- get ;;
  modify (fun w => with_fresh (S (fresh w))
                     (with_bees_at (upd (bee_at w) (fresh w) (mkBee armor None)) w)) ;;
  ret (fresh w).

(** [Place(name, exit)] and [Water(name, exit)]: [Place.__init__]. *)
Definition new_Place (c : PlaceClass) (nm : string) (ex : option PlaceId)
  : M PlaceId :=
  w <- get ;;
  modify (fun w => with_fresh (S (fresh w))
                     (with_places_at
                        (upd (place_at w) (fresh w)
                             (mkPlace c nm ex [] None None empty_plan)) w)) ;;
  (match ex with
   | Some e => write_place e (set_entrance (Some (fresh w)))
   | None => ret tt
   end) ;;
  ret (fresh w).

(** The armor each constructor passes to [Ant.__init__]. *)
Definition initial_armor (c : AntClass) : Z :=
  match c with
  | WallAnt => 4
  | BodyguardAnt => 2
  | AntRemover => 0
  | _ => 1
  end.

(** [constructor()] for an ant class.  [QueenAnt.__init__] also reads and
    increments the class attribute [number_of_queens]. *)
Definition new_Ant (c : AntClass) : M AntId :=
  w <- get ;;
  modify (fun w => with_fresh (S (fresh w))
                     (with_ants_at
                        (upd (ant_at w) (fresh w)
                             (mkAnt c (initial_armor c) None (class_damage c) None
                                    (match c with
                                     | QueenAnt => number_of_queens w
                                     | _ => O
                                     end) [] 0)) w)) ;;
  (match c with
   | QueenAnt =>
       modify (fun w => with_number_of_queens (S (number_of_queens w)) w)
   | _ => ret tt
   end) ;;
  ret (fresh w).

(* ================================================================== *)
(** ** [AssaultPlan] and [Hive] *)
(* ================================================================== *)

(** [self.setdefault(time, []).extend(bees)]. *)
Fixpoint extend_wave (time : Z) (bs : list BeeId) (d : list (Z * list BeeId))
  : list (Z * list BeeId) :=
  match d with
  | [] => [(time, bs)]
  | (t, wave) :: d' =>
      if Z.eqb t time then (t, wave ++ bs) :: d'
      else (t, wave) :: extend_wave time bs d'
  end.

Fixpoint new_bees (count : nat) (armor : Z) : M (list BeeId) :=
  match count with
  | O => ret []
  | S n => b <- new_Bee armor ;; bs <- new_bees n armor ;; ret (b :: bs)
  end.

(** [plan.add_wave(time, count)]; the plan it returns is [self]. *)
Definition add_wave (self : AssaultPlan) (time count : Z) : M AssaultPlan :=
  bs <- new_bees (Z.to_nat count) (bee_armor self) ;;
  ret (mkPlan (extend_wave time bs (waves self)) (bee_armor self)).

(** The property [all_bees]. *)
Definition all_bees (self : AssaultPlan) : list BeeId :=
  flat_map (fun wave => snd wave) (waves self).

(** [plan.get(time, [])]. *)
Fixpoint plan_get (time : Z) (d : list (Z * list BeeId)) : list BeeId :=
  match d with
  | [] => []
  | (t, wave) :: d' => if Z.eqb t time then wave else plan_get time d'
  end.

(** [Hive(assault_plan)].  The three attributes that [Hive.__init__] sets
    to [None] after its loop are not read by the loop. *)
Definition new_Hive (plan : AssaultPlan) : M PlaceId :=
  w <- get ;;
  modify (fun w => with_fresh (S (fresh w))
                     (with_places_at
                        (upd (place_at w) (fresh w)
                             (mkPlace Hive "Hive" None [] None None plan)) w)) ;;
  for_each (all_bees plan) (fun bee => Place_add_insect (fresh w) (IBee bee)) ;;
  ret (fresh w).

(** Dictionaries with string keys, in insertion order. *)
Fixpoint dict_get {V} (k : string) (d : list (string * V)) : option V :=
  match d with
  | [] => None
  | (k', v) :: d' => if String.eqb k' k then Some v else dict_get k d'
  end.

Fixpoint dict_set {V} (k : string) (v : V) (d : list (string * V))
  : list (string * V) :=
  match d with
  | [] => [(k, v)]
  | (k', v') :: d' =>
      if String.eqb k' k then (k', v) :: d' else (k', v') :: dict_set k v d'
  end.

Definition dict_values {V} (d : list (string * V)) : list V := map snd d.

Definition Hive_strategy (self : PlaceId) : M unit :=
  w <- get ;;
  let exits := filter (fun p => opt_eqb (entrance (place_at w p)) self)
                      (dict_values (places w)) in
  for_each (plan_get (time w) (waves (assault_plan (place_at w self))))
    (fun bee => e <- random_choice exits ;; Bee_move_to bee (Some e)).

(* ================================================================== *)
(** ** [AntColony] *)
(* ================================================================== *)

(** The closure [register_place] of [AntColony.configure]. *)
Definition register_place (hv : PlaceId) (p : PlaceId) (is_bee_entrance : bool)
  : M unit :=
  w <- get ;;
  modify (fun w => with_places (dict_set (name (place_at w p)) p (places w)) w) ;;
  if is_bee_entrance then
    write_place p (set_entrance (Some hv)) ;;
    modify (fun w => with_bee_entrances (bee_entrances w ++ [p]) w)
  else ret tt.

Definition Layout := PlaceId -> (PlaceId -> bool -> M unit) -> M unit.

Definition AntColony_configure (hv : PlaceId) (create_places : Layout) : M unit :=
  q <- new_Place Place "AntQueen" None ;;
  modify (with_queen (QPlace q)) ;;
  modify (with_places []) ;;
  modify (with_bee_entrances []) ;;
  w <- get ;;
  register_place hv (hive w) false ;;
  w <- get ;;
  match queen w with
  | QPlace q => create_places q (register_place hv)
  | QueenPlace _ _ => raise AttributeError
  end.

(** [OrderedDict((a.name, a) for a in ant_types)]; the class [Ant] itself
    has no [name]. *)
Fixpoint registry (l : list AntClass) (d : list (string * AntClass))
  : option (list (string * AntClass)) :=
  match l with
  | [] => Some d
  | a :: l' =>
      match class_name a with
      | Some n => registry l' (dict_set n a d)
      | None => None
      end
  end.

(** [AntColony(strategy, hive, ant_types, create_places, food)]; the
    strategy is passed to [simulate] instead of being stored. *)
Definition new_AntColony (hv : PlaceId) (types : list AntClass)
           (create_places : Layout) (fd : Z) : M unit :=
  modify (with_time 0) ;;
  modify (with_food fd) ;;
  modify (with_hive hv) ;;
  match registry types [] with
  | Some d =>
      modify (with_ant_types d) ;;
      AntColony_configure hv create_places
  | None => raise AttributeError
  end.

(** The properties [ants] and [bees]. *)
Definition AntColony_ants (w : World) : list AntId :=
  flat_map (fun p => match ant (place_at w p) with
                     | Some a => [a]
                     | None => []
                     end) (dict_values (places w)).

Definition AntColony_bees (w : World) : list BeeId :=
  flat_map (fun p => bees (place_at w p)) (dict_values (places w)).

(** [self.queen.bees], for a [Place] and for a [QueenPlace]. *)
Definition queen_bees : M (list BeeId) :=
  w <- get ;;
  match queen w with
  | QPlace q => ret (bees (place_at w q))
  | QueenPlace q (Some p) => ret (bees (place_at w q) ++ bees (place_at w p))
  | QueenPlace q None => raise AttributeError
  end.

Definition AntColony_deploy_ant (place_name ant_type_name : string) : M unit :=
  w <- get ;;
  match dict_get ant_type_name (ant_types w) with
  | None => raise KeyError
  | Some constructor =>
      if food w <? food_cost constructor then
        print (NotEnoughFood ant_type_name)
      else
        match dict_get place_name (places w) with
        | None => raise KeyError
        | Some p =>
            a <- new_Ant constructor ;;
            add_insect p (IAnt a) ;;
            modify (fun w => with_food (food w - food_cost constructor) w)
        end
  end.

Definition AntColony_remove_ant (place_name : string) : M unit :=
  w <- get ;;
  match dict_get place_name (places w) with
  | None => raise KeyError
  | Some p =>
      match ant (place_at w p) with
      | Some a => Place_remove_insect p (IAnt a)
      | None => ret tt
      end
  end.

(** The loop of [AntColony.simulate] and the two prints after it; the
    result tells which message was printed. *)
Inductive GameResult := won | lost.

Fixpoint AntColony_simulate (fuel : nat) (strategy : M unit) : M GameResult :=
  qb <- queen_bees ;;
  w <- get ;;
  match qb, AntColony_bees w with
  | [], _ :: _ =>
      match fuel with
      | O => fun _ => OutOfFuel
      | S fuel' =>
          Hive_strategy (hive w) ;;
          strategy ;;
          w <- get ;;
          for_each (AntColony_ants w) (fun a =>
            w <- get ;;
            if 0 <? a_armor (ant_at w a) then Ant_action fuel a else ret tt) ;;
          w <- get ;;
          for_each (AntColony_bees w) (fun b =>
            w <- get ;;
            if 0 <? b_armor (bee_at w b) then Bee_action b else ret tt) ;;
          modify (fun w => with_time (time w + 1) w) ;;
          AntColony_simulate fuel' strategy
      end
  | _ :: _, _ => print Perished ;; ret lost
  | [], [] => print Vanquished ;; ret won
  end.

(** [ant_types()]: the loop collects the subclasses of [Ant] level by
    level; [fuel] bounds its iterations. *)
Fixpoint ant_types_loop (fuel : nat) (new_types all_ant_types : list AntClass)
  : option (list AntClass) :=
  match new_types with
  | [] => Some all_ant_types
  | _ :: _ =>
      match fuel with
      | O => None
      | S fuel' =>
          let new_types' := flat_map subclasses new_types in
          ant_types_loop fuel' new_types' (all_ant_types ++ new_types')
      end
  end.

Definition ant_types_fn (fuel : nat) : option (list AntClass) :=
  match ant_types_loop fuel [Ant] [] with
  | Some all_ant_types => Some (filter implemented all_ant_types)
  | None => None
  end.

(* ================================================================== *)
(** ** Layouts *)
(* ================================================================== *)

(** [str(n)] for a non-negative integer. *)
Definition str (n : nat) : string := NilEmpty.string_of_uint (Nat.to_uint n).

(** ['tunnel_{0}_{1}'.format(tunnel, step)] and the same for water. *)
Definition place_name (prefix : string) (tunnel step : nat) : string :=
  (prefix ++ "_" ++ str tunnel ++ "_" ++ str step)%string.

(** The inner loop of [mixed_layout], from the value of [exit]. *)
Fixpoint tunnel_loop (register : PlaceId -> bool -> M unit)
         (length moat_frequency tunnel : nat) (steps : list nat) (ex : PlaceId)
  : M unit :=
  match steps with
  | [] => ret tt
  | step :: steps' =>
      e <- (if negb (Nat.eqb moat_frequency 0)
               && Nat.eqb (Nat.modulo (step + 1) moat_frequency) 0
            then new_Place Water (place_name "water" tunnel step) (Some ex)
            else new_Place Place (place_name "tunnel" tunnel step) (Some ex)) ;;
      register e (Nat.eqb (step + 1) length) ;;
      tunnel_loop register length moat_frequency tunnel steps' e
  end.

Definition mixed_layout (length tunnels moat_frequency : nat) : Layout :=
  fun queen register =>
    for_each (seq 0 tunnels) (fun tunnel =>
      tunnel_loop register length moat_frequency tunnel (seq 0 length) queen).

Definition test_layout : Layout := mixed_layout 8 1 0.
Definition test_layout_multi_tunnels : Layout := mixed_layout 8 2 0.
Definition dry_layout : Layout := mixed_layout 8 3 0.

(** The world before anything is created. *)
Definition blank_place : PlaceObj := mkPlace Place "" None [] None None empty_plan.
Definition blank_ant : AntObj := mkAnt Ant 0 None 0 None O [] 0.
Definition blank_bee : BeeObj := mkBee 0 None.

Definition initial_world (seed : nat -> nat) : World :=
  mkWorld (fun _ => blank_place) (fun _ => blank_ant) (fun _ => blank_bee)
          O O seed [] 0 0 O (QPlace O) [] [] [].

(** [make_test_assault_plan()] and the colony that [start_with_strategy]
    builds from a plan, a layout and an amount of food, with the ant types
    given explicitly. *)
Definition make_test_assault_plan : M AssaultPlan :=
  plan <- add_wave empty_plan 2 1 ;;
  add_wave plan 3 1.

Definition start_colony (make_plan : M AssaultPlan) (types : list AntClass)
           (layout : Layout) (fd : Z) : M unit :=
  plan <- make_plan ;;
  hv <- new_Hive plan ;;
  new_AntColony hv types layout fd.

(** The world in which a call ends, whatever its outcome. *)
Definition final_world {A} (o : outcome A) (w0 : World) : World :=
  match o with
  | Ok _ w => w
  | Raise _ w => w
  | OutOfFuel => w0
  end.

Definition run {A} (m : M A) (w : World) : World := final_world (m w) w.

(** The implemented ant types, as [ant_types()] returns them. *)
Definition implemented_types : list AntClass :=
  match ant_types_fn 4 with
  | Some l => l
  | None => []
  end.

(** A test colony: one tunnel of three places, the test assault plan, the
    implemented ant types, [food] units of food. *)
Definition small_colony (fd : Z) : World :=
  run (start_colony make_test_assault_plan implemented_types
                    (mixed_layout 3 1 0) fd)
      (initial_world (fun _ => O)).

(** The same with all ant classes that have a name, the queen included. *)
Definition all_types : list AntClass :=
  [HarvesterAnt; ThrowerAnt; FireAnt; LongThrower; ShortThrower; WallAnt;
   NinjaAnt; ScubaThrower; HungryAnt; BodyguardAnt; QueenAnt; AntRemover].

Definition open_colony (length tunnels : nat) (fd : Z) : World :=
  run (start_colony make_test_assault_plan all_types
                    (mixed_layout length tunnels 0) fd)
      (initial_world (fun _ => O)).

(* ================================================================== *)
(** * Properties *)
(* ================================================================== *)

Unset Implicit Arguments.

(** Methods are unfolded by name only. *)
Arguments Place_add_insect : simpl never.
Arguments Place_remove_insect : simpl never.
Arguments Insect_reduce_armor : simpl never.
Arguments FireAnt_reduce_armor : simpl never.
Arguments reduce_armor : simpl never.
Arguments Water_add_insect : simpl never.
Arguments add_insect : simpl never.
Arguments for_each : simpl never.
Arguments random_choice : simpl never.
Arguments random_or_none : simpl never.
Arguments ThrowerAnt_action : simpl never.
Arguments QueenAnt_action : simpl never.
Arguments Bee_action : simpl never.

Ltac unfold_monad :=
  unfold bind, ret, raise, get, modify, print, the_place, the_ant, the_bee,
    write_place, write_ant, write_bee, set_armor, set_place, at_place in *.

Ltac msimp := unfold_monad; repeat (progress (cbn; rewrite ?upd_same)).

(** On closed worlds: split conjunctions only, decide by evaluation. *)
Ltac conj := repeat match goal with |- _ /\ _ => split end.
Ltac by_compute := vm_compute; reflexivity.

Lemma for_each_nil {A} (body : A -> M unit) w : for_each [] body w = Ok tt w.
Proof. reflexivity. Qed.

Lemma for_each_cons {A} (x : A) l (body : A -> M unit) w :
  for_each (x :: l) body w
  = match body x w with
    | Ok _ w' => for_each l body w'
    | Raise e w' => Raise e w'
    | OutOfFuel => OutOfFuel
    end.
Proof. reflexivity. Qed.

(* ------------------------------------------------------------------ *)
(** ** The registry of ant types and [deploy_ant] *)
(* ------------------------------------------------------------------ *)

Lemma ant_types_fn_value fuel types :
  ant_types_fn fuel = Some types -> types = implemented_types.
Proof.
  destruct fuel as [|[|[|[|[|fuel]]]]]; intros H; vm_compute in H;
    try discriminate; inversion H; reflexivity.
Qed.

Lemma ant_types_fn_total fuel :
  (4 <= fuel)%nat -> ant_types_fn fuel = Some implemented_types.
Proof.
  intros H. do 4 (destruct fuel as [|fuel]; [lia|]).
  destruct fuel; reflexivity.
Qed.

(** C10.  [QueenAnt] is not implemented, so [ant_types()] leaves it out, the
    registry built from that list has no key ['Queen'], and in every colony
    whose registry it is, [deploy_ant(place_name, 'Queen')] raises
    [KeyError] before anything is changed. *)
Theorem queen_cannot_be_deployed :
  forall fuel types w place_name,
    ant_types_fn fuel = Some types ->
    registry types [] = Some (ant_types w) ->
    implemented QueenAnt = false
    /\ ~ In QueenAnt types
    /\ dict_get "Queen" (ant_types w) = None
    /\ AntColony_deploy_ant place_name "Queen" w = Raise KeyError w.
Proof.
  intros fuel types w pn Ht Hr.
  apply ant_types_fn_value in Ht. subst types.
  assert (E : registry implemented_types [] =
              Some (match registry implemented_types [] with
                    | Some d => d
                    | None => []
                    end)) by reflexivity.
  rewrite E in Hr. inversion Hr as [Hd]. clear Hr E.
  split; [reflexivity|]. split.
  - vm_compute. intuition discriminate.
  - unfold AntColony_deploy_ant. unfold_monad. rewrite <- Hd.
    split; reflexivity.
Qed.

Lemma queen_cannot_be_deployed_witness :
  ant_types_fn 4 = Some implemented_types
  /\ registry implemented_types [] = Some (ant_types (small_colony 10))
  /\ AntColony_deploy_ant "tunnel_0_0" "Queen" (small_colony 10)
     = Raise KeyError (small_colony 10).
Proof.
  split; [reflexivity|]. split; [reflexivity|].
  apply (queen_cannot_be_deployed 4 implemented_types (small_colony 10)
                                  "tunnel_0_0"); reflexivity.
Defined.

(* ------------------------------------------------------------------ *)
(** ** [AssaultPlan]: the order of [all_bees] *)
(* ------------------------------------------------------------------ *)

(** A sequence of [add_wave(time, count)] calls chained on one plan. *)
Fixpoint add_waves (plan : AssaultPlan) (calls : list (Z * Z)) : M AssaultPlan :=
  match calls with
  | [] => ret plan
  | (time, count) :: calls' =>
      plan' <- add_wave plan time count ;;
      add_waves plan' calls'
  end.

(** The specification's reading of [all_bees]: the waves taken by
    ascending turn number, then flattened. *)
Fixpoint insert_wave (x : Z * list BeeId) (l : list (Z * list BeeId))
  : list (Z * list BeeId) :=
  match l with
  | [] => [x]
  | y :: l' => if fst x <? fst y then x :: l else y :: insert_wave x l'
  end.

Definition waves_by_turn (d : list (Z * list BeeId)) : list (Z * list BeeId) :=
  fold_right insert_wave [] d.

Definition all_attackers_by_turn (plan : AssaultPlan) : list BeeId :=
  flat_map (fun wave => snd wave) (waves_by_turn (waves plan)).

Fixpoint memZ (x : Z) (l : list Z) : bool :=
  match l with
  | [] => false
  | y :: l' => Z.eqb y x || memZ x l'
  end.

(** The times of [l] that are not in [seen], each at its first
    occurrence. *)
Fixpoint new_keys (seen l : list Z) : list Z :=
  match l with
  | [] => []
  | t :: l' =>
      if memZ t seen then new_keys seen l' else t :: new_keys (seen ++ [t]) l'
  end.

Definition first_occurrences (l : list Z) : list Z := new_keys [] l.

(** The bees that the calls create for time [t], in the order of their
    creation, when the first new object gets identity [start]. *)
Fixpoint bees_of_calls (t : Z) (start : nat) (calls : list (Z * Z))
  : list BeeId :=
  match calls with
  | [] => []
  | (t', count) :: calls' =>
      (if Z.eqb t' t then seq start (Z.to_nat count) else [])
        ++ bees_of_calls t (start + Z.to_nat count) calls'
  end.

Definition keys (d : list (Z * list BeeId)) : list Z := map fst d.

Lemma memZ_In x l : memZ x l = true <-> In x l.
Proof.
  induction l as [|y l IH]; simpl.
  - split; [discriminate | tauto].
  - rewrite orb_true_iff, Z.eqb_eq, IH. tauto.
Qed.

Lemma memZ_app x l1 l2 : memZ x (l1 ++ l2) = memZ x l1 || memZ x l2.
Proof.
  induction l1 as [|y l1 IH]; simpl; [reflexivity|].
  now rewrite IH, orb_assoc.
Qed.

Lemma new_bees_spec n armor w :
  exists w',
    new_bees n armor w = Ok (seq (fresh w) n) w'
    /\ fresh w' = (fresh w + n)%nat.
Proof.
  revert w. induction n as [|n IH]; intros w; simpl.
  - exists w. unfold ret. split; [reflexivity | lia].
  - unfold new_Bee. unfold_monad. simpl.
    match goal with
    | |- context [new_bees n armor ?w1] =>
        destruct (IH w1) as (w' & E & F); rewrite E
    end.
    exists w'. simpl in *. split; [reflexivity | lia].
Qed.

Lemma keys_extend_wave t bs d :
  keys (extend_wave t bs d) = if memZ t (keys d) then keys d else keys d ++ [t].
Proof.
  induction d as [|[t' wave] d IH]; simpl; [reflexivity|].
  destruct (Z.eqb_spec t' t); simpl; [reflexivity|].
  rewrite IH. now destruct (memZ t (keys d)).
Qed.

Lemma plan_get_extend_wave t bs d t' :
  plan_get t' (extend_wave t bs d)
  = plan_get t' d ++ (if Z.eqb t t' then bs else []).
Proof.
  induction d as [|[t0 wave] d IH]; simpl.
  - now destruct (Z.eqb t t').
  - destruct (Z.eqb_spec t0 t) as [->|Hne]; simpl.
    + destruct (Z.eqb_spec t t'); [reflexivity|].
      now rewrite app_nil_r.
    + destruct (Z.eqb_spec t0 t'); [|apply IH].
      destruct (Z.eqb_spec t t'); [congruence|].
      now rewrite app_nil_r.
Qed.

Lemma add_waves_spec calls :
  forall plan w,
  exists plan' w',
    add_waves plan calls w = Ok plan' w'
    /\ keys (waves plan') = keys (waves plan)
                            ++ new_keys (keys (waves plan)) (map fst calls)
    /\ forall t, plan_get t (waves plan')
                 = plan_get t (waves plan) ++ bees_of_calls t (fresh w) calls.
Proof.
  induction calls as [|[time count] calls IH]; intros plan w; simpl.
  - exists plan, w. unfold ret. repeat split.
    + now rewrite app_nil_r.
    + intros t. now rewrite app_nil_r.
  - unfold add_wave. unfold bind at 1 2.
    destruct (new_bees_spec (Z.to_nat count) (bee_armor plan) w)
      as (w1 & E & F).
    rewrite E. unfold ret at 1.
    match goal with
    | |- context [add_waves ?p calls w1] =>
        destruct (IH p w1) as (plan' & w' & E' & K & G)
    end.
    exists plan', w'. split; [exact E'|]. simpl in K, G. split.
    + rewrite K, keys_extend_wave.
      destruct (memZ time (keys (waves plan))); [reflexivity|].
      now rewrite <- app_assoc.
    + intros t. rewrite G, plan_get_extend_wave, F, <- app_assoc.
      reflexivity.
Qed.

Lemma NoDup_new_keys l : forall seen,
  NoDup seen -> NoDup (seen ++ new_keys seen l).
Proof.
  induction l as [|t l IH]; intros seen H; simpl.
  - now rewrite app_nil_r.
  - destruct (memZ t seen) eqn:E; [now apply IH|].
    replace (seen ++ t :: new_keys (seen ++ [t]) l)
      with ((seen ++ [t]) ++ new_keys (seen ++ [t]) l)
      by now rewrite <- app_assoc.
    apply IH. apply NoDup_app; [exact H | repeat constructor; intros [] | ].
    intros x Hx [<-|[]].
    apply memZ_In in Hx. congruence.
Qed.

Lemma plan_get_other t wave d t' :
  t <> t' -> plan_get t' ((t, wave) :: d) = plan_get t' d.
Proof. intros H. simpl. now destruct (Z.eqb_spec t t'). Qed.

Lemma flat_map_agree {A B} (f g : A -> list B) l :
  (forall a, In a l -> f a = g a) -> flat_map f l = flat_map g l.
Proof.
  induction l as [|x l IH]; intros H; simpl; [reflexivity|].
  rewrite (H x) by now left. f_equal. apply IH. intros a Ha. apply H. now right.
Qed.

Lemma flat_waves_by_key d :
  NoDup (keys d) ->
  flat_map (fun wave => snd wave) d = flat_map (fun t => plan_get t d) (keys d).
Proof.
  induction d as [|[t wave] d IH]; intros H; [reflexivity|].
  inversion H as [|? ? Hnotin Hnd]; subst.
  cbn [flat_map keys map fst snd]. f_equal.
  - simpl. now rewrite Z.eqb_refl.
  - rewrite (IH Hnd). apply flat_map_agree.
    intros t' Ht'. unfold keys in *. symmetry. apply plan_get_other.
    intros ->. contradiction.
Qed.

Lemma waves_by_turn_sorted d :
  StronglySorted Z.lt (keys d) -> waves_by_turn d = d.
Proof.
  induction d as [|[t wave] d IH]; intros H; [reflexivity|].
  inversion H as [|? ? Hs Hall]; subst.
  unfold waves_by_turn in *. cbn [fold_right]. rewrite (IH Hs).
  destruct d as [|[t' wave'] d]; [reflexivity|].
  cbn [insert_wave fst]. inversion Hall as [|? ? Hlt _]; subst.
  apply Z.ltb_lt in Hlt. now rewrite Hlt.
Qed.

(** C8, as the code has it.  After any sequence of [add_wave] calls on a
    new plan, the calls return normally; the waves of the plan are keyed by
    the times in the order of their first [add_wave] call (the insertion
    order of the dictionary, not the ascending order of the turn numbers);
    the wave of a time holds the bees created for it in the order of their
    creation; [all_bees] is the concatenation of the waves in the order of
    the keys, a list computed from the plan alone, so finite and the same
    at every call.  It is the sequence by ascending turn number when the
    keys happen to be ascending. *)
Theorem all_bees_in_insertion_order :
  forall calls armor w,
  exists plan w',
    add_waves (mkPlan [] armor) calls w = Ok plan w'
    /\ keys (waves plan) = first_occurrences (map fst calls)
    /\ (forall t, plan_get t (waves plan) = bees_of_calls t (fresh w) calls)
    /\ all_bees plan
       = flat_map (fun t => bees_of_calls t (fresh w) calls)
                  (first_occurrences (map fst calls))
    /\ (StronglySorted Z.lt (keys (waves plan)) ->
        all_bees plan = all_attackers_by_turn plan).
Proof.
  intros calls armor w.
  destruct (add_waves_spec calls (mkPlan [] armor) w)
    as (plan & w' & E & K & G).
  exists plan, w'. simpl in K, G.
  split; [exact E|]. split; [exact K|]. split; [exact G|]. split.
  - unfold all_bees. rewrite flat_waves_by_key.
    + rewrite K. apply flat_map_agree. intros t _. apply G.
    + rewrite K. apply (NoDup_new_keys (map fst calls) []). constructor.
  - intros Hs. unfold all_attackers_by_turn, all_bees.
    now rewrite waves_by_turn_sorted.
Qed.

Lemma all_bees_in_insertion_order_witness :
  exists plan w',
    add_waves (mkPlan [] 3) [(2, 1); (3, 1); (2, 2)] (initial_world (fun _ => O))
    = Ok plan w'
    /\ keys (waves plan) = [2; 3]
    /\ all_bees plan = [0; 2; 3; 1]%nat
    /\ StronglySorted Z.lt (keys (waves plan))
    /\ all_bees plan = all_attackers_by_turn plan.
Proof.
  destruct (all_bees_in_insertion_order [(2, 1); (3, 1); (2, 2)] 3
              (initial_world (fun _ => O)))
    as (plan & w' & E & K & G & A & S).
  exists plan, w'. split; [exact E|]. split; [exact K|]. split; [exact A|].
  assert (Hs : StronglySorted Z.lt (keys (waves plan))).
  { rewrite K. repeat constructor. }
  split; [exact Hs | exact (S Hs)].
Defined.

(** C8, as the specification states it, fails: a wave added for turn 3
    before a wave for turn 2 comes first in [all_bees]. *)
Lemma all_bees_not_by_ascending_turn :
  exists plan w',
    add_waves (mkPlan [] 3) [(3, 1); (2, 1)] (initial_world (fun _ => O))
    = Ok plan w'
    /\ waves plan = [(3, [0%nat]); (2, [1%nat])]
    /\ all_bees plan = [0; 1]%nat
    /\ all_attackers_by_turn plan = [1; 0]%nat
    /\ all_bees plan <> all_attackers_by_turn plan.
Proof.
  eexists. eexists. split; [reflexivity|].
  repeat split; try reflexivity. discriminate.
Qed.

(* ------------------------------------------------------------------ *)
(** ** Deploying without food, removing what is absent *)
(* ------------------------------------------------------------------ *)

Lemma mem_In x l : mem x l = true <-> In x l.
Proof.
  induction l as [|y l IH]; simpl.
  - split; [discriminate | tauto].
  - rewrite orb_true_iff, Nat.eqb_eq, IH. tauto.
Qed.

Lemma mem_not_In x l : mem x l = false <-> ~ In x l.
Proof.
  rewrite <- mem_In. destruct (mem x l); split; congruence.
Qed.

Lemma opt_eqb_true x y : opt_eqb x y = true <-> x = Some y.
Proof.
  destruct x as [x|]; simpl.
  - rewrite Nat.eqb_eq. split; congruence.
  - split; discriminate.
Qed.

Lemma opt_eqb_false x y : opt_eqb x y = false <-> x <> Some y.
Proof.
  rewrite <- opt_eqb_true. destruct (opt_eqb x y); split; congruence.
Qed.

(** C3, as the code has it.  When the registry knows [ant_type_name] and
    its food cost exceeds the food of the colony, [deploy_ant] prints
    ['Not enough food remains to place ...'] and returns normally: no
    exception is raised, no ant is constructed, and nothing but the
    output changes, so the food and every place (its ant and its bees) are
    as before. *)
Theorem deploy_without_food_changes_nothing :
  forall w place_name ant_type_name constructor,
    dict_get ant_type_name (ant_types w) = Some constructor ->
    food w < food_cost constructor ->
    AntColony_deploy_ant place_name ant_type_name w
    = Ok tt (with_out (out w ++ [NotEnoughFood ant_type_name]) w)
    /\ forall w', AntColony_deploy_ant place_name ant_type_name w = Ok tt w' ->
         food w' = food w
         /\ fresh w' = fresh w
         /\ number_of_queens w' = number_of_queens w
         /\ (forall p, place_at w' p = place_at w p)
         /\ (forall a, ant_at w' a = ant_at w a)
         /\ (forall b, bee_at w' b = bee_at w b).
Proof.
  intros w pn an c Hc Hf.
  assert (E : AntColony_deploy_ant pn an w
              = Ok tt (with_out (out w ++ [NotEnoughFood an]) w)).
  { unfold AntColony_deploy_ant. unfold_monad. rewrite Hc.
    apply Z.ltb_lt in Hf. now rewrite Hf. }
  split; [exact E|].
  intros w' H. rewrite E in H. inversion H. subst w'.
  repeat split.
Qed.

Lemma deploy_without_food_changes_nothing_witness :
  AntColony_deploy_ant "tunnel_0_0" "Thrower" (small_colony 2)
  = Ok tt (with_out (out (small_colony 2) ++ [NotEnoughFood "Thrower"])
                    (small_colony 2)).
Proof.
  apply (deploy_without_food_changes_nothing
           (small_colony 2) "tunnel_0_0" "Thrower" ThrowerAnt).
  - reflexivity.
  - reflexivity.
Defined.

(** C3, as the specification states it, fails: with 2 units of food, asking
    for a thrower (cost 4) raises no error of any kind. *)
Lemma deploy_without_food_raises_no_error :
  dict_get "Thrower" (ant_types (small_colony 2)) = Some ThrowerAnt
  /\ food (small_colony 2) < food_cost ThrowerAnt
  /\ ~ exists e w',
         AntColony_deploy_ant "tunnel_0_0" "Thrower" (small_colony 2)
         = Raise e w'.
Proof.
  split; [reflexivity|]. split; [reflexivity|].
  intros (e & w' & H). vm_compute in H. discriminate H.
Qed.

(** C4, as the code has it.  [remove_ant] on a place that holds no ant does
    nothing and returns normally.  [Place.remove_insect] fails for an
    insect that is not there: [ValueError] (from [list.remove]) for a bee
    that is not among the bees of the place, [AssertionError] for an ant
    that is not the ant of the place; the world is left as it was. *)
Theorem removal_of_absent_insect :
  forall w,
    (forall place_name p,
        dict_get place_name (places w) = Some p ->
        ant (place_at w p) = None ->
        AntColony_remove_ant place_name w = Ok tt w)
    /\ (forall p b,
           ~ In b (bees (place_at w p)) ->
           Place_remove_insect p (IBee b) w = Raise ValueError w)
    /\ (forall p a,
           ant (place_at w p) <> Some a ->
           Place_remove_insect p (IAnt a) w = Raise AssertionError w).
Proof.
  intros w. repeat split.
  - intros pn p Hp Ha. unfold AntColony_remove_ant. unfold_monad.
    now rewrite Hp, Ha.
  - intros p b H. apply mem_not_In in H.
    unfold Place_remove_insect. unfold_monad. now rewrite H.
  - intros p a H. apply opt_eqb_false in H.
    unfold Place_remove_insect. unfold_monad. now rewrite H.
Qed.

Lemma removal_of_absent_insect_witness :
  AntColony_remove_ant "tunnel_0_0" (small_colony 2) = Ok tt (small_colony 2)
  /\ Place_remove_insect 3%nat (IBee 0%nat) (small_colony 2)
     = Raise ValueError (small_colony 2)
  /\ Place_remove_insect 3%nat (IAnt 0%nat) (small_colony 2)
     = Raise AssertionError (small_colony 2).
Proof.
  destruct (removal_of_absent_insect (small_colony 2)) as (H1 & H2 & H3).
  split; [|split].
  - apply (H1 "tunnel_0_0" 4%nat); reflexivity.
  - apply H2. vm_compute. tauto.
  - apply H3. vm_compute. discriminate.
Defined.

(** C4, as the specification states it, fails in its first half: asking to
    remove the ant of a place that holds none raises nothing. *)
Lemma remove_ant_from_empty_place_raises_no_error :
  dict_get "tunnel_0_0" (places (small_colony 2)) = Some 4%nat
  /\ ant (place_at (small_colony 2) 4%nat) = None
  /\ ~ exists e w',
         AntColony_remove_ant "tunnel_0_0" (small_colony 2) = Raise e w'.
Proof.
  split; [reflexivity|]. split; [reflexivity|].
  intros (e & w' & H). vm_compute in H. discriminate H.
Qed.

(* ------------------------------------------------------------------ *)
(** ** Losing the last armor *)
(* ------------------------------------------------------------------ *)

(** The ants and the ant of every place are the same in two worlds. *)
Definition same_ants (w w' : World) : Prop :=
  (forall a, ant_at w' a = ant_at w a)
  /\ (forall p, ant (place_at w' p) = ant (place_at w p)).

Lemma In_remove_first x y l :
  x <> y -> (In x (remove_first y l) <-> In x l).
Proof.
  intros H. induction l as [|z l IH]; simpl; [tauto|].
  destruct (Nat.eqb_spec z y) as [->|Hne]; simpl.
  - split; [tauto | intros [E|E]; [congruence | exact E]].
  - rewrite IH. tauto.
Qed.

(** A bee that is among the bees of its place can always lose armor; the
    ants do not notice, nor do the other bees. *)
Lemma bee_reduce_armor_ok w b d q :
  b_place (bee_at w b) = Some q ->
  In b (bees (place_at w q)) ->
  exists w',
    Insect_reduce_armor (IBee b) d w = Ok tt w'
    /\ same_ants w w'
    /\ (forall b', b' <> b -> bee_at w' b' = bee_at w b')
    /\ (forall p b', b' <> b ->
          (In b' (bees (place_at w' p)) <-> In b' (bees (place_at w p)))).
Proof.
  intros Hq Hin. apply mem_In in Hin.
  unfold Insect_reduce_armor. msimp.
  destruct (b_armor (bee_at w b) - d <=? 0) eqn:E.
  - rewrite Hq. unfold Place_remove_insect. msimp. rewrite Hin. msimp.
    eexists. split; [reflexivity|]. cbn. unfold same_ants. cbn.
    repeat split.
    + intros p. unfold upd. destruct (Nat.eqb_spec p q) as [->|]; reflexivity.
    + intros b' Hb. now rewrite !upd_other.
    + unfold upd. destruct (Nat.eqb_spec p q) as [->|]; cbn; [|tauto].
      now apply In_remove_first.
    + unfold upd. destruct (Nat.eqb_spec p q) as [->|]; cbn; [|tauto].
      now apply In_remove_first.
  - eexists. split; [reflexivity|]. unfold same_ants. cbn.
    repeat split; try tauto.
    intros b' Hb. now rewrite upd_other.
Qed.

(** The loop of [FireAnt.reduce_armor] over bees that are where they say
    they are. *)
Lemma fire_loop_ok self : forall l w,
  NoDup l ->
  (forall b, In b l -> exists q, b_place (bee_at w b) = Some q
                                 /\ In b (bees (place_at w q))) ->
  exists w',
    for_each l (fun bee =>
      w <- get ;;
      Insect_reduce_armor (IBee bee) (a_damage (ant_at w self))) w
    = Ok tt w'
    /\ same_ants w w'.
Proof.
  induction l as [|b l IH]; intros w Hnd Hall.
  - exists w. split; [reflexivity|]. split; reflexivity.
  - inversion Hnd as [|? ? Hnotin Hnd']; subst.
    destruct (Hall b (or_introl eq_refl)) as (q & Hq & Hin).
    destruct (bee_reduce_armor_ok w b (a_damage (ant_at w self)) q Hq Hin)
      as (w1 & E1 & S1 & B1 & P1).
    destruct (IH w1 Hnd') as (w' & E' & S').
    { intros b' Hb'. assert (b' <> b) by (intros ->; contradiction).
      destruct (Hall b' (or_intror Hb')) as (q' & Hq' & Hin').
      exists q'. rewrite B1 by assumption. split; [exact Hq'|].
      now apply P1. }
    exists w'. split.
    + rewrite for_each_cons. unfold bind at 1. unfold get at 1.
      rewrite E1. exact E'.
    + destruct S1 as [A1 A2], S' as [A1' A2']. split; intros.
      * now rewrite A1', A1.
      * now rewrite A2', A2.
Qed.

Lemma AntClass_eqb_eq c d : AntClass_eqb c d = true <-> c = d.
Proof. destruct c, d; simpl; split; congruence. Qed.

(** The first [QueenAnt] ever constructed. *)
Definition true_queen (o : AntObj) : Prop :=
  cls o = QueenAnt /\ instance_num o = O.

Lemma true_queen_test o :
  AntClass_eqb (cls o) QueenAnt && Nat.eqb (instance_num o) 0 = true
  <-> true_queen o.
Proof.
  unfold true_queen. now rewrite andb_true_iff, AntClass_eqb_eq, Nat.eqb_eq.
Qed.

Lemma not_true_queen_test o :
  ~ true_queen o ->
  AntClass_eqb (cls o) QueenAnt && Nat.eqb (instance_num o) 0 = false.
Proof.
  intros H. destruct (_ && _) eqn:E; [|reflexivity].
  apply true_queen_test in E. contradiction.
Qed.

(** What [Place.remove_insect] leaves in the place of an ant. *)
Definition successor (o : AntObj) : option AntId :=
  if container (cls o) then a_ant o else None.

Lemma Place_remove_ant_ok w a p :
  ant (place_at w p) = Some a ->
  ~ true_queen (ant_at w a) ->
  exists w',
    Place_remove_insect p (IAnt a) w = Ok tt w'
    /\ ant (place_at w' p) = successor (ant_at w a)
    /\ ant_at w' a = set_a_place None (ant_at w a).
Proof.
  intros Hs Hq. unfold Place_remove_insect. msimp.
  rewrite Hs. cbn. rewrite Nat.eqb_refl.
  rewrite (not_true_queen_test _ Hq).
  unfold successor.
  destruct (container (cls (ant_at w a))); cbn;
    [destruct (a_ant (ant_at w a)); cbn|];
    msimp; eexists; (split; [reflexivity|]); cbn; rewrite !upd_same; cbn;
    split; reflexivity.
Qed.

Lemma Insect_reduce_armor_lethal w a p amount :
  a_place (ant_at w a) = Some p ->
  ant (place_at w p) = Some a ->
  ~ true_queen (ant_at w a) ->
  a_armor (ant_at w a) - amount <= 0 ->
  exists w',
    Insect_reduce_armor (IAnt a) amount w = Ok tt w'
    /\ ant (place_at w' p) = successor (ant_at w a)
    /\ ant_at w' a
       = set_a_place None (set_a_armor (a_armor (ant_at w a) - amount)
                                       (ant_at w a)).
Proof.
  intros Hp Hs Hq Hle. unfold Insect_reduce_armor. msimp.
  apply Z.leb_le in Hle. rewrite Hle, Hp.
  match goal with
  | |- context [Place_remove_insect p (IAnt a) ?w1] =>
      destruct (Place_remove_ant_ok w1 a p) as (w' & E & S & A)
  end.
  - exact Hs.
  - cbn. rewrite upd_same. exact Hq.
  - exists w'. split; [exact E|]. cbn in S, A. rewrite upd_same in S, A.
    split; [exact S | exact A].
Qed.

Lemma FireAnt_reduce_armor_lethal w a p amount :
  a_place (ant_at w a) = Some p ->
  ant (place_at w p) = Some a ->
  cls (ant_at w a) = FireAnt ->
  a_armor (ant_at w a) - amount <= 0 ->
  NoDup (bees (place_at w p)) ->
  (forall b, In b (bees (place_at w p)) -> b_place (bee_at w b) = Some p) ->
  exists w',
    FireAnt_reduce_armor a amount w = Ok tt w'
    /\ ant (place_at w' p) = None
    /\ ant_at w' a
       = set_a_place None (set_a_armor (a_armor (ant_at w a) - amount)
                                       (ant_at w a)).
Proof.
  intros Hp Hs Hc Hle Hnd Hb.
  pose (w1 := with_ants_at
                (upd (ant_at w) a
                     (set_a_armor (a_armor (ant_at w a) - amount) (ant_at w a)))
                w).
  destruct (fire_loop_ok a (bees (place_at w p)) w1 Hnd)
    as (w2 & E & S1 & S2).
  { intros b Hin. exists p. split; [exact (Hb b Hin) | exact Hin]. }
  unfold FireAnt_reduce_armor. unfold_monad. cbn. cbn in E.
  rewrite upd_same. cbn.
  apply Z.leb_le in Hle. rewrite Hle, Hp. fold w1.
  rewrite E.
  assert (A2 : ant_at w2 a
               = set_a_armor (a_armor (ant_at w a) - amount) (ant_at w a)).
  { rewrite S1. subst w1. cbn. now rewrite upd_same. }
  rewrite A2. cbn. rewrite Hp.
  destruct (Place_remove_ant_ok w2 a p) as (w' & E' & S' & A').
  - rewrite S2. exact Hs.
  - rewrite A2. unfold true_queen. cbn. rewrite Hc. intros [H _]. discriminate.
  - exists w'. split; [exact E'|]. rewrite A2 in S', A'.
    unfold successor in S'. cbn in S'. rewrite Hc in S'. cbn in S'.
    split; [exact S' | exact A'].
Qed.

(** C1, as the code has it.  Let an ant be the ant of its place (not an ant
    held by a bodyguard) and not the first queen ever constructed, and let
    the bees of that place be there once each and know their place.  If
    [reduce_armor] brings its armor to 0 or below, the call returns
    normally, the armor is what it was minus the amount, the ant is no
    longer the ant of the place (what it held takes its place if it was a
    bodyguard, otherwise nothing), and its own [place] is [None]. *)
Theorem lethal_damage_vacates_slot :
  forall w a p amount,
    a_place (ant_at w a) = Some p ->
    ant (place_at w p) = Some a ->
    ~ true_queen (ant_at w a) ->
    a_ant (ant_at w a) <> Some a ->
    a_armor (ant_at w a) - amount <= 0 ->
    NoDup (bees (place_at w p)) ->
    (forall b, In b (bees (place_at w p)) -> b_place (bee_at w b) = Some p) ->
    exists w',
      reduce_armor (IAnt a) amount w = Ok tt w'
      /\ a_armor (ant_at w' a) = a_armor (ant_at w a) - amount
      /\ ant (place_at w' p) = successor (ant_at w a)
      /\ ant (place_at w' p) <> Some a
      /\ a_place (ant_at w' a) = None.
Proof.
  intros w a p amount Hp Hs Hq Hself Hle Hnd Hb.
  assert (Hsucc : successor (ant_at w a) <> Some a).
  { unfold successor. destruct (container (cls (ant_at w a)));
      [exact Hself | discriminate]. }
  assert (D : cls (ant_at w a) = FireAnt \/ cls (ant_at w a) <> FireAnt).
  { destruct (cls (ant_at w a)); (now left) || (right; discriminate). }
  destruct D as [Hc|Hc].
  - destruct (FireAnt_reduce_armor_lethal w a p amount Hp Hs Hc Hle Hnd Hb)
      as (w' & E & S & A).
    exists w'. unfold reduce_armor. unfold bind, get. rewrite Hc.
    split; [exact E|]. rewrite A, S. cbn.
    unfold successor. rewrite Hc. cbn.
    repeat split. discriminate.
  - destruct (Insect_reduce_armor_lethal w a p amount Hp Hs Hq Hle)
      as (w' & E & S & A).
    exists w'. split.
    + unfold reduce_armor. unfold bind, get.
      destruct (cls (ant_at w a)); try exact E. contradiction.
    + rewrite A, S. cbn. repeat split. exact Hsucc.
Qed.

(** Test colonies with one ant deployed in the first place of the tunnel
    (place 4; the ant gets identity 7). *)
Definition thrower_world : World :=
  run (AntColony_deploy_ant "tunnel_0_0" "Thrower") (small_colony 10).

Definition queen_world : World :=
  run (AntColony_deploy_ant "tunnel_0_0" "Queen") (open_colony 3 1 20).

Lemma lethal_damage_vacates_slot_witness :
  exists w',
    reduce_armor (IAnt 7%nat) 1 thrower_world = Ok tt w'
    /\ ant (place_at thrower_world 4%nat) = Some 7%nat
    /\ ant (place_at w' 4%nat) <> Some 7%nat
    /\ a_place (ant_at w' 7%nat) = None.
Proof.
  destruct (lethal_damage_vacates_slot thrower_world 7%nat 4%nat 1)
    as (w' & E & _ & _ & S & P).
  - vm_compute. reflexivity.
  - vm_compute. reflexivity.
  - intros [H _]. vm_compute in H. discriminate H.
  - vm_compute. discriminate.
  - vm_compute. discriminate.
  - vm_compute. constructor.
  - intros b H. vm_compute in H. destruct H.
  - exists w'. split; [exact E|].
    split; [vm_compute; reflexivity|]. split; assumption.
Defined.

(** C1, as the specification states it, fails for the first queen: her
    armor drops to 0 and she is still the ant of her place, and her own
    [place] still names it. *)
Lemma first_queen_stays_after_lethal_damage :
  exists w',
    cls (ant_at queen_world 7%nat) = QueenAnt
    /\ a_place (ant_at queen_world 7%nat) = Some 4%nat
    /\ ant (place_at queen_world 4%nat) = Some 7%nat
    /\ reduce_armor (IAnt 7%nat) 1 queen_world = Ok tt w'
    /\ a_armor (ant_at w' 7%nat) = 0
    /\ ant (place_at w' 4%nat) = Some 7%nat
    /\ a_place (ant_at w' 7%nat) = Some 4%nat.
Proof.
  exists (run (reduce_armor (IAnt 7%nat) 1) queen_world).
  conj; by_compute.
Qed.

(* ------------------------------------------------------------------ *)
(** ** The first queen and the impostors *)
(* ------------------------------------------------------------------ *)

(** A queen gets the number of queens constructed before her; only the
    very first gets 0. *)
Lemma new_queen_number w :
  exists w',
    new_Ant QueenAnt w = Ok (fresh w) w'
    /\ instance_num (ant_at w' (fresh w)) = number_of_queens w
    /\ number_of_queens w' = S (number_of_queens w).
Proof.
  unfold new_Ant. msimp. eexists. split; [reflexivity|]. cbn.
  rewrite upd_same. split; reflexivity.
Qed.

(** [Place.remove_insect] leaves the first queen where she is. *)
Lemma first_queen_is_not_removed w a p :
  ant (place_at w p) = Some a ->
  true_queen (ant_at w a) ->
  Place_remove_insect p (IAnt a) w = Ok tt w.
Proof.
  intros Hs Hq. apply true_queen_test in Hq.
  unfold Place_remove_insect. msimp. rewrite Hs. cbn.
  now rewrite Nat.eqb_refl, Hq.
Qed.

(** An impostor that is the ant of its place dies when it acts. *)
Lemma impostor_in_slot_dies fuel w a p :
  cls (ant_at w a) = QueenAnt ->
  (0 < instance_num (ant_at w a))%nat ->
  a_place (ant_at w a) = Some p ->
  ant (place_at w p) = Some a ->
  exists w',
    QueenAnt_action fuel a w = Ok tt w'
    /\ a_armor (ant_at w' a) = 0
    /\ ant (place_at w' p) = None
    /\ a_place (ant_at w' a) = None.
Proof.
  intros Hc Hn Hp Hs.
  destruct (Insect_reduce_armor_lethal w a p (a_armor (ant_at w a)) Hp Hs)
    as (w' & E & S & A).
  - unfold true_queen. lia.
  - lia.
  - exists w'. unfold QueenAnt_action, reduce_armor. unfold bind, get.
    apply Nat.ltb_lt in Hn. rewrite Hn, Hc.
    split; [exact E|]. rewrite A, S. unfold successor. rewrite Hc. cbn.
    split; [lia|]. split; reflexivity.
Qed.

(** The failing case.  In a colony whose registry has the queen, a queen is
    deployed in the first place, a second queen in the second place, and a
    bodyguard on top of the second queen (ants 7, 8 and 9; place 5). *)
Definition guarded_impostor_world : World :=
  run (AntColony_deploy_ant "tunnel_0_0" "Queen" ;;
       AntColony_deploy_ant "tunnel_0_1" "Queen" ;;
       AntColony_deploy_ant "tunnel_0_1" "Bodyguard")
      (open_colony 3 1 20).

(** C6, the failing case evaluated.  The impostor held by the bodyguard
    acts when the bodyguard acts; its armor goes to 0, and then the
    assertion of [Place.remove_insect] fails: the action raises
    [AssertionError] and the impostor is still held by the bodyguard in
    its place. *)
Theorem guarded_impostor_is_not_removed :
  let w := guarded_impostor_world in
  instance_num (ant_at w 7%nat) = 0%nat
  /\ cls (ant_at w 8%nat) = QueenAnt
  /\ instance_num (ant_at w 8%nat) = 1%nat
  /\ ant (place_at w 5%nat) = Some 9%nat
  /\ cls (ant_at w 9%nat) = BodyguardAnt
  /\ a_ant (ant_at w 9%nat) = Some 8%nat
  /\ a_place (ant_at w 8%nat) = Some 5%nat
  /\ exists w',
       Ant_action 5 9%nat w = Raise AssertionError w'
       /\ a_armor (ant_at w' 8%nat) = 0
       /\ ant (place_at w' 5%nat) = Some 9%nat
       /\ a_ant (ant_at w' 9%nat) = Some 8%nat
       /\ a_place (ant_at w' 8%nat) = Some 5%nat.
Proof.
  cbv zeta. conj; try by_compute.
  exists (run (Ant_action 5 9%nat) guarded_impostor_world).
  conj; by_compute.
Qed.

(* ------------------------------------------------------------------ *)
(** ** [ThrowerAnt.nearest_bee] *)
(* ------------------------------------------------------------------ *)

(** The place [n] steps back along the entrances. *)
Fixpoint nth_entrance (w : World) (p : option PlaceId) (n : nat)
  : option PlaceId :=
  match n with
  | O => p
  | S n' =>
      match p with
      | Some q => nth_entrance w (entrance (place_at w q)) n'
      | None => None
      end
  end.

Definition in_range (c : AntClass) (distance : Z) : Prop :=
  min_range c <= distance <= max_range c.

Lemma in_range_test c d :
  (min_range c <=? d) && (d <=? max_range c) = true <-> in_range c d.
Proof.
  unfold in_range. rewrite andb_true_iff, !Z.leb_le. tauto.
Qed.

Lemma random_or_none_spec l w :
  exists r w',
    random_or_none l w = Ok r w'
    /\ place_at w' = place_at w /\ ant_at w' = ant_at w /\ bee_at w' = bee_at w
    /\ hive w' = hive w
    /\ match r with
       | Some b => In b l
       | None => l = []
       end.
Proof.
  destruct l as [|x l].
  - exists None, w. cbn. unfold ret. tauto.
  - unfold random_or_none, random_choice, bind, get, modify, ret.
    eexists. eexists. split; [reflexivity|].
    repeat (split; [reflexivity|]).
    apply nth_In. apply Nat.mod_upper_bound. discriminate.
Qed.

(** What the places before [n] steps look like when the search goes
    further than them: none is the hive, none in range has a bee. *)
Definition passed (w : World) (c : AntClass) (hv : PlaceId)
           (start : option PlaceId) (d : Z) (n : nat) : Prop :=
  forall m q, (m < n)%nat -> nth_entrance w start m = Some q ->
    q <> hv /\ (in_range c (d + Z.of_nat m) -> bees (place_at w q) = []).

Definition found (w : World) (c : AntClass) (hv : PlaceId)
           (start : option PlaceId) (d : Z) (r : option BeeId) : Prop :=
  match r with
  | Some b =>
      exists n p,
        nth_entrance w start n = Some p
        /\ p <> hv
        /\ in_range c (d + Z.of_nat n)
        /\ In b (bees (place_at w p))
        /\ passed w c hv start d n
  | None =>
      exists n,
        nth_entrance w start n = Some hv /\ passed w c hv start d n
  end.

Lemma passed_step w c hv p d n :
  p <> hv ->
  (in_range c d -> bees (place_at w p) = []) ->
  passed w c hv (entrance (place_at w p)) (d + 1) n ->
  passed w c hv (Some p) d (S n).
Proof.
  intros Hp Hb H m q Hm Hq. destruct m as [|m].
  - cbn in Hq. inversion Hq; subst q. split; [exact Hp|].
    rewrite Z.add_0_r. exact Hb.
  - cbn in Hq. destruct (H m q) as [H1 H2]; [lia | exact Hq |].
    split; [exact H1|]. intros Hr. apply H2.
    replace (d + 1 + Z.of_nat m) with (d + Z.of_nat (S m)) by lia. exact Hr.
Qed.

Lemma nearest_bee_loop_sound self hv : forall fuel w start d r w',
  nearest_bee_loop fuel self hv start d w = Ok r w' ->
  found w (cls (ant_at w self)) hv start d r
  /\ place_at w' = place_at w /\ ant_at w' = ant_at w /\ bee_at w' = bee_at w
  /\ hive w' = hive w.
Proof.
  induction fuel as [|fuel IH]; intros w start d r w' H; [discriminate|].
  cbn [nearest_bee_loop] in H. destruct start as [p|]; [|discriminate].
  destruct (Nat.eqb_spec p hv) as [->|Hne].
  - unfold ret in H. inversion H; subst. split; [|repeat split].
    cbn [found]. exists O. split; [reflexivity|]. intros m q Hm. lia.
  - unfold bind, get in H.
    destruct ((min_range (cls (ant_at w self)) <=? d)
              && (d <=? max_range (cls (ant_at w self)))) eqn:Er.
    + apply in_range_test in Er.
      destruct (bees (place_at w p)) as [|b0 l] eqn:Eb.
      * cbn [andb] in H. apply IH in H. destruct H as [F K].
        split; [|exact K]. destruct r as [b|]; cbn in F |- *.
        -- destruct F as (n & q & Hn & Hq & Hr & Hin & Hp).
           exists (S n), q. cbn [nth_entrance].
           split; [exact Hn|]. split; [exact Hq|].
           split; [replace (d + Z.of_nat (S n)) with (d + 1 + Z.of_nat n)
                     by lia; exact Hr|].
           split; [exact Hin|]. apply passed_step; auto.
        -- destruct F as (n & Hn & Hp).
           exists (S n). split; [exact Hn|]. apply passed_step; auto.
      * cbn [andb] in H.
        destruct (random_or_none_spec (b0 :: l) w)
          as (r0 & w0 & E & K1 & K2 & K3 & K4 & Hr0).
        rewrite E in H. inversion H; subst r0 w0.
        split; [|repeat split; assumption].
        destruct r as [b|]; [|discriminate Hr0].
        cbn [found]. exists O, p. cbn [nth_entrance]. rewrite Z.add_0_r, Eb.
        split; [reflexivity|]. split; [exact Hne|]. split; [exact Er|].
        split; [exact Hr0|]. intros m q Hm. lia.
    + cbn [andb] in H. apply IH in H. destruct H as [F K].
      assert (Hnot : in_range (cls (ant_at w self)) d ->
                     bees (place_at w p) = []).
      { intros Hr. apply in_range_test in Hr. congruence. }
      split; [|exact K]. destruct r as [b|]; cbn in F |- *.
      * destruct F as (n & q & Hn & Hq & Hr & Hin & Hp).
        exists (S n), q. cbn [nth_entrance].
        split; [exact Hn|]. split; [exact Hq|].
        split; [replace (d + Z.of_nat (S n)) with (d + 1 + Z.of_nat n)
                  by lia; exact Hr|].
        split; [exact Hin|]. apply passed_step; auto.
      * destruct F as (n & Hn & Hp).
        exists (S n). split; [exact Hn|]. apply passed_step; auto.
Qed.

Lemma nearest_bee_loop_total self hv : forall k fuel w start d,
  nth_entrance w start k = Some hv ->
  (k < fuel)%nat ->
  exists r w', nearest_bee_loop fuel self hv start d w = Ok r w'.
Proof.
  induction k as [|k IH]; intros fuel w start d Hk Hf;
    (destruct fuel as [|fuel]; [lia|]); cbn [nearest_bee_loop].
  - cbn in Hk. subst start. rewrite Nat.eqb_refl. eexists. eexists.
    reflexivity.
  - cbn in Hk. destruct start as [p|]; [|discriminate].
    destruct (Nat.eqb p hv); [eexists; eexists; reflexivity|].
    unfold bind, get.
    destruct (_ && _).
    + destruct (random_or_none_spec (bees (place_at w p)) w)
        as (r & w' & E & _). eauto.
    + apply IH; [exact Hk | lia].
Qed.

(** No place up to [n] steps back is the hive. *)
Definition before_hive (w : World) (start : option PlaceId) (n : nat) : Prop :=
  forall m q, (m <= n)%nat -> nth_entrance w start m = Some q -> q <> hive w.

(** C7.  When the entrances lead from the place of a thrower to the hive
    in [k] steps, [nearest_bee] returns (given more than [k] iterations).
    A bee it returns is among the bees of a place [n] steps back along the
    entrances, before the hive, with [min_range <= n <= max_range] for the
    class of the thrower, so [n <= 2] for a [ShortThrower] and [4 <= n] for
    a [LongThrower]; no nearer place in range has a bee.  When no place in
    range before the hive has a bee, it returns [None]. *)
Theorem nearest_bee_is_in_range :
  forall fuel w self k,
    nth_entrance w (a_place (ant_at w self)) k = Some (hive w) ->
    (k < fuel)%nat ->
    exists r w',
      ThrowerAnt_nearest_bee fuel self (hive w) w = Ok r w'
      /\ (forall b, r = Some b ->
            exists n p,
              nth_entrance w (a_place (ant_at w self)) n = Some p
              /\ before_hive w (a_place (ant_at w self)) n
              /\ In b (bees (place_at w p))
              /\ min_range (cls (ant_at w self)) <= Z.of_nat n
                 <= max_range (cls (ant_at w self))
              /\ (cls (ant_at w self) = ShortThrower -> (n <= 2)%nat)
              /\ (cls (ant_at w self) = LongThrower -> (4 <= n)%nat)
              /\ (forall m q, (m < n)%nat ->
                    nth_entrance w (a_place (ant_at w self)) m = Some q ->
                    in_range (cls (ant_at w self)) (Z.of_nat m) ->
                    bees (place_at w q) = []))
      /\ ((forall n p,
              nth_entrance w (a_place (ant_at w self)) n = Some p ->
              before_hive w (a_place (ant_at w self)) n ->
              in_range (cls (ant_at w self)) (Z.of_nat n) ->
              bees (place_at w p) = []) ->
          r = None).
Proof.
  intros fuel w self k Hk Hf.
  destruct (nearest_bee_loop_total self (hive w) k fuel w
              (a_place (ant_at w self)) 0 Hk Hf) as (r & w' & E).
  exists r, w'. unfold ThrowerAnt_nearest_bee. unfold bind, get.
  split; [exact E|].
  apply nearest_bee_loop_sound in E. destruct E as [F _].
  assert (G : forall b, r = Some b ->
            exists n p,
              nth_entrance w (a_place (ant_at w self)) n = Some p
              /\ before_hive w (a_place (ant_at w self)) n
              /\ In b (bees (place_at w p))
              /\ in_range (cls (ant_at w self)) (Z.of_nat n)
              /\ passed w (cls (ant_at w self)) (hive w)
                        (a_place (ant_at w self)) 0 n).
  { intros b ->. cbn [found] in F.
    destruct F as (n & p & Hn & Hp & Hr & Hin & Hpass).
    exists n, p. split; [exact Hn|]. split; [|auto].
    intros m q Hm Hq. destruct (Nat.eq_dec m n) as [->|Hne].
    - rewrite Hn in Hq. inversion Hq; subst q. exact Hp.
    - apply (Hpass m q); [lia | exact Hq]. }
  split.
  - intros b Hb. destruct (G b Hb) as (n & p & Hn & Hbh & Hin & Hr & Hpass).
    exists n, p. unfold in_range in Hr.
    split; [exact Hn|]. split; [exact Hbh|]. split; [exact Hin|].
    split; [exact Hr|]. split; [|split].
    + intros Hc. rewrite Hc in Hr. cbn in Hr. lia.
    + intros Hc. rewrite Hc in Hr. cbn in Hr. lia.
    + intros m q Hm Hq Hrm. apply (Hpass m q Hm Hq). exact Hrm.
  - intros Hnone. destruct r as [b|]; [|reflexivity].
    destruct (G b eq_refl) as (n & p & Hn & Hbh & Hin & Hr & _).
    rewrite (Hnone n p Hn Hbh Hr) in Hin. destruct Hin.
Qed.

(** A short thrower in the first place of the tunnel (ant 7, place 4) and
    a bee moved into the third (bee 0, place 6). *)
Definition short_thrower_world : World :=
  run (AntColony_deploy_ant "tunnel_0_0" "Short" ;;
       Bee_move_to 0%nat (Some 6%nat))
      (small_colony 10).

Lemma nearest_bee_is_in_range_witness :
  nth_entrance short_thrower_world
               (a_place (ant_at short_thrower_world 7%nat)) 3
  = Some (hive short_thrower_world)
  /\ exists r w',
       ThrowerAnt_nearest_bee 4 7%nat (hive short_thrower_world)
                              short_thrower_world = Ok r w'.
Proof.
  split; [by_compute|].
  destruct (nearest_bee_is_in_range 4 short_thrower_world 7%nat 3)
    as (r & w' & E & _).
  - by_compute.
  - lia.
  - exists r, w'. exact E.
Defined.

Example short_thrower_finds_bee :
  exists w',
    ThrowerAnt_nearest_bee 4 7%nat (hive short_thrower_world)
                           short_thrower_world = Ok (Some 0%nat) w'.
Proof.
  exists (run (ThrowerAnt_nearest_bee 4 7%nat (hive short_thrower_world))
              short_thrower_world).
  by_compute.
Qed.

(* ------------------------------------------------------------------ *)
(** ** What a call leaves alone *)
(* ------------------------------------------------------------------ *)

(** A relation between the world before and the world after that holds
    across sequences of calls. *)
Class Frame (R : World -> World -> Prop) : Prop := {
  frame_refl : forall w, R w w;
  frame_trans : forall w1 w2 w3, R w1 w2 -> R w2 w3 -> R w1 w3
}.

(** [m] relates the world it starts from to the world it ends in, whether
    it returns or raises. *)
Definition keeps (R : World -> World -> Prop) {A} (m : M A) : Prop :=
  forall w,
    match m w with
    | Ok _ w' => R w w'
    | Raise _ w' => R w w'
    | OutOfFuel => True
    end.

Section Keeps.
Context (R : World -> World -> Prop) `{Frame R}.

Lemma keeps_ret {A} (a : A) : keeps R (ret a).
Proof. intros w. apply frame_refl. Qed.

Lemma keeps_raise {A} e : keeps R (@raise A e).
Proof. intros w. apply frame_refl. Qed.

Lemma keeps_get : keeps R get.
Proof. intros w. apply frame_refl. Qed.

Lemma keeps_out_of_fuel {A} : keeps R (fun _ => @OutOfFuel A).
Proof. intros w. exact I. Qed.

Lemma keeps_modify f : (forall w, R w (f w)) -> keeps R (modify f).
Proof. intros Hf w. apply Hf. Qed.

Lemma keeps_bind {A B} (m : M A) (k : A -> M B) :
  keeps R m -> (forall a, keeps R (k a)) -> keeps R (bind m k).
Proof.
  intros Hm Hk w. unfold bind. specialize (Hm w).
  destruct (m w) as [a w1|e w1|]; [|exact Hm|exact I].
  specialize (Hk a w1).
  destruct (k a w1) as [b w2|e w2|]; [| |exact I];
    eapply frame_trans; eassumption.
Qed.

Lemma keeps_for_each {A} (l : list A) (body : A -> M unit) :
  (forall x, keeps R (body x)) -> keeps R (for_each l body).
Proof.
  intros Hb. induction l as [|x l IH].
  - apply keeps_ret.
  - change (for_each (x :: l) body)
      with (bind (body x) (fun _ => for_each l body)).
    apply keeps_bind; [apply Hb | intros _; exact IH].
Qed.

Lemma keeps_ok {A} (m : M A) w a w' : keeps R m -> m w = Ok a w' -> R w w'.
Proof. intros Hm E. specialize (Hm w). now rewrite E in Hm. Qed.

Lemma keeps_final {A} (m : M A) w : keeps R m -> R w (run m w).
Proof.
  intros Hm. specialize (Hm w). unfold run, final_world.
  destruct (m w); [exact Hm | exact Hm | apply frame_refl].
Qed.
End Keeps.

(** The structural steps of a proof that a method keeps a relation;
    [leaf] closes the goals about single writes. *)
Ltac keeps_step leaf :=
  match goal with
  | |- keeps _ (bind _ _) =>
      apply keeps_bind; [typeclasses eauto | | intros]
  | |- keeps _ (ret _) => apply keeps_ret; typeclasses eauto
  | |- keeps _ (raise _) => apply keeps_raise; typeclasses eauto
  | |- keeps _ get => apply keeps_get; typeclasses eauto
  | |- keeps _ (fun _ => OutOfFuel) => apply keeps_out_of_fuel
  | |- keeps _ (for_each _ _) =>
      apply keeps_for_each; [typeclasses eauto | intros]
  | |- keeps _ (modify _) => apply keeps_modify; intros; leaf
  | |- keeps _ (match ?x with _ => _ end) => destruct x
  | |- keeps _ (if ?x then _ else _) => destruct x
  | |- keeps _ _ => solve [eauto with keeps]
  end.

Ltac keeps_unfold :=
  progress unfold print, write_place, write_ant, write_bee, set_armor,
    set_place, at_place, contain_ant, add_insect_at.

Ltac keeps_tac leaf := repeat first [keeps_unfold | keeps_step leaf].

Create HintDb keeps.

(** *** The layout of the colony

    The class, name, links and plan of every place, and the attributes of
    the colony that [configure] sets once. *)
Definition links (o : PlaceObj) :=
  (pclass o, name o, exit o, entrance o, assault_plan o).

Definition layout_of (w : World) :=
  (places w, hive w, bee_entrances w, ant_types w).

Definition static (w w' : World) : Prop :=
  (forall p, links (place_at w' p) = links (place_at w p))
  /\ layout_of w' = layout_of w.

#[export] Instance static_frame : Frame static.
Proof.
  split.
  - intros w. split; reflexivity.
  - intros w1 w2 w3 [A1 B1] [A2 B2]. split.
    + intros p. now rewrite A2, A1.
    + now rewrite B2, B1.
Qed.

Ltac static_leaf :=
  split; [|reflexivity]; intros ?p; cbn; unfold upd;
  match goal with
  | |- context [Nat.eqb ?a ?b] =>
      destruct (Nat.eqb_spec a b); subst; reflexivity
  | _ => reflexivity
  end.

Ltac static_tac := keeps_tac static_leaf.

Lemma static_Place_add_insect p i : keeps static (Place_add_insect p i).
Proof. unfold Place_add_insect. destruct i; static_tac. Qed.

Lemma static_Place_remove_insect p i : keeps static (Place_remove_insect p i).
Proof. unfold Place_remove_insect. destruct i; static_tac. Qed.
#[export] Hint Resolve static_Place_add_insect static_Place_remove_insect : keeps.

Lemma static_Insect_reduce_armor i d : keeps static (Insect_reduce_armor i d).
Proof. unfold Insect_reduce_armor. destruct i; static_tac. Qed.
#[export] Hint Resolve static_Insect_reduce_armor : keeps.

Lemma static_FireAnt_reduce_armor a d : keeps static (FireAnt_reduce_armor a d).
Proof. unfold FireAnt_reduce_armor. static_tac. Qed.
#[export] Hint Resolve static_FireAnt_reduce_armor : keeps.

Lemma static_reduce_armor i d : keeps static (reduce_armor i d).
Proof. unfold reduce_armor. destruct i; static_tac. Qed.
#[export] Hint Resolve static_reduce_armor : keeps.

Lemma static_add_insect p i : keeps static (add_insect p i).
Proof. unfold add_insect, Water_add_insect. static_tac. Qed.
#[export] Hint Resolve static_add_insect : keeps.

Lemma static_Bee_move_to b p : keeps static (Bee_move_to b p).
Proof. unfold Bee_move_to. static_tac. Qed.
#[export] Hint Resolve static_Bee_move_to : keeps.

Lemma static_Bee_action b : keeps static (Bee_action b).
Proof. unfold Bee_action, Bee_blocked, Bee_sting. static_tac. Qed.
#[export] Hint Resolve static_Bee_action : keeps.

Lemma static_random_choice l : keeps static (random_choice l).
Proof. unfold random_choice. static_tac. Qed.
#[export] Hint Resolve static_random_choice : keeps.

Lemma static_random_or_none l : keeps static (random_or_none l).
Proof. unfold random_or_none. static_tac. Qed.
#[export] Hint Resolve static_random_or_none : keeps.

Lemma static_nearest_bee_loop self hv : forall fuel start d,
  keeps static (nearest_bee_loop fuel self hv start d).
Proof.
  induction fuel as [|fuel IH]; intros start d; cbn [nearest_bee_loop];
    static_tac.
Qed.
#[export] Hint Resolve static_nearest_bee_loop : keeps.

Lemma static_throw_at a t : keeps static (throw_at a t).
Proof.
  unfold throw_at, ThrowerAnt_throw_at, SlowThrower_throw_at, apply_effect.
  static_tac.
Qed.
#[export] Hint Resolve static_throw_at : keeps.

Lemma static_ThrowerAnt_action fuel a : keeps static (ThrowerAnt_action fuel a).
Proof. unfold ThrowerAnt_action, ThrowerAnt_nearest_bee. static_tac. Qed.
#[export] Hint Resolve static_ThrowerAnt_action : keeps.

Lemma static_double_one q a : keeps static (double_one q a).
Proof. unfold double_one. static_tac. Qed.
#[export] Hint Resolve static_double_one : keeps.

Lemma static_walk_forward q : forall fuel cur,
  keeps static (walk_forward fuel q cur).
Proof.
  induction fuel as [|fuel IH]; intros [c|]; cbn [walk_forward];
    unfold QueenAnt_double_damage; static_tac.
Qed.
#[export] Hint Resolve static_walk_forward : keeps.

Lemma static_QueenAnt_action fuel a : keeps static (QueenAnt_action fuel a).
Proof. unfold QueenAnt_action. static_tac. Qed.
#[export] Hint Resolve static_QueenAnt_action : keeps.

Lemma static_Ant_action : forall fuel a, keeps static (Ant_action fuel a).
Proof.
  induction fuel as [|fuel IH]; intros a; cbn [Ant_action].
  - apply keeps_out_of_fuel.
  - unfold HarvesterAnt_action, NinjaAnt_action, HungryAnt_action,
      HungryAnt_eat_bee, BodyguardAnt_action.
    static_tac.
Qed.
#[export] Hint Resolve static_Ant_action : keeps.

Lemma static_new_Ant c : keeps static (new_Ant c).
Proof. unfold new_Ant. static_tac. Qed.
#[export] Hint Resolve static_new_Ant : keeps.

Lemma static_deploy_ant pn an : keeps static (AntColony_deploy_ant pn an).
Proof. unfold AntColony_deploy_ant. static_tac. Qed.

Lemma static_remove_ant pn : keeps static (AntColony_remove_ant pn).
Proof. unfold AntColony_remove_ant. static_tac. Qed.
#[export] Hint Resolve static_deploy_ant static_remove_ant : keeps.

Lemma static_Hive_strategy h : keeps static (Hive_strategy h).
Proof. unfold Hive_strategy. static_tac. Qed.
#[export] Hint Resolve static_Hive_strategy : keeps.

Lemma static_queen_bees : keeps static queen_bees.
Proof. unfold queen_bees. static_tac. Qed.
#[export] Hint Resolve static_queen_bees : keeps.

Lemma static_simulate strategy :
  keeps static strategy ->
  forall fuel, keeps static (AntColony_simulate fuel strategy).
Proof.
  intros Hs. induction fuel as [|fuel IH]; cbn [AntColony_simulate];
    static_tac.
Qed.

(* ------------------------------------------------------------------ *)
(** ** The hive is a place of the colony *)
(* ------------------------------------------------------------------ *)

Lemma bind_Ok_inv {A B} (m : M A) (k : A -> M B) w b w' :
  bind m k w = Ok b w' ->
  exists a w1, m w = Ok a w1 /\ k a w1 = Ok b w'.
Proof.
  unfold bind. destruct (m w) as [a w1|e w1|]; try discriminate. eauto.
Qed.

Lemma registered_bees_count w p b :
  In p (dict_values (places w)) ->
  In b (bees (place_at w p)) ->
  In b (AntColony_bees w).
Proof.
  intros Hp Hb. unfold AntColony_bees. apply in_flat_map. eauto.
Qed.

Lemma no_bees_anywhere w p :
  AntColony_bees w = [] ->
  In p (dict_values (places w)) ->
  bees (place_at w p) = [].
Proof.
  intros He Hp. destruct (bees (place_at w p)) as [|b l] eqn:Eb; [reflexivity|].
  assert (Hin : In b (AntColony_bees w)).
  { apply (registered_bees_count w p b Hp). rewrite Eb. now left. }
  rewrite He in Hin. destruct Hin.
Qed.

Lemma simulate_won_no_bees strategy : forall fuel w w',
  AntColony_simulate fuel strategy w = Ok won w' ->
  AntColony_bees w' = [].
Proof.
  induction fuel as [|fuel IH]; intros w w' H; cbn [AntColony_simulate] in H;
    apply bind_Ok_inv in H; destruct H as (qb & w1 & _ & H);
    apply bind_Ok_inv in H; destruct H as (w2 & w3 & E & H);
    unfold get in E; inversion E; subst w2 w3; clear E;
    destruct qb as [|b0 qb];
    try (unfold print, bind, modify, ret in H; discriminate H);
    destruct (AntColony_bees w1) as [|b1 l] eqn:Eb;
    try (unfold print, bind, modify, ret in H; inversion H; subst w';
         exact Eb);
    try discriminate H.
  repeat (apply bind_Ok_inv in H; destruct H as (? & ? & _ & H)).
  exact (IH _ _ H).
Qed.

(** [new_Hive] puts every bee of the plan in the hive. *)
Lemma hive_loop_bees h : forall l w,
  exists w',
    for_each l (fun bee => Place_add_insect h (IBee bee)) w = Ok tt w'
    /\ bees (place_at w' h) = bees (place_at w h) ++ l
    /\ (forall b, In b l -> b_place (bee_at w' b) = Some h)
    /\ (forall b, ~ In b l -> bee_at w' b = bee_at w b).
Proof.
  induction l as [|b l IH]; intros w.
  - exists w. rewrite app_nil_r. repeat split. intros b [].
  - rewrite for_each_cons. unfold Place_add_insect at 1. msimp.
    match goal with
    | |- context [for_each l _ ?w1] =>
        destruct (IH w1) as (w' & E & B & P & Q)
    end.
    exists w'. split; [exact E|]. cbn in B, Q. rewrite upd_same in B.
    cbn in B. split; [now rewrite B, <- app_assoc|]. split.
    + intros b' [<-|Hb']; [|now apply P].
      destruct (in_dec Nat.eq_dec b l) as [Hin|Hnot]; [now apply P|].
      rewrite (Q b Hnot), upd_same. reflexivity.
    + intros b' Hb'. rewrite Q by (intros Hin; apply Hb'; now right).
      apply upd_other. intros ->. apply Hb'. now left.
Qed.

Lemma new_Hive_holds_all_bees plan w :
  exists w',
    new_Hive plan w = Ok (fresh w) w'
    /\ name (place_at w' (fresh w)) = "Hive"
    /\ bees (place_at w' (fresh w)) = all_bees plan
    /\ forall b, In b (all_bees plan) -> b_place (bee_at w' b) = Some (fresh w).
Proof.
  unfold new_Hive. unfold bind at 1 2 3. unfold get at 1. unfold modify at 1.
  match goal with
  | |- context [for_each _ _ ?w1] =>
      destruct (hive_loop_bees (fresh w) (all_bees plan) w1)
        as (w' & E & B & P & Q)
  end.
  rewrite E. exists w'. split; [reflexivity|].
  cbn in B. rewrite upd_same in B. cbn in B.
  assert (S : static (with_fresh (S (fresh w))
                (with_places_at
                   (upd (place_at w) (fresh w)
                      (mkPlace Hive "Hive" None [] None None plan)) w)) w').
  { eapply keeps_ok; [|exact E]. apply keeps_for_each; [typeclasses eauto|].
    intros b. apply static_Place_add_insect. }
  destruct S as [S _]. specialize (S (fresh w)). cbn in S.
  rewrite upd_same in S. unfold links in S. cbn in S.
  split; [congruence|]. split; [exact B | exact P].
Qed.

(** When the strategy leaves the layout of the colony alone and the hive
    is one of the registered places: bees in the hive are among
    [colony.bees], so the condition of the [while] loop of [simulate] holds
    as long as the queen is safe and the hive is not empty; and when
    [simulate] ends with the win, the hive is still registered and holds
    no bee. *)
Lemma hive_empty_at_the_win :
  forall fuel strategy w,
    keeps static strategy ->
    In (hive w) (dict_values (places w)) ->
    (forall b, In b (bees (place_at w (hive w))) -> In b (AntColony_bees w))
    /\ (bees (place_at w (hive w)) <> [] -> AntColony_bees w <> [])
    /\ forall w',
         AntColony_simulate fuel strategy w = Ok won w' ->
         In (hive w') (dict_values (places w'))
         /\ bees (place_at w' (hive w')) = []
         /\ AntColony_bees w' = [].
Proof.
  intros fuel strategy w Hs Hh. split; [|split].
  - intros b. apply registered_bees_count. exact Hh.
  - intros Hne He. apply Hne. now apply no_bees_anywhere.
  - intros w' H.
    assert (S : static w w').
    { eapply keeps_ok; [|exact H]. now apply static_simulate. }
    destruct S as [_ L]. unfold layout_of in L. inversion L as [[L1 L2 L3 L4]].
    assert (Hh' : In (hive w') (dict_values (places w'))).
    { now rewrite L1, L2. }
    pose proof (simulate_won_no_bees strategy fuel w w' H) as He.
    split; [exact Hh'|]. split; [|exact He].
    now apply no_bees_anywhere.
Qed.

(** A colony whose assault plan has no wave. *)
Definition peaceful_colony : World :=
  run (start_colony (ret empty_plan) implemented_types (mixed_layout 3 1 0) 2)
      (initial_world (fun _ => O)).

(* ------------------------------------------------------------------ *)
(** ** The queen doubles each ant once *)
(* ------------------------------------------------------------------ *)

Definition doubled (w : World) (q : AntId) : list AntId :=
  doubled_ants (ant_at w q).

(** Between [w] and [w'] every ant has kept its class and its number, and
    it has kept its damage, or its damage has been doubled and it has been
    entered in the list [doubled_ants] of queen [q], where it was not
    before. *)
Definition kind (o : AntObj) := (cls o, instance_num o).

Definition once (q : AntId) (w w' : World) : Prop :=
  (forall a, kind (ant_at w' a) = kind (ant_at w a))
  /\ forall a,
       (a_damage (ant_at w' a) = a_damage (ant_at w a)
        /\ (In a (doubled w' q) <-> In a (doubled w q)))
       \/ (~ In a (doubled w q)
           /\ In a (doubled w' q)
           /\ a <> q
           /\ a_damage (ant_at w' a) = 2 * a_damage (ant_at w a)).

#[export] Instance once_frame q : Frame (once q).
Proof.
  split.
  - intros w. split; [reflexivity|]. intros a. left. tauto.
  - intros w1 w2 w3 [K12 H12] [K23 H23]. split.
    + intros a. now rewrite K23, K12.
    + intros a.
      destruct (H12 a) as [[D1 I1]|(N1 & I1 & Q1 & D1)],
               (H23 a) as [[D2 I2]|(N2 & I2 & Q2 & D2)].
      * left. split; [congruence | tauto].
      * right. repeat split; try tauto. congruence.
      * right. repeat split; try tauto. congruence.
      * contradiction.
Qed.

(** Everything but the damage of the ants and the lists of doubled ants
    is the same in [w] and [w']. *)
Definition undamaged (o : AntObj) : AntObj :=
  set_a_damage 0 (set_doubled_ants [] o).

Definition shape (w w' : World) : Prop :=
  (forall p, place_at w' p = place_at w p)
  /\ (forall b, bee_at w' b = bee_at w b)
  /\ hive w' = hive w
  /\ (forall a, undamaged (ant_at w' a) = undamaged (ant_at w a)).

#[export] Instance shape_frame : Frame shape.
Proof.
  split.
  - intros w. repeat split.
  - intros w1 w2 w3 (A1 & B1 & C1 & D1) (A2 & B2 & C2 & D2).
    repeat split; intros; congruence.
Qed.

Ltac once_cases :=
  unfold doubled, kind; cbn; unfold upd;
  repeat match goal with
         | |- context [Nat.eqb ?x ?y] => destruct (Nat.eqb_spec x y); subst
         end;
  cbn.

Ltac once_leaf :=
  split; intros ?a; [once_cases; reflexivity|];
  left; once_cases; split; (reflexivity || tauto).

Ltac once_tac := keeps_tac once_leaf.

Lemma once_double_one q a : keeps (once q) (double_one q a).
Proof.
  intros w. unfold double_one. unfold_monad.
  destruct (mem a (doubled_ants (ant_at w q))) eqn:Em; cbn;
    [apply frame_refl|].
  destruct (Nat.eqb_spec a q) as [->|Hne]; cbn; [apply frame_refl|].
  apply mem_not_In in Em. split; intros x.
  - once_cases; try reflexivity; congruence.
  - unfold doubled. cbn. unfold upd.
    rewrite Nat.eqb_refl.
    destruct (Nat.eqb_spec q a) as [E|_]; [congruence|].
    destruct (Nat.eqb_spec x q) as [->|Hq]; cbn.
    + left. split; [reflexivity|]. rewrite in_app_iff. cbn.
      intuition congruence.
    + destruct (Nat.eqb_spec x a) as [->|Ha]; cbn.
      * right. split; [exact Em|].
        split; [|split; [exact Hne | rewrite Z.mul_comm; reflexivity]].
        apply in_or_app. right. now left.
      * left. split; [reflexivity|]. rewrite in_app_iff. cbn.
        intuition congruence.
Qed.
#[export] Hint Resolve once_double_one : keeps.

Lemma once_Place_remove_insect q p i : keeps (once q) (Place_remove_insect p i).
Proof. unfold Place_remove_insect. destruct i; once_tac. Qed.
#[export] Hint Resolve once_Place_remove_insect : keeps.

Lemma once_Place_add_insect q p i : keeps (once q) (Place_add_insect p i).
Proof. unfold Place_add_insect. destruct i; once_tac. Qed.
#[export] Hint Resolve once_Place_add_insect : keeps.

Lemma once_Insect_reduce_armor q i d : keeps (once q) (Insect_reduce_armor i d).
Proof. unfold Insect_reduce_armor. destruct i; once_tac. Qed.
#[export] Hint Resolve once_Insect_reduce_armor : keeps.

Lemma once_reduce_armor q i d : keeps (once q) (reduce_armor i d).
Proof. unfold reduce_armor, FireAnt_reduce_armor. destruct i; once_tac. Qed.
#[export] Hint Resolve once_reduce_armor : keeps.

Lemma once_add_insect q p i : keeps (once q) (add_insect p i).
Proof. unfold add_insect, Water_add_insect. once_tac. Qed.
#[export] Hint Resolve once_add_insect : keeps.

Lemma once_Bee_action q b : keeps (once q) (Bee_action b).
Proof.
  unfold Bee_action, Bee_blocked, Bee_sting, Bee_move_to. once_tac.
Qed.
#[export] Hint Resolve once_Bee_action : keeps.

Lemma once_random_or_none q l : keeps (once q) (random_or_none l).
Proof. unfold random_or_none, random_choice. once_tac. Qed.
#[export] Hint Resolve once_random_or_none : keeps.

Lemma once_nearest_bee_loop q self hv : forall fuel start d,
  keeps (once q) (nearest_bee_loop fuel self hv start d).
Proof.
  induction fuel as [|fuel IH]; intros start d; cbn [nearest_bee_loop];
    once_tac.
Qed.
#[export] Hint Resolve once_nearest_bee_loop : keeps.

Lemma once_ThrowerAnt_action q fuel a : keeps (once q) (ThrowerAnt_action fuel a).
Proof.
  unfold ThrowerAnt_action, ThrowerAnt_nearest_bee, throw_at,
    ThrowerAnt_throw_at, SlowThrower_throw_at, apply_effect.
  once_tac.
Qed.
#[export] Hint Resolve once_ThrowerAnt_action : keeps.

Lemma once_walk_forward q : forall fuel cur,
  keeps (once q) (walk_forward fuel q cur).
Proof.
  induction fuel as [|fuel IH]; intros [c|]; cbn [walk_forward];
    unfold QueenAnt_double_damage; once_tac.
Qed.
#[export] Hint Resolve once_walk_forward : keeps.

Lemma once_QueenAnt_action q fuel : keeps (once q) (QueenAnt_action fuel q).
Proof. unfold QueenAnt_action. once_tac. Qed.

(** What an outcome says about the world it ends in. *)
Definition ends_with {A} (o : outcome A) (P : World -> Prop) : Prop :=
  match o with
  | Ok _ w' => P w'
  | Raise _ w' => P w'
  | OutOfFuel => True
  end.

Lemma keeps_ends_with R {A} (m : M A) w : keeps R m -> ends_with (m w) (R w).
Proof. intros H. specialize (H w). unfold ends_with. now destruct (m w). Qed.

(** No other ant than [q] is the first queen. *)
Definition only_queen (q : AntId) (w : World) : Prop :=
  forall x, true_queen (ant_at w x) -> x = q.

Lemma only_queen_once q w w' : once q w w' -> only_queen q w -> only_queen q w'.
Proof.
  intros [K _] H x Hx. apply H. unfold true_queen in *.
  specialize (K x). unfold kind in K. inversion K. congruence.
Qed.

Lemma once_impostor_action q fuel a w :
  (0 < instance_num (ant_at w a))%nat ->
  ends_with (QueenAnt_action fuel a w) (once q w).
Proof.
  intros Hn. unfold QueenAnt_action. unfold bind at 1. unfold get at 1.
  apply Nat.ltb_lt in Hn. rewrite Hn.
  apply keeps_ends_with. apply once_reduce_armor.
Qed.

Lemma once_Ant_action q : forall fuel a w,
  only_queen q w ->
  ends_with (Ant_action fuel a w) (once q w).
Proof.
  induction fuel as [|fuel IH]; intros a w Hq; [exact I|].
  cbn [Ant_action]. unfold bind at 1. unfold get at 1.
  destruct (cls (ant_at w a)) eqn:Ec;
    try solve [apply keeps_ends_with;
               unfold HarvesterAnt_action, NinjaAnt_action, HungryAnt_action,
                 HungryAnt_eat_bee;
               once_tac].
  - unfold BodyguardAnt_action. unfold bind at 1. unfold get at 1.
    destruct (a_ant (ant_at w a)) as [inner|].
    + apply IH. exact Hq.
    + unfold ret, ends_with. apply frame_refl.
  - destruct (instance_num (ant_at w a)) as [|n] eqn:En.
    + assert (a = q) as -> by (apply Hq; split; assumption).
      apply keeps_ends_with. apply once_QueenAnt_action.
    + apply once_impostor_action. lia.
Qed.

(** The action of an insect. *)
Definition act (fuel : nat) (i : Insect) : M unit :=
  match i with
  | IAnt a => Ant_action fuel a
  | IBee b => Bee_action b
  end.

Lemma once_actions q fuel : forall actors w,
  only_queen q w ->
  ends_with (for_each actors (act fuel) w) (once q w).
Proof.
  induction actors as [|i actors IH]; intros w Hq.
  - rewrite for_each_nil. unfold ends_with. apply frame_refl.
  - rewrite for_each_cons.
    assert (H1 : ends_with (act fuel i w) (once q w)).
    { destruct i as [a|b]; cbn [act].
      - now apply once_Ant_action.
      - apply keeps_ends_with. apply once_Bee_action. }
    destruct (act fuel i w) as [[] w1|e w1|]; cbn in H1 |- *;
      [|exact H1|exact I].
    specialize (IH w1 (only_queen_once q w w1 H1 Hq)).
    destruct (for_each actors (act fuel) w1) as [[] w2|e w2|]; cbn in IH |- *;
      try exact I; eapply frame_trans; eassumption.
Qed.

(** However many insects act, in whatever order and however often the
    queen among them, every ant ends with the damage it had or with twice
    that damage; in the second case it was not in [doubled_ants] of the
    queen before and is there now.  An ant that is in the list keeps its
    damage.  The queen [q] is the only ant whose class is [QueenAnt] and
    whose number is 0. *)
Theorem each_ant_is_doubled_at_most_once :
  forall q fuel actors w,
    only_queen q w ->
    ends_with (for_each actors (act fuel) w) (fun w' =>
      forall a,
        (In a (doubled w q) ->
         a_damage (ant_at w' a) = a_damage (ant_at w a))
        /\ (a_damage (ant_at w' a) = a_damage (ant_at w a)
            \/ (~ In a (doubled w q) /\ In a (doubled w' q) /\ a <> q
                /\ a_damage (ant_at w' a) = 2 * a_damage (ant_at w a)))).
Proof.
  intros q fuel actors w Hq.
  pose proof (once_actions q fuel actors w Hq) as H.
  destruct (for_each actors (act fuel) w) as [[] w'|e w'|]; cbn in H |- *;
    try exact I; destruct H as [_ H]; intros a;
    (destruct (H a) as [[D _]|(N & M & Q & D)];
     [split; [intros _; exact D | left; exact D]
     |split; [intros Hin; contradiction | right; tauto]]).
Qed.


(** A queen in the middle of the tunnel, a thrower in front of her and a
    bodyguard holding a fire ant behind her (ants 7 to 10 in places 5, 4
    and 6). *)
Definition doubling_world : World :=
  run (AntColony_deploy_ant "tunnel_0_1" "Queen" ;;
       AntColony_deploy_ant "tunnel_0_0" "Thrower" ;;
       AntColony_deploy_ant "tunnel_0_2" "Bodyguard" ;;
       AntColony_deploy_ant "tunnel_0_2" "Fire")
      (open_colony 3 1 30).

Lemma only_queen_doubling_world : only_queen 7%nat doubling_world.
Proof.
  intros x [Hc _].
  do 11 (destruct x as [|x];
         [vm_compute in Hc; first [discriminate Hc | reflexivity]|]).
  vm_compute in Hc. discriminate Hc.
Qed.

Lemma each_ant_is_doubled_at_most_once_witness :
  only_queen 7%nat doubling_world
  /\ ends_with
       (for_each [IAnt 7%nat; IAnt 8%nat; IBee 0%nat; IAnt 7%nat]
                 (act 10) doubling_world)
       (fun w' =>
          a_damage (ant_at w' 8%nat) = a_damage (ant_at doubling_world 8%nat)
          \/ (~ In 8%nat (doubled doubling_world 7%nat)
              /\ In 8%nat (doubled w' 7%nat) /\ 8%nat <> 7%nat
              /\ a_damage (ant_at w' 8%nat)
                 = 2 * a_damage (ant_at doubling_world 8%nat))).
Proof.
  split; [exact only_queen_doubling_world|].
  pose proof (each_ant_is_doubled_at_most_once 7%nat 10
                [IAnt 7%nat; IAnt 8%nat; IBee 0%nat; IAnt 7%nat]
                doubling_world only_queen_doubling_world) as H.
  set (o := for_each [IAnt 7%nat; IAnt 8%nat; IBee 0%nat; IAnt 7%nat]
                     (act 10) doubling_world) in *.
  clearbody o.
  destruct o as [u w'|e w'|]; cbn [ends_with] in *.
  - exact (proj2 (H 8%nat)).
  - exact (proj2 (H 8%nat)).
  - exact I.
Defined.

Example queen_acts_twice_thrower_doubled_once :
  let w' := run (for_each [IAnt 7%nat; IAnt 8%nat; IBee 0%nat; IAnt 7%nat]
                          (act 10)) doubling_world in
  a_damage (ant_at doubling_world 8%nat) = 1
  /\ a_damage (ant_at w' 8%nat) = 2
  /\ a_damage (ant_at w' 10%nat) = 6
  /\ a_damage (ant_at w' 7%nat) = 1
  /\ doubled w' 7%nat = [10; 9; 8]%nat.
Proof. cbv zeta. conj; by_compute. Qed.

(** *** Every ant on the way is doubled *)

Ltac shape_leaf :=
  repeat split; intros; cbn; unfold upd, undamaged;
  repeat match goal with
         | |- context [Nat.eqb ?x ?y] => destruct (Nat.eqb_spec x y); subst
         end;
  reflexivity.

Ltac shape_tac := keeps_tac shape_leaf.

Lemma shape_double_one q a : keeps shape (double_one q a).
Proof. unfold double_one. shape_tac. Qed.
#[export] Hint Resolve shape_double_one : keeps.

Lemma shape_QueenAnt_double_damage q a : keeps shape (QueenAnt_double_damage q a).
Proof. unfold QueenAnt_double_damage. shape_tac. Qed.
#[export] Hint Resolve shape_QueenAnt_double_damage : keeps.

Lemma once_QueenAnt_double_damage q a :
  keeps (once q) (QueenAnt_double_damage q a).
Proof. unfold QueenAnt_double_damage. once_tac. Qed.

Lemma shape_cls w w' a : shape w w' -> cls (ant_at w' a) = cls (ant_at w a).
Proof.
  intros (_ & _ & _ & H). specialize (H a). unfold undamaged in H.
  now inversion H.
Qed.

Lemma shape_a_ant w w' a : shape w w' -> a_ant (ant_at w' a) = a_ant (ant_at w a).
Proof.
  intros (_ & _ & _ & H). specialize (H a). unfold undamaged in H.
  now inversion H.
Qed.

Lemma shape_a_place w w' a :
  shape w w' -> a_place (ant_at w' a) = a_place (ant_at w a).
Proof.
  intros (_ & _ & _ & H). specialize (H a). unfold undamaged in H.
  now inversion H.
Qed.

Lemma once_grows q w w' a : once q w w' -> In a (doubled w q) -> In a (doubled w' q).
Proof.
  intros [_ H] Hin. destruct (H a) as [[_ I]|(N & _)]; [tauto | contradiction].
Qed.

(** [double_damage] always returns, and leaves the ant in the list unless
    it is the queen herself. *)
Lemma double_one_enters q a w :
  exists w',
    double_one q a w = Ok tt w' /\ (In a (doubled w' q) \/ a = q).
Proof.
  unfold double_one. unfold_monad.
  destruct (mem a (doubled_ants (ant_at w q))) eqn:Em; cbn.
  - exists w. split; [reflexivity|]. left. now apply mem_In.
  - destruct (Nat.eqb_spec a q) as [->|Hne]; cbn.
    + exists w. split; [reflexivity|]. now right.
    + eexists. split; [reflexivity|]. left. unfold doubled. cbn.
      rewrite upd_same. cbn. apply in_or_app. right. now left.
Qed.

(** The ants that the queen meets in a place: its ant, and the ant held
    by it when it is a bodyguard. *)
Definition meets (w : World) (p : PlaceId) (a : AntId) : Prop :=
  ant (place_at w p) = Some a
  \/ exists g,
       ant (place_at w p) = Some g
       /\ container (cls (ant_at w g)) = true
       /\ a_ant (ant_at w g) = Some a.

Lemma QueenAnt_double_damage_enters q g w :
  exists w',
    QueenAnt_double_damage q g w = Ok tt w'
    /\ (In g (doubled w' q) \/ g = q)
    /\ forall a,
         container (cls (ant_at w g)) = true ->
         a_ant (ant_at w g) = Some a ->
         In a (doubled w' q) \/ a = q.
Proof.
  unfold QueenAnt_double_damage. unfold bind at 1 2. unfold get at 1.
  destruct (container (cls (ant_at w g))) eqn:Ec;
    [destruct (a_ant (ant_at w g)) as [inner|] eqn:Ea|].
  - destruct (double_one_enters q inner w) as (w1 & E1 & H1). rewrite E1.
    destruct (double_one_enters q g w1) as (w2 & E2 & H2).
    exists w2. split; [exact E2|]. split; [exact H2|].
    intros a _ Ha. inversion Ha; subst a.
    destruct H1 as [H1|H1]; [left|now right].
    eapply once_grows; [|exact H1].
    eapply keeps_ok; [apply once_double_one | exact E2].
  - unfold ret at 1. destruct (double_one_enters q g w) as (w2 & E2 & H2).
    exists w2. split; [exact E2|]. split; [exact H2|]. discriminate.
  - unfold ret at 1. destruct (double_one_enters q g w) as (w2 & E2 & H2).
    exists w2. split; [exact E2|]. split; [exact H2|]. discriminate.
Qed.

(** The places from [cur] along the exits. *)
Inductive on_exit_path (w : World) : option PlaceId -> PlaceId -> Prop :=
| path_here c : on_exit_path w (Some c) c
| path_later c p :
    on_exit_path w (exit (place_at w c)) p -> on_exit_path w (Some c) p.

Lemma on_exit_path_shape w w' cur p :
  shape w w' -> on_exit_path w cur p -> on_exit_path w' cur p.
Proof.
  intros S H. induction H as [c|c p H IH]; [constructor|].
  apply path_later. destruct S as (Sp & _). now rewrite Sp.
Qed.

Lemma meets_shape w w' p a : shape w w' -> meets w p a -> meets w' p a.
Proof.
  intros S [H|(g & Hg & Hc & Ha)]; pose proof S as (Sp & _).
  - left. now rewrite Sp.
  - right. exists g. rewrite Sp, (shape_cls w w' g S), (shape_a_ant w w' g S).
    auto.
Qed.

Lemma shape_sym w w' : shape w w' -> shape w' w.
Proof.
  intros (A & B & C & D). repeat split; intros; symmetry; auto.
Qed.

Lemma walk_forward_covers q : forall fuel cur w w',
  walk_forward fuel q cur w = Ok tt w' ->
  shape w w' /\ once q w w'
  /\ forall p a, on_exit_path w cur p -> meets w p a ->
                 In a (doubled w' q) \/ a = q.
Proof.
  induction fuel as [|fuel IH]; intros cur w w' H.
  - destruct cur as [c|]; [discriminate H|]. cbn in H. unfold ret in H.
    inversion H; subst w'. split; [apply frame_refl|].
    split; [apply frame_refl|]. intros p a Hp. inversion Hp.
  - destruct cur as [c|].
    2:{ cbn in H. unfold ret in H. inversion H; subst w'.
        split; [apply frame_refl|]. split; [apply frame_refl|].
        intros p a Hp. inversion Hp. }
    cbn [walk_forward] in H. unfold bind at 1 in H. unfold get at 1 in H.
    apply bind_Ok_inv in H. destruct H as ([] & w1 & E1 & H).
    unfold bind at 1 in H. unfold get at 1 in H.
    assert (S1 : shape w w1 /\ once q w w1
                 /\ forall a, meets w c a -> In a (doubled w1 q) \/ a = q).
    { destruct (ant (place_at w c)) as [g|] eqn:Eg.
      - destruct (QueenAnt_double_damage_enters q g w) as (w1' & E & Hg & Hi).
        rewrite E in E1. inversion E1; subst w1'.
        split; [eapply keeps_ok; [apply shape_QueenAnt_double_damage|exact E]|].
        split; [eapply keeps_ok; [apply once_QueenAnt_double_damage|exact E]|].
        intros a [Ha|(g' & Hg' & Hc & Ha)].
        + rewrite Eg in Ha. inversion Ha; subst a. exact Hg.
        + rewrite Eg in Hg'. inversion Hg'; subst g'. now apply Hi.
      - unfold ret in E1. inversion E1; subst w1.
        split; [apply frame_refl|]. split; [apply frame_refl|].
        intros a [Ha|(g' & Hg' & _)]; rewrite Eg in *; discriminate. }
    destruct S1 as (Sh1 & On1 & M1).
    apply IH in H. destruct H as (Sh2 & On2 & M2).
    split; [eapply frame_trans; eassumption|].
    split; [eapply frame_trans; eassumption|].
    intros p a Hp Hm. inversion Hp; subst.
    + destruct (M1 a Hm) as [Hin|Hq]; [left|now right].
      eapply once_grows; eassumption.
    + apply (M2 p a).
      * pose proof Sh1 as (Sp & _). rewrite Sp.
        eapply on_exit_path_shape; eassumption.
      * eapply meets_shape; eassumption.
Qed.

Lemma walk_back_ext w1 w2 :
  (forall p, place_at w2 p = place_at w1 p) -> hive w2 = hive w1 ->
  forall fuel p, walk_back fuel w2 p = walk_back fuel w1 p.
Proof.
  intros Hp Hh. induction fuel as [|fuel IH]; intros p; [reflexivity|].
  cbn [walk_back]. rewrite Hp, Hh.
  destruct (entrance (place_at w1 p)) as [e|]; [|reflexivity].
  destruct (Nat.eqb e (hive w1)); [reflexivity | apply IH].
Qed.

(** The first thing the first queen does when she acts: [colony.queen]
    becomes a [QueenPlace], unless it is one already. *)
Definition crowned (w : World) (q : AntId) : World :=
  match queen w with
  | QPlace p => with_queen (QueenPlace p (a_place (ant_at w q))) w
  | QueenPlace _ _ => w
  end.

Lemma crowned_shape w q : shape w (crowned w q).
Proof. unfold crowned. destruct (queen w); repeat split. Qed.

Lemma crowned_once w q : once q w (crowned w q).
Proof.
  unfold crowned. destruct (queen w); [|apply frame_refl].
  split; [reflexivity|]. intros a. left. unfold doubled. cbn. tauto.
Qed.

Lemma true_queen_action fuel q w p0 :
  true_queen (ant_at w q) ->
  a_place (ant_at w q) = Some p0 ->
  QueenAnt_action fuel q w
  = match walk_back fuel w p0 with
    | Some c =>
        (walk_forward fuel q (Some c) ;; ThrowerAnt_action fuel q) (crowned w q)
    | None => OutOfFuel
    end.
Proof.
  intros [_ Hn] Hp. unfold QueenAnt_action.
  unfold bind at 1. unfold get at 1. rewrite Hn. cbn [Nat.ltb Nat.leb].
  assert (E : (match queen w with
               | QPlace p =>
                   modify (with_queen (QueenPlace p (a_place (ant_at w q))))
               | QueenPlace _ _ => ret tt
               end) w = Ok tt (crowned w q)).
  { unfold crowned. destruct (queen w); reflexivity. }
  unfold bind at 1. rewrite E.
  unfold bind at 1. unfold get at 1. unfold at_place.
  assert (Ep : place (crowned w q) (IAnt q) = Some p0).
  { cbn. rewrite (shape_a_place w _ q (crowned_shape w q)). exact Hp. }
  rewrite Ep.
  pose proof (crowned_shape w q) as (Sp & _ & Sh & _).
  rewrite (walk_back_ext w (crowned w q) Sp Sh).
  unfold bind at 1.
  destruct (walk_back fuel w p0) as [c|]; reflexivity.
Qed.

(** When the first queen has acted, every ant she met on her way (the ant
    of each place from the start of her tunnel along the exits, and the
    ant held by it when it is a bodyguard), other than herself and not
    doubled before, has twice the damage it had, both when she throws her
    leaf and at the end; her own damage is unchanged; and the end of her
    action is the action of a [ThrowerAnt]. *)
Theorem queen_doubles_every_ant_on_her_way :
  forall fuel q w w' p0,
    true_queen (ant_at w q) ->
    a_place (ant_at w q) = Some p0 ->
    QueenAnt_action fuel q w = Ok tt w' ->
    exists c w1,
      walk_back fuel w p0 = Some c
      /\ walk_forward fuel q (Some c) (crowned w q) = Ok tt w1
      /\ ThrowerAnt_action fuel q w1 = Ok tt w'
      /\ a_damage (ant_at w' q) = a_damage (ant_at w q)
      /\ forall p a,
           on_exit_path w (Some c) p -> meets w p a ->
           a <> q -> ~ In a (doubled w q) ->
           a_damage (ant_at w1 a) = 2 * a_damage (ant_at w a)
           /\ a_damage (ant_at w' a) = 2 * a_damage (ant_at w a)
           /\ In a (doubled w' q).
Proof.
  intros fuel q w w' p0 Hq Hp H.
  rewrite (true_queen_action fuel q w p0 Hq Hp) in H.
  destruct (walk_back fuel w p0) as [c|]; [|discriminate H].
  apply bind_Ok_inv in H. destruct H as ([] & w1 & E1 & E2).
  exists c, w1. split; [reflexivity|]. split; [exact E1|]. split; [exact E2|].
  destruct (walk_forward_covers q fuel (Some c) _ _ E1) as (Sh & On & Cov).
  assert (On1 : once q w w1).
  { eapply frame_trans; [apply crowned_once | exact On]. }
  assert (On2 : once q w1 w').
  { eapply keeps_ok; [apply once_ThrowerAnt_action | exact E2]. }
  assert (On' : once q w w') by (eapply frame_trans; eassumption).
  split.
  - destruct On' as [_ On']. destruct (On' q) as [[D _]|(_ & _ & N & _)];
      [exact D | congruence].
  - intros p a Hpath Hm Ha Hnot.
    assert (Hin1 : In a (doubled w1 q)).
    { destruct (Cov p a) as [Hin|Heq]; [| |exact Hin|contradiction].
      - eapply on_exit_path_shape; [apply crowned_shape | exact Hpath].
      - eapply meets_shape; [apply crowned_shape | exact Hm]. }
    assert (Hin' : In a (doubled w' q))
      by exact (once_grows q w1 w' a On2 Hin1).
    destruct On1 as [_ On1], On' as [_ On'].
    destruct (On1 a) as [[_ I1]|(_ & _ & _ & D1)]; [tauto|].
    destruct (On' a) as [[_ I2]|(_ & _ & _ & D2)]; [tauto|].
    auto.
Qed.

Lemma true_queen_doubling_world : true_queen (ant_at doubling_world 7%nat).
Proof. split; by_compute. Qed.

Lemma queen_doubles_every_ant_on_her_way_witness :
  true_queen (ant_at doubling_world 7%nat)
  /\ a_place (ant_at doubling_world 7%nat) = Some 5%nat
  /\ exists w',
       QueenAnt_action 10 7%nat doubling_world = Ok tt w'
       /\ exists c w1,
            walk_back 10 doubling_world 5%nat = Some c
            /\ ThrowerAnt_action 10 7%nat w1 = Ok tt w'
            /\ a_damage (ant_at w' 7%nat)
               = a_damage (ant_at doubling_world 7%nat).
Proof.
  assert (Hp : a_place (ant_at doubling_world 7%nat) = Some 5%nat)
    by by_compute.
  split; [exact true_queen_doubling_world|]. split; [exact Hp|].
  exists (run (QueenAnt_action 10 7%nat) doubling_world).
  assert (E : QueenAnt_action 10 7%nat doubling_world
              = Ok tt (run (QueenAnt_action 10 7%nat) doubling_world))
    by by_compute.
  split; [exact E|].
  destruct (queen_doubles_every_ant_on_her_way
              10 7%nat doubling_world _ 5%nat
              true_queen_doubling_world Hp E)
    as (c & w1 & Hc & _ & Ht & Hd & _).
  exists c, w1. split; [exact Hc|]. split; [exact Ht | exact Hd].
Defined.

(** *** The queen's action returns *)

(** The place [n] steps along the exits. *)
Fixpoint nth_exit (w : World) (p : option PlaceId) (n : nat) : option PlaceId :=
  match n with
  | O => p
  | S n' =>
      match p with
      | Some q => nth_exit w (exit (place_at w q)) n'
      | None => None
      end
  end.

Lemma nth_exit_shape w w' : shape w w' ->
  forall n p, nth_exit w' p n = nth_exit w p n.
Proof.
  intros (Sp & _). induction n as [|n IH]; intros p; [reflexivity|].
  cbn. destruct p as [c|]; [|reflexivity]. now rewrite Sp, IH.
Qed.

Lemma nth_entrance_ext w w' :
  (forall p, place_at w' p = place_at w p) ->
  forall n p, nth_entrance w' p n = nth_entrance w p n.
Proof.
  intros Sp. induction n as [|n IH]; intros p; [reflexivity|].
  cbn. destruct p as [c|]; [|reflexivity]. now rewrite Sp, IH.
Qed.

Lemma nth_exit_None w n : nth_exit w None n = None.
Proof. destruct n; reflexivity. Qed.

Lemma walk_back_total w : forall k fuel p,
  nth_entrance w (Some p) k = Some (hive w) ->
  (1 <= k <= fuel)%nat ->
  exists c, walk_back fuel w p = Some c.
Proof.
  induction k as [|k IH]; intros fuel p Hk Hf; [lia|].
  destruct fuel as [|fuel]; [lia|]. cbn [walk_back]. cbn in Hk.
  destruct (entrance (place_at w p)) as [e|]; [|eauto].
  destruct (Nat.eqb_spec e (hive w)) as [->|Hne]; [eauto|].
  apply (IH fuel e Hk). destruct k as [|k]; [|lia].
  cbn in Hk. congruence.
Qed.

Lemma walk_forward_total q : forall m fuel cur w,
  nth_exit w cur m = None ->
  (m <= fuel)%nat ->
  exists w', walk_forward fuel q cur w = Ok tt w'.
Proof.
  induction m as [|m IH]; intros fuel cur w Hm Hf.
  - cbn in Hm. subst cur. destruct fuel; cbn; unfold ret; eauto.
  - destruct cur as [c|]; [|destruct fuel; cbn; unfold ret; eauto].
    destruct fuel as [|fuel]; [lia|]. cbn [walk_forward].
    unfold bind at 1. unfold get at 1.
    assert (S1 : exists w1,
               (match ant (place_at w c) with
                | Some a => QueenAnt_double_damage q a
                | None => ret tt
                end) w = Ok tt w1 /\ shape w w1).
    { destruct (ant (place_at w c)) as [g|].
      - destruct (QueenAnt_double_damage_enters q g w) as (w1 & E & _).
        exists w1. split; [exact E|].
        eapply keeps_ok; [apply shape_QueenAnt_double_damage | exact E].
      - exists w. split; [reflexivity | apply frame_refl]. }
    destruct S1 as (w1 & E1 & Sh). unfold bind at 1. rewrite E1.
    unfold bind at 1. unfold get at 1.
    apply IH; [|lia]. rewrite (nth_exit_shape w w1 Sh).
    pose proof Sh as (Sp & _). rewrite Sp. exact Hm.
Qed.

(** Every bee that a place lists has that place as its [place]. *)
Definition bees_in_place (w : World) : Prop :=
  forall p b, In b (bees (place_at w p)) -> b_place (bee_at w b) = Some p.

Lemma ThrowerAnt_action_total fuel a w k :
  nth_entrance w (a_place (ant_at w a)) k = Some (hive w) ->
  (k < fuel)%nat ->
  bees_in_place w ->
  exists w', ThrowerAnt_action fuel a w = Ok tt w'.
Proof.
  intros Hk Hf Hb. unfold ThrowerAnt_action. unfold bind at 1. unfold get at 1.
  unfold ThrowerAnt_nearest_bee. unfold bind at 2. unfold get at 1.
  destruct (nearest_bee_loop_total a (hive w) k fuel w
              (a_place (ant_at w a)) 0 Hk Hf) as (r & w0 & E).
  unfold bind at 1. rewrite E.
  apply nearest_bee_loop_sound in E. destruct E as (F & Ep & Ea & Eb & _).
  unfold throw_at. unfold bind at 1. unfold get at 1.
  assert (T : exists w', ThrowerAnt_throw_at a r w0 = Ok tt w').
  { destruct r as [b|]; [|cbn; unfold ret; eauto].
    cbn [found] in F. destruct F as (n & p & _ & _ & _ & Hin & _).
    unfold ThrowerAnt_throw_at. unfold bind at 1. unfold get at 1.
    unfold reduce_armor.
    destruct (bee_reduce_armor_ok w0 b (a_damage (ant_at w0 a)) p)
      as (w' & E' & _).
    - rewrite Eb. apply Hb. exact Hin.
    - rewrite Ep. exact Hin.
    - eauto. }
  destruct (cls (ant_at w0 a)); try exact T;
    unfold SlowThrower_throw_at, apply_effect, ret; destruct r; eauto.
Qed.

(** The action of the first queen returns when the entrances lead from
    her place to the hive in [k] steps, the exits from any place end within
    [m] steps, the bees are where their places say, and the loops may
    iterate more than [k] and [m] times. *)
Theorem queen_action_returns :
  forall fuel q w p0 k m,
    true_queen (ant_at w q) ->
    a_place (ant_at w q) = Some p0 ->
    nth_entrance w (Some p0) k = Some (hive w) ->
    (forall p, nth_exit w (Some p) m = None) ->
    bees_in_place w ->
    (1 <= k < fuel)%nat -> (m <= fuel)%nat ->
    exists w', QueenAnt_action fuel q w = Ok tt w'.
Proof.
  intros fuel q w p0 k m Hq Hp Hk Hm Hb Hfk Hfm.
  rewrite (true_queen_action fuel q w p0 Hq Hp).
  destruct (walk_back_total w k fuel p0 Hk) as (c & Ec); [lia|].
  rewrite Ec.
  pose proof (crowned_shape w q) as Sh0.
  destruct (walk_forward_total q m fuel (Some c) (crowned w q)) as (w1 & E1).
  { rewrite (nth_exit_shape w _ Sh0). apply Hm. }
  { exact Hfm. }
  unfold bind. rewrite E1.
  destruct (walk_forward_covers q fuel (Some c) _ _ E1) as (Sh1 & _).
  assert (Sh : shape w w1) by (eapply frame_trans; eassumption).
  pose proof Sh as (Sp & Sb & Shv & _).
  apply (ThrowerAnt_action_total fuel q w1 k).
  - rewrite (shape_a_place w w1 q Sh), Hp, Shv.
    rewrite (nth_entrance_ext w w1 Sp). exact Hk.
  - lia.
  - intros p b Hin. rewrite Sb. apply Hb. now rewrite <- Sp.
Qed.

Lemma bees_in_place_doubling_world : bees_in_place doubling_world.
Proof.
  intros p b Hin.
  do 8 (destruct p as [|p];
        [vm_compute in Hin;
         repeat (destruct Hin as [<-|Hin]; [by_compute|]); destruct Hin|]).
  vm_compute in Hin. destruct Hin.
Qed.

Lemma exits_end_doubling_world :
  forall p, nth_exit doubling_world (Some p) 5 = None.
Proof.
  intros p. do 8 (destruct p as [|p]; [by_compute|]). by_compute.
Qed.

Lemma queen_action_returns_witness :
  exists w', QueenAnt_action 10 7%nat doubling_world = Ok tt w'.
Proof.
  apply (queen_action_returns 10 7%nat doubling_world 5%nat 2%nat 5%nat).
  - exact true_queen_doubling_world.
  - by_compute.
  - by_compute.
  - exact exits_end_doubling_world.
  - exact bees_in_place_doubling_world.
  - lia.
  - lia.
Defined.

(* ------------------------------------------------------------------ *)
(** ** Bees and the places that list them *)
(* ------------------------------------------------------------------ *)
(** *** Invariants *)

Definition invariant (I : World -> Prop) (w w' : World) : Prop := I w -> I w'.

#[export] Instance invariant_frame I : Frame (invariant I).
Proof.
  split.
  - intros w H. exact H.
  - intros w1 w2 w3 H1 H2 H. exact (H2 (H1 H)).
Qed.

(** The bees of a place are listed once, and a place lists a bee exactly
    when it is the [place] of the bee. *)
Definition bees_wf (w : World) : Prop :=
  (forall p, NoDup (bees (place_at w p)))
  /\ (forall p b, In b (bees (place_at w p)) <-> b_place (bee_at w b) = Some p).

Lemma bees_wf_ext w w' :
  (forall p, bees (place_at w' p) = bees (place_at w p)) ->
  (forall b, b_place (bee_at w' b) = b_place (bee_at w b)) ->
  bees_wf w -> bees_wf w'.
Proof.
  intros Hp Hb [N I]. split.
  - intros p. rewrite Hp. apply N.
  - intros p b. rewrite Hp, Hb. apply I.
Qed.

Ltac upd_cases :=
  cbn; unfold upd;
  repeat match goal with
         | |- context [Nat.eqb ?x ?y] => destruct (Nat.eqb_spec x y); subst
         end;
  cbn.

Ltac wsimp :=
  cbn [place_at ant_at bee_at fresh number_of_queens rng out time food hive
       queen places bee_entrances ant_types
       with_places_at with_ants_at with_bees_at with_fresh
       with_number_of_queens with_rng with_out with_time with_food with_hive
       with_queen with_places with_bee_entrances with_ant_types
       pclass name exit bees ant entrance assault_plan
       set_exit set_bees set_ant set_entrance
       b_armor b_place set_b_armor set_b_place
       cls a_armor a_place a_damage a_ant instance_num doubled_ants digesting
       set_a_armor set_a_place set_a_damage set_a_ant set_doubled_ants
       set_digesting] in *.

Ltac mstep := repeat (progress unfold_monad); cbv beta iota; wsimp.

Ltac bees_leaf :=
  unfold invariant; apply bees_wf_ext; intros; upd_cases; reflexivity.

Lemma remove_first_absent x l : ~ In x l -> remove_first x l = l.
Proof.
  induction l as [|y l IH]; intros H; [reflexivity|]. cbn.
  destruct (Nat.eqb_spec y x) as [->|Hne].
  - exfalso. apply H. now left.
  - f_equal. apply IH. intros Hin. apply H. now right.
Qed.

Lemma NoDup_remove_first x l : NoDup l -> NoDup (remove_first x l).
Proof.
  induction 1 as [|y l Hy Hl IH]; cbn; [constructor|].
  destruct (Nat.eqb_spec y x) as [->|Hne]; [exact Hl|].
  constructor; [|exact IH]. intros Hin. apply Hy.
  apply (In_remove_first y x l) in Hin; [exact Hin|exact Hne].
Qed.

Lemma not_In_remove_first x l : NoDup l -> ~ In x (remove_first x l).
Proof.
  induction 1 as [|y l Hy Hl IH]; cbn; [tauto|].
  destruct (Nat.eqb_spec y x) as [->|Hne]; [exact Hy|].
  intros [E|Hin]; [congruence | tauto].
Qed.

(** [place.remove_insect(bee)] for a bee of the place. *)
Lemma Place_remove_bee_spec w q b :
  bees_wf w ->
  b_place (bee_at w b) = Some q ->
  exists w',
    Place_remove_insect q (IBee b) w = Ok tt w'
    /\ bees_wf w'
    /\ b_place (bee_at w' b) = None
    /\ b_armor (bee_at w' b) = b_armor (bee_at w b)
    /\ (forall b', b' <> b -> bee_at w' b' = bee_at w b')
    /\ (forall p, place_at w' p
                  = set_bees (remove_first b (bees (place_at w p))) (place_at w p))
    /\ (forall a, ant_at w' a = ant_at w a)
    /\ out w' = out w.
Proof.
  intros [N I] Hq.
  assert (Hin : In b (bees (place_at w q))) by now apply I.
  unfold Place_remove_insect. unfold bind at 1. unfold get at 1.
  apply mem_In in Hin as Hm. rewrite Hm.
  eexists. split; [reflexivity|].
  assert (Hpl : forall p,
    place_at (with_places_at
                (upd (place_at w) q
                     (set_bees (remove_first b (bees (place_at w q)))
                               (place_at w q))) w) p
    = set_bees (remove_first b (bees (place_at w p))) (place_at w p)).
  { intros p. cbn. unfold upd. destruct (Nat.eqb_spec p q) as [->|Hne].
    - reflexivity.
    - rewrite remove_first_absent.
      + now destruct (place_at w p).
      + intros Hin'. apply I in Hin'. congruence. }
  unfold_monad. wsimp.
  split; [|split; [now rewrite upd_same|split; [now rewrite upd_same|]]].
  - split.
    + intros p. wsimp. destruct (Nat.eqb_spec p q) as [->|Hne].
      * rewrite upd_same. wsimp. now apply NoDup_remove_first.
      * rewrite upd_other by exact Hne. apply N.
    + intros p b'. wsimp.
      destruct (Nat.eqb_spec b' b) as [->|Hb].
      * rewrite upd_same. wsimp.
        split; [|discriminate]. intros Hin'. exfalso. revert Hin'.
        destruct (Nat.eqb_spec p q) as [->|Hne].
        -- rewrite upd_same. wsimp. now apply not_In_remove_first.
        -- rewrite upd_other by exact Hne.
           intros Hin'. apply I in Hin'. congruence.
      * rewrite (upd_other _ _ Hb). rewrite <- I.
        destruct (Nat.eqb_spec p q) as [->|Hne].
        -- rewrite upd_same. wsimp. now apply In_remove_first.
        -- rewrite upd_other by exact Hne. tauto.
  - split; [|split; [|split; [|reflexivity]]].
    + intros b' Hb. now rewrite upd_other by exact Hb.
    + exact Hpl.
    + reflexivity.
Qed.

(** What a place is apart from its bees. *)
Definition without_bees (o : PlaceObj) : PlaceObj := set_bees [] o.

(** [place.add_insect(bee)] for a bee that is in no place. *)
Lemma Place_add_bee_spec w e b :
  bees_wf w ->
  b_place (bee_at w b) = None ->
  exists w',
    Place_add_insect e (IBee b) w = Ok tt w'
    /\ bees_wf w'
    /\ bee_at w' b = set_b_place (Some e) (bee_at w b)
    /\ (forall b', b' <> b -> bee_at w' b' = bee_at w b')
    /\ place_at w' e = set_bees (bees (place_at w e) ++ [b]) (place_at w e)
    /\ (forall p, p <> e -> place_at w' p = place_at w p)
    /\ (forall a, ant_at w' a = ant_at w a)
    /\ out w' = out w.
Proof.
  intros [N I] Hb.
  assert (Hno : forall p, ~ In b (bees (place_at w p))).
  { intros p Hin. apply I in Hin. congruence. }
  unfold Place_add_insect. eexists. split; [reflexivity|].
  unfold_monad. wsimp. rewrite !upd_same.
  split; [|split; [reflexivity|split; [|split; [reflexivity|split;
    [|split; reflexivity]]]]].
  - split.
    + intros p. wsimp. destruct (Nat.eqb_spec p e) as [->|Hne].
      * rewrite upd_same. wsimp. apply NoDup_app; [apply N | repeat constructor; intros [] |].
        intros x Hx [<-|[]]. exact (Hno _ Hx).
      * rewrite upd_other by exact Hne. apply N.
    + intros p b'. wsimp.
      destruct (Nat.eqb_spec b' b) as [->|Hne'].
      * rewrite upd_same. wsimp.
        destruct (Nat.eqb_spec p e) as [->|Hne].
        -- rewrite upd_same. wsimp. rewrite in_app_iff. cbn. tauto.
        -- rewrite upd_other by exact Hne. split.
           ++ intros Hin. exfalso. exact (Hno _ Hin).
           ++ intros E. congruence.
      * rewrite (upd_other _ _ Hne'). rewrite <- I.
        destruct (Nat.eqb_spec p e) as [->|Hne].
        -- rewrite upd_same. wsimp. rewrite in_app_iff. cbn.
           split; [intros [H|[H|[]]]; [exact H|congruence] | tauto].
        -- rewrite upd_other by exact Hne. tauto.
  - intros b' Hne. now rewrite upd_other by exact Hne.
  - intros p Hne. now rewrite upd_other by exact Hne.
Qed.

(** [place.add_insect(bee)] resolved on the class of the place: [Water]
    prints a line and, a bee being watersafe, does nothing more. *)
Lemma add_bee_spec w e b :
  bees_wf w ->
  b_place (bee_at w b) = None ->
  exists w',
    add_insect e (IBee b) w = Ok tt w'
    /\ bees_wf w'
    /\ bee_at w' b = set_b_place (Some e) (bee_at w b)
    /\ (forall b', b' <> b -> bee_at w' b' = bee_at w b')
    /\ place_at w' e = set_bees (bees (place_at w e) ++ [b]) (place_at w e)
    /\ (forall p, p <> e -> place_at w' p = place_at w p)
    /\ (forall a, ant_at w' a = ant_at w a)
    /\ out w' = out w ++ match pclass (place_at w e) with
                         | Water => [Added (IBee b) true]
                         | _ => []
                         end.
Proof.
  intros Hwf Hb. unfold add_insect. unfold bind at 1. unfold get at 1.
  destruct (pclass (place_at w e)) eqn:Hc.
  1, 3: destruct (Place_add_bee_spec w e b Hwf Hb)
          as (w' & E & W & B1 & B2 & P1 & P2 & A & O);
        exists w'; cbv iota; rewrite app_nil_r;
        repeat split; try assumption; apply W.
  unfold Water_add_insect. unfold bind at 1. unfold get at 1.
  unfold bind at 1. unfold print, modify.
  set (w1 := with_out (out w ++ [Added (IBee b) (insect_watersafe w (IBee b))]) w).
  assert (Hwf1 : bees_wf w1) by (revert Hwf; apply bees_wf_ext; reflexivity).
  destruct (Place_add_bee_spec w1 e b Hwf1 Hb)
    as (w' & E & W & B1 & B2 & P1 & P2 & A & O).
  unfold bind at 1. rewrite E. unfold bind at 1. unfold get at 1.
  cbn [insect_watersafe negb]. exists w'. unfold ret.
  repeat split; try assumption; apply W.
Qed.

Lemma Bee_move_to_spec w b q e :
  bees_wf w ->
  b_place (bee_at w b) = Some q ->
  exists w',
    Bee_move_to b (Some e) w = Ok tt w'
    /\ bees_wf w'
    /\ bee_at w' b = set_b_place (Some e) (bee_at w b)
    /\ (forall b', b' <> b -> bee_at w' b' = bee_at w b')
    /\ (forall p, place_at w' p
                  = set_bees (remove_first b (bees (place_at w p))
                              ++ if Nat.eqb p e then [b] else [])
                             (place_at w p))
    /\ (forall a, ant_at w' a = ant_at w a)
    /\ out w' = out w ++ match pclass (place_at w e) with
                         | Water => [Added (IBee b) true]
                         | _ => []
                         end.
Proof.
  intros Hwf Hq. unfold Bee_move_to. unfold bind at 1. unfold get at 1.
  unfold at_place. cbn [place]. rewrite Hq.
  destruct (Place_remove_bee_spec w q b Hwf Hq)
    as (w1 & E1 & W1 & B1 & Ar1 & O1 & P1 & A1 & Out1).
  unfold bind at 1. rewrite E1. cbn [add_insect_at].
  destruct (add_bee_spec w1 e b W1 B1)
    as (w' & E & W & B2 & O2 & Pe & P2 & A & Out).
  exists w'. split; [exact E|]. split; [exact W|].
  split; [|split; [|split; [|split]]].
  - rewrite B2. destruct (bee_at w1 b) eqn:Eb, (bee_at w b) eqn:Eb'.
    cbn in *. now subst.
  - intros b' Hne. now rewrite O2, O1.
  - intros p. destruct (Nat.eqb_spec p e) as [->|Hne].
    + rewrite Pe, P1. reflexivity.
    + rewrite P2, P1 by exact Hne. now rewrite app_nil_r.
  - intros a. now rewrite A, A1.
  - rewrite Out, Out1. rewrite P1. reflexivity.
Qed.

(** [bee.reduce_armor(d)] for a bee in a place: it loses [d] armor and,
    left with none, is taken out of its place; nothing else changes. *)
Lemma bee_reduce_armor_spec w b d q :
  bees_wf w ->
  b_place (bee_at w b) = Some q ->
  exists w',
    Insect_reduce_armor (IBee b) d w = Ok tt w'
    /\ bees_wf w'
    /\ b_armor (bee_at w' b) = b_armor (bee_at w b) - d
    /\ (forall b', b' <> b -> bee_at w' b' = bee_at w b')
    /\ (forall a, ant_at w' a = ant_at w a)
    /\ (forall p, without_bees (place_at w' p) = without_bees (place_at w p))
    /\ if b_armor (bee_at w b) - d <=? 0
       then b_place (bee_at w' b) = None
            /\ (forall p, bees (place_at w' p)
                          = remove_first b (bees (place_at w p)))
            /\ out w' = out w ++ [Expired (IBee b)]
       else b_place (bee_at w' b) = Some q
            /\ (forall p, bees (place_at w' p) = bees (place_at w p))
            /\ out w' = out w.
Proof.
  intros Hwf Hq. unfold Insect_reduce_armor.
  unfold bind at 1. unfold get at 1. unfold bind at 1.
  unfold set_armor, write_bee, modify. cbn [armor].
  set (w1 := with_bees_at
               (upd (bee_at w) b (set_b_armor (b_armor (bee_at w b) - d)
                                              (bee_at w b))) w).
  assert (Hb1 : bee_at w1 b = set_b_armor (b_armor (bee_at w b) - d) (bee_at w b))
    by (subst w1; wsimp; now rewrite upd_same).
  assert (Ho1 : forall b', b' <> b -> bee_at w1 b' = bee_at w b')
    by (intros b' Hne; subst w1; wsimp; now rewrite upd_other by exact Hne).
  assert (Hwf1 : bees_wf w1).
  { revert Hwf. apply bees_wf_ext; [reflexivity|]. intros b'.
    destruct (Nat.eqb_spec b' b) as [->|Hne].
    - now rewrite Hb1.
    - now rewrite Ho1. }
  unfold bind at 1. unfold get at 1. cbn [armor]. rewrite Hb1.
  cbn [b_armor set_b_armor].
  destruct (b_armor (bee_at w b) - d <=? 0) eqn:Hle.
  - unfold bind at 1. unfold print, modify.
    set (w2 := with_out (out w1 ++ [Expired (IBee b)]) w1).
    assert (Hwf2 : bees_wf w2) by (revert Hwf1; apply bees_wf_ext; reflexivity).
    unfold at_place. cbn [place].
    change (bee_at w1 b) with (bee_at w2 b) in Hb1.
    replace (b_place (bee_at w1 b)) with (Some q)
      by (change (bee_at w1 b) with (bee_at w2 b); now rewrite Hb1).
    assert (Hq2 : b_place (bee_at w2 b) = Some q) by now rewrite Hb1.
    destruct (Place_remove_bee_spec w2 q b Hwf2 Hq2)
      as (w' & E & W & Bp & Ar & O & P & A & Out).
    exists w'. split; [exact E|]. split; [exact W|].
    split; [now rewrite Ar, Hb1|].
    split; [intros b' Hne; rewrite O by exact Hne; now apply Ho1|].
    split; [exact A|].
    split; [intros p; now rewrite P|].
    split; [exact Bp|]. split; [intros p; now rewrite P|exact Out].
  - exists w1. unfold ret. split; [reflexivity|]. split; [exact Hwf1|].
    split; [now rewrite Hb1|]. split; [exact Ho1|].
    split; [reflexivity|]. split; [reflexivity|].
    split; [now rewrite Hb1|]. split; reflexivity.
Qed.

Lemma bees_wf_Insect_reduce_armor_bee b d :
  keeps (invariant bees_wf) (Insect_reduce_armor (IBee b) d).
Proof.
  intros w. destruct (b_place (bee_at w b)) as [q|] eqn:Hq.
  - destruct (Insect_reduce_armor (IBee b) d w) as [[] w'|e w'|] eqn:E;
      [| |exact I];
      intros Hwf; destruct (bee_reduce_armor_spec w b d q Hwf Hq)
        as (w2 & E2 & W & _); congruence.
  - unfold Insect_reduce_armor. mstep. cbn [armor place]. mstep.
    rewrite upd_same. wsimp. rewrite Hq.
    destruct (_ <=? 0); bees_leaf.
Qed.

Ltac bees_tac := keeps_tac bees_leaf.

Lemma bees_wf_Place_add_ant p a :
  keeps (invariant bees_wf) (Place_add_insect p (IAnt a)).
Proof. unfold Place_add_insect. bees_tac. Qed.

Lemma bees_wf_Place_remove_ant p a :
  keeps (invariant bees_wf) (Place_remove_insect p (IAnt a)).
Proof. unfold Place_remove_insect. bees_tac. Qed.

Lemma bees_wf_Place_remove_bee q b :
  keeps (invariant bees_wf) (Place_remove_insect q (IBee b)).
Proof.
  intros w. unfold Place_remove_insect at 1. unfold bind at 1. unfold get at 1.
  destruct (mem b (bees (place_at w q))) eqn:Hm; [|intros H; exact H].
  destruct (bind _ _ w) as [[] w'|e w'|] eqn:E; [| |exact I]; intros Hwf.
  all: assert (Hq : b_place (bee_at w b) = Some q)
         by (apply Hwf; now apply mem_In).
  all: destruct (Place_remove_bee_spec w q b Hwf Hq) as (w2 & E2 & W & _).
  all: unfold Place_remove_insect in E2; unfold bind at 1 in E2;
       unfold get at 1 in E2; rewrite Hm in E2; congruence.
Qed.
#[export] Hint Resolve bees_wf_Insect_reduce_armor_bee bees_wf_Place_add_ant
  bees_wf_Place_remove_ant bees_wf_Place_remove_bee : keeps.

Lemma bees_wf_Insect_reduce_armor i d :
  keeps (invariant bees_wf) (Insect_reduce_armor i d).
Proof.
  destruct i; [|apply bees_wf_Insect_reduce_armor_bee].
  unfold Insect_reduce_armor. bees_tac.
Qed.
#[export] Hint Resolve bees_wf_Insect_reduce_armor : keeps.

Lemma bees_wf_reduce_armor i d : keeps (invariant bees_wf) (reduce_armor i d).
Proof. unfold reduce_armor, FireAnt_reduce_armor. destruct i; bees_tac. Qed.
#[export] Hint Resolve bees_wf_reduce_armor : keeps.

Lemma bees_wf_add_ant p a : keeps (invariant bees_wf) (add_insect p (IAnt a)).
Proof. unfold add_insect, Water_add_insect. bees_tac. Qed.
#[export] Hint Resolve bees_wf_add_ant : keeps.

Lemma bees_wf_Bee_move_to b p : keeps (invariant bees_wf) (Bee_move_to b p).
Proof.
  intros w. destruct (b_place (bee_at w b)) as [q|] eqn:Hq.
  - destruct p as [e|].
    + destruct (Bee_move_to b (Some e) w) as [[] w'|e' w'|] eqn:E;
        [| |exact I]; intros Hwf;
        destruct (Bee_move_to_spec w b q e Hwf Hq) as (w2 & E2 & W & _);
        congruence.
    + unfold Bee_move_to. unfold bind at 1. unfold get at 1.
      unfold at_place. cbn [place]. rewrite Hq.
      pose proof (bees_wf_Place_remove_bee q b w) as K.
      unfold bind. destruct (Place_remove_insect q (IBee b) w); exact K.
  - unfold Bee_move_to. unfold bind at 1. unfold get at 1.
    unfold at_place. cbn [place]. rewrite Hq. unfold bind, raise.
    intros H; exact H.
Qed.
#[export] Hint Resolve bees_wf_Bee_move_to : keeps.

Lemma bees_wf_Bee_action b : keeps (invariant bees_wf) (Bee_action b).
Proof. unfold Bee_action, Bee_blocked, Bee_sting. bees_tac. Qed.
#[export] Hint Resolve bees_wf_Bee_action : keeps.

Lemma bees_wf_random_choice l : keeps (invariant bees_wf) (random_choice l).
Proof. unfold random_choice. bees_tac. Qed.
#[export] Hint Resolve bees_wf_random_choice : keeps.

Lemma bees_wf_random_or_none l : keeps (invariant bees_wf) (random_or_none l).
Proof. unfold random_or_none. bees_tac. Qed.
#[export] Hint Resolve bees_wf_random_or_none : keeps.

Lemma bees_wf_nearest_bee_loop self hv : forall fuel start d,
  keeps (invariant bees_wf) (nearest_bee_loop fuel self hv start d).
Proof.
  induction fuel as [|fuel IH]; intros start d; cbn [nearest_bee_loop];
    bees_tac.
Qed.
#[export] Hint Resolve bees_wf_nearest_bee_loop : keeps.

Lemma bees_wf_ThrowerAnt_action fuel a :
  keeps (invariant bees_wf) (ThrowerAnt_action fuel a).
Proof.
  unfold ThrowerAnt_action, ThrowerAnt_nearest_bee, throw_at,
    ThrowerAnt_throw_at, SlowThrower_throw_at, apply_effect.
  bees_tac.
Qed.
#[export] Hint Resolve bees_wf_ThrowerAnt_action : keeps.

Lemma bees_wf_walk_forward q : forall fuel cur,
  keeps (invariant bees_wf) (walk_forward fuel q cur).
Proof.
  induction fuel as [|fuel IH]; intros [c|]; cbn [walk_forward];
    unfold QueenAnt_double_damage, double_one; bees_tac.
Qed.
#[export] Hint Resolve bees_wf_walk_forward : keeps.

Lemma bees_wf_QueenAnt_action fuel a :
  keeps (invariant bees_wf) (QueenAnt_action fuel a).
Proof. unfold QueenAnt_action. bees_tac. Qed.
#[export] Hint Resolve bees_wf_QueenAnt_action : keeps.

Lemma bees_wf_Ant_action : forall fuel a,
  keeps (invariant bees_wf) (Ant_action fuel a).
Proof.
  induction fuel as [|fuel IH]; intros a; cbn [Ant_action].
  - apply keeps_out_of_fuel.
  - unfold HarvesterAnt_action, NinjaAnt_action, HungryAnt_action,
      HungryAnt_eat_bee, BodyguardAnt_action.
    bees_tac.
Qed.
#[export] Hint Resolve bees_wf_Ant_action : keeps.

Lemma bees_wf_new_Ant c : keeps (invariant bees_wf) (new_Ant c).
Proof. unfold new_Ant. bees_tac. Qed.
#[export] Hint Resolve bees_wf_new_Ant : keeps.

Lemma bees_wf_deploy_ant pn an :
  keeps (invariant bees_wf) (AntColony_deploy_ant pn an).
Proof. unfold AntColony_deploy_ant. bees_tac. Qed.

Lemma bees_wf_remove_ant pn : keeps (invariant bees_wf) (AntColony_remove_ant pn).
Proof. unfold AntColony_remove_ant. bees_tac. Qed.
#[export] Hint Resolve bees_wf_deploy_ant bees_wf_remove_ant : keeps.

Lemma bees_wf_Hive_strategy h : keeps (invariant bees_wf) (Hive_strategy h).
Proof. unfold Hive_strategy. bees_tac. Qed.
#[export] Hint Resolve bees_wf_Hive_strategy : keeps.

Lemma bees_wf_queen_bees : keeps (invariant bees_wf) queen_bees.
Proof. unfold queen_bees. bees_tac. Qed.
#[export] Hint Resolve bees_wf_queen_bees : keeps.

Lemma bees_wf_simulate strategy :
  keeps (invariant bees_wf) strategy ->
  forall fuel, keeps (invariant bees_wf) (AntColony_simulate fuel strategy).
Proof.
  intros Hs. induction fuel as [|fuel IH]; cbn [AntColony_simulate];
    bees_tac.
Qed.

(** A game keeps the bees where their [place] says.  If every place
    lists each of its bees once and lists a bee exactly when that place is
    the bee's [place], then the same holds in the state in which
    [simulate] ends or raises, whatever the strategy deploys or removes. *)
Theorem bees_are_where_their_place_says :
  forall fuel strategy w,
    keeps (invariant bees_wf) strategy ->
    bees_wf w ->
    ends_with (AntColony_simulate fuel strategy w) bees_wf.
Proof.
  intros fuel strategy w Hs Hwf.
  pose proof (bees_wf_simulate strategy Hs fuel w) as K.
  destruct (AntColony_simulate fuel strategy w); cbn [ends_with];
    [exact (K Hwf) | exact (K Hwf) | exact I].
Qed.

Lemma bees_wf_small_colony : bees_wf (small_colony 10).
Proof.
  split.
  - intros p.
    do 8 (destruct p as [|p]; [vm_compute; repeat constructor; cbn; intuition discriminate|]).
    vm_compute. constructor.
  - intros p b. split.
    + intros Hin.
      do 8 (destruct p as [|p];
            [vm_compute in Hin;
             repeat (destruct Hin as [<-|Hin]; [by_compute|]); destruct Hin|]).
      vm_compute in Hin. destruct Hin.
    + intros Hb.
      do 3 (destruct b as [|b];
            [vm_compute in Hb; inversion Hb; subst p; vm_compute; tauto|]).
      vm_compute in Hb. discriminate Hb.
Qed.

Lemma bees_are_where_their_place_says_witness :
  exists w',
    AntColony_simulate 10 (AntColony_deploy_ant "tunnel_0_0" "Thrower")
                       (small_colony 10)
    = Raise AssertionError w'
    /\ time w' = 1
    /\ bees_wf w'.
Proof.
  pose proof (bees_are_where_their_place_says
                10 (AntColony_deploy_ant "tunnel_0_0" "Thrower")
                (small_colony 10) (bees_wf_deploy_ant _ _)
                bees_wf_small_colony) as H.
  set (o := AntColony_simulate _ _ _) in *.
  assert (E : exists w', o = Raise AssertionError w' /\ time w' = 1).
  { subst o. eexists. split; by_compute. }
  clearbody o. destruct E as (w' & -> & T). exists w'.
  split; [reflexivity|]. split; [exact T|exact H].
Defined.

(** *** Ants, the places that hold them and the bodyguards around them *)

(** The three links between ants and places, as functions: the ant in the
    slot of a place, the place of an ant, and the ant that takes the slot
    when an ant leaves it ([successor]); [n] bounds the ants in use. *)
Definition wf_on (slot : nat -> option nat) (plc : nat -> option nat)
           (succ : nat -> option nat) (n : nat) : Prop :=
  (forall p a, slot p = Some a -> plc a = Some p /\ (a < n)%nat)
  /\ (forall p g i, slot p = Some g -> succ g = Some i ->
        plc i = Some p /\ succ i = None /\ (i < n)%nat)
  /\ (forall a p, plc a = Some p ->
        slot p = Some a \/ exists g, slot p = Some g /\ succ g = Some a).

(** An ant that no place and no ant in a slot knows. *)
Definition unknown (slot plc succ : nat -> option nat) (x : nat) : Prop :=
  plc x = None
  /\ succ x = None
  /\ (forall p, slot p <> Some x)
  /\ (forall p g, slot p = Some g -> succ g <> Some x).

Lemma wf_on_ext slot plc succ slot' plc' succ' n :
  (forall p, slot' p = slot p) ->
  (forall a, plc' a = plc a) ->
  (forall a, succ' a = succ a) ->
  wf_on slot plc succ n -> wf_on slot' plc' succ' n.
Proof.
  intros Hs Hp Hu (W1 & W2 & W3). split; [|split].
  - intros p a. rewrite Hs, Hp. apply W1.
  - intros p g i. rewrite Hs, Hu, Hp, Hu. apply W2.
  - intros a p. rewrite Hp, Hs. intros H. destruct (W3 a p H) as [L|(g & G1 & G2)].
    + now left.
    + right. exists g. now rewrite ?Hs, Hu.
Qed.

Ltac upd_all :=
  unfold upd in *;
  repeat match goal with
         | H : context [Nat.eqb ?x ?y] |- _ =>
             destruct (Nat.eqb_spec x y); subst
         | |- context [Nat.eqb ?x ?y] =>
             destruct (Nat.eqb_spec x y); subst
         end.

Lemma wf_on_leave slot plc succ n p a :
  wf_on slot plc succ n ->
  slot p = Some a ->
  wf_on (upd slot p (succ a)) (upd plc a None) succ n.
Proof.
  intros (W1 & W2 & W3) Hs.
  assert (Ha : forall i, succ a = Some i -> i <> a).
  { intros i Hi ->. destruct (W2 p a a Hs Hi) as (_ & N & _). congruence. }
  split; [|split].
  - intros p' x H. unfold upd in *.
    destruct (Nat.eqb_spec p' p) as [->|Hp].
    + destruct (W2 p a x Hs H) as (P & _ & B).
      destruct (Nat.eqb_spec x a) as [->|_]; [now apply Ha in H|]. now split.
    + destruct (W1 p' x H) as (P & B).
      destruct (Nat.eqb_spec x a) as [->|_]; [|now split].
      destruct (W1 p a Hs). congruence.
  - intros p' g i H Hi. unfold upd in *.
    destruct (Nat.eqb_spec p' p) as [->|Hp].
    + destruct (W2 p a g Hs H) as (_ & N & _). congruence.
    + destruct (W2 p' g i H Hi) as (P & N & B).
      destruct (Nat.eqb_spec i a) as [->|_]; [|now repeat split].
      destruct (W1 p a Hs). congruence.
  - intros x p' H. unfold upd in *.
    destruct (Nat.eqb_spec x a) as [->|Hx]; [discriminate|].
    destruct (W3 x p' H) as [L|(g & G1 & G2)].
    + destruct (Nat.eqb_spec p' p) as [->|Hp]; [congruence | now left].
    + destruct (Nat.eqb_spec p' p) as [->|Hp].
      * left. congruence.
      * right. now exists g.
Qed.

Lemma wf_on_enter slot plc succ n p x :
  wf_on slot plc succ n ->
  unknown slot plc succ x -> (x < n)%nat ->
  slot p = None ->
  wf_on (upd slot p (Some x)) (upd plc x (Some p)) succ n.
Proof.
  intros (W1 & W2 & W3) (U1 & U2 & U3 & U4) Hn Hs. split; [|split].
  - intros p' a H. unfold upd in *.
    destruct (Nat.eqb_spec p' p) as [->|Hp].
    + injection H as <-. rewrite Nat.eqb_refl. now split.
    + destruct (Nat.eqb_spec a x) as [->|_]; [now apply U3 in H|].
      now apply W1.
  - intros p' g i H Hi. unfold upd in *.
    destruct (Nat.eqb_spec p' p) as [->|Hp].
    + injection H as <-. congruence.
    + destruct (Nat.eqb_spec i x) as [->|_]; [now apply U4 in H|].
      now apply (W2 p' g).
  - intros a p' H. unfold upd in *.
    destruct (Nat.eqb_spec a x) as [->|Ha].
    + injection H as <-. left. now rewrite Nat.eqb_refl.
    + destruct (W3 a p' H) as [L|(g & G1 & G2)];
        destruct (Nat.eqb_spec p' p) as [->|Hp]; try congruence.
      * now left.
      * right. now exists g.
Qed.

Lemma wf_on_contained slot plc succ n p x cur :
  wf_on slot plc succ n ->
  unknown slot plc succ x -> (x < n)%nat ->
  slot p = Some cur -> succ cur = None ->
  wf_on slot (upd plc x (Some p)) (upd succ cur (Some x)) n.
Proof.
  intros (W1 & W2 & W3) (U1 & U2 & U3 & U4) Hn Hs Hc.
  assert (Hx : cur <> x) by (intros ->; now apply U3 in Hs).
  split; [|split].
  - intros p' a H. unfold upd.
    destruct (Nat.eqb_spec a x) as [->|_]; [now apply U3 in H|].
    now apply W1.
  - intros p' g i H Hi. unfold upd in *.
    destruct (Nat.eqb_spec g cur) as [->|Hg].
    + injection Hi as <-. rewrite Nat.eqb_refl.
      destruct (Nat.eqb_spec x cur) as [E|_]; [congruence|].
      destruct (W1 p' cur H) as (P1 & _). destruct (W1 p cur Hs) as (P2 & _).
      repeat split; congruence.
    + destruct (Nat.eqb_spec i x) as [->|Hi'].
      * exfalso. exact (U4 p' g H Hi).
      * destruct (W2 p' g i H Hi) as (P & N & B).
        destruct (Nat.eqb_spec i cur) as [->|_]; [|now repeat split].
        exfalso. destruct (W1 p cur Hs) as (P' & _).
        assert (p' = p) by congruence. subst p'. congruence.
  - intros a p' H. unfold upd in *.
    destruct (Nat.eqb_spec a x) as [->|Ha].
    + injection H as <-. right. exists cur. now rewrite Nat.eqb_refl.
    + destruct (W3 a p' H) as [L|(g & G1 & G2)]; [now left|].
      right. exists g. split; [exact G1|].
      destruct (Nat.eqb_spec g cur) as [->|_]; [congruence | exact G2].
Qed.

Lemma wf_on_contains slot plc succ n p x cur :
  wf_on slot plc succ n ->
  unknown slot plc succ x -> (x < n)%nat ->
  slot p = Some cur -> succ cur = None ->
  wf_on (upd slot p (Some x)) (upd plc x (Some p)) (upd succ x (Some cur)) n.
Proof.
  intros (W1 & W2 & W3) (U1 & U2 & U3 & U4) Hn Hs Hc.
  assert (Hx : cur <> x) by (intros ->; now apply U3 in Hs).
  destruct (W1 p cur Hs) as (Pc & Bc).
  split; [|split].
  - intros p' a H. unfold upd in *.
    destruct (Nat.eqb_spec p' p) as [->|Hp].
    + injection H as <-. rewrite Nat.eqb_refl. now split.
    + destruct (Nat.eqb_spec a x) as [->|_]; [now apply U3 in H|].
      now apply W1.
  - intros p' g i H Hi. unfold upd in *.
    destruct (Nat.eqb_spec p' p) as [->|Hp].
    + injection H as <-. rewrite Nat.eqb_refl in Hi. injection Hi as <-.
      destruct (Nat.eqb_spec cur x) as [E|_]; [congruence|]. now repeat split.
    + destruct (Nat.eqb_spec g x) as [->|Hg]; [now apply U3 in H|].
      destruct (W2 p' g i H Hi) as (P & N & B).
      destruct (Nat.eqb_spec i x) as [->|_]; [congruence|]. now repeat split.
  - intros a p' H. unfold upd in *.
    destruct (Nat.eqb_spec a x) as [->|Ha].
    + injection H as <-. left. now rewrite Nat.eqb_refl.
    + destruct (W3 a p' H) as [L|(g & G1 & G2)].
      * destruct (Nat.eqb_spec p' p) as [->|Hp]; [|now left].
        right. exists x. rewrite Nat.eqb_refl. split; [reflexivity|]. congruence.
      * destruct (Nat.eqb_spec p' p) as [->|Hp].
        -- congruence.
        -- right. exists g. split; [exact G1|].
           destruct (Nat.eqb_spec g x) as [->|_]; [now apply U3 in G1 | exact G2].
Qed.

Lemma wf_on_new slot plc succ n :
  wf_on slot plc succ n ->
  wf_on slot (upd plc n None) (upd succ n None) (S n)
  /\ unknown slot (upd plc n None) (upd succ n None) n.
Proof.
  intros (W1 & W2 & W3).
  assert (S1 : forall p, slot p <> Some n).
  { intros p H. apply W1 in H. lia. }
  assert (S2 : forall p g, slot p = Some g -> succ g <> Some n).
  { intros p g H Hi. destruct (W2 p g n H Hi). lia. }
  split; [split; [|split]|].
  - intros p a H. destruct (W1 p a H) as (P & B). unfold upd.
    destruct (Nat.eqb_spec a n) as [->|_]; [lia|]. split; [exact P | lia].
  - intros p g i H Hi. unfold upd in *.
    destruct (Nat.eqb_spec g n) as [->|_]; [discriminate|].
    destruct (W2 p g i H Hi) as (P & N & B).
    destruct (Nat.eqb_spec i n) as [->|_]; [lia|]. repeat split; [exact P|exact N|lia].
  - intros a p H. unfold upd in *.
    destruct (Nat.eqb_spec a n) as [->|_]; [discriminate|].
    destruct (W3 a p H) as [L|(g & G1 & G2)]; [now left|].
    right. exists g. split; [exact G1|].
    destruct (Nat.eqb_spec g n) as [->|_]; [now apply S1 in G1 | exact G2].
  - unfold unknown, upd. rewrite Nat.eqb_refl. repeat split; [exact S1|].
    intros p g H. destruct (Nat.eqb_spec g n) as [->|_]; [discriminate|].
    now apply (S2 p).
Qed.

(** The ants and the places agree: the ant in the slot of a place has
    that place; so has the ant that a container in the slot holds, which
    holds no ant itself; and an ant that has a place is in its slot or is
    held by the container in its slot.  Every such ant was made before
    the next one to come. *)
Definition ants_wf (w : World) : Prop :=
  wf_on (fun p => ant (place_at w p)) (fun a => a_place (ant_at w a))
        (fun a => successor (ant_at w a)) (fresh w).

Definition new_to (w : World) (x : AntId) : Prop :=
  unknown (fun p => ant (place_at w p)) (fun a => a_place (ant_at w a))
          (fun a => successor (ant_at w a)) x.

Lemma wf_on_bound slot plc succ n m :
  (n <= m)%nat -> wf_on slot plc succ n -> wf_on slot plc succ m.
Proof.
  intros Hle (W1 & W2 & W3). split; [|split].
  - intros p a H. destruct (W1 p a H). split; [assumption | lia].
  - intros p g i H Hi. destruct (W2 p g i H Hi) as (P & N & B).
    repeat split; [assumption | assumption | lia].
  - exact W3.
Qed.

Lemma ants_wf_ext w w' :
  (forall p, ant (place_at w' p) = ant (place_at w p)) ->
  (forall a, a_place (ant_at w' a) = a_place (ant_at w a)) ->
  (forall a, successor (ant_at w' a) = successor (ant_at w a)) ->
  (fresh w <= fresh w')%nat ->
  ants_wf w -> ants_wf w'.
Proof.
  intros Hs Hp Hu Hf Hwf. unfold ants_wf.
  apply (wf_on_bound _ _ _ (fresh w)); [exact Hf|].
  revert Hwf. apply wf_on_ext; assumption.
Qed.

Lemma new_to_ext w w' x :
  (forall p, ant (place_at w' p) = ant (place_at w p)) ->
  (forall a, a_place (ant_at w' a) = a_place (ant_at w a)) ->
  (forall a, successor (ant_at w' a) = successor (ant_at w a)) ->
  new_to w x -> new_to w' x.
Proof.
  intros Hs Hp Hu (U1 & U2 & U3 & U4). unfold new_to, unknown.
  rewrite Hp, Hu. repeat split; try assumption.
  - intros p. rewrite Hs. apply U3.
  - intros p g. rewrite Hs, Hu. apply U4.
Qed.

Ltac ants_leaf :=
  unfold invariant; apply ants_wf_ext; intros; upd_cases;
  solve [reflexivity | lia].

Ltac ants_tac := keeps_tac ants_leaf.

Lemma ants_wf_Place_remove_ant p a :
  keeps (invariant ants_wf) (Place_remove_insect p (IAnt a)).
Proof.
  intros w. unfold Place_remove_insect. unfold bind at 1. unfold get at 1.
  destruct (opt_eqb (ant (place_at w p)) a) eqn:Hs;
    [|intros H; exact H].
  apply opt_eqb_true in Hs.
  destruct (AntClass_eqb (cls (ant_at w a)) QueenAnt
            && Nat.eqb (instance_num (ant_at w a)) 0);
    [intros H; exact H|].
  assert (E : exists w',
    ((if container (cls (ant_at w a))
         && match a_ant (ant_at w a) with Some _ => true | None => false end
      then write_place p (set_ant (a_ant (ant_at w a)))
      else write_place p (set_ant None)) ;;
     set_place (IAnt a) None) w = Ok tt w'
    /\ (forall p', ant (place_at w' p')
                   = upd (fun p => ant (place_at w p)) p
                         (successor (ant_at w a)) p')
    /\ (forall x, a_place (ant_at w' x)
                  = upd (fun a => a_place (ant_at w a)) a None x)
    /\ (forall x, successor (ant_at w' x) = successor (ant_at w x))
    /\ fresh w' = fresh w).
  { unfold successor.
    destruct (container (cls (ant_at w a))), (a_ant (ant_at w a)); cbn [andb];
      (eexists; split; [reflexivity|]); mstep;
      (split; [|split; [|split; [|reflexivity]]]); intros y; unfold upd;
      repeat match goal with
             | |- context [Nat.eqb ?x ?k] => destruct (Nat.eqb_spec x k); subst
             end; reflexivity. }
  destruct E as (w' & E & Es & Ep & Eu & Ef). rewrite E.
  intros Hwf. unfold ants_wf in *. rewrite Ef.
  pose proof (wf_on_leave _ _ _ _ p a Hwf Hs) as L. cbv beta in L.
  revert L. apply wf_on_ext; assumption.
Qed.

Lemma ants_wf_Place_remove_insect p i :
  keeps (invariant ants_wf) (Place_remove_insect p i).
Proof.
  destruct i; [apply ants_wf_Place_remove_ant|].
  unfold Place_remove_insect. ants_tac.
Qed.
#[export] Hint Resolve ants_wf_Place_remove_insect : keeps.

Lemma ants_wf_Place_add_bee p b :
  keeps (invariant ants_wf) (Place_add_insect p (IBee b)).
Proof. unfold Place_add_insect. ants_tac. Qed.
#[export] Hint Resolve ants_wf_Place_add_bee : keeps.

Lemma ants_wf_Insect_reduce_armor i d :
  keeps (invariant ants_wf) (Insect_reduce_armor i d).
Proof. unfold Insect_reduce_armor. destruct i; ants_tac. Qed.
#[export] Hint Resolve ants_wf_Insect_reduce_armor : keeps.

Lemma ants_wf_reduce_armor i d : keeps (invariant ants_wf) (reduce_armor i d).
Proof. unfold reduce_armor, FireAnt_reduce_armor. destruct i; ants_tac. Qed.
#[export] Hint Resolve ants_wf_reduce_armor : keeps.

Lemma ants_wf_add_bee p b : keeps (invariant ants_wf) (add_insect p (IBee b)).
Proof. unfold add_insect, Water_add_insect. ants_tac. Qed.
#[export] Hint Resolve ants_wf_add_bee : keeps.

Lemma ants_wf_Bee_move_to b p : keeps (invariant ants_wf) (Bee_move_to b p).
Proof. unfold Bee_move_to. ants_tac. Qed.
#[export] Hint Resolve ants_wf_Bee_move_to : keeps.

Lemma ants_wf_Bee_action b : keeps (invariant ants_wf) (Bee_action b).
Proof. unfold Bee_action, Bee_blocked, Bee_sting. ants_tac. Qed.
#[export] Hint Resolve ants_wf_Bee_action : keeps.

Lemma ants_wf_random_choice l : keeps (invariant ants_wf) (random_choice l).
Proof. unfold random_choice. ants_tac. Qed.
#[export] Hint Resolve ants_wf_random_choice : keeps.

Lemma ants_wf_random_or_none l : keeps (invariant ants_wf) (random_or_none l).
Proof. unfold random_or_none. ants_tac. Qed.
#[export] Hint Resolve ants_wf_random_or_none : keeps.

Lemma ants_wf_nearest_bee_loop self hv : forall fuel start d,
  keeps (invariant ants_wf) (nearest_bee_loop fuel self hv start d).
Proof.
  induction fuel as [|fuel IH]; intros start d; cbn [nearest_bee_loop];
    ants_tac.
Qed.
#[export] Hint Resolve ants_wf_nearest_bee_loop : keeps.

Lemma ants_wf_ThrowerAnt_action fuel a :
  keeps (invariant ants_wf) (ThrowerAnt_action fuel a).
Proof.
  unfold ThrowerAnt_action, ThrowerAnt_nearest_bee, throw_at,
    ThrowerAnt_throw_at, SlowThrower_throw_at, apply_effect.
  ants_tac.
Qed.
#[export] Hint Resolve ants_wf_ThrowerAnt_action : keeps.

Lemma ants_wf_walk_forward q : forall fuel cur,
  keeps (invariant ants_wf) (walk_forward fuel q cur).
Proof.
  induction fuel as [|fuel IH]; intros [c|]; cbn [walk_forward];
    unfold QueenAnt_double_damage, double_one; ants_tac.
Qed.
#[export] Hint Resolve ants_wf_walk_forward : keeps.

Lemma ants_wf_QueenAnt_action fuel a :
  keeps (invariant ants_wf) (QueenAnt_action fuel a).
Proof. unfold QueenAnt_action. ants_tac. Qed.
#[export] Hint Resolve ants_wf_QueenAnt_action : keeps.

Lemma ants_wf_Ant_action : forall fuel a,
  keeps (invariant ants_wf) (Ant_action fuel a).
Proof.
  induction fuel as [|fuel IH]; intros a; cbn [Ant_action].
  - apply keeps_out_of_fuel.
  - unfold HarvesterAnt_action, NinjaAnt_action, HungryAnt_action,
      HungryAnt_eat_bee, BodyguardAnt_action.
    ants_tac.
Qed.
#[export] Hint Resolve ants_wf_Ant_action : keeps.

Ltac ext_cases :=
  intros ?y; wsimp; unfold upd;
  repeat match goal with
         | |- context [Nat.eqb ?a ?k] => destruct (Nat.eqb_spec a k); subst
         end;
  wsimp; try reflexivity; try congruence.

(** [place.add_insect(ant)] for an ant that was just made. *)
Lemma ants_wf_Place_add_new p x w :
  ants_wf w -> new_to w x -> (x < fresh w)%nat ->
  ends_with (Place_add_insect p (IAnt x) w) ants_wf.
Proof.
  intros Hwf Hnew Hlt. unfold ants_wf, new_to in *.
  pose proof Hnew as (U1 & U2 & U3 & U4). cbv beta in U1, U2, U3, U4.
  unfold Place_add_insect. unfold bind at 1. unfold get at 1.
  destruct (ant (place_at w p)) as [cur|] eqn:Hs.
  - assert (Hx : cur <> x) by (intros ->; now apply U3 in Hs).
    destruct (can_contain w cur x) eqn:C1;
      [|destruct (can_contain w x cur) eqn:C2].
    + unfold can_contain in C1.
      apply andb_prop in C1 as (C1 & Cx). apply andb_prop in C1 as (Cc & Ci).
      destruct (a_ant (ant_at w cur)) eqn:Hi; [discriminate|].
      apply negb_true_iff in Cx.
      assert (Sc : successor (ant_at w cur) = None)
        by (unfold successor; now rewrite Cc, Hi).
      pose proof (wf_on_contained _ _ _ _ p x cur Hwf Hnew Hlt Hs Sc) as L.
      cbv beta in L. mstep. cbn [ends_with]. revert L.
      apply wf_on_ext; ext_cases.
      unfold successor; wsimp; now rewrite ?Cc.
    + unfold can_contain in C2.
      apply andb_prop in C2 as (C2 & Cx). apply andb_prop in C2 as (Cc & Ci).
      apply negb_true_iff in Cx.
      assert (Sc : successor (ant_at w cur) = None)
        by (unfold successor; now rewrite Cx).
      pose proof (wf_on_contains _ _ _ _ p x cur Hwf Hnew Hlt Hs Sc) as L.
      cbv beta in L. mstep. cbn [ends_with]. revert L.
      apply wf_on_ext; ext_cases.
      unfold successor; wsimp; now rewrite ?Cc.
    + mstep. cbn [ends_with]. exact Hwf.
  - pose proof (wf_on_enter _ _ _ _ p x Hwf Hnew Hlt Hs) as L.
    cbv beta in L. mstep. cbn [ends_with]. revert L.
    apply wf_on_ext; ext_cases.
Qed.

Lemma unknown_ext slot plc succ slot' plc' succ' x :
  (forall p, slot' p = slot p) ->
  (forall a, plc' a = plc a) ->
  (forall a, succ' a = succ a) ->
  unknown slot plc succ x -> unknown slot' plc' succ' x.
Proof.
  intros Hs Hp Hu (U1 & U2 & U3 & U4). unfold unknown.
  rewrite Hp, Hu. repeat split; try assumption.
  - intros p. rewrite Hs. apply U3.
  - intros p g. rewrite Hs, Hu. apply U4.
Qed.

(** [constructor()]: the new ant has no place and holds no ant, and no
    place or ant knows it yet. *)
Lemma new_Ant_is_new c w :
  ants_wf w ->
  exists w1,
    new_Ant c w = Ok (fresh w) w1
    /\ ants_wf w1
    /\ new_to w1 (fresh w)
    /\ fresh w1 = S (fresh w).
Proof.
  intros Hwf. unfold ants_wf, new_to in *.
  destruct (wf_on_new _ _ _ _ Hwf) as (L1 & L2). cbv beta in L1, L2.
  unfold new_Ant. mstep.
  destruct c; (eexists; split; [reflexivity|]); wsimp;
    (split; [revert L1; apply wf_on_ext; ext_cases
            |split; [revert L2; apply unknown_ext; ext_cases
                    |reflexivity]]).
Qed.

Lemma ends_with_bind {A B} (m : M A) (k : A -> M B) (P : World -> Prop) w :
  ends_with (m w) P ->
  (forall a w1, m w = Ok a w1 -> ends_with (k a w1) P) ->
  ends_with (bind m k w) P.
Proof.
  intros Hm Hk. unfold bind. destruct (m w) as [a w1|e w1|]; cbn in *.
  - now apply Hk.
  - exact Hm.
  - exact I.
Qed.

Lemma keeps_invariant {A} (P : World -> Prop) (m : M A) w :
  keeps (invariant P) m -> P w -> ends_with (m w) P.
Proof.
  intros K H. specialize (K w). destruct (m w); cbn; auto.
Qed.

Lemma ants_wf_add_new p x w :
  ants_wf w -> new_to w x -> (x < fresh w)%nat ->
  ends_with (add_insect p (IAnt x) w) ants_wf.
Proof.
  intros Hwf Hnew Hlt. unfold add_insect. unfold bind at 1. unfold get at 1.
  destruct (pclass (place_at w p));
    try (now apply ants_wf_Place_add_new).
  unfold Water_add_insect. unfold bind at 1. unfold get at 1.
  unfold bind at 1. unfold print, modify.
  set (w0 := with_out _ w).
  assert (Hwf0 : ants_wf w0).
  { revert Hwf. apply ants_wf_ext; intros; subst w0; wsimp;
      solve [reflexivity | lia]. }
  assert (Hnew0 : new_to w0 x).
  { revert Hnew. apply new_to_ext; reflexivity. }
  pose proof (ants_wf_Place_add_new p x w0 Hwf0 Hnew0 Hlt) as H1.
  unfold bind at 1.
  destruct (Place_add_insect p (IAnt x) w0) as [[] w1|e w1|];
    cbn [ends_with] in *; [|exact H1|exact I].
  unfold bind at 1. unfold get at 1.
  destruct (negb _).
  - now apply keeps_invariant; [apply ants_wf_reduce_armor|].
  - exact H1.
Qed.

Lemma ants_wf_deploy_ant pn an :
  keeps (invariant ants_wf) (AntColony_deploy_ant pn an).
Proof.
  intros w. unfold AntColony_deploy_ant. unfold bind at 1. unfold get at 1.
  destruct (dict_get an (ant_types w)) as [c|]; [|intros H; exact H].
  destruct (food w <? food_cost c); [unfold print, modify; ants_leaf|].
  destruct (dict_get pn (places w)) as [p|]; [|intros H; exact H].
  assert (G : forall (Hwf : ants_wf w),
    ends_with ((a <- new_Ant c ;; add_insect p (IAnt a) ;;
                modify (fun w => with_food (food w - food_cost c) w)) w)
              ants_wf).
  { intros Hwf. destruct (new_Ant_is_new c w Hwf) as (w1 & E1 & W1 & N1 & F1).
    unfold bind at 1. rewrite E1.
    apply ends_with_bind.
    - apply ants_wf_add_new; [exact W1 | exact N1 | lia].
    - intros [] w2 E2.
      assert (Hlt : (fresh w < fresh w1)%nat) by lia.
      pose proof (ants_wf_add_new p (fresh w) w1 W1 N1 Hlt) as H2.
      rewrite E2 in H2. cbn [ends_with] in H2.
      unfold modify. cbn [ends_with]. revert H2.
      apply ants_wf_ext; intros; wsimp; solve [reflexivity | lia]. }
  destruct (bind _ _ w) as [[] w'|e w'|] eqn:E; [| |exact I];
    intros Hwf; specialize (G Hwf); exact G.
Qed.

Lemma ants_wf_remove_ant pn : keeps (invariant ants_wf) (AntColony_remove_ant pn).
Proof. unfold AntColony_remove_ant. ants_tac. Qed.
#[export] Hint Resolve ants_wf_deploy_ant ants_wf_remove_ant : keeps.

Lemma ants_wf_Hive_strategy h : keeps (invariant ants_wf) (Hive_strategy h).
Proof. unfold Hive_strategy. ants_tac. Qed.
#[export] Hint Resolve ants_wf_Hive_strategy : keeps.

Lemma ants_wf_queen_bees : keeps (invariant ants_wf) queen_bees.
Proof. unfold queen_bees. ants_tac. Qed.
#[export] Hint Resolve ants_wf_queen_bees : keeps.

Lemma ants_wf_simulate strategy :
  keeps (invariant ants_wf) strategy ->
  forall fuel, keeps (invariant ants_wf) (AntColony_simulate fuel strategy).
Proof.
  intros Hs. induction fuel as [|fuel IH]; cbn [AntColony_simulate];
    ants_tac.
Qed.

Lemma container_Bodyguard c : container c = true <-> c = BodyguardAnt.
Proof. destruct c; cbn; split; congruence. Qed.

Lemma successor_Some o i :
  successor o = Some i <-> cls o = BodyguardAnt /\ a_ant o = Some i.
Proof.
  unfold successor. destruct (container (cls o)) eqn:C.
  - apply container_Bodyguard in C. tauto.
  - split; [discriminate|]. intros [E _].
    apply container_Bodyguard in E. congruence.
Qed.

(** Two ants in one place are a bodyguard in the slot and the ant it
    holds. *)
Lemma two_ants_in_a_place w :
  ants_wf w ->
  forall p a1 a2,
    a_place (ant_at w a1) = Some p ->
    a_place (ant_at w a2) = Some p ->
    a1 <> a2 ->
    exists g i,
      ant (place_at w p) = Some g
      /\ cls (ant_at w g) = BodyguardAnt
      /\ a_ant (ant_at w g) = Some i
      /\ ((a1 = g /\ a2 = i) \/ (a1 = i /\ a2 = g)).
Proof.
  intros (W1 & W2 & W3) p a1 a2 H1 H2 Hne.
  destruct (W3 a1 p H1) as [L1|(g1 & G1 & S1)];
    destruct (W3 a2 p H2) as [L2|(g2 & G2 & S2)].
  - congruence.
  - assert (g2 = a1) by congruence. subst g2.
    apply successor_Some in S2 as (C & A).
    exists a1, a2. tauto.
  - assert (g1 = a2) by congruence. subst g1.
    apply successor_Some in S1 as (C & A).
    exists a2, a1. tauto.
  - assert (g1 = g2) by congruence. subst g2. congruence.
Qed.

(** The ants stay where their [place] says.  When the ants and the places
    agree (see [ants_wf]), they still agree in the state in which
    [simulate] ends or raises, whatever the strategy deploys or removes;
    so two ants never share a place unless one is a bodyguard in the slot
    that holds the other. *)
Theorem ants_are_where_their_place_says :
  forall fuel strategy w,
    keeps (invariant ants_wf) strategy ->
    ants_wf w ->
    ends_with (AntColony_simulate fuel strategy w) (fun w' =>
      ants_wf w'
      /\ forall p a1 a2,
           a_place (ant_at w' a1) = Some p ->
           a_place (ant_at w' a2) = Some p ->
           a1 <> a2 ->
           exists g i,
             ant (place_at w' p) = Some g
             /\ cls (ant_at w' g) = BodyguardAnt
             /\ a_ant (ant_at w' g) = Some i
             /\ ((a1 = g /\ a2 = i) \/ (a1 = i /\ a2 = g))).
Proof.
  intros fuel strategy w Hs Hwf.
  pose proof (ants_wf_simulate strategy Hs fuel w) as K.
  destruct (AntColony_simulate fuel strategy w); cbn [ends_with];
    [| |exact I]; (split; [exact (K Hwf)|]);
    apply two_ants_in_a_place, K, Hwf.
Qed.

Lemma ants_wf_doubling_world : ants_wf doubling_world.
Proof.
  split; [|split].
  - intros p a H.
    do 8 (destruct p as [|p];
          [vm_compute in H;
           first [discriminate H
                 | injection H as <-; split; [by_compute | vm_compute; lia]]|]).
    vm_compute in H. discriminate H.
  - intros p g i H Hi.
    do 8 (destruct p as [|p];
          [vm_compute in H;
           first [discriminate H
                 | injection H as <-; vm_compute in Hi;
                   first [discriminate Hi
                         | injection Hi as <-;
                           split; [by_compute
                                  | split; [by_compute | vm_compute; lia]]]]|]).
    vm_compute in H. discriminate H.
  - intros a p H.
    do 11 (destruct a as [|a];
           [vm_compute in H;
            first [discriminate H
                  | injection H as <-;
                    first [left; by_compute
                          | right; eexists; split; by_compute]]|]).
    vm_compute in H. discriminate H.
Qed.

Lemma ants_are_where_their_place_says_witness :
  ends_with
    (AntColony_simulate 3 (AntColony_deploy_ant "tunnel_0_0" "Wall")
                        doubling_world)
    ants_wf.
Proof.
  pose proof (ants_are_where_their_place_says
                3 (AntColony_deploy_ant "tunnel_0_0" "Wall") doubling_world
                (ants_wf_deploy_ant _ _) ants_wf_doubling_world) as H.
  set (o := AntColony_simulate _ _ _) in *. clearbody o.
  destruct o; cbn [ends_with] in *; [apply H | apply H | exact I].
Defined.

(* ------------------------------------------------------------------ *)
(** ** Deploying ants *)
(* ------------------------------------------------------------------ *)

(** *** Deploying an ant *)

Ltac upd_simp :=
  repeat first [rewrite upd_same
               | rewrite upd_other by first [assumption | congruence]].

(** The object that [constructor()] makes for class [c]. *)
Definition made (c : AntClass) (w : World) : AntObj :=
  mkAnt c (initial_armor c) None (class_damage c) None
        (match c with QueenAnt => number_of_queens w | _ => O end) [] 0.

Lemma new_Ant_made c w :
  exists w1,
    new_Ant c w = Ok (fresh w) w1
    /\ ant_at w1 (fresh w) = made c w
    /\ (forall a, a <> fresh w -> ant_at w1 a = ant_at w a)
    /\ (forall p, place_at w1 p = place_at w p)
    /\ (forall b, bee_at w1 b = bee_at w b)
    /\ fresh w1 = S (fresh w)
    /\ food w1 = food w /\ out w1 = out w
    /\ places w1 = places w /\ ant_types w1 = ant_types w.
Proof.
  unfold new_Ant, made. mstep.
  destruct c; (eexists; split; [reflexivity|]); wsimp;
    (split; [now rewrite upd_same|]);
    (split; [intros a Ha; now rewrite upd_other by exact Ha|]);
    repeat split.
Qed.

(** With enough food, deploying onto an empty place that is not [Water]
    puts a new ant of the class with that name into the slot, with the
    armor and damage of its class, and takes the cost of the class from the
    food; no other ant, place or bee changes and nothing is printed. *)
Theorem deploy_onto_empty_place :
  forall w pn an c p,
    dict_get an (ant_types w) = Some c ->
    food_cost c <= food w ->
    dict_get pn (places w) = Some p ->
    pclass (place_at w p) <> Water ->
    ant (place_at w p) = None ->
    exists w',
      AntColony_deploy_ant pn an w = Ok tt w'
      /\ place_at w' p = set_ant (Some (fresh w)) (place_at w p)
      /\ ant_at w' (fresh w) = set_a_place (Some p) (made c w)
      /\ food w' = food w - food_cost c
      /\ fresh w' = S (fresh w)
      /\ (forall a, a <> fresh w -> ant_at w' a = ant_at w a)
      /\ (forall q, q <> p -> place_at w' q = place_at w q)
      /\ (forall b, bee_at w' b = bee_at w b)
      /\ out w' = out w.
Proof.
  intros w pn an c p Hc Hf Hp Hw Hs.
  unfold AntColony_deploy_ant. unfold bind at 1. unfold get at 1.
  rewrite Hc. assert (Hlt : (food w <? food_cost c) = false) by lia.
  rewrite Hlt, Hp.
  destruct (new_Ant_made c w)
    as (w1 & E1 & M1 & A1 & P1 & B1 & F1 & Fd1 & O1 & _).
  unfold bind at 1. rewrite E1.
  assert (E2 : add_insect p (IAnt (fresh w)) w1
               = Place_add_insect p (IAnt (fresh w)) w1).
  { unfold add_insect. unfold bind at 1. unfold get at 1. rewrite P1.
    destruct (pclass (place_at w p)); congruence. }
  unfold bind at 1. rewrite E2.
  unfold Place_add_insect. unfold bind at 1. unfold bind at 1.
  unfold get at 1. rewrite P1, Hs.
  mstep. eexists. split; [reflexivity|]. wsimp.
  rewrite upd_same, P1, M1, Fd1, F1, O1.
  conj; rewrite ?upd_same; try reflexivity.
  - intros a Ha. rewrite upd_other by exact Ha. now apply A1.
  - intros q Hq. rewrite upd_other by exact Hq. apply P1.
  - exact B1.
Qed.

Lemma deploy_onto_empty_place_witness :
  exists w',
    AntColony_deploy_ant "tunnel_0_0" "Thrower" (small_colony 10) = Ok tt w'
    /\ ant (place_at w' 4%nat) = Some 7%nat
    /\ food w' = 6.
Proof.
  destruct (deploy_onto_empty_place (small_colony 10) "tunnel_0_0" "Thrower"
              ThrowerAnt 4%nat)
    as (w' & E & P & A & F & _).
  - by_compute.
  - vm_compute. discriminate.
  - by_compute.
  - vm_compute. discriminate.
  - by_compute.
  - exists w'. split; [exact E|]. split.
    + rewrite P. by_compute.
    + rewrite F. by_compute.
Defined.

(** With enough food, deploying onto a place that is not [Water] and
    holds an ant [cur]: when [cur] is a bodyguard that holds no ant and the
    new ant is no bodyguard, [cur] keeps the slot and holds the new ant;
    when the new ant is a bodyguard and [cur] is none, the new ant takes
    the slot and holds [cur]; in every other case an [AssertionError] is
    raised after the new ant was made, the place and the other ants are as
    before and no food is taken. *)
Theorem deploy_onto_occupied_place :
  forall w pn an c p cur,
    dict_get an (ant_types w) = Some c ->
    food_cost c <= food w ->
    dict_get pn (places w) = Some p ->
    pclass (place_at w p) <> Water ->
    ant (place_at w p) = Some cur ->
    cur <> fresh w ->
    (cls (ant_at w cur) = BodyguardAnt -> a_ant (ant_at w cur) = None ->
     c <> BodyguardAnt ->
     exists w',
       AntColony_deploy_ant pn an w = Ok tt w'
       /\ ant (place_at w' p) = Some cur
       /\ ant_at w' cur = set_a_ant (Some (fresh w)) (ant_at w cur)
       /\ ant_at w' (fresh w) = set_a_place (Some p) (made c w)
       /\ food w' = food w - food_cost c)
    /\ (c = BodyguardAnt -> cls (ant_at w cur) <> BodyguardAnt ->
        exists w',
          AntColony_deploy_ant pn an w = Ok tt w'
          /\ ant (place_at w' p) = Some (fresh w)
          /\ ant_at w' (fresh w)
             = set_a_place (Some p) (set_a_ant (Some cur) (made c w))
          /\ ant_at w' cur = ant_at w cur
          /\ food w' = food w - food_cost c)
    /\ ((c = BodyguardAnt \/ cls (ant_at w cur) <> BodyguardAnt
         \/ a_ant (ant_at w cur) <> None) ->
        (c <> BodyguardAnt \/ cls (ant_at w cur) = BodyguardAnt) ->
        exists w',
          AntColony_deploy_ant pn an w = Raise AssertionError w'
          /\ (forall q, place_at w' q = place_at w q)
          /\ (forall a, a <> fresh w -> ant_at w' a = ant_at w a)
          /\ ant_at w' (fresh w) = made c w
          /\ fresh w' = S (fresh w)
          /\ food w' = food w).
Proof.
  intros w pn an c p cur Hc Hf Hp Hw Hs Hcur.
  assert (Hlt : (food w <? food_cost c) = false) by lia.
  destruct (new_Ant_made c w)
    as (w1 & E1 & M1 & A1 & P1 & B1 & F1 & Fd1 & O1 & _).
  assert (E2 : add_insect p (IAnt (fresh w)) w1
               = Place_add_insect p (IAnt (fresh w)) w1).
  { unfold add_insect. unfold bind at 1. unfold get at 1. rewrite P1.
    destruct (pclass (place_at w p)); congruence. }
  assert (C1 : can_contain w1 cur (fresh w)
               = container (cls (ant_at w cur))
                 && match a_ant (ant_at w cur) with
                    | None => true | Some _ => false end
                 && negb (container c)).
  { unfold can_contain. rewrite M1, (A1 cur Hcur). reflexivity. }
  assert (C2 : can_contain w1 (fresh w) cur
               = container c && negb (container (cls (ant_at w cur)))).
  { unfold can_contain. rewrite M1, (A1 cur Hcur). cbn.
    now rewrite andb_true_r. }
  assert (D : AntColony_deploy_ant pn an w
              = (((if container (cls (ant_at w cur))
                      && match a_ant (ant_at w cur) with
                         | None => true | Some _ => false end
                      && negb (container c)
                   then contain_ant cur (fresh w)
                   else if container c
                           && negb (container (cls (ant_at w cur)))
                        then contain_ant (fresh w) cur ;;
                             write_place p (set_ant (Some (fresh w)))
                        else raise AssertionError) ;;
                  set_place (IAnt (fresh w)) (Some p)) ;;
                 modify (fun w => with_food (food w - food_cost c) w)) w1).
  { unfold AntColony_deploy_ant. unfold bind at 1. unfold get at 1.
    rewrite Hc, Hlt, Hp. unfold bind at 1. rewrite E1.
    unfold bind at 1. rewrite E2. unfold bind at 3.
    unfold Place_add_insect. unfold bind at 1. unfold get at 1.
    rewrite P1, Hs, C1, C2. reflexivity. }
  rewrite D. clear D.
  split; [|split].
  - intros Kc Ki Kn.
    assert (Bc : container c = false)
      by (destruct (container c) eqn:X; [apply container_Bodyguard in X|];
          congruence).
    rewrite Kc, Ki, Bc. cbn [container andb negb].
    mstep. eexists. split; [reflexivity|]. wsimp.
    upd_simp. rewrite ?M1, ?(A1 cur Hcur), ?P1, ?Fd1. conj; try reflexivity.
    exact Hs.
  - intros Kc Kn. subst c.
    assert (Bc : container (cls (ant_at w cur)) = false)
      by (destruct (container (cls (ant_at w cur))) eqn:X;
          [apply container_Bodyguard in X|]; congruence).
    rewrite Bc. cbn [container andb negb].
    mstep. eexists. split; [reflexivity|]. wsimp.
    upd_simp. rewrite ?M1, ?(A1 cur Hcur), ?P1, ?Fd1. conj; try reflexivity.
  - intros K1 K2.
    assert (X1 : container (cls (ant_at w cur))
                 && match a_ant (ant_at w cur) with
                    | None => true | Some _ => false end
                 && negb (container c) = false).
    { destruct (container c) eqn:Bc; [now rewrite andb_false_r|].
      destruct (container (cls (ant_at w cur))) eqn:Bk; [|reflexivity].
      destruct (a_ant (ant_at w cur)); [reflexivity|].
      apply container_Bodyguard in Bk.
      destruct K1 as [K|[K|K]]; try congruence.
      subst c. discriminate Bc. }
    assert (X2 : container c && negb (container (cls (ant_at w cur))) = false).
    { destruct (container c) eqn:Bc; [|reflexivity].
      apply container_Bodyguard in Bc.
      destruct K2 as [K|K]; [congruence|]. rewrite K. reflexivity. }
    rewrite X1, X2. mstep. eexists. split; [reflexivity|].
    conj; try assumption.
Qed.

Lemma deploy_onto_occupied_place_witness :
  (exists w',
      AntColony_deploy_ant "tunnel_0_0" "Bodyguard" thrower_world = Ok tt w'
      /\ ant (place_at w' 4%nat) = Some 8%nat
      /\ a_ant (ant_at w' 8%nat) = Some 7%nat)
  /\ (exists w',
         AntColony_deploy_ant "tunnel_0_0" "Wall" thrower_world
         = Raise AssertionError w'
         /\ food w' = food thrower_world).
Proof.
  destruct (deploy_onto_occupied_place thrower_world "tunnel_0_0" "Bodyguard"
              BodyguardAnt 4%nat 7%nat)
    as (_ & T2 & _); [by_compute | vm_compute; discriminate | by_compute
                     | vm_compute; discriminate | by_compute
                     | vm_compute; discriminate |].
  destruct (deploy_onto_occupied_place thrower_world "tunnel_0_0" "Wall"
              WallAnt 4%nat 7%nat)
    as (_ & _ & T3); [by_compute | vm_compute; discriminate | by_compute
                     | vm_compute; discriminate | by_compute
                     | vm_compute; discriminate |].
  split.
  - destruct T2 as (w' & E & S & A & _);
      [reflexivity | vm_compute; discriminate|].
    assert (F : fresh thrower_world = 8%nat) by by_compute.
    rewrite F in S, A.
    exists w'. split; [exact E|]. split; [exact S|].
    rewrite A. by_compute.
  - destruct T3 as (w' & E & _ & _ & _ & _ & F);
      [right; left; vm_compute; discriminate
      |left; discriminate|].
    exists w'. split; [exact E | exact F].
Defined.

(** What losing armor never touches: the food and the count of objects. *)
Definition thrift (w w' : World) : Prop :=
  food w' = food w /\ fresh w' = fresh w.

#[export] Instance thrift_frame : Frame thrift.
Proof.
  split.
  - intros w. split; reflexivity.
  - intros w1 w2 w3 [A1 B1] [A2 B2]. split; congruence.
Qed.

Ltac thrift_leaf := split; reflexivity.
Ltac thrift_tac := keeps_tac thrift_leaf.

Lemma thrift_Place_remove_insect p i : keeps thrift (Place_remove_insect p i).
Proof. unfold Place_remove_insect. destruct i; thrift_tac. Qed.
#[export] Hint Resolve thrift_Place_remove_insect : keeps.

Lemma thrift_Insect_reduce_armor i d : keeps thrift (Insect_reduce_armor i d).
Proof. unfold Insect_reduce_armor. destruct i; thrift_tac. Qed.
#[export] Hint Resolve thrift_Insect_reduce_armor : keeps.

Lemma thrift_reduce_armor i d : keeps thrift (reduce_armor i d).
Proof. unfold reduce_armor, FireAnt_reduce_armor. destruct i; thrift_tac. Qed.
#[export] Hint Resolve thrift_reduce_armor : keeps.

Lemma watersafe_not_queen c : watersafe c = false -> c <> QueenAnt.
Proof. intros H ->. discriminate H. Qed.

(** With enough food, deploying onto an empty [Water] place takes the
    cost from the food whatever the class: a watersafe ant stays in the
    slot; any other ant is left with no armor and no place at once, and the
    slot is empty again. *)
Theorem deploy_into_water :
  forall w pn an c p,
    dict_get an (ant_types w) = Some c ->
    food_cost c <= food w ->
    dict_get pn (places w) = Some p ->
    pclass (place_at w p) = Water ->
    ant (place_at w p) = None ->
    bees_wf w ->
    exists w',
      AntColony_deploy_ant pn an w = Ok tt w'
      /\ food w' = food w - food_cost c
      /\ if watersafe c
         then ant (place_at w' p) = Some (fresh w)
              /\ ant_at w' (fresh w) = set_a_place (Some p) (made c w)
         else ant (place_at w' p) = None
              /\ a_place (ant_at w' (fresh w)) = None
              /\ a_armor (ant_at w' (fresh w)) = 0.
Proof.
  intros w pn an c p Hc Hf Hp Hw Hs [N B].
  assert (Hlt : (food w <? food_cost c) = false) by lia.
  destruct (new_Ant_made c w)
    as (w1 & E1 & M1 & A1 & P1 & B1 & F1 & Fd1 & O1 & _).
  set (n := fresh w) in *.
  set (w3 := with_ants_at
               (upd (ant_at w1) n (set_a_place (Some p) (ant_at w1 n)))
               (with_places_at
                  (upd (place_at w1) p (set_ant (Some n) (place_at w1 p)))
                  (with_out (out w1 ++ [Added (IAnt n) (watersafe c)]) w1))).
  assert (D : AntColony_deploy_ant pn an w
              = ((if negb (watersafe c)
                  then reduce_armor (IAnt n) (initial_armor c)
                  else ret tt) ;;
                 modify (fun w => with_food (food w - food_cost c) w)) w3).
  { unfold AntColony_deploy_ant. unfold bind at 1. unfold get at 1.
    rewrite Hc, Hlt, Hp. unfold bind at 1. rewrite E1.
    unfold bind at 1 2. unfold add_insect. unfold bind at 1. unfold get at 1.
    rewrite P1, Hw. unfold Water_add_insect.
    unfold bind at 1. unfold get at 1. cbn [insect_watersafe].
    rewrite M1. cbn [cls made]. unfold bind at 1. unfold print, modify.
    unfold bind at 1. unfold Place_add_insect.
    unfold bind at 1. unfold bind at 1. unfold get at 1.
    wsimp. rewrite P1, Hs. mstep. subst w3. cbn [armor]. wsimp.
    rewrite !upd_same. wsimp. rewrite M1. reflexivity. }
  assert (X : ant_at w3 n = set_a_place (Some p) (made c w))
    by (subst w3; wsimp; now rewrite upd_same, M1).
  assert (S3 : ant (place_at w3 p) = Some n)
    by (subst w3; wsimp; now rewrite upd_same).
  assert (F3 : food w3 = food w) by exact Fd1.
  rewrite D. clear D. unfold bind at 1.
  destruct (watersafe c) eqn:Ws; cbn [negb].
  - unfold ret, modify. eexists. split; [reflexivity|]. wsimp.
    rewrite F3. conj; [reflexivity | exact S3 | exact X].
  - assert (L : exists w4,
        reduce_armor (IAnt n) (initial_armor c) w3 = Ok tt w4
        /\ ant (place_at w4 p) = None
        /\ ant_at w4 n = set_a_place None (set_a_armor 0 (ant_at w3 n))).
    { assert (Hq : ~ true_queen (ant_at w3 n)).
      { rewrite X. intros [Q _]. cbn in Q. now apply watersafe_not_queen in Ws. }
      assert (Hp3 : a_place (ant_at w3 n) = Some p) by now rewrite X.
      assert (Ha : a_armor (ant_at w3 n) - initial_armor c <= 0)
        by (rewrite X; cbn; lia).
      assert (Ha0 : a_armor (ant_at w3 n) - initial_armor c = 0)
        by (rewrite X; cbn; lia).
      unfold reduce_armor. unfold bind at 1. unfold get at 1.
      destruct (AntClass_eqb c FireAnt) eqn:Ef.
      - apply AntClass_eqb_eq in Ef. subst c.
        replace (cls (ant_at w3 n)) with FireAnt by now rewrite X.
        destruct (FireAnt_reduce_armor_lethal w3 n p (initial_armor FireAnt)
                    Hp3 S3 ltac:(now rewrite X) Ha)
          as (w4 & E4 & S4 & A4).
        + subst w3. wsimp. unfold upd.
          destruct (Nat.eqb p p); wsimp; rewrite P1; apply N.
        + intros b Hb. subst w3. wsimp. rewrite B1. apply B.
          revert Hb. wsimp. unfold upd. rewrite Nat.eqb_refl. wsimp.
          now rewrite P1.
        + exists w4. rewrite Ha0 in A4. now repeat split.
      - destruct (Insect_reduce_armor_lethal w3 n p (initial_armor c)
                    Hp3 S3 Hq Ha) as (w4 & E4 & S4 & A4).
        exists w4. rewrite Ha0 in A4.
        assert (Su : successor (ant_at w3 n) = None)
          by (rewrite X; unfold successor; cbn; now destruct (container c)).
        rewrite Su in S4.
        split; [|now split].
        rewrite <- E4. rewrite X. cbn [cls set_a_place made].
        destruct c; try reflexivity; discriminate Ef. }
    destruct L as (w4 & E4 & S4 & A4). rewrite E4.
    pose proof (keeps_ok thrift _ _ _ _
                  (thrift_reduce_armor (IAnt n) (initial_armor c)) E4)
      as [T1 T2].
    unfold modify. eexists. split; [reflexivity|]. wsimp.
    rewrite T1, F3, A4. conj; [reflexivity | exact S4 | reflexivity
                               | reflexivity].
Qed.

Definition wet_colony : World :=
  run (start_colony make_test_assault_plan implemented_types
                    (mixed_layout 3 1 3) 10)
      (initial_world (fun _ => O)).

Lemma bees_wf_wet_colony : bees_wf wet_colony.
Proof.
  split.
  - intros p.
    do 8 (destruct p as [|p];
          [vm_compute; repeat constructor; cbn; intuition discriminate|]).
    vm_compute. constructor.
  - intros p b. split.
    + intros Hin.
      do 8 (destruct p as [|p];
            [vm_compute in Hin;
             repeat (destruct Hin as [<-|Hin]; [by_compute|]); destruct Hin|]).
      vm_compute in Hin. destruct Hin.
    + intros Hb.
      do 3 (destruct b as [|b];
            [vm_compute in Hb; inversion Hb; subst p; vm_compute; tauto|]).
      vm_compute in Hb. discriminate Hb.
Qed.

Lemma deploy_into_water_witness :
  (exists w',
      AntColony_deploy_ant "water_0_2" "Thrower" wet_colony = Ok tt w'
      /\ food w' = 6
      /\ ant (place_at w' 6%nat) = None)
  /\ (exists w',
         AntColony_deploy_ant "water_0_2" "Scuba" wet_colony = Ok tt w'
         /\ food w' = 5
         /\ ant (place_at w' 6%nat) = Some 7%nat).
Proof.
  split.
  - destruct (deploy_into_water wet_colony "water_0_2" "Thrower"
                ThrowerAnt 6%nat)
      as (w' & E & F & S & _);
      [by_compute | vm_compute; discriminate | by_compute | by_compute
      | by_compute | exact bees_wf_wet_colony |].
    exists w'. split; [exact E|]. split; [rewrite F; by_compute | exact S].
  - destruct (deploy_into_water wet_colony "water_0_2" "Scuba"
                ScubaThrower 6%nat)
      as (w' & E & F & S & _);
      [by_compute | vm_compute; discriminate | by_compute | by_compute
      | by_compute | exact bees_wf_wet_colony |].
    exists w'. split; [exact E|]. split; [rewrite F; by_compute|].
    rewrite S. by_compute.
Defined.

(* ------------------------------------------------------------------ *)
(** ** Turns of bees and ants *)
(* ------------------------------------------------------------------ *)

(** *** What a bee does on its turn *)

(** A bee outside the hive that has armor left and that no ant blocks (its
    place has no ant, or an ant that does not block the path, as a
    [NinjaAnt]) moves to the exit of its place: it leaves the list of the
    place and joins the end of the list of the exit; its armor, the other
    bees and all ants are as before.  A bee in the hive that no ant blocks
    does nothing. *)
Theorem bee_moves_to_the_exit :
  forall w b q,
    bees_wf w ->
    b_place (bee_at w b) = Some q ->
    (forall a, ant (place_at w q) = Some a ->
               blocks_path (cls (ant_at w a)) = false) ->
    (name (place_at w q) = "Hive" -> Bee_action b w = Ok tt w)
    /\ forall e,
         name (place_at w q) <> "Hive" ->
         0 < b_armor (bee_at w b) ->
         exit (place_at w q) = Some e ->
         exists w',
           Bee_action b w = Ok tt w'
           /\ bee_at w' b = set_b_place (Some e) (bee_at w b)
           /\ (forall p, bees (place_at w' p)
                         = remove_first b (bees (place_at w p))
                           ++ if Nat.eqb p e then [b] else [])
           /\ (e <> q -> ~ In b (bees (place_at w' q)))
           /\ In b (bees (place_at w' e))
           /\ (forall b', b' <> b -> bee_at w' b' = bee_at w b')
           /\ (forall a, ant_at w' a = ant_at w a)
           /\ bees_wf w'.
Proof.
  intros w b q Hwf Hq Hfree.
  assert (Hb : Bee_blocked b w = Ok false w).
  { unfold Bee_blocked. unfold bind at 1. unfold get at 1. unfold at_place.
    cbn [place]. rewrite Hq. unfold ret.
    destruct (ant (place_at w q)) as [a|] eqn:Ha; [|reflexivity].
    now rewrite (Hfree a eq_refl). }
  assert (D : Bee_action b w
              = (if negb (String.eqb (name (place_at w q)) "Hive")
                    && (0 <? b_armor (bee_at w b))
                 then Bee_move_to b (exit (place_at w q))
                 else ret tt) w).
  { unfold Bee_action. unfold bind at 1. rewrite Hb.
    unfold bind at 1. unfold get at 1. unfold at_place. cbn [place].
    now rewrite Hq. }
  split.
  - intros Hn. rewrite D, Hn. reflexivity.
  - intros e Hn Ha He. rewrite D, He.
    apply String.eqb_neq in Hn. rewrite Hn.
    assert (Hlt : (0 <? b_armor (bee_at w b)) = true) by lia.
    rewrite Hlt. cbn [negb andb].
    destruct (Bee_move_to_spec w b q e Hwf Hq)
      as (w' & E & W & B & O & P & A & _).
    exists w'. split; [exact E|]. split; [exact B|].
    assert (Pb : forall p, bees (place_at w' p)
                           = remove_first b (bees (place_at w p))
                             ++ if Nat.eqb p e then [b] else [])
      by (intros p; now rewrite P).
    split; [exact Pb|]. split; [|split; [|split; [exact O|split;
      [exact A | exact W]]]].
    + intros Hne. rewrite Pb.
      destruct (Nat.eqb_spec q e) as [->|_]; [congruence|].
      rewrite app_nil_r. apply not_In_remove_first. apply Hwf.
    + rewrite Pb, Nat.eqb_refl. apply in_or_app. right. now left.
Qed.

Definition ninja_world : World :=
  run (AntColony_deploy_ant "tunnel_0_1" "Ninja" ;;
       Bee_move_to 0%nat (Some 6%nat) ;;
       Bee_move_to 0%nat (Some 5%nat))
      (small_colony 10).

Lemma bees_wf_ninja_world : bees_wf ninja_world.
Proof.
  assert (K : invariant bees_wf (small_colony 10) ninja_world).
  { unfold ninja_world. apply keeps_final; try typeclasses eauto.
    bees_tac. }
  exact (K bees_wf_small_colony).
Qed.

Lemma bee_moves_to_the_exit_witness :
  cls (ant_at ninja_world 7%nat) = NinjaAnt
  /\ ant (place_at ninja_world 5%nat) = Some 7%nat
  /\ b_place (bee_at ninja_world 0%nat) = Some 5%nat
  /\ exists w',
       Bee_action 0%nat ninja_world = Ok tt w'
       /\ b_place (bee_at w' 0%nat) = Some 4%nat.
Proof.
  conj; try by_compute.
  destruct (bee_moves_to_the_exit ninja_world 0%nat 5%nat
              bees_wf_ninja_world) as (_ & M).
  - by_compute.
  - intros a Ha. vm_compute in Ha. injection Ha as <-. by_compute.
  - destruct (M 4%nat) as (w' & E & B & _).
    + vm_compute. discriminate.
    + by_compute.
    + by_compute.
    + exists w'. split; [exact E|]. rewrite B. reflexivity.
Defined.

(** A bee that an ant blocks stings it: when the ant has more than one
    armor left, it loses one and nothing else changes; the bee stays. *)
Theorem blocked_bee_stings :
  forall w b q a,
    b_place (bee_at w b) = Some q ->
    ant (place_at w q) = Some a ->
    blocks_path (cls (ant_at w a)) = true ->
    1 < a_armor (ant_at w a) ->
    Bee_action b w
    = Ok tt (with_ants_at
               (upd (ant_at w) a
                    (set_a_armor (a_armor (ant_at w a) - 1) (ant_at w a)))
               w).
Proof.
  intros w b q a Hq Ha Hblk Harm.
  unfold Bee_action, Bee_blocked. unfold bind at 1. unfold bind at 1.
  unfold get at 1. unfold at_place at 1. cbn [place]. rewrite Hq.
  unfold ret at 1. rewrite Ha, Hblk.
  unfold bind at 1. unfold get at 1. unfold at_place. cbn [place].
  rewrite Hq, Ha. unfold Bee_sting, reduce_armor.
  unfold bind at 1. unfold get at 1.
  assert (Hgt : (a_armor (ant_at w a) - 1 <=? 0) = false) by lia.
  destruct (cls (ant_at w a));
    unfold FireAnt_reduce_armor, Insect_reduce_armor; mstep;
    cbn [armor]; wsimp; rewrite upd_same; wsimp; rewrite Hgt; reflexivity.
Qed.

Lemma blocked_bee_stings_witness :
  exists w',
    Bee_action 0%nat
      (run (AntColony_deploy_ant "tunnel_0_2" "Wall" ;;
            Bee_move_to 0%nat (Some 6%nat)) (small_colony 10))
    = Ok tt w'
    /\ a_armor (ant_at w' 7%nat) = 3.
Proof.
  eexists. split.
  - apply (blocked_bee_stings _ 0%nat 6%nat 7%nat);
      [by_compute | by_compute | by_compute | vm_compute; reflexivity].
  - by_compute.
Defined.

(** *** Damage to all bees of a place *)

(** The loop [for bee in bees: bee.reduce_armor(self.damage)] over bees
    that are in places, each once. *)
Lemma damage_loop_spec self : forall l w,
  bees_wf w ->
  NoDup l ->
  (forall b, In b l -> b_place (bee_at w b) <> None) ->
  exists w',
    for_each l (fun bee =>
      w <- get ;;
      Insect_reduce_armor (IBee bee) (a_damage (ant_at w self))) w
    = Ok tt w'
    /\ bees_wf w'
    /\ (forall a, ant_at w' a = ant_at w a)
    /\ (forall p, without_bees (place_at w' p) = without_bees (place_at w p))
    /\ (forall b, In b l ->
          b_armor (bee_at w' b)
          = b_armor (bee_at w b) - a_damage (ant_at w self)
          /\ b_place (bee_at w' b)
             = if b_armor (bee_at w b) - a_damage (ant_at w self) <=? 0
               then None else b_place (bee_at w b))
    /\ (forall b, ~ In b l -> bee_at w' b = bee_at w b).
Proof.
  induction l as [|b l IH]; intros w Hwf Hnd Hpl.
  - exists w. rewrite for_each_nil.
    split; [reflexivity|]. split; [exact Hwf|]. split; [reflexivity|].
    split; [reflexivity|]. split; [intros b []|reflexivity].
  - rewrite for_each_cons. unfold bind at 1. unfold get at 1.
    inversion Hnd as [|? ? Hb Hl]; subst.
    destruct (b_place (bee_at w b)) as [q|] eqn:Hq;
      [|exfalso; apply (Hpl b); [now left | exact Hq]].
    destruct (bee_reduce_armor_spec w b (a_damage (ant_at w self)) q Hwf Hq)
      as (w1 & E1 & W1 & Ar1 & O1 & A1 & P1 & C1).
    rewrite E1.
    destruct (IH w1 W1 Hl) as (w' & E & W & A & P & In1 & Out1).
    { intros b' Hb'. rewrite O1 by (intros ->; contradiction).
      apply Hpl. now right. }
    exists w'. split; [exact E|]. split; [exact W|].
    split; [intros a; now rewrite A, A1|].
    split; [intros p; now rewrite P, P1|].
    split.
    + intros b' [<-|Hb'].
      * rewrite (Out1 b Hb). split; [exact Ar1|].
        destruct (_ <=? 0); [apply C1 | rewrite Hq; apply C1].
      * destruct (In1 b' Hb') as (X1 & X2). rewrite A1 in X1, X2.
        assert (Hne : b' <> b) by (intros ->; contradiction).
        rewrite (O1 b' Hne) in X1, X2. now split.
    + intros b' Hb'.
      rewrite Out1 by (intros H; apply Hb'; now right).
      apply O1. intros ->. apply Hb'. now left.
Qed.

Lemma bees_wf_NoDup w p : bees_wf w -> NoDup (bees (place_at w p)).
Proof. intros [N _]. apply N. Qed.

Lemma bees_wf_place w p b :
  bees_wf w -> In b (bees (place_at w p)) -> b_place (bee_at w b) = Some p.
Proof. intros [_ B] H. now apply B. Qed.

(** The action of a [NinjaAnt] takes the damage of the ant from every bee
    of its place, once each; a bee left with no armor leaves the place,
    the others stay; the bees of other places and all ants are as before. *)
Theorem ninja_hits_every_bee_of_its_place :
  forall w a p,
    bees_wf w ->
    a_place (ant_at w a) = Some p ->
    exists w',
      NinjaAnt_action a w = Ok tt w'
      /\ (forall b, In b (bees (place_at w p)) ->
            b_armor (bee_at w' b)
            = b_armor (bee_at w b) - a_damage (ant_at w a)
            /\ (b_armor (bee_at w b) <= a_damage (ant_at w a) ->
                b_place (bee_at w' b) = None
                /\ ~ In b (bees (place_at w' p)))
            /\ (a_damage (ant_at w a) < b_armor (bee_at w b) ->
                b_place (bee_at w' b) = Some p
                /\ In b (bees (place_at w' p))))
      /\ (forall b, ~ In b (bees (place_at w p)) -> bee_at w' b = bee_at w b)
      /\ (forall x, ant_at w' x = ant_at w x)
      /\ bees_wf w'.
Proof.
  intros w a p Hwf Hp.
  unfold NinjaAnt_action. unfold bind at 1. unfold get at 1.
  unfold at_place. cbn [place]. rewrite Hp. unfold bind at 1. unfold ret at 1.
  destruct (damage_loop_spec a (bees (place_at w p)) w Hwf
              (bees_wf_NoDup w p Hwf))
    as (w' & E & W & A & P & In1 & Out1).
  { intros b Hb. rewrite (bees_wf_place w p b Hwf Hb). discriminate. }
  exists w'. split; [exact E|]. split; [|split; [exact Out1|split;
    [exact A | exact W]]].
  intros b Hb. destruct (In1 b Hb) as (X1 & X2).
  rewrite (bees_wf_place w p b Hwf Hb) in X2.
  split; [exact X1|]. split; intros Hc.
  - assert (Hle : (b_armor (bee_at w b) - a_damage (ant_at w a) <=? 0) = true)
      by lia.
    rewrite Hle in X2. split; [exact X2|].
    intros Hin. apply (bees_wf_place _ _ _ W) in Hin. congruence.
  - assert (Hle : (b_armor (bee_at w b) - a_damage (ant_at w a) <=? 0) = false)
      by lia.
    rewrite Hle in X2. split; [exact X2|]. now apply W.
Qed.

Lemma ninja_hits_every_bee_of_its_place_witness :
  exists w',
    NinjaAnt_action 7%nat ninja_world = Ok tt w'
    /\ b_armor (bee_at w' 0%nat) = 2
    /\ b_place (bee_at w' 0%nat) = Some 5%nat.
Proof.
  destruct (ninja_hits_every_bee_of_its_place ninja_world 7%nat 5%nat
              bees_wf_ninja_world) as (w' & E & H & _); [by_compute|].
  exists w'. split; [exact E|].
  destruct (H 0%nat) as (X1 & _ & X3); [vm_compute; tauto|].
  split.
  - rewrite X1. by_compute.
  - apply X3. vm_compute. reflexivity.
Defined.

(** What removing or adding an ant leaves alone: the bees. *)
Definition same_bees (w w' : World) : Prop :=
  (forall b, bee_at w' b = bee_at w b)
  /\ (forall p, bees (place_at w' p) = bees (place_at w p)).

#[export] Instance same_bees_frame : Frame same_bees.
Proof.
  split.
  - intros w. split; reflexivity.
  - intros w1 w2 w3 [A1 B1] [A2 B2]. split; intros x.
    + now rewrite A2, A1.
    + now rewrite B2, B1.
Qed.

Ltac same_bees_leaf := split; intros; upd_cases; reflexivity.

Lemma same_bees_Place_remove_ant p a :
  keeps same_bees (Place_remove_insect p (IAnt a)).
Proof. unfold Place_remove_insect. keeps_tac same_bees_leaf. Qed.

Lemma FireAnt_reduce_armor_eq a amount w p :
  a_place (ant_at w a) = Some p ->
  FireAnt_reduce_armor a amount w
  = (if a_armor (ant_at w a) - amount <=? 0
     then for_each (bees (place_at w p)) (fun bee =>
            w <- get ;;
            Insect_reduce_armor (IBee bee) (a_damage (ant_at w a))) ;;
          w <- get ;;
          at_place w (IAnt a) (fun p => Place_remove_insect p (IAnt a))
     else ret tt)
      (with_ants_at
         (upd (ant_at w) a
              (set_a_armor (a_armor (ant_at w a) - amount) (ant_at w a))) w).
Proof.
  intros Hp. unfold FireAnt_reduce_armor.
  unfold bind at 1. unfold get at 1. unfold bind at 1.
  unfold set_armor, write_ant, modify. cbn [armor].
  unfold bind at 1. unfold get at 1. cbn [armor]. wsimp. rewrite upd_same.
  wsimp. destruct (_ <=? 0); [|reflexivity].
  unfold at_place at 1. cbn [place]. wsimp. rewrite upd_same. wsimp.
  rewrite Hp. unfold bind at 1. unfold ret at 1. reflexivity.
Qed.

(** A [FireAnt] that loses its last armor takes its damage from every bee
    of its place, once each, before it leaves the slot; a bee left with no
    armor leaves the place; the bees of other places are as before.  A
    [FireAnt] that keeps some armor changes nothing but its armor. *)
Theorem dying_fire_ant_burns_its_place :
  forall w a p amount,
    bees_wf w ->
    cls (ant_at w a) = FireAnt ->
    a_place (ant_at w a) = Some p ->
    ant (place_at w p) = Some a ->
    (amount < a_armor (ant_at w a) ->
     reduce_armor (IAnt a) amount w
     = Ok tt (with_ants_at
                (upd (ant_at w) a
                     (set_a_armor (a_armor (ant_at w a) - amount) (ant_at w a)))
                w))
    /\ (a_armor (ant_at w a) <= amount ->
        exists w',
          reduce_armor (IAnt a) amount w = Ok tt w'
          /\ (forall b, In b (bees (place_at w p)) ->
                b_armor (bee_at w' b)
                = b_armor (bee_at w b) - a_damage (ant_at w a)
                /\ (b_armor (bee_at w b) <= a_damage (ant_at w a) ->
                    b_place (bee_at w' b) = None
                    /\ ~ In b (bees (place_at w' p)))
                /\ (a_damage (ant_at w a) < b_armor (bee_at w b) ->
                    b_place (bee_at w' b) = Some p
                    /\ In b (bees (place_at w' p))))
          /\ (forall b, ~ In b (bees (place_at w p)) ->
                bee_at w' b = bee_at w b)
          /\ ant (place_at w' p) = None
          /\ a_place (ant_at w' a) = None
          /\ bees_wf w').
Proof.
  intros w a p amount Hwf Hc Hp Hs.
  assert (D : reduce_armor (IAnt a) amount w = FireAnt_reduce_armor a amount w).
  { unfold reduce_armor. unfold bind at 1. unfold get at 1. now rewrite Hc. }
  rewrite D, (FireAnt_reduce_armor_eq a amount w p Hp). clear D.
  set (w1 := with_ants_at _ w).
  assert (A1 : ant_at w1 a
               = set_a_armor (a_armor (ant_at w a) - amount) (ant_at w a))
    by (subst w1; wsimp; now rewrite upd_same).
  split; intros Harm.
  - assert (Hgt : (a_armor (ant_at w a) - amount <=? 0) = false) by lia.
    rewrite Hgt. reflexivity.
  - assert (Hle : (a_armor (ant_at w a) - amount <=? 0) = true) by lia.
    rewrite Hle.
    assert (Hwf1 : bees_wf w1) by (revert Hwf; apply bees_wf_ext; reflexivity).
    destruct (damage_loop_spec a (bees (place_at w p)) w1 Hwf1
                (bees_wf_NoDup w p Hwf))
      as (w2 & E2 & W2 & A2 & P2 & In2 & Out2).
    { intros b Hb. change (bee_at w1 b) with (bee_at w b).
      rewrite (bees_wf_place w p b Hwf Hb). discriminate. }
    unfold bind at 1. rewrite E2. unfold bind at 1. unfold get at 1.
    unfold at_place. cbn [place]. rewrite A2, A1. wsimp. rewrite Hp.
    assert (S2 : ant (place_at w2 p) = Some a).
    { change (ant (without_bees (place_at w2 p)) = Some a).
      rewrite P2. exact Hs. }
    assert (Q2 : ~ true_queen (ant_at w2 a)).
    { rewrite A2, A1. intros [Q _]. cbn in Q. congruence. }
    destruct (Place_remove_ant_ok w2 a p S2 Q2) as (w' & E & S & A).
    rewrite E. exists w'. split; [reflexivity|].
    pose proof (bees_wf_Place_remove_ant p a w2) as K. rewrite E in K.
    specialize (K W2).
    assert (B' : forall b, bee_at w' b = bee_at w2 b)
      by apply (keeps_ok same_bees _ _ _ _ (same_bees_Place_remove_ant p a) E).
    assert (Da : a_damage (ant_at w1 a) = a_damage (ant_at w a))
      by now rewrite A1.
    split; [|split; [|split; [|split; [|exact K]]]].
    + intros b Hb. destruct (In2 b Hb) as (X1 & X2).
      rewrite Da in X1, X2. change (bee_at w1 b) with (bee_at w b) in X1, X2.
      rewrite (bees_wf_place w p b Hwf Hb) in X2. rewrite B'.
      split; [exact X1|]. split; intros Hcmp.
      * assert (Hl : (b_armor (bee_at w b) - a_damage (ant_at w a) <=? 0) = true)
          by lia.
        rewrite Hl in X2. split; [exact X2|].
        intros Hin. apply (bees_wf_place _ _ _ K) in Hin. rewrite B' in Hin.
        congruence.
      * assert (Hl : (b_armor (bee_at w b) - a_damage (ant_at w a) <=? 0) = false)
          by lia.
        rewrite Hl in X2. split; [exact X2|]. apply K. now rewrite B'.
    + intros b Hb. rewrite B'. now apply Out2.
    + rewrite S. unfold successor. rewrite A2, A1. wsimp. now rewrite Hc.
    + now rewrite A.
Qed.

Definition fire_world : World :=
  run (AntColony_deploy_ant "tunnel_0_2" "Fire" ;;
       Bee_move_to 0%nat (Some 6%nat))
      (small_colony 10).

Lemma bees_wf_fire_world : bees_wf fire_world.
Proof.
  assert (K : invariant bees_wf (small_colony 10) fire_world).
  { unfold fire_world. apply keeps_final; try typeclasses eauto. bees_tac. }
  exact (K bees_wf_small_colony).
Qed.

Lemma dying_fire_ant_burns_its_place_witness :
  exists w',
    reduce_armor (IAnt 7%nat) 1 fire_world = Ok tt w'
    /\ b_armor (bee_at w' 0%nat) = 0
    /\ b_place (bee_at w' 0%nat) = None
    /\ ant (place_at w' 6%nat) = None.
Proof.
  destruct (dying_fire_ant_burns_its_place fire_world 7%nat 6%nat 1
              bees_wf_fire_world) as (_ & H);
    [by_compute | by_compute | by_compute |].
  destruct H as (w' & E & B & _ & S & _); [vm_compute; discriminate|].
  exists w'. split; [exact E|].
  destruct (B 0%nat) as (X1 & X2 & _); [vm_compute; tauto|].
  split; [rewrite X1; by_compute|].
  split; [apply X2; vm_compute; discriminate | exact S].
Defined.

(** *** The leaf of a thrower *)

(** When the entrances lead from the place of a thrower to the hive, its
    action returns; it takes the damage of the thrower from the bee that
    [nearest_bee] returns, which leaves its place when no armor is left,
    and changes no other bee and no ant; when [nearest_bee] returns [None]
    no bee, ant or place changes. *)
Theorem thrower_hits_the_nearest_bee_only :
  forall fuel w a k,
    bees_wf w ->
    nth_entrance w (a_place (ant_at w a)) k = Some (hive w) ->
    (k < fuel)%nat ->
    cls (ant_at w a) <> SlowThrower ->
    cls (ant_at w a) <> StunThrower ->
    exists r w0 w',
      ThrowerAnt_nearest_bee fuel a (hive w) w = Ok r w0
      /\ ThrowerAnt_action fuel a w = Ok tt w'
      /\ (forall x, ant_at w' x = ant_at w x)
      /\ bees_wf w'
      /\ match r with
         | None =>
             (forall b, bee_at w' b = bee_at w b)
             /\ (forall p, place_at w' p = place_at w p)
         | Some b =>
             b_armor (bee_at w' b)
             = b_armor (bee_at w b) - a_damage (ant_at w a)
             /\ b_place (bee_at w' b)
                = (if b_armor (bee_at w b) - a_damage (ant_at w a) <=? 0
                   then None else b_place (bee_at w b))
             /\ (forall b', b' <> b -> bee_at w' b' = bee_at w b')
         end.
Proof.
  intros fuel w a k Hwf Hk Hf Hslow Hstun.
  unfold ThrowerAnt_action. unfold bind at 1. unfold get at 1.
  unfold ThrowerAnt_nearest_bee. unfold bind at 1 3. unfold get at 1 2.
  destruct (nearest_bee_loop_total a (hive w) k fuel w
              (a_place (ant_at w a)) 0 Hk Hf) as (r & w0 & E).
  exists r, w0. unfold bind at 1. rewrite E.
  apply nearest_bee_loop_sound in E. destruct E as (F & Ep & Ea & Eb & _).
  assert (Hwf0 : bees_wf w0)
    by (revert Hwf; apply bees_wf_ext; intros; now rewrite ?Ep, ?Eb).
  assert (T : throw_at a r w0 = ThrowerAnt_throw_at a r w0).
  { unfold throw_at. unfold bind at 1. unfold get at 1. rewrite Ea.
    destruct (cls (ant_at w a)); congruence. }
  rewrite T. destruct r as [b|].
  - cbn [found] in F. destruct F as (n & p & _ & _ & _ & Hin & _).
    pose proof (bees_wf_place w p b Hwf Hin) as Hp.
    unfold ThrowerAnt_throw_at. unfold bind at 1. unfold get at 1.
    unfold reduce_armor. rewrite Ea.
    destruct (bee_reduce_armor_spec w0 b (a_damage (ant_at w a)) p Hwf0)
      as (w' & E' & W' & Ar & O & A & P & C).
    { now rewrite Eb. }
    exists w'. split; [reflexivity|]. split; [exact E'|].
    split; [intros x; now rewrite A, Ea|]. split; [exact W'|].
    rewrite Eb in Ar, C. split; [exact Ar|]. split.
    + destruct (_ <=? 0); [apply C | rewrite Hp; apply C].
    + intros b' Hb'. rewrite O by exact Hb'. now rewrite Eb.
  - exists w0. cbn [ThrowerAnt_throw_at]. unfold ret.
    split; [reflexivity|]. split; [reflexivity|].
    split; [intros x; now rewrite Ea|]. split; [exact Hwf0|].
    split; [intros b; now rewrite Eb | intros p; now rewrite Ep].
Qed.

Lemma bees_wf_short_thrower_world : bees_wf short_thrower_world.
Proof.
  assert (K : invariant bees_wf (small_colony 10) short_thrower_world).
  { unfold short_thrower_world. apply keeps_final; try typeclasses eauto.
    bees_tac. }
  exact (K bees_wf_small_colony).
Qed.

Lemma thrower_hits_the_nearest_bee_only_witness :
  exists w',
    ThrowerAnt_action 4 7%nat short_thrower_world = Ok tt w'
    /\ b_armor (bee_at w' 0%nat) = 2
    /\ bee_at w' 1%nat = bee_at short_thrower_world 1%nat.
Proof.
  destruct (thrower_hits_the_nearest_bee_only 4 short_thrower_world 7%nat 3
              bees_wf_short_thrower_world)
    as (r & w0 & w' & En & E & _ & _ & H);
    [by_compute | lia | vm_compute; discriminate | vm_compute; discriminate|].
  destruct short_thrower_finds_bee as (w0' & En').
  rewrite En' in En. injection En as <- _.
  destruct H as (X1 & _ & X3).
  exists w'. split; [exact E|]. split; [rewrite X1; by_compute|].
  apply X3. discriminate.
Defined.

(** *** The hive sends its waves *)

Lemma random_choice_spec l w :
  l <> [] ->
  exists e,
    random_choice l w = Ok e (with_rng (fun n => rng w (S n)) w)
    /\ In e l.
Proof.
  intros Hl. unfold random_choice. destruct l as [|x l']; [congruence|].
  eexists. split; [reflexivity|].
  apply nth_In, Nat.mod_upper_bound. discriminate.
Qed.

(** The loop of [Hive.strategy] over bees that are in places. *)
Lemma wave_loop_spec exits :
  exits <> [] ->
  forall l w,
    bees_wf w ->
    (forall b, In b l -> b_place (bee_at w b) <> None) ->
    exists w',
      for_each l (fun bee =>
        e <- random_choice exits ;; Bee_move_to bee (Some e)) w = Ok tt w'
      /\ bees_wf w'
      /\ (forall b, In b l ->
            exists e, b_place (bee_at w' b) = Some e /\ In e exits)
      /\ (forall b, ~ In b l -> bee_at w' b = bee_at w b)
      /\ (forall b, b_armor (bee_at w' b) = b_armor (bee_at w b))
      /\ (forall a, ant_at w' a = ant_at w a).
Proof.
  intros Hex. induction l as [|b l IH]; intros w Hwf Hpl.
  - exists w. rewrite for_each_nil.
    split; [reflexivity|]. split; [exact Hwf|]. split; [intros b []|].
    repeat split.
  - rewrite for_each_cons.
    destruct (random_choice_spec exits w Hex) as (e & Er & He).
    unfold bind at 1. rewrite Er. cbv beta iota.
    set (w1 := with_rng _ w).
    assert (Hwf1 : bees_wf w1) by (revert Hwf; apply bees_wf_ext; reflexivity).
    destruct (b_place (bee_at w b)) as [q|] eqn:Hq;
      [|exfalso; apply (Hpl b); [now left | exact Hq]].
    destruct (Bee_move_to_spec w1 b q e Hwf1 Hq)
      as (w2 & E2 & W2 & B2 & O2 & P2 & A2 & _).
    assert (Hpl2 : forall b', In b' l -> b_place (bee_at w2 b') <> None).
    { intros b' Hb'. destruct (Nat.eq_dec b' b) as [->|Hne].
      - rewrite B2. discriminate.
      - rewrite O2 by exact Hne. apply Hpl. now right. }
    destruct (IH w2 W2 Hpl2) as (w' & E & W & In1 & Out1 & Ar1 & A1).
    assert (E2' : Bee_move_to b (@Some nat e) w1 = Ok tt w2) by exact E2.
    exists w'. split; [rewrite E2'; exact E|]. split; [exact W|].
    split; [|split; [|split]].
    + intros b' [<-|Hb']; [|now apply In1].
      destruct (in_dec Nat.eq_dec b l) as [Hin|Hout]; [now apply In1|].
      exists e. rewrite (Out1 b Hout), B2. now split.
    + intros b' Hb'. rewrite Out1 by (intros H; apply Hb'; now right).
      apply O2. intros ->. apply Hb'. now left.
    + intros b'. rewrite Ar1. destruct (Nat.eq_dec b' b) as [->|Hne].
      * now rewrite B2.
      * now rewrite O2.
    + intros a. now rewrite A1, A2.
Qed.

(** [Hive.strategy] with the wave that the plan has for the time of the
    colony: with no such wave nothing changes; with no registered place
    whose entrance is the hive, an [IndexError] is raised before any bee
    has moved; otherwise every bee of the wave ends in a registered place
    whose entrance is the hive, with its armor, and no other bee and no
    ant changes. *)
Theorem hive_sends_the_wave :
  forall w h,
    bees_wf w ->
    (forall b, In b (plan_get (time w) (waves (assault_plan (place_at w h)))) ->
               b_place (bee_at w b) <> None) ->
    let wave := plan_get (time w) (waves (assault_plan (place_at w h))) in
    let exits := filter (fun p => opt_eqb (entrance (place_at w p)) h)
                        (dict_values (places w)) in
    (wave = [] -> Hive_strategy h w = Ok tt w)
    /\ (wave <> [] -> exits = [] -> Hive_strategy h w = Raise IndexError w)
    /\ (exits <> [] ->
        exists w',
          Hive_strategy h w = Ok tt w'
          /\ bees_wf w'
          /\ (forall b, In b wave ->
                exists e,
                  b_place (bee_at w' b) = Some e
                  /\ In e (dict_values (places w))
                  /\ entrance (place_at w e) = Some h)
          /\ (forall b, ~ In b wave -> bee_at w' b = bee_at w b)
          /\ (forall b, b_armor (bee_at w' b) = b_armor (bee_at w b))
          /\ (forall a, ant_at w' a = ant_at w a)).
Proof.
  intros w h Hwf Hpl wave exits.
  unfold Hive_strategy. unfold bind at 1 2 3. unfold get at 1 2 3.
  fold wave. fold exits. split; [|split].
  - intros ->. reflexivity.
  - intros Hw ->. destruct wave as [|b l]; [congruence|].
    rewrite for_each_cons. reflexivity.
  - intros Hex.
    destruct (wave_loop_spec exits Hex wave w Hwf Hpl)
      as (w' & E & W & In1 & Out1 & Ar1 & A1).
    exists w'. split; [exact E|]. split; [exact W|].
    split; [|split; [exact Out1|split; [exact Ar1 | exact A1]]].
    intros b Hb. destruct (In1 b Hb) as (e & He & Hin).
    exists e. split; [exact He|].
    apply filter_In in Hin as (Hin & Hent). split; [exact Hin|].
    now apply opt_eqb_true.
Qed.

Lemma bees_wf_with_time t w : bees_wf w -> bees_wf (with_time t w).
Proof. apply bees_wf_ext; reflexivity. Qed.

Lemma hive_sends_the_wave_witness :
  exists w',
    Hive_strategy 2%nat (with_time 2 (small_colony 10)) = Ok tt w'
    /\ b_place (bee_at w' 0%nat) = Some 6%nat.
Proof.
  destruct (hive_sends_the_wave (with_time 2 (small_colony 10)) 2%nat)
    as (_ & _ & H).
  - apply bees_wf_with_time. exact bees_wf_small_colony.
  - intros b Hb. vm_compute in Hb. destruct Hb as [<-|[]].
    vm_compute. discriminate.
  - destruct H as (w' & E & _ & In1 & _); [vm_compute; discriminate|].
    exists w'. split; [exact E|].
    destruct (In1 0%nat) as (e & He & Hin & Hent); [vm_compute; tauto|].
    rewrite He. f_equal.
    vm_compute in Hin.
    destruct Hin as [<-|[<-|[<-|[<-|[]]]]];
      first [reflexivity | vm_compute in Hent; discriminate Hent].
Defined.

(** *** The hungry ant *)

Lemma bees_wf_open_colony : bees_wf (open_colony 3 1 20).
Proof.
  split.
  - intros p.
    do 8 (destruct p as [|p];
          [vm_compute; repeat constructor; cbn; intuition discriminate|]).
    vm_compute. constructor.
  - intros p b. split.
    + intros Hin.
      do 8 (destruct p as [|p];
            [vm_compute in Hin;
             repeat (destruct Hin as [<-|Hin]; [by_compute|]); destruct Hin|]).
      vm_compute in Hin. destruct Hin.
    + intros Hb.
      do 3 (destruct b as [|b];
            [vm_compute in Hb; inversion Hb; subst p; vm_compute; tauto|]).
      vm_compute in Hb. discriminate Hb.
Qed.

(** A [HungryAnt] that is digesting only counts down.  One that is not
    eats a bee of its place, if there is one: that bee is left with no
    armor and no place, whatever its armor was, no other bee changes, and
    the ant digests for [time_to_digest] turns; with no bee in its place it
    does nothing.  So for three turns after a meal its action changes no
    bee. *)
Theorem hungry_ant_eats_then_digests :
  forall w a p,
    bees_wf w ->
    a_place (ant_at w a) = Some p ->
    (0 < digesting (ant_at w a) ->
     HungryAnt_action a w
     = Ok tt (with_ants_at
                (upd (ant_at w) a
                     (set_digesting (digesting (ant_at w a) - 1) (ant_at w a)))
                w))
    /\ (digesting (ant_at w a) <= 0 -> bees (place_at w p) = [] ->
        HungryAnt_action a w = Ok tt w)
    /\ (digesting (ant_at w a) <= 0 -> bees (place_at w p) <> [] ->
        exists b w',
          In b (bees (place_at w p))
          /\ HungryAnt_action a w = Ok tt w'
          /\ b_armor (bee_at w' b) = 0
          /\ b_place (bee_at w' b) = None
          /\ ~ In b (bees (place_at w' p))
          /\ (forall b', b' <> b -> bee_at w' b' = bee_at w b')
          /\ digesting (ant_at w' a) = time_to_digest)
    /\ (digesting (ant_at w a) = time_to_digest ->
        exists w',
          (HungryAnt_action a ;; HungryAnt_action a ;; HungryAnt_action a) w
          = Ok tt w'
          /\ digesting (ant_at w' a) = 0
          /\ (forall b, bee_at w' b = bee_at w b)
          /\ (forall q, place_at w' q = place_at w q)).
Proof.
  intros w a p Hwf Hp.
  assert (Step : forall w0, 0 < digesting (ant_at w0 a) ->
            HungryAnt_action a w0
            = Ok tt (with_ants_at
                       (upd (ant_at w0) a
                            (set_digesting (digesting (ant_at w0 a) - 1)
                                           (ant_at w0 a))) w0)).
  { intros w0 Hd. unfold HungryAnt_action. unfold bind at 1. unfold get at 1.
    assert (Hlt : (0 <? digesting (ant_at w0 a)) = true) by lia.
    rewrite Hlt. reflexivity. }
  split; [apply Step|]. split; [|split].
  - intros Hd He. unfold HungryAnt_action. unfold bind at 1. unfold get at 1.
    assert (Hlt : (0 <? digesting (ant_at w a)) = false) by lia.
    rewrite Hlt. unfold at_place. cbn [place]. rewrite Hp, He. reflexivity.
  - intros Hd Hne. unfold HungryAnt_action. unfold bind at 1. unfold get at 1.
    assert (Hlt : (0 <? digesting (ant_at w a)) = false) by lia.
    rewrite Hlt. unfold at_place. cbn [place]. rewrite Hp.
    unfold bind at 1. unfold ret at 1.
    destruct (random_or_none_spec (bees (place_at w p)) w)
      as (r & w1 & Er & Ep & Ea & Eb & _ & Hr).
    destruct r as [b|]; [|contradiction].
    exists b. unfold bind at 1. rewrite Er. cbn [HungryAnt_eat_bee].
    unfold bind at 1. unfold get at 1.
    assert (Hwf1 : bees_wf w1)
      by (revert Hwf; apply bees_wf_ext; intros; now rewrite ?Ep, ?Eb).
    pose proof (bees_wf_place w p b Hwf Hr) as Hbp.
    destruct (bee_reduce_armor_spec w1 b (b_armor (bee_at w1 b)) p Hwf1)
      as (w2 & E2 & W2 & Ar & O & A & P & C).
    { now rewrite Eb. }
    unfold reduce_armor. unfold bind at 1. rewrite E2.
    replace (b_armor (bee_at w1 b) - b_armor (bee_at w1 b)) with 0 in * by lia.
    cbn [Z.leb Z.compare] in C. destruct C as (C1 & C2 & _).
    eexists. split; [exact Hr|]. split; [reflexivity|].
    unfold write_ant, modify. wsimp. rewrite upd_same. wsimp.
    split; [exact Ar|]. split; [exact C1|]. split; [|split; [|reflexivity]].
    + rewrite C2, Ep. apply not_In_remove_first, Hwf.
    + intros b' Hb'. rewrite O by exact Hb'. now rewrite Eb.
  - intros Hd. unfold time_to_digest in Hd.
    unfold bind at 1. rewrite Step by lia.
    unfold bind at 1. rewrite Step by (wsimp; rewrite upd_same; wsimp; lia).
    rewrite Step by (wsimp; rewrite !upd_same; wsimp; lia).
    eexists. split; [reflexivity|]. wsimp. rewrite !upd_same. wsimp.
    split; [lia|]. split; reflexivity.
Qed.

Definition hungry_world : World :=
  run (AntColony_deploy_ant "tunnel_0_2" "Hungry" ;;
       Bee_move_to 0%nat (Some 6%nat))
      (open_colony 3 1 20).

Lemma bees_wf_hungry_world : bees_wf hungry_world.
Proof.
  assert (K : invariant bees_wf (open_colony 3 1 20) hungry_world).
  { unfold hungry_world. apply keeps_final; try typeclasses eauto. bees_tac. }
  exact (K bees_wf_open_colony).
Qed.

Lemma hungry_ant_eats_then_digests_witness :
  exists w',
    HungryAnt_action 7%nat hungry_world = Ok tt w'
    /\ b_place (bee_at w' 0%nat) = None
    /\ digesting (ant_at w' 7%nat) = 3.
Proof.
  destruct (hungry_ant_eats_then_digests hungry_world 7%nat 6%nat
              bees_wf_hungry_world) as (_ & _ & H & _); [by_compute|].
  destruct H as (b & w' & Hin & E & _ & Bp & _ & _ & D);
    [vm_compute; discriminate | vm_compute; discriminate|].
  vm_compute in Hin. destruct Hin as [<-|[]].
  exists w'. split; [exact E|]. split; [exact Bp | exact D].
Defined.

(** *** The ant types of a colony *)

(** [ant_types()] returns (its loop given four iterations or more); the
    list has every implemented class once and no other class; and the
    dictionary that [AntColony.__init__] makes of it has each of these
    classes under its own name. *)
Theorem ant_types_are_the_implemented_classes :
  forall fuel,
    (4 <= fuel)%nat ->
    exists types d,
      ant_types_fn fuel = Some types
      /\ NoDup types
      /\ (forall c, In c types <-> implemented c = true)
      /\ registry types [] = Some d
      /\ (forall c, In c types ->
            exists n, class_name c = Some n /\ dict_get n d = Some c)
      /\ List.length d = List.length types.
Proof.
  intros fuel Hf. rewrite (ant_types_fn_total fuel Hf).
  exists implemented_types.
  assert (E : exists d, registry implemented_types [] = Some d
                        /\ d = [("Harvester", HarvesterAnt);
                                ("Thrower", ThrowerAnt);
                                ("Fire", FireAnt); ("Wall", WallAnt);
                                ("Ninja", NinjaAnt);
                                ("Bodyguard", BodyguardAnt);
                                ("Remover", AntRemover);
                                ("Long", LongThrower);
                                ("Short", ShortThrower);
                                ("Scuba", ScubaThrower)])
    by (eexists; split; by_compute).
  destruct E as (d & Ed & Hd). exists d.
  split; [reflexivity|]. split; [|split; [|split; [exact Ed|split]]].
  - vm_compute. repeat constructor; cbn; intuition discriminate.
  - intros c. destruct c; vm_compute; intuition discriminate.
  - intros c Hc. subst d. vm_compute in Hc.
    repeat (destruct Hc as [<-|Hc]; [eexists; split; by_compute|]).
    destruct Hc.
  - subst d. reflexivity.
Qed.

Lemma ant_types_are_the_implemented_classes_witness :
  exists types,
    ant_types_fn 4 = Some types
    /\ (In QueenAnt types <-> implemented QueenAnt = true)
    /\ In ThrowerAnt types.
Proof.
  destruct (ant_types_are_the_implemented_classes 4) as (types & d & E & _ & H & _);
    [lia|].
  exists types. split; [exact E|]. split; [apply H|].
  apply H. reflexivity.
Defined.

(** *** What a game never changes *)

(** A game changes no class, name, exit, entrance or plan of a place, no
    entry of [colony.places], and not [colony.hive], [bee_entrances] or
    [ant_types], provided the strategy changes none (as [deploy_ant] and
    [remove_ant]). *)
Theorem a_game_never_rewires_the_colony :
  forall fuel strategy w,
    keeps static strategy ->
    ends_with (AntColony_simulate fuel strategy w) (fun w' =>
      (forall p, pclass (place_at w' p) = pclass (place_at w p)
                 /\ name (place_at w' p) = name (place_at w p)
                 /\ exit (place_at w' p) = exit (place_at w p)
                 /\ entrance (place_at w' p) = entrance (place_at w p)
                 /\ assault_plan (place_at w' p) = assault_plan (place_at w p))
      /\ places w' = places w
      /\ hive w' = hive w
      /\ bee_entrances w' = bee_entrances w
      /\ ant_types w' = ant_types w).
Proof.
  intros fuel strategy w Hs.
  pose proof (static_simulate strategy Hs fuel w) as K.
  assert (G : forall w', static w w' ->
    (forall p, pclass (place_at w' p) = pclass (place_at w p)
               /\ name (place_at w' p) = name (place_at w p)
               /\ exit (place_at w' p) = exit (place_at w p)
               /\ entrance (place_at w' p) = entrance (place_at w p)
               /\ assault_plan (place_at w' p) = assault_plan (place_at w p))
    /\ places w' = places w
    /\ hive w' = hive w
    /\ bee_entrances w' = bee_entrances w
    /\ ant_types w' = ant_types w).
  { intros w' [L Y]. split.
    - intros p. specialize (L p). unfold links in L.
      injection L as L1 L2 L3 L4 L5. now repeat split.
    - unfold layout_of in Y. injection Y as Y1 Y2 Y3 Y4. now repeat split. }
  destruct (AntColony_simulate fuel strategy w); cbn [ends_with];
    [now apply G | now apply G | exact I].
Qed.

Lemma a_game_never_rewires_the_colony_witness :
  exists w',
    AntColony_simulate 10 (AntColony_deploy_ant "tunnel_0_0" "Thrower")
                       (small_colony 10)
    = Raise AssertionError w'
    /\ time w' = 1
    /\ places w' = places (small_colony 10)
    /\ hive w' = hive (small_colony 10).
Proof.
  pose proof (a_game_never_rewires_the_colony
                10 (AntColony_deploy_ant "tunnel_0_0" "Thrower")
                (small_colony 10) (static_deploy_ant _ _)) as H.
  set (o := AntColony_simulate _ _ _) in *.
  assert (E : exists w', o = Raise AssertionError w' /\ time w' = 1).
  { subst o. eexists. split; by_compute. }
  clearbody o. destruct E as (w' & -> & T). exists w'.
  cbn [ends_with] in H. destruct H as (_ & P & Hv & _).
  split; [reflexivity|]. split; [exact T|]. split; assumption.
Defined.

(* ------------------------------------------------------------------ *)
(** ** The end of a game, the place of the queen, removing ants *)
(* ------------------------------------------------------------------ *)

(** *** How a game ends *)

(** [colony.queen.bees] as a value: the bees of the place of the colony
    queen and, once the queen ant has acted, of her place too. *)
Definition bees_at_queen (w : World) : option (list BeeId) :=
  match queen w with
  | QPlace q => Some (bees (place_at w q))
  | QueenPlace q (Some p) => Some (bees (place_at w q) ++ bees (place_at w p))
  | QueenPlace q None => None
  end.

Lemma queen_bees_eq w :
  queen_bees w = match bees_at_queen w with
                 | Some l => Ok l w
                 | None => Raise AttributeError w
                 end.
Proof.
  unfold queen_bees, bees_at_queen. unfold bind, get.
  destruct (queen w) as [q|q [p|]]; reflexivity.
Qed.

Lemma simulate_eq fuel strategy w :
  AntColony_simulate fuel strategy w
  = match bees_at_queen w with
    | None => Raise AttributeError w
    | Some (_ :: _) => Ok lost (with_out (out w ++ [Perished]) w)
    | Some [] =>
        match AntColony_bees w with
        | [] => Ok won (with_out (out w ++ [Vanquished]) w)
        | _ :: _ =>
            match fuel with
            | O => OutOfFuel
            | S fuel' =>
                (Hive_strategy (hive w) ;;
                 strategy ;;
                 w <- get ;;
                 for_each (AntColony_ants w) (fun a =>
                   w <- get ;;
                   if 0 <? a_armor (ant_at w a) then Ant_action fuel a
                   else ret tt) ;;
                 w <- get ;;
                 for_each (AntColony_bees w) (fun b =>
                   w <- get ;;
                   if 0 <? b_armor (bee_at w b) then Bee_action b
                   else ret tt) ;;
                 modify (fun w => with_time (time w + 1) w) ;;
                 AntColony_simulate fuel' strategy) w
            end
        end
    end.
Proof.
  destruct fuel; cbn [AntColony_simulate]; unfold bind at 1;
    rewrite queen_bees_eq; destruct (bees_at_queen w) as [[|b l]|];
    try reflexivity; unfold bind at 1; unfold get at 1;
    destruct (AntColony_bees w); reflexivity.
Qed.

(** A game that returns has printed that the queen has perished, with a
    bee at the queen, or that all bees are vanquished, with no bee at the
    queen and none in any registered place; and nothing after that.  With
    a bee at the queen no turn is played; with no bee anywhere neither. *)
Theorem how_a_game_ends :
  forall strategy,
    (forall fuel w r w',
        AntColony_simulate fuel strategy w = Ok r w' ->
        exists w0,
          match r with
          | lost =>
              w' = with_out (out w0 ++ [Perished]) w0
              /\ exists b l, bees_at_queen w0 = Some (b :: l)
          | won =>
              w' = with_out (out w0 ++ [Vanquished]) w0
              /\ bees_at_queen w0 = Some []
              /\ AntColony_bees w0 = []
          end)
    /\ (forall fuel w b l,
           bees_at_queen w = Some (b :: l) ->
           AntColony_simulate fuel strategy w
           = Ok lost (with_out (out w ++ [Perished]) w))
    /\ (forall fuel w,
           bees_at_queen w = Some [] ->
           AntColony_bees w = [] ->
           AntColony_simulate fuel strategy w
           = Ok won (with_out (out w ++ [Vanquished]) w)).
Proof.
  intros strategy. split; [|split].
  - induction fuel as [|fuel IH]; intros w r w' E; rewrite simulate_eq in E;
      destruct (bees_at_queen w) as [[|b l]|] eqn:Q; try discriminate E.
    + destruct (AntColony_bees w) eqn:B; [|discriminate E].
      injection E as <- <-. exists w. now repeat split.
    + injection E as <- <-. exists w. split; [reflexivity|]. now exists b, l.
    + destruct (AntColony_bees w) eqn:B.
      * injection E as <- <-. exists w. now repeat split.
      * repeat (apply bind_Ok_inv in E; destruct E as (? & ? & _ & E)).
        now apply IH in E.
    + injection E as <- <-. exists w. split; [reflexivity|]. now exists b, l.
  - intros fuel w b l Q. rewrite simulate_eq, Q. reflexivity.
  - intros fuel w Q B. rewrite simulate_eq, Q, B. reflexivity.
Qed.

Lemma how_a_game_ends_witness :
  exists w',
    AntColony_simulate 0 (ret tt) peaceful_colony = Ok won w'
    /\ exists w0, w' = with_out (out w0 ++ [Vanquished]) w0
                  /\ AntColony_bees w0 = [].
Proof.
  destruct (how_a_game_ends (ret tt)) as (H & _).
  assert (E : AntColony_simulate 0 (ret tt) peaceful_colony
              = Ok won (run (AntColony_simulate 0 (ret tt)) peaceful_colony))
    by by_compute.
  exists (run (AntColony_simulate 0 (ret tt)) peaceful_colony).
  split; [exact E|].
  destruct (H _ _ _ _ E) as (w0 & E0 & _ & B). exists w0. now split.
Defined.

(** *** The place of the queen *)

(** What only the first action of the first queen changes. *)
Definition same_queen (w w' : World) : Prop := queen w' = queen w.

#[export] Instance same_queen_frame : Frame same_queen.
Proof.
  split.
  - intros w. reflexivity.
  - intros w1 w2 w3 H1 H2. unfold same_queen in *. congruence.
Qed.

Ltac same_queen_tac := keeps_tac ltac:(reflexivity).

Lemma same_queen_Place_remove_insect p i :
  keeps same_queen (Place_remove_insect p i).
Proof. unfold Place_remove_insect. destruct i; same_queen_tac. Qed.
#[export] Hint Resolve same_queen_Place_remove_insect : keeps.

Lemma same_queen_Place_add_insect p i :
  keeps same_queen (Place_add_insect p i).
Proof. unfold Place_add_insect. destruct i; same_queen_tac. Qed.
#[export] Hint Resolve same_queen_Place_add_insect : keeps.

Lemma same_queen_Insect_reduce_armor i d :
  keeps same_queen (Insect_reduce_armor i d).
Proof. unfold Insect_reduce_armor. destruct i; same_queen_tac. Qed.
#[export] Hint Resolve same_queen_Insect_reduce_armor : keeps.

Lemma same_queen_reduce_armor i d : keeps same_queen (reduce_armor i d).
Proof. unfold reduce_armor, FireAnt_reduce_armor. destruct i; same_queen_tac. Qed.
#[export] Hint Resolve same_queen_reduce_armor : keeps.

Lemma same_queen_add_insect p i : keeps same_queen (add_insect p i).
Proof. unfold add_insect, Water_add_insect. same_queen_tac. Qed.
#[export] Hint Resolve same_queen_add_insect : keeps.

Lemma same_queen_Bee_action b : keeps same_queen (Bee_action b).
Proof.
  unfold Bee_action, Bee_blocked, Bee_sting, Bee_move_to. same_queen_tac.
Qed.
#[export] Hint Resolve same_queen_Bee_action : keeps.

Lemma same_queen_random_or_none l : keeps same_queen (random_or_none l).
Proof. unfold random_or_none, random_choice. same_queen_tac. Qed.
#[export] Hint Resolve same_queen_random_or_none : keeps.

Lemma same_queen_nearest_bee_loop self hv : forall fuel start d,
  keeps same_queen (nearest_bee_loop fuel self hv start d).
Proof.
  induction fuel as [|fuel IH]; intros start d; cbn [nearest_bee_loop];
    same_queen_tac.
Qed.
#[export] Hint Resolve same_queen_nearest_bee_loop : keeps.

Lemma same_queen_ThrowerAnt_action fuel a :
  keeps same_queen (ThrowerAnt_action fuel a).
Proof.
  unfold ThrowerAnt_action, ThrowerAnt_nearest_bee, throw_at,
    ThrowerAnt_throw_at, SlowThrower_throw_at, apply_effect.
  same_queen_tac.
Qed.
#[export] Hint Resolve same_queen_ThrowerAnt_action : keeps.

Lemma same_queen_walk_forward q : forall fuel cur,
  keeps same_queen (walk_forward fuel q cur).
Proof.
  induction fuel as [|fuel IH]; intros [c|]; cbn [walk_forward];
    unfold QueenAnt_double_damage, double_one; same_queen_tac.
Qed.
#[export] Hint Resolve same_queen_walk_forward : keeps.

(** The first action of the first queen makes [colony.queen] a
    [QueenPlace] of the place it was and of her place; a later action
    leaves it as it is.  From then on a bee in her place ends the game as
    lost before another turn is played. *)
Theorem the_queen_place_is_set_by_her_first_action :
  forall fuel q w w' p0,
    true_queen (ant_at w q) ->
    a_place (ant_at w q) = Some p0 ->
    QueenAnt_action fuel q w = Ok tt w' ->
    queen w' = match queen w with
               | QPlace c => QueenPlace c (Some p0)
               | QueenPlace c p => QueenPlace c p
               end
    /\ forall c b fuel' strategy,
         queen w = QPlace c ->
         In b (bees (place_at w' p0)) ->
         AntColony_simulate fuel' strategy w'
         = Ok lost (with_out (out w' ++ [Perished]) w').
Proof.
  intros fuel q w w' p0 Hq Hp E.
  rewrite (true_queen_action fuel q w p0 Hq Hp) in E.
  destruct (walk_back fuel w p0) as [c0|]; [|discriminate E].
  apply bind_Ok_inv in E. destruct E as ([] & w1 & E1 & E2).
  pose proof (keeps_ok same_queen _ _ _ _ (same_queen_walk_forward q fuel _) E1)
    as Q1.
  pose proof (keeps_ok same_queen _ _ _ _
                (same_queen_ThrowerAnt_action fuel q) E2) as Q2.
  unfold same_queen in Q1, Q2.
  assert (Q : queen w' = match queen w with
                         | QPlace c => QueenPlace c (Some p0)
                         | QueenPlace c p => QueenPlace c p
                         end).
  { rewrite Q2, Q1. unfold crowned.
    destruct (queen w) eqn:Hqw; [cbn; now rewrite Hp | exact Hqw]. }
  split; [exact Q|].
  intros c b fuel' strategy Hc Hb. rewrite Hc in Q.
  rewrite simulate_eq. unfold bees_at_queen. rewrite Q.
  destruct (bees (place_at w' c) ++ bees (place_at w' p0)) eqn:L;
    [|reflexivity].
  apply app_eq_nil in L as (_ & L). rewrite L in Hb. destruct Hb.
Qed.

Lemma the_queen_place_is_set_by_her_first_action_witness :
  exists w',
    QueenAnt_action 10 7%nat doubling_world = Ok tt w'
    /\ queen doubling_world = QPlace 3%nat
    /\ queen w' = QueenPlace 3%nat (Some 5%nat).
Proof.
  assert (E : QueenAnt_action 10 7%nat doubling_world
              = Ok tt (run (QueenAnt_action 10 7%nat) doubling_world))
    by by_compute.
  assert (Hp : a_place (ant_at doubling_world 7%nat) = Some 5%nat)
    by by_compute.
  assert (Hc : queen doubling_world = QPlace 3%nat) by by_compute.
  exists (run (QueenAnt_action 10 7%nat) doubling_world).
  split; [exact E|]. split; [exact Hc|].
  destruct (the_queen_place_is_set_by_her_first_action
              10 7%nat doubling_world _ 5%nat
              true_queen_doubling_world Hp E) as (Q & _).
  rewrite Q, Hc. reflexivity.
Defined.

(** *** Removing an ant *)

(** [remove_ant] at a place with an ant in its slot: the first queen
    stays, and nothing changes; any other ant leaves, its place is
    [None], and the slot goes to the ant it holds if it is a bodyguard
    that holds one, else the slot is empty; no other ant, and no bee,
    changes. *)
Theorem remove_ant_takes_the_ant_in_the_slot :
  forall w pn p a,
    dict_get pn (places w) = Some p ->
    ant (place_at w p) = Some a ->
    (true_queen (ant_at w a) -> AntColony_remove_ant pn w = Ok tt w)
    /\ (~ true_queen (ant_at w a) ->
        AntColony_remove_ant pn w
        = Ok tt (with_ants_at
                   (upd (ant_at w) a (set_a_place None (ant_at w a)))
                   (with_places_at
                      (upd (place_at w) p
                           (set_ant (successor (ant_at w a)) (place_at w p)))
                      w))).
Proof.
  intros w pn p a Hp Hs.
  assert (D : AntColony_remove_ant pn w = Place_remove_insect p (IAnt a) w).
  { unfold AntColony_remove_ant. unfold bind at 1. unfold get at 1.
    now rewrite Hp, Hs. }
  rewrite D. clear D. split.
  - intros Hq. now apply first_queen_is_not_removed.
  - intros Hq. unfold Place_remove_insect. unfold bind at 1. unfold get at 1.
    rewrite Hs. cbn [opt_eqb]. rewrite Nat.eqb_refl.
    rewrite (not_true_queen_test _ Hq). unfold successor.
    destruct (container (cls (ant_at w a))), (a_ant (ant_at w a));
      reflexivity.
Qed.

Lemma remove_ant_takes_the_ant_in_the_slot_witness :
  AntColony_remove_ant "tunnel_0_1" doubling_world = Ok tt doubling_world
  /\ exists w',
       AntColony_remove_ant "tunnel_0_2" doubling_world = Ok tt w'
       /\ ant (place_at w' 6%nat) = Some 10%nat.
Proof.
  split.
  - destruct (remove_ant_takes_the_ant_in_the_slot doubling_world "tunnel_0_1"
                5%nat 7%nat) as (H1 & _); [by_compute | by_compute |].
    exact (H1 true_queen_doubling_world).
  - destruct (remove_ant_takes_the_ant_in_the_slot doubling_world "tunnel_0_2"
                6%nat 9%nat) as (_ & H2); [by_compute | by_compute |].
    assert (Hn : ~ true_queen (ant_at doubling_world 9%nat)).
    { intros [Q _]. vm_compute in Q. discriminate Q. }
    eexists. split; [exact (H2 Hn)|]. by_compute.
Defined.

(* ------------------------------------------------------------------ *)
(** ** Layouts *)
(* ------------------------------------------------------------------ *)

(** *** The tunnels that a layout builds *)

(** The class of the place at step [s] of a tunnel. *)
Definition class_at (moat_frequency s : nat) : PlaceClass :=
  if negb (Nat.eqb moat_frequency 0)
     && Nat.eqb (Nat.modulo (s + 1) moat_frequency) 0
  then Water else Place.

(** A new place of a tunnel, with its exit and its entrance. *)
Definition tunnel_place (w : World) (id ex en : PlaceId) (c : PlaceClass)
  : Prop :=
  exit (place_at w id) = Some ex
  /\ entrance (place_at w id) = Some en
  /\ pclass (place_at w id) = c
  /\ ant (place_at w id) = None
  /\ bees (place_at w id) = [].

Lemma tunnel_step hv length moat tunnel s0 (ex : PlaceId) w :
  ex <> fresh w ->
  exists w2,
    (e <- (if negb (Nat.eqb moat 0)
              && Nat.eqb (Nat.modulo (s0 + 1) moat) 0
           then new_Place Water (place_name "water" tunnel s0) (Some ex)
           else new_Place Place (place_name "tunnel" tunnel s0) (Some ex)) ;;
     register_place hv e (Nat.eqb (s0 + 1) length) ;;
     ret e) w = Ok (fresh w) w2
    /\ fresh w2 = S (fresh w)
    /\ exit (place_at w2 (fresh w)) = Some ex
    /\ entrance (place_at w2 (fresh w))
       = (if Nat.eqb (s0 + 1) length then Some hv else None)
    /\ pclass (place_at w2 (fresh w)) = class_at moat s0
    /\ ant (place_at w2 (fresh w)) = None
    /\ bees (place_at w2 (fresh w)) = []
    /\ place_at w2 ex = set_entrance (Some (fresh w)) (place_at w ex)
    /\ (forall p, p <> fresh w -> p <> ex -> place_at w2 p = place_at w p)
    /\ (forall a, ant_at w2 a = ant_at w a)
    /\ (forall b, bee_at w2 b = bee_at w b)
    /\ hive w2 = hive w /\ queen w2 = queen w
    /\ bee_entrances w2
       = bee_entrances w ++ (if Nat.eqb (s0 + 1) length then [fresh w] else []).
Proof.
  intros Hne. assert (Hne' : fresh w <> ex) by congruence.
  unfold class_at, new_Place, register_place.
  destruct (negb (Nat.eqb moat 0) && Nat.eqb (Nat.modulo (s0 + 1) moat) 0);
    destruct (Nat.eqb (s0 + 1) length); mstep;
    (eexists; split; [reflexivity|]); wsimp;
    (split; [reflexivity|]);
    repeat match goal with
           | |- _ /\ _ => split
           end;
    intros; upd_simp; wsimp; upd_simp; wsimp;
    rewrite ?app_nil_r; try reflexivity.
Qed.

Lemma tunnel_loop_cons reg length moat tunnel s0 steps ex w :
  tunnel_loop reg length moat tunnel (s0 :: steps) ex w
  = (x <- (e <- (if negb (Nat.eqb moat 0)
                    && Nat.eqb (Nat.modulo (s0 + 1) moat) 0
                 then new_Place Water (place_name "water" tunnel s0) (Some ex)
                 else new_Place Place (place_name "tunnel" tunnel s0) (Some ex)) ;;
           reg e (Nat.eqb (s0 + 1) length) ;;
           ret e) ;;
     tunnel_loop reg length moat tunnel steps x) w.
Proof.
  cbn [tunnel_loop]. unfold bind, ret.
  destruct ((if negb (Nat.eqb moat 0) && Nat.eqb (Nat.modulo (s0 + 1) moat) 0
             then new_Place Water (place_name "water" tunnel s0) (Some ex)
             else new_Place Place (place_name "tunnel" tunnel s0) (Some ex)) w)
    as [e w1|e w1|]; try reflexivity.
  destruct (reg e (Nat.eqb (s0 + 1) length) w1); reflexivity.
Qed.

(** One tunnel: [k] places from step [s0], the first with exit [ex]. *)
Lemma tunnel_loop_spec hv length moat tunnel : forall k s0 (ex : PlaceId) w,
  (s0 + k = length)%nat ->
  (ex < fresh w)%nat ->
  exists w',
    tunnel_loop (register_place hv) length moat tunnel (seq s0 k) ex w
    = Ok tt w'
    /\ fresh w' = (fresh w + k)%nat
    /\ (forall i, (i < k)%nat ->
          tunnel_place w' (fresh w + i)%nat
            (if Nat.eqb i 0 then ex else (fresh w + i - 1)%nat)
            (if Nat.eqb (S (s0 + i)) length then hv else (fresh w + i + 1)%nat)
            (class_at moat (s0 + i)))
    /\ (forall p, (p < fresh w)%nat -> p <> ex -> place_at w' p = place_at w p)
    /\ place_at w' ex
       = (if Nat.eqb k 0 then place_at w ex
          else set_entrance (Some (fresh w)) (place_at w ex))
    /\ (forall a, ant_at w' a = ant_at w a)
    /\ (forall b, bee_at w' b = bee_at w b)
    /\ hive w' = hive w /\ queen w' = queen w
    /\ bee_entrances w'
       = bee_entrances w
         ++ (if Nat.eqb k 0 then [] else [(fresh w + k - 1)%nat]).
Proof.
  induction k as [|k IH]; intros s0 ex w Hlen Hex.
  - exists w. cbn [seq tunnel_loop Nat.eqb]. unfold ret.
    rewrite Nat.add_0_r, app_nil_r.
    split; [reflexivity|]. split; [reflexivity|].
    split; [intros i Hi; lia|]. repeat split.
  - cbn [seq]. rewrite tunnel_loop_cons.
    destruct (tunnel_step hv length moat tunnel s0 ex w)
      as (w2 & E2 & F2 & X2 & N2 & C2 & A2 & B2 & Pex & Pot & An & Be & Hv
          & Qn & En); [lia|].
    unfold bind at 1. rewrite E2.
    destruct (IH (S s0) (fresh w) w2) as
      (w' & E & F & T & Pot' & Pex' & An' & Be' & Hv' & Qn' & En');
      [lia | lia |].
    exists w'. split; [exact E|]. split; [lia|].
    assert (Hflag : Nat.eqb (s0 + 1) length = Nat.eqb k 0).
    { destruct (Nat.eqb_spec (s0 + 1) length), (Nat.eqb_spec k 0);
        try reflexivity; lia. }
    split; [|split; [|split; [|split; [|split; [|split; [|split]]]]]].
    + intros i Hi. destruct i as [|i].
      * change (Nat.eqb 0 0) with true. cbv iota. rewrite !Nat.add_0_r.
        unfold tunnel_place. rewrite Pex'.
        replace (Nat.eqb (S s0) length) with (Nat.eqb k 0)
          by (rewrite <- Hflag; f_equal; lia).
        destruct (Nat.eqb_spec k 0) as [Hk0|Hk].
        -- rewrite X2, N2, C2, A2, B2, Hflag. now repeat split.
        -- destruct (place_at w2 (fresh w)) eqn:P2. cbn in *.
           rewrite F2. repeat split; try assumption. f_equal. lia.
      * assert (Hi' : (i < k)%nat) by lia.
        specialize (T i Hi'). rewrite F2 in T.
        change (Nat.eqb (S i) 0) with false. cbv iota.
        replace (fresh w + S i)%nat with (S (fresh w) + i)%nat by lia.
        replace (s0 + S i)%nat with (S s0 + i)%nat by lia.
        replace (S (fresh w) + i - 1)%nat with (fresh w + i)%nat by lia.
        destruct (Nat.eqb_spec i 0) as [Hi0|Hi0].
        -- replace (fresh w + i)%nat with (fresh w) by lia. exact T.
        -- replace (fresh w + i)%nat with (S (fresh w) + i - 1)%nat by lia.
           exact T.
    + intros p Hp Hne. rewrite Pot' by (rewrite ?F2; lia). apply Pot; lia.
    + change (Nat.eqb (S k) 0) with false. cbv iota.
      rewrite Pot' by (rewrite ?F2; lia). exact Pex.
    + intros a. now rewrite An', An.
    + intros b. now rewrite Be', Be.
    + congruence.
    + congruence.
    + rewrite En', En, F2, Hflag. change (Nat.eqb (S k) 0) with false.
      cbv iota. rewrite <- app_assoc.
      destruct (Nat.eqb_spec k 0) as [Hk0|Hk]; cbn [app].
      * do 2 f_equal. lia.
      * do 2 f_equal. lia.
Qed.

Lemma set_entrance_twice x y o :
  set_entrance x (set_entrance y o) = set_entrance x o.
Proof. reflexivity. Qed.

(** All tunnels: [n] tunnels of [length] places each, all from [q]. *)
Lemma layout_loop_spec hv length moat (q : PlaceId) : forall n t0 w,
  (q < fresh w)%nat ->
  exists w',
    for_each (seq t0 n) (fun tunnel =>
      tunnel_loop (register_place hv) length moat tunnel (seq 0 length) q) w
    = Ok tt w'
    /\ fresh w' = (fresh w + n * length)%nat
    /\ (forall t s, (t < n)%nat -> (s < length)%nat ->
          tunnel_place w' (fresh w + t * length + s)%nat
            (if Nat.eqb s 0 then q else (fresh w + t * length + s - 1)%nat)
            (if Nat.eqb (S s) length then hv
             else (fresh w + t * length + s + 1)%nat)
            (class_at moat s))
    /\ (forall p, (p < fresh w)%nat -> p <> q -> place_at w' p = place_at w p)
    /\ place_at w' q
       = (if Nat.eqb n 0 || Nat.eqb length 0 then place_at w q
          else set_entrance (Some (fresh w + (n - 1) * length)%nat)
                            (place_at w q))
    /\ (forall a, ant_at w' a = ant_at w a)
    /\ (forall b, bee_at w' b = bee_at w b)
    /\ hive w' = hive w /\ queen w' = queen w
    /\ bee_entrances w'
       = bee_entrances w
         ++ (if Nat.eqb length 0 then []
             else map (fun t => (fresh w + t * length + length - 1)%nat)
                      (seq 0 n)).
Proof.
  induction n as [|n IH]; intros t0 w Hq.
  - exists w. cbn [seq]. rewrite for_each_nil.
    cbn [Nat.eqb orb Nat.mul map]. rewrite Nat.add_0_r.
    split; [reflexivity|]. split; [reflexivity|].
    split; [intros t s Ht; lia|].
    destruct (Nat.eqb length 0); rewrite app_nil_r; repeat split.
  - cbn [seq]. rewrite for_each_cons.
    destruct (tunnel_loop_spec hv length moat t0 length 0 q w)
      as (w1 & E1 & F1 & T1 & Pot1 & Pq1 & An1 & Be1 & Hv1 & Qn1 & En1);
      [lia | exact Hq |].
    rewrite E1.
    destruct (IH (S t0) w1) as
      (w' & E & F & T & Pot & Pq & An & Be & Hv & Qn & En); [lia|].
    exists w'. split; [exact E|].
    split; [rewrite F, F1; cbn [Nat.mul]; lia|].
    split; [|split; [|split; [|split; [|split; [|split; [|split]]]]]].
    + intros t s Ht Hs. destruct t as [|t].
      * cbn [Nat.mul]. rewrite Nat.add_0_r.
        specialize (T1 s Hs). cbn [Nat.add] in T1.
        unfold tunnel_place in *.
        rewrite Pot by (destruct (Nat.eqb_spec s 0); lia). exact T1.
      * assert (Ht' : (t < n)%nat) by lia.
        specialize (T t s Ht' Hs). rewrite F1 in T.
        cbn [Nat.mul].
        replace (fresh w + (length + t * length) + s)%nat
          with (fresh w + length + t * length + s)%nat by lia.
        exact T.
    + intros p Hp Hne. rewrite Pot by lia. apply Pot1; assumption.
    + change (Nat.eqb (S n) 0) with false. cbn [orb].
      rewrite Pq, Pq1, F1.
      destruct (Nat.eqb_spec length 0) as [Hl|Hl].
      * rewrite orb_true_r. reflexivity.
      * rewrite orb_false_r. destruct n as [|n].
        -- cbn [Nat.eqb Nat.sub Nat.mul]. now rewrite Nat.add_0_r.
        -- change (Nat.eqb (S n) 0) with false. cbv iota.
           rewrite set_entrance_twice. do 2 f_equal.
           cbn [Nat.sub Nat.mul]. rewrite Nat.sub_0_r. lia.
    + intros a. now rewrite An, An1.
    + intros b. now rewrite Be, Be1.
    + congruence.
    + congruence.
    + rewrite En, En1, F1. rewrite <- app_assoc. f_equal.
      destruct (Nat.eqb_spec length 0) as [Hl|Hl]; [reflexivity|].
      cbn [seq map app Nat.mul]. f_equal; [lia|].
      rewrite <- seq_shift, map_map. apply map_ext. intros t.
      cbn [Nat.mul]. lia.
Qed.

(** [AntColony.configure] with a layout of [tunnels] tunnels of [length]
    places: it makes the place of the colony queen and then the places of
    the tunnels, one after the other.  In each tunnel the exit of the
    first place is the place of the queen, the exit of every other place
    is the place made before it, whose entrance it is; the entrance of the
    last place is the hive, and the last places are the bee entrances.  The
    entrance of the place of the queen is the first place of the last
    tunnel only; no place that was there before changes. *)
Theorem the_layout_links_the_tunnels :
  forall hv length tunnels moat w,
    exists w',
      AntColony_configure hv (mixed_layout length tunnels moat) w = Ok tt w'
      /\ queen w' = QPlace (fresh w)
      /\ fresh w' = (fresh w + 1 + tunnels * length)%nat
      /\ exit (place_at w' (fresh w)) = None
      /\ entrance (place_at w' (fresh w))
         = (if Nat.eqb tunnels 0 || Nat.eqb length 0 then None
            else Some (fresh w + 1 + (tunnels - 1) * length)%nat)
      /\ (forall t s, (t < tunnels)%nat -> (s < length)%nat ->
            tunnel_place w' (fresh w + 1 + t * length + s)%nat
              (if Nat.eqb s 0 then fresh w
               else (fresh w + 1 + t * length + s - 1)%nat)
              (if Nat.eqb (S s) length then hv
               else (fresh w + 1 + t * length + s + 1)%nat)
              (class_at moat s))
      /\ (forall t, (t < tunnels)%nat -> (0 < length)%nat ->
            (entrance (place_at w' (fresh w))
             = Some (fresh w + 1 + t * length)%nat
             <-> t = (tunnels - 1)%nat))
      /\ (forall p, (p < fresh w)%nat -> place_at w' p = place_at w p)
      /\ bee_entrances w'
         = (if Nat.eqb length 0 then []
            else map (fun t => (fresh w + 1 + t * length + length - 1)%nat)
                     (seq 0 tunnels))
      /\ hive w' = hive w.
Proof.
  intros hv length tunnels moat w.
  assert (P : exists w0,
    (q <- new_Place Place "AntQueen" None ;;
     modify (with_queen (QPlace q)) ;;
     modify (with_places []) ;;
     modify (with_bee_entrances []) ;;
     w <- get ;;
     register_place hv (hive w) false) w = Ok tt w0
    /\ queen w0 = QPlace (fresh w)
    /\ fresh w0 = S (fresh w)
    /\ place_at w0 (fresh w) = mkPlace Place "AntQueen" None [] None None empty_plan
    /\ (forall p, p <> fresh w -> place_at w0 p = place_at w p)
    /\ bee_entrances w0 = []
    /\ hive w0 = hive w).
  { unfold new_Place, register_place. mstep.
    eexists. split; [reflexivity|]. wsimp.
    repeat split; intros; upd_simp; reflexivity. }
  destruct P as (w0 & E0 & Q0 & F0 & Pq0 & Pot0 & En0 & Hv0).
  destruct (layout_loop_spec hv length moat (fresh w) tunnels 0 w0)
    as (w' & E & F & T & Pot & Pq & An & Be & Hv & Qn & En); [lia|].
  assert (D : AntColony_configure hv (mixed_layout length tunnels moat) w
              = Ok tt w').
  { unfold AntColony_configure.
    revert E0. unfold bind, get, modify. 
    destruct (new_Place Place "AntQueen" None w) as [q wq|e wq|];
      try discriminate.
    cbv beta iota.
    destruct (register_place hv _ false _) as [[] wr|e wr|];
      try discriminate.
    intros E0. injection E0 as ->. rewrite Q0. exact E. }
  exists w'. split; [exact D|]. split; [congruence|].
  split; [rewrite F, F0; lia|].
  assert (Hent : entrance (place_at w' (fresh w))
                 = (if Nat.eqb tunnels 0 || Nat.eqb length 0 then None
                    else Some (fresh w + 1 + (tunnels - 1) * length)%nat)).
  { rewrite Pq, Pq0, F0. destruct (_ || _); [reflexivity|].
    cbn [entrance set_entrance]. f_equal. lia. }
  split; [rewrite Pq, Pq0; now destruct (_ || _)|].
  split; [exact Hent|].
  split; [|split; [|split; [|split]]].
  - intros t s Ht Hs. specialize (T t s Ht Hs). rewrite F0 in T.
    replace (fresh w + 1 + t * length + s)%nat
      with (S (fresh w) + t * length + s)%nat by lia.
    exact T.
  - intros t Ht Hl. rewrite Hent.
    destruct (Nat.eqb_spec tunnels 0) as [H0|H0]; [lia|].
    destruct (Nat.eqb_spec length 0) as [H1|H1]; [lia|]. cbn [orb].
    split.
    + intros H. injection H as H.
      assert (H' : ((tunnels - 1) * length = t * length)%nat) by lia.
      apply Nat.mul_cancel_r in H'; [lia | exact H1].
    + intros ->. reflexivity.
  - intros p Hp. rewrite Pot by (rewrite ?F0; lia). apply Pot0. lia.
  - rewrite En, En0, F0. cbn [app].
    destruct (Nat.eqb length 0); [reflexivity|].
    apply map_ext. intros t. lia.
  - congruence.
Qed.

(** The test plan and its hive, before the colony is configured. *)
Definition hive_world : World :=
  run (plan <- make_test_assault_plan ;;
       hv <- new_Hive plan ;;
       modify (with_hive hv))
      (initial_world (fun _ => O)).

Lemma the_layout_links_the_tunnels_witness :
  exists w',
    AntColony_configure 2%nat (mixed_layout 3 2 0) hive_world = Ok tt w'
    /\ exit (place_at w' 4%nat) = Some 3%nat
    /\ exit (place_at w' 7%nat) = Some 3%nat
    /\ entrance (place_at w' 3%nat) = Some 7%nat
    /\ entrance (place_at w' 6%nat) = Some 2%nat.
Proof.
  destruct (the_layout_links_the_tunnels 2%nat 3 2 0 hive_world)
    as (w' & E & _ & _ & _ & Hq & T & _).
  assert (F : fresh hive_world = 3%nat) by by_compute.
  rewrite F in *.
  exists w'. split; [exact E|].
  destruct (T 0%nat 0%nat) as (X0 & _); [lia | lia|].
  destruct (T 1%nat 0%nat) as (X1 & _); [lia | lia|].
  destruct (T 0%nat 2%nat) as (_ & N2 & _); [lia | lia|].
  split; [exact X0|]. split; [exact X1|]. split; [exact Hq | exact N2].
Defined.

(** *** A new colony *)

(** A world in which no ant has been placed yet: the bees are where
    their places say, in places that exist; the bees still to be made are
    in no place; no place has an ant and no ant a place. *)
Definition pristine (w : World) : Prop :=
  bees_wf w
  /\ (forall b p, b_place (bee_at w b) = Some p -> (p < fresh w)%nat)
  /\ (forall b, (fresh w <= b)%nat -> b_place (bee_at w b) = None)
  /\ (forall p, ant (place_at w p) = None)
  /\ (forall a, a_place (ant_at w a) = None).

Lemma pristine_ext w w' :
  pristine w ->
  (forall p, bees (place_at w' p) = bees (place_at w p)) ->
  (forall b, b_place (bee_at w' b) = b_place (bee_at w b)) ->
  (forall p, ant (place_at w' p) = None) ->
  (forall a, a_place (ant_at w' a) = None) ->
  (fresh w <= fresh w')%nat ->
  pristine w'.
Proof.
  intros (W & P2 & P3 & P4 & P5) Hl Hb Hs Ha Hf.
  split; [revert W; now apply bees_wf_ext|].
  split; [|split; [|split; assumption]].
  - intros b p. rewrite Hb. intros H. apply P2 in H. lia.
  - intros b Hle. rewrite Hb. apply P3. lia.
Qed.

Lemma pristine_no_bees w p :
  pristine w -> (fresh w <= p)%nat -> bees (place_at w p) = [].
Proof.
  intros (W & P2 & _) Hle.
  destruct (bees (place_at w p)) as [|b l] eqn:E; [reflexivity|].
  assert (Hin : In b (bees (place_at w p))) by (rewrite E; now left).
  apply (bees_wf_place _ _ _ W) in Hin. apply P2 in Hin. lia.
Qed.

Lemma pristine_ants_wf w : pristine w -> ants_wf w.
Proof.
  intros (_ & _ & _ & P4 & P5). split; [|split].
  - intros p a H. rewrite P4 in H. discriminate H.
  - intros p g i H. rewrite P4 in H. discriminate H.
  - intros a p H. rewrite P5 in H. discriminate H.
Qed.

Lemma pristine_initial_world seed : pristine (initial_world seed).
Proof.
  split; [split|]; cbn.
  - intros p. constructor.
  - intros p b. split; [intros [] | discriminate].
  - repeat split; try discriminate; reflexivity.
Qed.

Ltac pristine_leaf :=
  let H := fresh "H" in
  intros H; apply (pristine_ext _ _ H); intros; wsimp;
  try (unfold upd;
       repeat match goal with
              | |- context [Nat.eqb ?x ?y] =>
                  destruct (Nat.eqb_spec x y); subst
              end);
  wsimp;
  solve [reflexivity | lia | apply H].

Ltac pristine_tac := keeps_tac pristine_leaf.

Lemma pristine_new_Bee armor : keeps (invariant pristine) (new_Bee armor).
Proof.
  intros w. unfold new_Bee. mstep. intros H.
  apply (pristine_ext _ _ H); intros; wsimp; try apply H; try lia;
    try reflexivity.
  unfold upd. destruct (Nat.eqb_spec b (fresh w)) as [->|_]; [|reflexivity].
  cbn. symmetry. apply H. lia.
Qed.
#[export] Hint Resolve pristine_new_Bee : keeps.

Lemma pristine_new_Place c nm ex : keeps (invariant pristine) (new_Place c nm ex).
Proof.
  intros w. unfold new_Place. destruct ex as [e|]; mstep; intros H;
    apply (pristine_ext _ _ H); intros; wsimp; try lia; try reflexivity;
    unfold upd;
    repeat match goal with
           | |- context [Nat.eqb ?x ?y] => destruct (Nat.eqb_spec x y); subst
           end; wsimp;
    try reflexivity; try apply H;
    try (symmetry; now apply pristine_no_bees).
Qed.
#[export] Hint Resolve pristine_new_Place : keeps.

Lemma pristine_register_place hv p flag :
  keeps (invariant pristine) (register_place hv p flag).
Proof. unfold register_place. pristine_tac. Qed.
#[export] Hint Resolve pristine_register_place : keeps.

Lemma pristine_tunnel_loop hv length moat tunnel : forall steps ex,
  keeps (invariant pristine)
        (tunnel_loop (register_place hv) length moat tunnel steps ex).
Proof.
  induction steps as [|s steps IH]; intros ex; cbn [tunnel_loop];
    pristine_tac.
Qed.
#[export] Hint Resolve pristine_tunnel_loop : keeps.

Lemma pristine_configure hv length tunnels moat :
  keeps (invariant pristine)
        (AntColony_configure hv (mixed_layout length tunnels moat)).
Proof. unfold AntColony_configure, mixed_layout. pristine_tac. Qed.
#[export] Hint Resolve pristine_configure : keeps.

Lemma pristine_new_AntColony hv types length tunnels moat fd :
  keeps (invariant pristine)
        (new_AntColony hv types (mixed_layout length tunnels moat) fd).
Proof. unfold new_AntColony. pristine_tac. Qed.

(** The bees of a plan, before its hive is made: each once, made, and in
    no place. *)
Definition plan_ok (plan : AssaultPlan) (w : World) : Prop :=
  NoDup (all_bees plan)
  /\ forall b, In b (all_bees plan) ->
       (b < fresh w)%nat /\ b_place (bee_at w b) = None.

Lemma NoDup_app_inv {A} (l1 l2 : list A) :
  NoDup (l1 ++ l2) ->
  NoDup l1 /\ NoDup l2 /\ forall x, In x l1 -> ~ In x l2.
Proof.
  induction l1 as [|a l1 IH]; cbn; intros H.
  - repeat split; [constructor | exact H | tauto].
  - inversion H as [|? ? Ha Hl]; subst.
    destruct (IH Hl) as (N1 & N2 & D).
    split; [|split; [exact N2|]].
    + constructor; [|exact N1]. intros Hin. apply Ha, in_or_app. now left.
    + intros x [<-|Hx]; [|now apply D].
      intros Hin. apply Ha, in_or_app. now right.
Qed.

Lemma flat_extend_wave_In b t bs d :
  In b (flat_map (fun wave => snd wave) (extend_wave t bs d))
  <-> In b (flat_map (fun wave : Z * list BeeId => snd wave) d) \/ In b bs.
Proof.
  induction d as [|[t' wave] d IH]; cbn.
  - rewrite app_nil_r. tauto.
  - destruct (Z.eqb t' t); cbn; rewrite !in_app_iff; tauto.
Qed.

Lemma flat_extend_wave_NoDup t bs d :
  NoDup (flat_map (fun wave : Z * list BeeId => snd wave) d) ->
  NoDup bs ->
  (forall b, In b bs ->
     ~ In b (flat_map (fun wave : Z * list BeeId => snd wave) d)) ->
  NoDup (flat_map (fun wave => snd wave) (extend_wave t bs d)).
Proof.
  induction d as [|[t' wave] d IH]; cbn; intros Nd Nb Hd.
  - now rewrite app_nil_r.
  - apply NoDup_app_inv in Nd as (N1 & N2 & D).
    destruct (Z.eqb t' t); cbn.
    + apply NoDup_app; [apply NoDup_app; [exact N1 | exact Nb|] | exact N2|].
      * intros x Hx Hx'. apply (Hd x Hx'), in_or_app. now left.
      * intros x Hx. apply in_app_or in Hx as [Hx|Hx]; [now apply D|].
        intros Hin. apply (Hd x Hx), in_or_app. now right.
    + apply NoDup_app; [exact N1 | |].
      * apply IH; [exact N2 | exact Nb|].
        intros b Hb Hin. apply (Hd b Hb), in_or_app. now right.
      * intros x Hx Hin. apply flat_extend_wave_In in Hin as [Hin|Hin].
        -- now apply (D x).
        -- apply (Hd x Hin), in_or_app. now left.
Qed.

Lemma new_bees_pristine armor : forall n w,
  pristine w ->
  exists w',
    new_bees n armor w = Ok (seq (fresh w) n) w'
    /\ pristine w'
    /\ fresh w' = (fresh w + n)%nat
    /\ (forall b, (b < fresh w)%nat -> bee_at w' b = bee_at w b)
    /\ (forall b, In b (seq (fresh w) n) -> b_place (bee_at w' b) = None).
Proof.
  induction n as [|n IH]; intros w Hp.
  - exists w. cbn. unfold ret. rewrite Nat.add_0_r.
    repeat split; try assumption; try apply Hp. intros b [].
  - cbn [new_bees seq].
    set (w1 := with_fresh (S (fresh w))
                 (with_bees_at (upd (bee_at w) (fresh w) (mkBee armor None)) w)).
    assert (E0 : new_Bee armor w = Ok (fresh w) w1) by reflexivity.
    pose proof (keeps_ok (invariant pristine) _ _ _ _
                  (pristine_new_Bee armor) E0 Hp) as K.
    destruct (IH w1 K) as (w' & E & P & F & O & Nw).
    unfold bind at 1. rewrite E0. unfold bind at 1.
    change (fresh w1) with (S (fresh w)) in E.
    rewrite E. unfold ret. exists w'.
    split; [reflexivity|]. split; [exact P|].
    split; [rewrite F; subst w1; wsimp; lia|]. split.
    + intros b Hb. rewrite O by (subst w1; wsimp; lia).
      subst w1. wsimp. rewrite upd_other by lia. reflexivity.
    + intros b [<-|Hb]; [|now apply Nw].
      rewrite O by (subst w1; wsimp; lia).
      subst w1. wsimp. now rewrite upd_same.
Qed.

Lemma add_wave_pristine plan t count w :
  pristine w -> plan_ok plan w ->
  exists plan' w',
    add_wave plan t count w = Ok plan' w'
    /\ pristine w' /\ plan_ok plan' w'
    /\ bee_armor plan' = bee_armor plan.
Proof.
  intros Hp (Nd & Hb). unfold add_wave.
  destruct (new_bees_pristine (bee_armor plan) (Z.to_nat count) w Hp)
    as (w' & E & P & F & O & Nw).
  unfold bind at 1. rewrite E. unfold ret.
  eexists. exists w'. split; [reflexivity|]. split; [exact P|].
  split; [|reflexivity].
  unfold plan_ok, all_bees. cbn [waves]. split.
  - apply flat_extend_wave_NoDup; [exact Nd | apply seq_NoDup|].
    intros b Hin Hb'. apply in_seq in Hin. apply Hb in Hb'. lia.
  - intros b Hin. apply flat_extend_wave_In in Hin as [Hin|Hin].
    + destruct (Hb b Hin) as (L & Pl). split; [lia|].
      now rewrite O.
    + split; [apply in_seq in Hin; lia | now apply Nw].
Qed.

Lemma add_waves_pristine : forall calls plan w,
  pristine w -> plan_ok plan w ->
  exists plan' w',
    add_waves plan calls w = Ok plan' w'
    /\ pristine w' /\ plan_ok plan' w'.
Proof.
  induction calls as [|[t count] calls IH]; intros plan w Hp Hok.
  - exists plan, w. cbn [add_waves]. unfold ret.
    split; [reflexivity|]. split; assumption.
  - cbn [add_waves].
    destruct (add_wave_pristine plan t count w Hp Hok)
      as (plan1 & w1 & E1 & P1 & K1 & _).
    unfold bind at 1. rewrite E1. now apply IH.
Qed.

Lemma hive_loop_pristine (h : PlaceId) : forall (l : list BeeId) w,
  pristine w -> (h < fresh w)%nat ->
  NoDup l ->
  (forall b, In b l -> (b < fresh w)%nat /\ b_place (bee_at w b) = None) ->
  exists w',
    for_each l (fun bee => Place_add_insect h (IBee bee)) w = Ok tt w'
    /\ pristine w'
    /\ fresh w' = fresh w.
Proof.
  induction l as [|b l IH]; intros w Hp Hh Nd Hb.
  - exists w. rewrite for_each_nil.
    split; [reflexivity|]. split; [assumption | reflexivity].
  - rewrite for_each_cons. inversion Nd as [|? ? Hnb Nl]; subst.
    destruct (Hb b) as (Hlt & Hpl); [now left|].
    destruct Hp as (W & P2 & P3 & P4 & P5).
    destruct (Place_add_bee_spec w h b W Hpl)
      as (w1 & E1 & W1 & B1 & O1 & Ph & Pot & A1 & _).
    rewrite E1.
    assert (F1 : fresh w1 = fresh w).
    { revert E1. unfold Place_add_insect. mstep. intros E1.
      injection E1 as <-. reflexivity. }
    destruct (IH w1) as (w' & E & P & F); [|lia|exact Nl| |].
    + split; [exact W1|]. split; [|split; [|split]].
      * intros b' p. destruct (Nat.eq_dec b' b) as [->|Hne].
        -- rewrite B1. cbn. intros H. injection H as <-. lia.
        -- rewrite O1 by exact Hne. rewrite F1. apply P2.
      * intros b' Hle. rewrite O1 by lia. apply P3. lia.
      * intros p. destruct (Nat.eq_dec p h) as [->|Hne].
        -- rewrite Ph. cbn. apply P4.
        -- rewrite Pot by exact Hne. apply P4.
      * intros a. rewrite A1. apply P5.
    + intros b' Hb'. rewrite F1.
      assert (Hne : b' <> b) by (intros ->; contradiction).
      rewrite O1 by exact Hne. apply Hb. now right.
    + exists w'. split; [exact E|]. split; [exact P | congruence].
Qed.

Lemma new_Hive_pristine plan w :
  pristine w -> plan_ok plan w ->
  exists w',
    new_Hive plan w = Ok (fresh w) w' /\ pristine w'.
Proof.
  intros Hp (Nd & Hb). unfold new_Hive.
  unfold bind at 1. unfold get at 1. unfold bind at 1. unfold modify at 1.
  set (w1 := with_fresh _ _).
  assert (P1 : pristine w1).
  { apply (pristine_ext _ _ Hp); intros; subst w1; wsimp; try lia;
      try reflexivity; unfold upd;
      repeat match goal with
             | |- context [Nat.eqb ?x ?y] => destruct (Nat.eqb_spec x y); subst
             end; wsimp; try reflexivity; try apply Hp.
    symmetry. now apply pristine_no_bees. }
  destruct (hive_loop_pristine (fresh w) (all_bees plan) w1 P1)
    as (w' & E & P & _).
  - subst w1. wsimp. lia.
  - exact Nd.
  - intros b Hin. destruct (Hb b Hin) as (L & Pl). subst w1. wsimp.
    split; [lia | exact Pl].
  - unfold bind at 1. rewrite E. unfold ret. now exists w'.
Qed.

Lemma configure_returns hv length tunnels moat w :
  exists w',
    AntColony_configure hv (mixed_layout length tunnels moat) w = Ok tt w'.
Proof.
  assert (P : exists w0,
    (q <- new_Place Place "AntQueen" None ;;
     modify (with_queen (QPlace q)) ;;
     modify (with_places []) ;;
     modify (with_bee_entrances []) ;;
     w <- get ;;
     register_place hv (hive w) false) w = Ok tt w0
    /\ queen w0 = QPlace (fresh w)
    /\ fresh w0 = S (fresh w)).
  { unfold new_Place, register_place. mstep.
    eexists. split; [reflexivity|]. wsimp. split; reflexivity. }
  destruct P as (w0 & E0 & Q0 & F0).
  destruct (layout_loop_spec hv length moat (fresh w) tunnels 0 w0)
    as (w' & E & _); [lia|].
  exists w'. unfold AntColony_configure.
  revert E0. unfold bind, get, modify.
  destruct (new_Place Place "AntQueen" None w) as [q wq|e wq|];
    try discriminate.
  cbv beta iota.
  destruct (register_place hv _ false _) as [[] wr|e wr|];
    try discriminate.
  intros E0. injection E0 as ->. rewrite Q0. exact E.
Qed.

(** A colony made as [start_with_strategy] makes it, from a plan of any
    waves, any ant types that have names, and a layout of any size, is
    made without an error; in it the bees and the places agree, as do the
    ants and the places, and no place has an ant; and they still agree in
    whatever state a game played from it ends, for every strategy that
    keeps them agreeing, as [deploy_ant] and [remove_ant] do. *)
Theorem a_new_colony_is_consistent :
  forall calls armor types d length tunnels moat fd seed,
    registry types [] = Some d ->
    exists w,
      start_colony (add_waves (mkPlan [] armor) calls) types
                   (mixed_layout length tunnels moat) fd (initial_world seed)
      = Ok tt w
      /\ bees_wf w
      /\ ants_wf w
      /\ (forall p, ant (place_at w p) = None)
      /\ forall fuel strategy,
           keeps (invariant bees_wf) strategy ->
           keeps (invariant ants_wf) strategy ->
           ends_with (AntColony_simulate fuel strategy w)
                     (fun w' => bees_wf w' /\ ants_wf w').
Proof.
  intros calls armor types d length tunnels moat fd seed Hr.
  destruct (add_waves_pristine calls (mkPlan [] armor) (initial_world seed)
              (pristine_initial_world seed))
    as (plan & w1 & E1 & P1 & K1).
  { split; [constructor | intros b []]. }
  destruct (new_Hive_pristine plan w1 P1 K1) as (w2 & E2 & P2).
  assert (E3 : exists w,
             new_AntColony (fresh w1) types (mixed_layout length tunnels moat)
                           fd w2 = Ok tt w).
  { unfold new_AntColony. unfold bind at 1 2 3. unfold modify at 1 2 3.
    rewrite Hr. unfold bind at 1. unfold modify at 1.
    apply configure_returns. }
  destruct E3 as (w & E3). exists w.
  pose proof (keeps_ok (invariant pristine) _ _ _ _
                (pristine_new_AntColony _ _ _ _ _ _) E3 P2) as P.
  split.
  - unfold start_colony. unfold bind at 1. rewrite E1.
    unfold bind at 1. rewrite E2. exact E3.
  - split; [apply P|]. split; [now apply pristine_ants_wf|].
    split; [apply P|].
    intros fuel strategy Hb Ha.
    pose proof (bees_wf_simulate strategy Hb fuel w) as Kb.
    pose proof (ants_wf_simulate strategy Ha fuel w) as Ka.
    destruct (AntColony_simulate fuel strategy w); cbn [ends_with];
      [split | split | exact I];
      first [apply Kb, P | apply Ka; now apply pristine_ants_wf].
Qed.

Lemma a_new_colony_is_consistent_witness :
  exists d w,
    registry implemented_types [] = Some d
    /\ start_colony (add_waves (mkPlan [] 3) [(2, 1); (3, 1)])
                    implemented_types (mixed_layout 3 1 0) 10
                    (initial_world (fun _ => O))
       = Ok tt w
    /\ bees_wf w /\ ants_wf w.
Proof.
  assert (R : exists d, registry implemented_types [] = Some d)
    by (eexists; by_compute).
  destruct R as (d & R).
  destruct (a_new_colony_is_consistent [(2, 1); (3, 1)] 3 implemented_types d
              3 1 0 10 (fun _ => O) R) as (w & E & B & A & _).
  exists d, w. split; [exact R|]. split; [exact E|]. split; assumption.
Defined.

(* ------------------------------------------------------------------ *)
(** ** The hive among the places of a new colony *)
(* ------------------------------------------------------------------ *)

Lemma dict_get_set_other {V} (k k' : string) (v : V) d :
  k' <> k -> dict_get k (dict_set k' v d) = dict_get k d.
Proof.
  intros Hne. induction d as [|[k0 v0] d IH]; cbn [dict_set dict_get].
  - destruct (String.eqb_spec k' k); [contradiction | reflexivity].
  - destruct (String.eqb_spec k0 k') as [->|H0]; cbn [dict_get].
    + destruct (String.eqb_spec k' k); [contradiction | reflexivity].
    + now rewrite IH.
Qed.

Lemma dict_get_In {V} (k : string) (v : V) d :
  dict_get k d = Some v -> In v (dict_values d).
Proof.
  induction d as [|[k0 v0] d IH]; cbn [dict_get dict_values map snd];
    [discriminate|].
  destruct (String.eqb k0 k).
  - intros H. injection H as ->. now left.
  - intros H. right. now apply IH.
Qed.

(** No place of a tunnel is named as the hive is. *)
Lemma place_name_not_Hive tunnel step :
  place_name "tunnel" tunnel step <> "Hive"
  /\ place_name "water" tunnel step <> "Hive".
Proof. split; discriminate. Qed.

(** What registering the places of the tunnels leaves alone: the entry
    of the hive in [colony.places]. *)
Definition same_hive_entry (w w' : World) : Prop :=
  dict_get "Hive" (places w') = dict_get "Hive" (places w).

#[export] Instance same_hive_entry_frame : Frame same_hive_entry.
Proof.
  split.
  - intros w. reflexivity.
  - intros w1 w2 w3 A1 A2. unfold same_hive_entry in *. congruence.
Qed.

Lemma same_hive_entry_tunnel_loop hv length moat tunnel : forall steps ex,
  keeps same_hive_entry
        (tunnel_loop (register_place hv) length moat tunnel steps ex).
Proof.
  induction steps as [|s steps IH]; intros ex.
  - cbn [tunnel_loop]. apply keeps_ret. typeclasses eauto.
  - assert (K : keeps same_hive_entry
                  (x <- (e <- (if negb (Nat.eqb moat 0)
                                  && Nat.eqb (Nat.modulo (s + 1) moat) 0
                               then new_Place Water (place_name "water" tunnel s)
                                              (Some ex)
                               else new_Place Place (place_name "tunnel" tunnel s)
                                              (Some ex)) ;;
                         register_place hv e (Nat.eqb (s + 1) length) ;;
                         ret e) ;;
                   tunnel_loop (register_place hv) length moat tunnel steps x)).
    { apply keeps_bind; [typeclasses eauto| |intros x; apply IH].
      intros w. unfold new_Place, register_place, same_hive_entry.
      destruct (place_name_not_Hive tunnel s) as (Nt & Nw).
      destruct (negb (Nat.eqb moat 0) && Nat.eqb (Nat.modulo (s + 1) moat) 0);
        destruct (Nat.eqb (s + 1) length); mstep;
        destruct (Nat.eq_dec (fresh w) ex) as [->|Hne];
        upd_simp; wsimp; upd_simp; wsimp;
        now apply dict_get_set_other. }
    intros w. rewrite tunnel_loop_cons. apply K.
Qed.

Lemma same_hive_entry_layout hv length tunnels moat q :
  keeps same_hive_entry (mixed_layout length tunnels moat q (register_place hv)).
Proof.
  unfold mixed_layout. apply keeps_for_each; [typeclasses eauto|].
  intros tunnel. apply same_hive_entry_tunnel_loop.
Qed.

(** [configure] enters the hive in [colony.places] under its name, and
    the places of the tunnels do not take the entry over; the hive itself
    is as it was. *)
Lemma configure_registers_the_hive hv length tunnels moat w :
  name (place_at w (hive w)) = "Hive" ->
  (hive w < fresh w)%nat ->
  exists w',
    AntColony_configure hv (mixed_layout length tunnels moat) w = Ok tt w'
    /\ dict_get "Hive" (places w') = Some (hive w)
    /\ hive w' = hive w
    /\ place_at w' (hive w) = place_at w (hive w).
Proof.
  intros Hn Hlt.
  assert (P : exists w0,
    (q <- new_Place Place "AntQueen" None ;;
     modify (with_queen (QPlace q)) ;;
     modify (with_places []) ;;
     modify (with_bee_entrances []) ;;
     w <- get ;;
     register_place hv (hive w) false) w = Ok tt w0
    /\ queen w0 = QPlace (fresh w)
    /\ fresh w0 = S (fresh w)
    /\ dict_get "Hive" (places w0) = Some (hive w)
    /\ hive w0 = hive w
    /\ place_at w0 (hive w) = place_at w (hive w)).
  { unfold new_Place, register_place. mstep.
    eexists. split; [reflexivity|]. wsimp.
    split; [reflexivity|]. split; [reflexivity|].
    rewrite !upd_other by lia.
    split; [|split; reflexivity].
    rewrite Hn. cbn [dict_set dict_get]. now rewrite String.eqb_refl. }
  destruct P as (w0 & E0 & Q0 & F0 & D0 & H0 & P0).
  destruct (layout_loop_spec hv length moat (fresh w) tunnels 0 w0)
    as (w' & E & _ & _ & Pot & _ & _ & _ & Hv & _); [lia|].
  pose proof (keeps_ok same_hive_entry _ _ _ _
                (same_hive_entry_layout hv length tunnels moat (fresh w)) E)
    as K.
  exists w'. split.
  - unfold AntColony_configure.
    revert E0. unfold bind, get, modify.
    destruct (new_Place Place "AntQueen" None w) as [q wq|e wq|];
      try discriminate.
    cbv beta iota.
    destruct (register_place hv _ false _) as [[] wr|e wr|];
      try discriminate.
    intros E0. injection E0 as ->. rewrite Q0. exact E.
  - unfold same_hive_entry in K. split; [congruence|]. split; [congruence|].
    rewrite Pot by lia. exact P0.
Qed.

Lemma hive_loop_fresh h : forall l w w',
  for_each l (fun bee => Place_add_insect h (IBee bee)) w = Ok tt w' ->
  fresh w' = fresh w.
Proof.
  intros l w w' E.
  assert (K : keeps thrift
                (for_each l (fun bee => Place_add_insect h (IBee bee)))).
  { apply keeps_for_each; [typeclasses eauto|]. intros b.
    unfold Place_add_insect. thrift_tac. }
  apply (keeps_ok thrift _ _ _ _ K E).
Qed.

Lemma new_Hive_is_the_hive plan w :
  exists w',
    new_Hive plan w = Ok (fresh w) w'
    /\ fresh w' = S (fresh w)
    /\ name (place_at w' (fresh w)) = "Hive"
    /\ assault_plan (place_at w' (fresh w)) = plan
    /\ bees (place_at w' (fresh w)) = all_bees plan.
Proof.
  unfold new_Hive. unfold bind at 1 2 3. unfold get at 1. unfold modify at 1.
  match goal with
  | |- context [for_each _ _ ?w1] =>
      destruct (hive_loop_bees (fresh w) (all_bees plan) w1)
        as (w' & E & B & _)
  end.
  rewrite E. exists w'. split; [reflexivity|].
  pose proof (hive_loop_fresh _ _ _ _ E) as F.
  cbn in B. rewrite upd_same in B. cbn in B.
  assert (S : static (with_fresh (S (fresh w))
                (with_places_at
                   (upd (place_at w) (fresh w)
                      (mkPlace Hive "Hive" None [] None None plan)) w)) w').
  { eapply keeps_ok; [|exact E]. apply keeps_for_each; [typeclasses eauto|].
    intros b. apply static_Place_add_insect. }
  destruct S as [S _]. specialize (S (fresh w)). cbn in S.
  rewrite upd_same in S. unfold links in S. cbn in S.
  split; [exact F|]. split; [congruence|]. split; [congruence | exact B].
Qed.

(* ------------------------------------------------------------------ *)
(** ** The queen's action, as a whole *)
(* ------------------------------------------------------------------ *)

(** The first loop of the queen ends at a place of her tunnel, reached
    along the entrances, whose entrance is the hive or [None]. *)
Lemma walk_back_sound w : forall fuel p c,
  walk_back fuel w p = Some c ->
  (exists j, nth_entrance w (Some p) j = Some c)
  /\ (entrance (place_at w c) = None
      \/ entrance (place_at w c) = Some (hive w)).
Proof.
  induction fuel as [|fuel IH]; intros p c H; [discriminate H|].
  cbn [walk_back] in H.
  destruct (entrance (place_at w p)) as [e|] eqn:Ee.
  - destruct (Nat.eqb_spec e (hive w)) as [->|Hne].
    + injection H as <-. split; [exists 0%nat; reflexivity|]. now right.
    + destruct (IH e c H) as ((j & Hj) & Hc). split; [|exact Hc].
      exists (S j). cbn [nth_entrance]. now rewrite Ee.
  - injection H as <-. split; [exists 0%nat; reflexivity|]. now left.
Qed.

(** C5, as the code has it.  When the first queen acts (in a tunnel
    whose entrances lead to the hive and whose exits end, with fuel for
    the loops), her action returns: she goes back along the entrances to
    the place [c] before the hive, then forward from [c] along the exits
    to the end, and then acts as a [ThrowerAnt].  Every ant she meets on
    the way forward (the ant of a place, and the ant held by it when it is
    a bodyguard) other than herself is in her list [doubled_ants]
    afterwards; it has twice the damage it had if it was not in the list
    before, and the damage it had if it was.  Her own damage is unchanged.
    No ant's damage is more than doubled by her action, and an ant in her
    list keeps its damage whatever insects act afterwards, however often
    the queen is among them. *)
Theorem queen_doubles_each_ant_once :
  forall fuel q w p0 k m,
    true_queen (ant_at w q) ->
    only_queen q w ->
    a_place (ant_at w q) = Some p0 ->
    nth_entrance w (Some p0) k = Some (hive w) ->
    (forall p, nth_exit w (Some p) m = None) ->
    bees_in_place w ->
    (1 <= k < fuel)%nat -> (m <= fuel)%nat ->
    exists c w1 w',
      QueenAnt_action fuel q w = Ok tt w'
      /\ walk_back fuel w p0 = Some c
      /\ (exists j, nth_entrance w (Some p0) j = Some c)
      /\ (entrance (place_at w c) = None
          \/ entrance (place_at w c) = Some (hive w))
      /\ walk_forward fuel q (Some c) (crowned w q) = Ok tt w1
      /\ ThrowerAnt_action fuel q w1 = Ok tt w'
      /\ a_damage (ant_at w' q) = a_damage (ant_at w q)
      /\ (forall p a,
            on_exit_path w (Some c) p -> meets w p a -> a <> q ->
            In a (doubled w' q)
            /\ (~ In a (doubled w q) ->
                a_damage (ant_at w1 a) = 2 * a_damage (ant_at w a)
                /\ a_damage (ant_at w' a) = 2 * a_damage (ant_at w a))
            /\ (In a (doubled w q) ->
                a_damage (ant_at w' a) = a_damage (ant_at w a)))
      /\ (forall a,
            a_damage (ant_at w' a) = a_damage (ant_at w a)
            \/ (~ In a (doubled w q) /\ In a (doubled w' q) /\ a <> q
                /\ a_damage (ant_at w' a) = 2 * a_damage (ant_at w a)))
      /\ forall fuel' actors,
           ends_with (for_each actors (act fuel') w') (fun w'' =>
             forall a, In a (doubled w' q) ->
                       a_damage (ant_at w'' a) = a_damage (ant_at w' a)).
Proof.
  intros fuel q w p0 k m Hq Hoq Hp Hk Hm Hb Hfk Hfm.
  pose proof (true_queen_action fuel q w p0 Hq Hp) as EQ.
  destruct (walk_back_total w k fuel p0 Hk) as (c & Ec); [lia|].
  rewrite Ec in EQ.
  destruct (walk_back_sound w fuel p0 c Ec) as (Hj & Hc).
  pose proof (crowned_shape w q) as Sh0.
  destruct (walk_forward_total q m fuel (Some c) (crowned w q)) as (w1 & E1).
  { rewrite (nth_exit_shape w _ Sh0). apply Hm. }
  { exact Hfm. }
  destruct (walk_forward_covers q fuel (Some c) _ _ E1) as (Sh1 & On & Cov).
  assert (Sh : shape w w1) by (eapply frame_trans; eassumption).
  destruct (ThrowerAnt_action_total fuel q w1 k) as (w' & E2).
  { pose proof Sh as (Sp & _ & Shv & _).
    rewrite (shape_a_place w w1 q Sh), Hp, Shv.
    rewrite (nth_entrance_ext w w1 Sp). exact Hk. }
  { lia. }
  { pose proof Sh as (Sp & Sb & _).
    intros p b Hin. rewrite Sb. apply Hb. now rewrite <- Sp. }
  assert (E : QueenAnt_action fuel q w = Ok tt w').
  { rewrite EQ. unfold bind. rewrite E1. exact E2. }
  assert (On1 : once q w w1).
  { eapply frame_trans; [apply crowned_once | exact On]. }
  assert (On2 : once q w1 w').
  { eapply keeps_ok; [apply once_ThrowerAnt_action | exact E2]. }
  assert (On' : once q w w') by (eapply frame_trans; eassumption).
  exists c, w1, w'.
  split; [exact E|]. split; [exact Ec|]. split; [exact Hj|].
  split; [exact Hc|]. split; [exact E1|]. split; [exact E2|].
  split; [|split; [|split]].
  - destruct On' as [_ On']. destruct (On' q) as [[D _]|(_ & _ & N & _)];
      [exact D | congruence].
  - intros p a Hpath Hm' Ha.
    assert (Hin1 : In a (doubled w1 q)).
    { destruct (Cov p a) as [Hin|Heq]; [| |exact Hin|contradiction].
      - eapply on_exit_path_shape; [apply crowned_shape | exact Hpath].
      - eapply meets_shape; [apply crowned_shape | exact Hm']. }
    assert (Hin' : In a (doubled w' q))
      by exact (once_grows q w1 w' a On2 Hin1).
    split; [exact Hin'|].
    destruct On1 as [_ On1], On' as [_ On'].
    split.
    + intros Hnot.
      destruct (On1 a) as [[_ I1]|(_ & _ & _ & D1)]; [tauto|].
      destruct (On' a) as [[_ I2]|(_ & _ & _ & D2)]; [tauto|].
      auto.
    + intros Hin.
      destruct (On' a) as [[D _]|(N & _)]; [exact D | contradiction].
  - destruct On' as [_ On']. intros a.
    destruct (On' a) as [[D _]|H]; [now left | now right].
  - intros fuel' actors.
    assert (Hoq' : only_queen q w') by exact (only_queen_once q w w' On' Hoq).
    pose proof (once_actions q fuel' actors w' Hoq') as H.
    destruct (for_each actors (act fuel') w') as [[] w''|e w''|];
      cbn [ends_with] in H |- *; try exact I;
      destruct H as [_ H]; intros a Hin;
      (destruct (H a) as [[D _]|(N & _)]; [exact D | contradiction]).
Qed.

Lemma queen_doubles_each_ant_once_witness :
  exists w' w'',
    QueenAnt_action 10 7%nat doubling_world = Ok tt w'
    /\ walk_back 10 doubling_world 5%nat = Some 6%nat
    /\ a_damage (ant_at w' 8%nat) = 2 * a_damage (ant_at doubling_world 8%nat)
    /\ a_damage (ant_at w' 10%nat) = 2 * a_damage (ant_at doubling_world 10%nat)
    /\ a_damage (ant_at w' 7%nat) = a_damage (ant_at doubling_world 7%nat)
    /\ for_each [IAnt 7%nat; IAnt 8%nat; IAnt 7%nat] (act 10) w' = Ok tt w''
    /\ a_damage (ant_at w'' 8%nat) = a_damage (ant_at w' 8%nat).
Proof.
  destruct (queen_doubles_each_ant_once 10 7%nat doubling_world 5%nat 2%nat
              5%nat true_queen_doubling_world only_queen_doubling_world)
    as (c & w1 & w' & E & Ec & _ & _ & _ & _ & Dq & Met & _ & Later);
    [by_compute | by_compute | exact exits_end_doubling_world
     | exact bees_in_place_doubling_world | lia | lia |].
  assert (Hc : c = 6%nat).
  { assert (E6 : walk_back 10 doubling_world 5%nat = Some 6%nat) by by_compute.
    rewrite E6 in Ec. now injection Ec as <-. }
  subst c.
  assert (N : doubled doubling_world 7%nat = []) by by_compute.
  assert (P4 : on_exit_path doubling_world (Some 6%nat) 4%nat).
  { apply path_later.
    replace (exit (place_at doubling_world 6%nat)) with (Some 5%nat)
      by by_compute.
    apply path_later.
    replace (exit (place_at doubling_world 5%nat)) with (Some 4%nat)
      by by_compute.
    apply path_here. }
  assert (M8 : meets doubling_world 4%nat 8%nat) by (left; by_compute).
  assert (M10 : meets doubling_world 6%nat 10%nat).
  { right. exists 9%nat. conj; by_compute. }
  destruct (Met 4%nat 8%nat P4 M8) as (In8 & D8 & _); [discriminate|].
  destruct (Met 6%nat 10%nat (path_here _ _) M10) as (_ & D10 & _);
    [discriminate|].
  rewrite N in D8, D10.
  pose proof (Later 10%nat [IAnt 7%nat; IAnt 8%nat; IAnt 7%nat]) as L.
  set (W := run (QueenAnt_action 10 7%nat) doubling_world).
  assert (E' : QueenAnt_action 10 7%nat doubling_world = Ok tt W)
    by by_compute.
  assert (Hw : W = w').
  { rewrite E' in E.
    exact (f_equal (fun o => match o with Ok _ x => x | _ => w' end) E). }
  assert (E'' : for_each [IAnt 7%nat; IAnt 8%nat; IAnt 7%nat] (act 10) W
                = Ok tt (run (for_each [IAnt 7%nat; IAnt 8%nat; IAnt 7%nat]
                                       (act 10)) W))
    by by_compute.
  rewrite Hw in E''. rewrite E'' in L. cbn [ends_with] in L.
  exists w', (run (for_each [IAnt 7%nat; IAnt 8%nat; IAnt 7%nat] (act 10)) w').
  split; [exact E|]. split; [exact Ec|].
  split; [exact (proj2 (D8 (fun x => x)))|].
  split; [exact (proj2 (D10 (fun x => x)))|].
  split; [exact Dq|]. split; [exact E''|]. exact (L 8%nat In8).
Defined.

(** C5, as the specification states it, fails for the queen herself: she
    is the ant of a place on her way (place 5, between places 6 and 4),
    and her damage is not doubled; the other ants on the way are in her
    list afterwards, she is not. *)
Lemma queen_does_not_double_herself :
  exists w',
    QueenAnt_action 10 7%nat doubling_world = Ok tt w'
    /\ true_queen (ant_at doubling_world 7%nat)
    /\ walk_back 10 doubling_world 5%nat = Some 6%nat
    /\ exit (place_at doubling_world 6%nat) = Some 5%nat
    /\ ant (place_at doubling_world 5%nat) = Some 7%nat
    /\ a_damage (ant_at doubling_world 7%nat) = 1
    /\ a_damage (ant_at w' 7%nat) = 1
    /\ doubled w' 7%nat = [10; 9; 8]%nat.
Proof.
  eexists. split; [by_compute|]. split; [exact true_queen_doubling_world|].
  conj; by_compute.
Qed.

(* ------------------------------------------------------------------ *)
(** ** Exits and entrances *)
(* ------------------------------------------------------------------ *)

(** Before [configure] no place has an exit; while the places are made,
    no place still to be made has one. *)
Definition no_exits (w : World) : Prop :=
  forall p, exit (place_at w p) = None.

Definition no_exit_beyond (w : World) : Prop :=
  forall p, (fresh w <= p)%nat -> exit (place_at w p) = None.

Ltac no_exits_leaf :=
  let H := fresh "H" in
  let p := fresh "p" in
  intros H p; wsimp; unfold upd;
  repeat match goal with
         | |- context [Nat.eqb ?x ?y] => destruct (Nat.eqb_spec x y); subst
         end;
  wsimp; solve [reflexivity | apply H].

Ltac no_exits_tac := keeps_tac no_exits_leaf.

Lemma no_exits_new_bees armor : forall count,
  keeps (invariant no_exits) (new_bees count armor).
Proof.
  induction count as [|n IH]; cbn [new_bees]; unfold new_Bee; no_exits_tac.
Qed.
#[export] Hint Resolve no_exits_new_bees : keeps.

Lemma no_exits_add_waves : forall calls plan,
  keeps (invariant no_exits) (add_waves plan calls).
Proof.
  induction calls as [|[t c] calls IH]; intros plan; cbn [add_waves];
    unfold add_wave; no_exits_tac.
Qed.

Lemma no_exits_new_Hive plan : keeps (invariant no_exits) (new_Hive plan).
Proof. unfold new_Hive, Place_add_insect. no_exits_tac. Qed.

Ltac no_exit_beyond_leaf :=
  let H := fresh "H" in
  let p := fresh "p" in
  let Hp := fresh "Hp" in
  intros H p Hp; wsimp; unfold upd;
  repeat match goal with
         | |- context [Nat.eqb ?x ?y] => destruct (Nat.eqb_spec x y); subst
         end;
  wsimp; solve [reflexivity | lia | apply H; lia].

Lemma no_exit_beyond_tunnel_loop hv length moat tunnel : forall steps ex,
  keeps (invariant no_exit_beyond)
        (tunnel_loop (register_place hv) length moat tunnel steps ex).
Proof.
  induction steps as [|s steps IH]; intros ex; cbn [tunnel_loop];
    unfold new_Place, register_place; keeps_tac no_exit_beyond_leaf.
Qed.

Lemma no_exit_beyond_layout hv length tunnels moat q :
  keeps (invariant no_exit_beyond)
        (mixed_layout length tunnels moat q (register_place hv)).
Proof.
  unfold mixed_layout. apply keeps_for_each; [typeclasses eauto|].
  intros tunnel. apply no_exit_beyond_tunnel_loop.
Qed.

Lemma in_a_tunnel base length tunnels A :
  (base <= A < base + tunnels * length)%nat ->
  exists t s, (t < tunnels)%nat /\ (s < length)%nat
              /\ A = (base + t * length + s)%nat.
Proof.
  intros H. assert (Hl : length <> 0%nat) by (intros ->; lia).
  exists ((A - base) / length)%nat, ((A - base) mod length)%nat.
  pose proof (Nat.div_mod_eq (A - base) length) as D.
  pose proof (Nat.mod_upper_bound (A - base) length Hl) as U.
  split; [|split; [exact U | lia]].
  apply Nat.Div0.div_lt_upper_bound. lia.
Qed.

(** The exits and entrances that [configure] leaves, from a world in
    which no place has an exit. *)
Lemma configure_exits hv length tunnels moat w :
  no_exits w ->
  exists w',
    AntColony_configure hv (mixed_layout length tunnels moat) w = Ok tt w'
    /\ queen w' = QPlace (fresh w)
    /\ hive w' = hive w
    /\ (forall p, exit (place_at w' p) = None
                  \/ exists t s, (t < tunnels)%nat /\ (s < length)%nat
                                 /\ p = (fresh w + 1 + t * length + s)%nat)
    /\ (forall t s, (t < tunnels)%nat -> (s < length)%nat ->
          tunnel_place w' (fresh w + 1 + t * length + s)%nat
            (if Nat.eqb s 0 then fresh w
             else (fresh w + 1 + t * length + s - 1)%nat)
            (if Nat.eqb (S s) length then hv
             else (fresh w + 1 + t * length + s + 1)%nat)
            (class_at moat s))
    /\ entrance (place_at w' (fresh w))
       = (if Nat.eqb tunnels 0 || Nat.eqb length 0 then None
          else Some (fresh w + 1 + (tunnels - 1) * length)%nat).
Proof.
  intros Hn.
  assert (P : exists w0,
    (q <- new_Place Place "AntQueen" None ;;
     modify (with_queen (QPlace q)) ;;
     modify (with_places []) ;;
     modify (with_bee_entrances []) ;;
     w <- get ;;
     register_place hv (hive w) false) w = Ok tt w0
    /\ queen w0 = QPlace (fresh w)
    /\ fresh w0 = S (fresh w)
    /\ place_at w0 (fresh w) = mkPlace Place "AntQueen" None [] None None empty_plan
    /\ (forall p, p <> fresh w -> place_at w0 p = place_at w p)
    /\ hive w0 = hive w).
  { unfold new_Place, register_place. mstep.
    eexists. split; [reflexivity|]. wsimp.
    repeat split; intros; upd_simp; reflexivity. }
  destruct P as (w0 & E0 & Q0 & F0 & Pq0 & Pot0 & Hv0).
  assert (N0 : no_exits w0).
  { intros p. destruct (Nat.eq_dec p (fresh w)) as [->|Hne].
    - now rewrite Pq0.
    - rewrite Pot0 by exact Hne. apply Hn. }
  destruct (layout_loop_spec hv length moat (fresh w) tunnels 0 w0)
    as (w' & E & F & T & Pot & Pq & _ & _ & Hv & Qn & _); [lia|].
  assert (B : no_exit_beyond w').
  { apply (keeps_ok (invariant no_exit_beyond) _ _ _ _
             (no_exit_beyond_layout hv length tunnels moat (fresh w)) E).
    intros p _. apply N0. }
  exists w'. split; [|split; [congruence|split; [congruence|split; [|split]]]].
  - unfold AntColony_configure.
    revert E0. unfold bind, get, modify.
    destruct (new_Place Place "AntQueen" None w) as [q wq|e wq|];
      try discriminate.
    cbv beta iota.
    destruct (register_place hv _ false _) as [[] wr|e wr|];
      try discriminate.
    intros E0. injection E0 as ->. rewrite Q0. exact E.
  - intros p.
    destruct (Nat.lt_ge_cases p (fresh w)) as [Hlt|Hge].
    { left. rewrite Pot by lia. apply N0. }
    destruct (Nat.eq_dec p (fresh w)) as [->|Hne].
    { left. rewrite Pq. destruct (_ || _); [apply N0|].
      cbn [exit set_entrance]. apply N0. }
    destruct (Nat.lt_ge_cases p (fresh w')) as [Hlt'|Hge'].
    + right. destruct (in_a_tunnel (fresh w + 1) length tunnels p)
        as (t & s & Ht & Hs & ->); [lia|]. eauto.
    + left. now apply B.
  - intros t s Ht Hs. specialize (T t s Ht Hs). rewrite F0 in T.
    replace (fresh w + 1 + t * length + s)%nat
      with (S (fresh w) + t * length + s)%nat by lia.
    exact T.
  - rewrite Pq, Pq0, F0. destruct (_ || _); [reflexivity|].
    cbn [entrance set_entrance]. f_equal. lia.
Qed.

(** C2, as the code has it.  [Place.__init__] gives a new place its exit
    and no entrance, makes the new place the entrance of its exit,
    whatever entrance the exit had, and changes no other place.  In a
    colony made as [start_with_strategy] makes it, with a layout of any
    size, and in every state with the layout of that colony (the states
    of a game): when
    the exit of [A] is [B], the entrance of [B] is [A], unless [B] is the
    place of the colony queen and [A] the first place of a tunnel that is
    not the last; the place of the colony queen is the exit of the first
    place of every tunnel and its entrance is the first place of the last
    tunnel; the entrance of the last place of every tunnel is the hive,
    which has no exit.  No exit and no entrance changes in a game. *)
Theorem exits_mirror_entrances_but_for_the_queen :
  (forall c nm (ex : option PlaceId) w0,
     ex <> Some (fresh w0) ->
     exists w1,
       new_Place c nm ex w0 = Ok (fresh w0) w1
       /\ exit (place_at w1 (fresh w0)) = ex
       /\ entrance (place_at w1 (fresh w0)) = None
       /\ (forall e, ex = Some e ->
             entrance (place_at w1 e) = Some (fresh w0)
             /\ exit (place_at w1 e) = exit (place_at w0 e))
       /\ forall p, p <> fresh w0 -> ex <> Some p ->
            place_at w1 p = place_at w0 p)
  /\ forall calls armor types d length tunnels moat fd seed,
       registry types [] = Some d ->
       exists w q,
         start_colony (add_waves (mkPlan [] armor) calls) types
                      (mixed_layout length tunnels moat) fd (initial_world seed)
         = Ok tt w
         /\ queen w = QPlace q
         /\ (forall t, (t < tunnels)%nat -> (0 < length)%nat ->
               exit (place_at w (q + 1 + t * length)%nat) = Some q
               /\ entrance (place_at w q)
                  = Some (q + 1 + (tunnels - 1) * length)%nat)
         /\ (forall t, (t < tunnels)%nat -> (0 < length)%nat ->
               entrance (place_at w (q + t * length + length)%nat)
               = Some (hive w)
               /\ exit (place_at w (hive w)) = None)
         /\ (forall w1, static w w1 ->
             forall A B,
               exit (place_at w1 A) = Some B ->
               entrance (place_at w1 B) = Some A
               \/ (B = q
                   /\ exists t, (t < tunnels - 1)%nat
                                /\ A = (q + 1 + t * length)%nat))
         /\ forall fuel strategy,
              keeps static strategy ->
              ends_with (AntColony_simulate fuel strategy w) (fun w' =>
                forall p,
                  exit (place_at w' p) = exit (place_at w p)
                  /\ entrance (place_at w' p) = entrance (place_at w p)).
Proof.
  split.
  { intros c nm [ex|] w0 Hne; unfold new_Place; mstep;
      (eexists; split; [reflexivity|]); wsimp.
    - assert (Hne' : fresh w0 <> ex)
        by (intros Heq; apply Hne; now rewrite Heq).
      split; [|split; [|split]].
      + upd_simp; wsimp; upd_simp; wsimp; reflexivity.
      + upd_simp; wsimp; upd_simp; wsimp; reflexivity.
      + intros e He. injection He as <-.
        split; upd_simp; wsimp; upd_simp; wsimp; reflexivity.
      + intros p Hp Hp'.
        assert (Hp2 : ex <> p) by (intros Heq; apply Hp'; now rewrite Heq).
        upd_simp; wsimp; upd_simp; wsimp; reflexivity.
    - split; [|split; [|split]].
      + upd_simp; wsimp; reflexivity.
      + upd_simp; wsimp; reflexivity.
      + intros e He. discriminate He.
      + intros p Hp _. upd_simp; wsimp; reflexivity. }
  intros calls armor types d length tunnels moat fd seed Hr.
  destruct (add_waves_pristine calls (mkPlan [] armor) (initial_world seed)
              (pristine_initial_world seed))
    as (plan & w1 & E1 & _).
  { split; [constructor | intros b []]. }
  assert (N1 : no_exits w1).
  { apply (keeps_ok (invariant no_exits) _ _ _ _
             (no_exits_add_waves calls (mkPlan [] armor)) E1).
    intros p. reflexivity. }
  destruct (new_Hive_is_the_hive plan w1) as (w2 & E2 & F2 & _).
  assert (N2 : no_exits w2).
  { exact (keeps_ok (invariant no_exits) _ _ _ _ (no_exits_new_Hive plan) E2
             N1). }
  set (w3 := with_ant_types d
               (with_hive (fresh w1) (with_food fd (with_time 0 w2)))).
  assert (N3 : no_exits w3) by (intros p; apply N2).
  assert (F3 : fresh w3 = fresh w2) by reflexivity.
  destruct (configure_exits (fresh w1) length tunnels moat w3 N3)
    as (w & E3 & Q & Hv & X & T & En).
  set (q := fresh w3) in *.
  assert (Mir : forall A B,
             exit (place_at w A) = Some B ->
             entrance (place_at w B) = Some A
             \/ (B = q
                 /\ exists t, (t < tunnels - 1)%nat
                              /\ A = (q + 1 + t * length)%nat)).
  { intros A B HA.
    destruct (X A) as [Hx|(t & s & Ht & Hs & ->)]; [congruence|].
    destruct (T t s Ht Hs) as (Tx & _). rewrite Tx in HA.
    destruct s as [|s].
    - change (Nat.eqb 0 0) with true in HA. cbv iota in HA.
      injection HA as <-. rewrite En.
      destruct (Nat.eqb_spec tunnels 0) as [H0|H0]; [lia|].
      destruct (Nat.eqb_spec length 0) as [H1|H1]; [lia|]. cbn [orb].
      destruct (Nat.eq_dec t (tunnels - 1)) as [->|Hne].
      + left. f_equal. lia.
      + right. split; [reflexivity|]. exists t. split; lia.
    - change (Nat.eqb (S s) 0) with false in HA. cbv iota in HA.
      injection HA as <-. left.
      destruct (T t s Ht) as (_ & Te & _); [lia|].
      replace (q + 1 + t * length + S s - 1)%nat
        with (q + 1 + t * length + s)%nat by lia.
      rewrite Te. destruct (Nat.eqb_spec (S s) length) as [Hl|_]; [lia|].
      f_equal. lia. }
  exists w, q. split; [|split; [exact Q|split; [|split; [|split]]]].
  - unfold start_colony. unfold bind at 1. rewrite E1.
    unfold bind at 1. rewrite E2. unfold new_AntColony.
    unfold bind at 1 2 3. unfold modify at 1 2 3.
    rewrite Hr. unfold bind at 1. unfold modify at 1. exact E3.
  - intros t Ht Hl. destruct (T t 0%nat Ht Hl) as (Tx & _).
    rewrite Nat.add_0_r in Tx. split; [exact Tx|]. rewrite En.
    destruct (Nat.eqb_spec tunnels 0) as [H0|H0]; [lia|].
    destruct (Nat.eqb_spec length 0) as [H1|H1]; [lia|]. reflexivity.
  - intros t Ht Hl.
    assert (Hh : hive w = fresh w1) by (rewrite Hv; reflexivity).
    split.
    + destruct (T t (length - 1)%nat Ht) as (_ & Te & _); [lia|].
      replace (q + t * length + length)%nat
        with (q + 1 + t * length + (length - 1))%nat by lia.
      rewrite Te, Hh.
      destruct (Nat.eqb_spec (S (length - 1)) length) as [_|Hn]; [|lia].
      reflexivity.
    + destruct (X (hive w)) as [Hx|(t' & s' & _ & _ & Hp)]; [exact Hx|].
      exfalso. rewrite Hh in Hp. lia.
  - intros w4 [L _] A B. pose proof (L A) as LA. pose proof (L B) as LB.
    unfold links in LA, LB. injection LA as _ _ LA _ _.
    injection LB as _ _ _ LB _. rewrite LA, LB. apply Mir.
  - intros fuel strategy Hs.
    pose proof (static_simulate strategy Hs fuel w) as K.
    destruct (AntColony_simulate fuel strategy w); cbn [ends_with];
      [| |exact I]; destruct K as [L _]; intros p; specialize (L p);
      unfold links in L; injection L as _ _ L1 L2 _; split; assumption.
Qed.

Lemma exits_mirror_entrances_but_for_the_queen_witness :
  exists d w w',
    registry implemented_types [] = Some d
    /\ start_colony (add_waves (mkPlan [] 3) [(2, 1); (3, 1)])
                    implemented_types (mixed_layout 2 2 0) 10
                    (initial_world (fun _ => O))
       = Ok tt w
    /\ queen w = QPlace 3%nat
    /\ exit (place_at w 4%nat) = Some 3%nat
    /\ exit (place_at w 6%nat) = Some 3%nat
    /\ entrance (place_at w 3%nat) = Some 6%nat
    /\ hive w = 2%nat
    /\ entrance (place_at w 5%nat) = Some 2%nat
    /\ entrance (place_at w 7%nat) = Some 2%nat
    /\ exit (place_at w 2%nat) = None
    /\ (forall A B, exit (place_at w A) = Some B ->
          entrance (place_at w B) = Some A \/ (B = 3%nat /\ A = 4%nat))
    /\ AntColony_simulate 10 (AntColony_deploy_ant "tunnel_0_0" "Thrower") w
       = Raise AssertionError w'
    /\ time w' = 1
    /\ (forall p, exit (place_at w' p) = exit (place_at w p)
                  /\ entrance (place_at w' p) = entrance (place_at w p))
    /\ exists w1,
         new_Place Place "tunnel_2_0" (Some 3%nat) w = Ok 8%nat w1
         /\ exit (place_at w1 8%nat) = Some 3%nat
         /\ entrance (place_at w1 8%nat) = None
         /\ entrance (place_at w1 3%nat) = Some 8%nat
         /\ exit (place_at w1 3%nat) = None.
Proof.
  assert (R : exists d, registry implemented_types [] = Some d)
    by (eexists; by_compute).
  destruct R as (d & R).
  destruct exits_mirror_entrances_but_for_the_queen as (New & H).
  destruct (H [(2, 1); (3, 1)] 3 implemented_types d 2%nat 2%nat 0%nat 10
              (fun _ => O) R)
    as (w & q & E & Q & Fst & Lst & Mir & Game).
  set (W := run (start_colony (add_waves (mkPlan [] 3) [(2, 1); (3, 1)])
                              implemented_types (mixed_layout 2 2 0) 10)
                (initial_world (fun _ => O))).
  assert (E' : start_colony (add_waves (mkPlan [] 3) [(2, 1); (3, 1)])
                            implemented_types (mixed_layout 2 2 0) 10
                            (initial_world (fun _ => O))
               = Ok tt W) by by_compute.
  assert (Hw : W = w).
  { rewrite E' in E.
    exact (f_equal (fun o => match o with Ok _ x => x | _ => w end) E). }
  assert (Hq : q = 3%nat).
  { assert (Q' : queen W = QPlace 3%nat) by by_compute.
    rewrite Hw, Q in Q'. now injection Q' as ->. }
  subst q.
  destruct (Fst 0%nat) as (X0 & N0); [lia | lia|].
  destruct (Fst 1%nat) as (X1 & _); [lia | lia|].
  assert (Hh : hive w = 2%nat).
  { assert (H' : hive W = 2%nat) by by_compute. now rewrite Hw in H'. }
  destruct (Lst 0%nat) as (L0 & Hx); [lia | lia|].
  destruct (Lst 1%nat) as (L1 & _); [lia | lia|].
  rewrite Hh in L0, L1, Hx.
  assert (Fr : fresh w = 8%nat).
  { assert (H' : fresh W = 8%nat) by by_compute. now rewrite Hw in H'. }
  destruct (New Place "tunnel_2_0" (Some 3%nat) w)
    as (w1 & N1 & N2 & N3 & N4 & _).
  { rewrite Fr. discriminate. }
  destruct (N4 3%nat eq_refl) as (N5 & N6).
  rewrite Fr in N1, N2, N3, N5.
  assert (Xq : exit (place_at w 3%nat) = None).
  { assert (H' : exit (place_at W 3%nat) = None) by by_compute.
    now rewrite Hw in H'. }
  rewrite Xq in N6.
  assert (S : exists w',
             AntColony_simulate 10 (AntColony_deploy_ant "tunnel_0_0" "Thrower")
                                W = Raise AssertionError w'
             /\ time w' = 1).
  { eexists. split; by_compute. }
  rewrite Hw in S. destruct S as (w' & S & Tm).
  pose proof (Game 10%nat (AntColony_deploy_ant "tunnel_0_0" "Thrower")
                (static_deploy_ant _ _)) as G.
  rewrite S in G. cbn [ends_with] in G.
  exists d, w, w'.
  split; [exact R|]. split; [exact E|]. split; [exact Q|].
  split; [exact X0|]. split; [exact X1|]. split; [exact N0|].
  split; [exact Hh|]. split; [exact L0|]. split; [exact L1|].
  split; [exact Hx|].
  split.
  - intros A B HA. destruct (Mir w (frame_refl w) A B HA)
      as [Hl|(-> & t & Ht & ->)]; [now left|].
    right. split; [reflexivity|]. assert (t = 0%nat) as -> by lia. reflexivity.
  - split; [exact S|]. split; [exact Tm|]. split; [exact G|].
    exists w1. split; [exact N1|]. split; [exact N2|]. split; [exact N3|].
    split; [exact N5 | exact N6].
Defined.

(** C2, as the specification states it, fails where two tunnels meet: in
    a colony of two tunnels of one place, the exit of both places is the
    place of the colony queen, whose entrance is the second of them only.
    And the entrance of a place is not set at its construction: it is
    [None] then, and is set, and set again, when a place is made with it as
    exit. *)
Lemma exit_not_mirrored_by_entrance :
  (queen (open_colony 1 2 10) = QPlace 3%nat
   /\ dict_get "tunnel_0_0" (places (open_colony 1 2 10)) = Some 4%nat
   /\ dict_get "tunnel_1_0" (places (open_colony 1 2 10)) = Some 5%nat
   /\ exit (place_at (open_colony 1 2 10) 4%nat) = Some 3%nat
   /\ exit (place_at (open_colony 1 2 10) 5%nat) = Some 3%nat
   /\ entrance (place_at (open_colony 1 2 10) 3%nat) = Some 5%nat
   /\ entrance (place_at (open_colony 1 2 10) 3%nat) <> Some 4%nat)
  /\ exists w1 w2 w3,
       new_Place Place "AntQueen" None (initial_world (fun _ => O))
       = Ok 0%nat w1
       /\ entrance (place_at w1 0%nat) = None
       /\ new_Place Place "tunnel_0_0" (Some 0%nat) w1 = Ok 1%nat w2
       /\ entrance (place_at w2 0%nat) = Some 1%nat
       /\ new_Place Place "tunnel_1_0" (Some 0%nat) w2 = Ok 2%nat w3
       /\ entrance (place_at w3 0%nat) = Some 2%nat
       /\ exit (place_at w3 1%nat) = Some 0%nat.
Proof.
  split.
  - conj; try by_compute. vm_compute. discriminate.
  - do 3 eexists. conj; by_compute.
Qed.

(* ------------------------------------------------------------------ *)
(** ** The waves that wait in the hive *)
(* ------------------------------------------------------------------ *)

(** A state in which the hive [h] holds no ant: bees and ants are where
    their places say, the hive is the place named ["Hive"], registered
    under that name and no other in [colony.places], and its ant slot is
    empty. *)
Definition calm (h : PlaceId) (w : World) : Prop :=
  bees_wf w /\ ants_wf w
  /\ hive w = h
  /\ name (place_at w h) = "Hive"
  /\ dict_get "Hive" (places w) = Some h
  /\ (forall k, dict_get k (places w) = Some h -> k = "Hive")
  /\ ant (place_at w h) = None.

(** Between [w] and [w'] the time and the plan of [h] have not changed,
    the bees whose place is [h] are as they were, and the ant slot of [h]
    is empty if it was. *)
Definition waiting (h : PlaceId) (w w' : World) : Prop :=
  (ant (place_at w h) = None -> ant (place_at w' h) = None)
  /\ time w' = time w
  /\ assault_plan (place_at w' h) = assault_plan (place_at w h)
  /\ forall b, b_place (bee_at w b) = Some h -> bee_at w' b = bee_at w b.

#[export] Instance waiting_frame h : Frame (waiting h).
Proof.
  split.
  - intros w. repeat split. tauto.
  - intros w1 w2 w3 (A1 & T1 & P1 & B1) (A2 & T2 & P2 & B2).
    split; [tauto|]. split; [congruence|]. split; [congruence|].
    intros b Hb. rewrite B2; [now apply B1|]. now rewrite B1.
Qed.

Definition sheltered (h : PlaceId) (w w' : World) : Prop :=
  calm h w -> calm h w' /\ waiting h w w'.

#[export] Instance sheltered_frame h : Frame (sheltered h).
Proof.
  split.
  - intros w H. split; [exact H | apply frame_refl].
  - intros w1 w2 w3 H1 H2 C1.
    destruct (H1 C1) as [C2 W1]. destruct (H2 C2) as [C3 W2].
    split; [exact C3|]. eapply frame_trans; eassumption.
Qed.

Lemma waiting_trans h w1 w2 w3 :
  waiting h w1 w2 -> waiting h w2 w3 -> waiting h w1 w3.
Proof. apply frame_trans. Qed.

Lemma sheltered_trans h w1 w2 w3 :
  sheltered h w1 w2 -> sheltered h w2 w3 -> sheltered h w1 w3.
Proof. apply frame_trans. Qed.

Lemma calm_static h w w' :
  calm h w -> static w w' -> bees_wf w' -> ants_wf w' ->
  ant (place_at w' h) = None -> calm h w'.
Proof.
  intros (_ & _ & Hh & Hn & Hr & Hk & _) [L Y] B A S.
  unfold layout_of in Y. injection Y as Y1 Y2 _ _.
  pose proof (L h) as Lh. unfold links in Lh. injection Lh as _ Ln _ _ _.
  split; [exact B|]. split; [exact A|]. split; [congruence|].
  split; [congruence|]. split; [congruence|]. split; [|exact S].
  intros k. rewrite Y1. apply Hk.
Qed.

(** What is known of an action in a calm state is enough. *)
Lemma sheltered_intro h {A} (m : M A) :
  keeps (invariant bees_wf) m ->
  keeps (invariant ants_wf) m ->
  keeps static m ->
  (forall w, calm h w -> ends_with (m w) (waiting h w)) ->
  keeps (sheltered h) m.
Proof.
  intros Kb Ka Ks Kw w. specialize (Kb w). specialize (Ka w).
  specialize (Ks w). specialize (Kw w).
  destruct (m w) as [a w'|e w'|]; [| |exact I]; intros C;
    specialize (Kw C); cbn [ends_with] in Kw;
    (split; [|exact Kw]);
    (apply (calm_static h w w' C Ks);
     [apply Kb, C | apply Ka, C | apply Kw, C]).
Qed.

Lemma sheltered_of_waiting h {A} (m : M A) :
  keeps (invariant bees_wf) m ->
  keeps (invariant ants_wf) m ->
  keeps static m ->
  keeps (waiting h) m ->
  keeps (sheltered h) m.
Proof.
  intros Kb Ka Ks Kw. apply sheltered_intro; try assumption.
  intros w _. now apply keeps_ends_with.
Qed.

(** In a calm state no ant has the hive as its place. *)
Lemma calm_ant_place h w a p :
  calm h w -> a_place (ant_at w a) = Some p -> p <> h.
Proof.
  intros (_ & (_ & _ & W) & _ & _ & _ & _ & S) Hp ->.
  destruct (W a h Hp) as [H|(g & H & _)]; congruence.
Qed.

(** What an action on bee [b] leaves alone. *)
Definition only_bee (b : BeeId) (w w' : World) : Prop :=
  (forall p, ant (place_at w' p) = ant (place_at w p))
  /\ time w' = time w
  /\ (forall p, assault_plan (place_at w' p) = assault_plan (place_at w p))
  /\ forall b', b' <> b -> bee_at w' b' = bee_at w b'.

#[export] Instance only_bee_frame b : Frame (only_bee b).
Proof.
  split.
  - intros w. repeat split.
  - intros w1 w2 w3 (A1 & T1 & P1 & B1) (A2 & T2 & P2 & B2).
    split; [intros p; now rewrite A2, A1|]. split; [congruence|].
    split; [intros p; now rewrite P2, P1|].
    intros b' Hb. now rewrite B2, B1.
Qed.

Lemma only_bee_waiting h b w w' :
  only_bee b w w' -> b_place (bee_at w b) <> Some h -> waiting h w w'.
Proof.
  intros (A & T & P & B) Hb. split; [now rewrite A|]. split; [exact T|].
  split; [apply P|].
  intros b' Hb'. apply B. intros ->. contradiction.
Qed.

Ltac only_bee_leaf :=
  split; [|split; [|split]]; intros; wsimp; unfold upd;
  repeat match goal with
         | |- context [Nat.eqb ?x ?y] => destruct (Nat.eqb_spec x y); subst
         end;
  wsimp; solve [reflexivity | congruence].

Ltac only_bee_tac := keeps_tac only_bee_leaf.

Lemma only_bee_Place_remove_bee b q :
  keeps (only_bee b) (Place_remove_insect q (IBee b)).
Proof. unfold Place_remove_insect. only_bee_tac. Qed.
#[export] Hint Resolve only_bee_Place_remove_bee : keeps.

Lemma only_bee_Place_add_bee b q :
  keeps (only_bee b) (Place_add_insect q (IBee b)).
Proof. unfold Place_add_insect. only_bee_tac. Qed.
#[export] Hint Resolve only_bee_Place_add_bee : keeps.

Lemma only_bee_Insect_reduce_armor b d :
  keeps (only_bee b) (Insect_reduce_armor (IBee b) d).
Proof. unfold Insect_reduce_armor. only_bee_tac. Qed.
#[export] Hint Resolve only_bee_Insect_reduce_armor : keeps.

Lemma only_bee_reduce_armor b d : keeps (only_bee b) (reduce_armor (IBee b) d).
Proof. unfold reduce_armor. apply only_bee_Insect_reduce_armor. Qed.
#[export] Hint Resolve only_bee_reduce_armor : keeps.

Lemma only_bee_add_insect b p : keeps (only_bee b) (add_insect p (IBee b)).
Proof. unfold add_insect, Water_add_insect. only_bee_tac. Qed.
#[export] Hint Resolve only_bee_add_insect : keeps.

Lemma only_bee_Bee_move_to b p : keeps (only_bee b) (Bee_move_to b p).
Proof. unfold Bee_move_to, add_insect_at. only_bee_tac. Qed.

Ltac waiting_leaf :=
  split; [|split; [|split]]; intros; wsimp; unfold upd in *;
  repeat match goal with
         | |- context [Nat.eqb ?x ?y] => destruct (Nat.eqb_spec x y); subst
         end;
  wsimp; solve [reflexivity | assumption | congruence].

Ltac waiting_tac := keeps_tac waiting_leaf.

Lemma waiting_Place_remove_ant h p a :
  keeps (waiting h) (Place_remove_insect p (IAnt a)).
Proof.
  intros w. unfold Place_remove_insect. mstep.
  destruct (opt_eqb (ant (place_at w p)) a) eqn:Eo; [|apply frame_refl].
  destruct (AntClass_eqb (cls (ant_at w a)) QueenAnt
            && Nat.eqb (instance_num (ant_at w a)) 0); [apply frame_refl|].
  assert (Hs : ant (place_at w p) <> None).
  { intros E. rewrite E in Eo. discriminate Eo. }
  destruct (container (cls (ant_at w a))
            && match a_ant (ant_at w a) with Some _ => true | None => false end);
    mstep; (split; [|split; [reflexivity|split; [|intros; reflexivity]]]);
    [intros Hh; wsimp; rewrite !upd_other by congruence; exact Hh
    |wsimp; unfold upd; destruct (Nat.eqb_spec h p); subst; reflexivity
    |intros Hh; wsimp; rewrite !upd_other by congruence; exact Hh
    |wsimp; unfold upd; destruct (Nat.eqb_spec h p); subst; reflexivity].
Qed.
#[export] Hint Resolve waiting_Place_remove_ant : keeps.

Lemma waiting_Insect_reduce_armor_ant h a d :
  keeps (waiting h) (Insect_reduce_armor (IAnt a) d).
Proof. unfold Insect_reduce_armor. waiting_tac. Qed.
#[export] Hint Resolve waiting_Insect_reduce_armor_ant : keeps.

Lemma waiting_random_choice h l : keeps (waiting h) (random_choice l).
Proof. unfold random_choice. waiting_tac. Qed.
#[export] Hint Resolve waiting_random_choice : keeps.

Lemma waiting_random_or_none h l : keeps (waiting h) (random_or_none l).
Proof. unfold random_or_none. waiting_tac. Qed.
#[export] Hint Resolve waiting_random_or_none : keeps.

Lemma waiting_nearest_bee_loop h self hv : forall fuel start d,
  keeps (waiting h) (nearest_bee_loop fuel self hv start d).
Proof.
  induction fuel as [|fuel IH]; intros start d; cbn [nearest_bee_loop];
    waiting_tac.
Qed.
#[export] Hint Resolve waiting_nearest_bee_loop : keeps.

Lemma waiting_walk_forward h q : forall fuel cur,
  keeps (waiting h) (walk_forward fuel q cur).
Proof.
  induction fuel as [|fuel IH]; intros [c|]; cbn [walk_forward];
    unfold QueenAnt_double_damage, double_one; waiting_tac.
Qed.
#[export] Hint Resolve waiting_walk_forward : keeps.

Lemma waiting_new_Ant h c : keeps (waiting h) (new_Ant c).
Proof. unfold new_Ant. waiting_tac. Qed.
#[export] Hint Resolve waiting_new_Ant : keeps.

(** *** Bees that are hit *)

Lemma calm_step h {A} (m : M A) w :
  keeps (invariant bees_wf) m ->
  keeps (invariant ants_wf) m ->
  keeps static m ->
  calm h w ->
  ends_with (m w) (waiting h w) ->
  ends_with (m w) (fun w' => calm h w' /\ waiting h w w').
Proof.
  intros Kb Ka Ks C Kw. specialize (Kb w). specialize (Ka w).
  specialize (Ks w).
  destruct (m w) as [a w'|e w'|]; cbn [ends_with] in *; [| |exact I];
    (split; [|exact Kw]);
    (apply (calm_static h w w' C Ks);
     [apply Kb, C | apply Ka, C | apply Kw, C]).
Qed.

(** A bee that is not in the hive loses armor. *)
Lemma hit_bee h b d w :
  calm h w ->
  b_place (bee_at w b) <> Some h ->
  ends_with (Insect_reduce_armor (IBee b) d w)
            (fun w' => calm h w' /\ waiting h w w' /\ only_bee b w w').
Proof.
  intros C Hb.
  pose proof (keeps_ends_with (only_bee b) _ w
                (only_bee_Insect_reduce_armor b d)) as O.
  pose proof (calm_step h (Insect_reduce_armor (IBee b) d) w
                (bees_wf_Insect_reduce_armor _ _)
                (ants_wf_Insect_reduce_armor _ _)
                (static_Insect_reduce_armor _ _) C) as K.
  destruct (Insect_reduce_armor (IBee b) d w) as [[] w'|e w'|];
    cbn [ends_with] in *; [| |exact I];
    (destruct K as [C' W]; [now apply (only_bee_waiting h b)|]);
    (split; [exact C'|]); (split; [exact W | exact O]).
Qed.

Lemma hit_bees h (g : World -> Z) : forall l w,
  calm h w ->
  NoDup l ->
  (forall b, In b l -> b_place (bee_at w b) <> Some h) ->
  ends_with (for_each l (fun bee =>
               w <- get ;; Insect_reduce_armor (IBee bee) (g w)) w)
            (fun w' => calm h w' /\ waiting h w w').
Proof.
  induction l as [|b l IH]; intros w C Nd Hb.
  - rewrite for_each_nil. cbn [ends_with]. split; [exact C | apply frame_refl].
  - rewrite for_each_cons. unfold bind at 1. unfold get at 1.
    inversion Nd as [|? ? Hnb Nl]; subst.
    pose proof (hit_bee h b (g w) w C (Hb b (or_introl eq_refl))) as K.
    destruct (Insect_reduce_armor (IBee b) (g w) w) as [[] w1|e w1|];
      cbn [ends_with] in K |- *; [|tauto|exact I].
    destruct K as (C1 & W1 & (_ & _ & _ & O1)).
    assert (Hb1 : forall b', In b' l -> b_place (bee_at w1 b') <> Some h).
    { intros b' Hin. rewrite O1 by (intros ->; contradiction).
      apply Hb. now right. }
    specialize (IH w1 C1 Nl Hb1).
    destruct (for_each l _ w1) as [[] w2|e w2|]; cbn [ends_with] in IH |- *;
      [| |exact I]; destruct IH as [C2 W2];
      (split; [exact C2 | eapply waiting_trans; eassumption]).
Qed.

(** The bees of the place of an ant are not in the hive. *)
Lemma calm_bees_of_ant h w a p b :
  calm h w ->
  a_place (ant_at w a) = Some p ->
  In b (bees (place_at w p)) ->
  b_place (bee_at w b) <> Some h.
Proof.
  intros C Hp Hin. pose proof (calm_ant_place h w a p C Hp) as Hne.
  destruct C as (B & _). rewrite (bees_wf_place _ _ _ B Hin). congruence.
Qed.

Lemma keeps_of_ends_with R {A} (m : M A) :
  (forall w, ends_with (m w) (R w)) -> keeps R m.
Proof. intros H w. specialize (H w). now destruct (m w). Qed.

Lemma ends_with_impl {A} (o : outcome A) (P Q : World -> Prop) :
  (forall w, P w -> Q w) -> ends_with o P -> ends_with o Q.
Proof. intros H. destruct o; cbn; auto. Qed.

Lemma sheltered_then h {A B} (m : M A) (k : A -> M B) w :
  ends_with (m w) (sheltered h w) ->
  (forall a, keeps (sheltered h) (k a)) ->
  ends_with (bind m k w) (sheltered h w).
Proof.
  intros Hm Hk. apply ends_with_bind; [exact Hm|].
  intros a w1 E. rewrite E in Hm. cbn [ends_with] in Hm.
  pose proof (keeps_ends_with (sheltered h) (k a) w1 (Hk a)) as K.
  revert K. apply ends_with_impl. intros w2 H2.
  eapply sheltered_trans; eassumption.
Qed.

Lemma sheltered_after h w w0 {A} (o : outcome A) :
  sheltered h w w0 ->
  ends_with o (sheltered h w0) ->
  ends_with o (sheltered h w).
Proof.
  intros S. apply ends_with_impl. intros w1 H.
  eapply sheltered_trans; eassumption.
Qed.

Lemma sheltered_of_calm h w {A} (o : outcome A) :
  (calm h w -> ends_with o (fun w' => calm h w' /\ waiting h w w')) ->
  ends_with o (sheltered h w).
Proof.
  intros H. destruct o as [a w'|e w'|]; cbn [ends_with] in *;
    [intros C; exact (H C) | intros C; exact (H C) | exact I].
Qed.

Lemma sheltered_remove_own_place h a :
  keeps (sheltered h)
        (w <- get ;;
         at_place w (IAnt a) (fun p => Place_remove_insect p (IAnt a))).
Proof.
  apply sheltered_of_waiting.
  - bees_tac.
  - ants_tac.
  - static_tac.
  - waiting_tac.
Qed.

(** An ant loses armor; a fire ant that dies burns the bees of its
    place, which is not the hive. *)
Lemma sheltered_reduce_armor_ant h a d :
  keeps (sheltered h) (reduce_armor (IAnt a) d).
Proof.
  assert (Kn : keeps (sheltered h) (Insect_reduce_armor (IAnt a) d)).
  { apply sheltered_of_waiting; auto with keeps. }
  apply keeps_of_ends_with. intros w.
  unfold reduce_armor. unfold bind at 1. unfold get at 1.
  destruct (cls (ant_at w a)) eqn:Ec; try (apply keeps_ends_with; exact Kn).
  destruct (a_place (ant_at w a)) as [p|] eqn:Hp.
  - rewrite (FireAnt_reduce_armor_eq a d w p Hp).
    set (w0 := with_ants_at _ w).
    assert (S0 : sheltered h w w0).
    { apply (keeps_ok (sheltered h)
               (set_armor (IAnt a) (a_armor (ant_at w a) - d)) w tt w0);
        [|reflexivity].
      apply sheltered_of_waiting; unfold set_armor, write_ant.
      - bees_tac.
      - ants_tac.
      - static_tac.
      - waiting_tac. }
    destruct (a_armor (ant_at w a) - d <=? 0).
    2:{ unfold ret. cbn [ends_with]. exact S0. }
    apply (sheltered_after h w w0); [exact S0|].
    apply sheltered_then; [|intros []; apply sheltered_remove_own_place].
    apply sheltered_of_calm. intros C0.
    assert (Hp0 : a_place (ant_at w0 a) = Some p).
    { subst w0. wsimp. rewrite upd_same. exact Hp. }
    assert (Hl : bees (place_at w0 p) = bees (place_at w p)) by reflexivity.
    rewrite <- Hl.
    exact (hit_bees h (fun w1 => a_damage (ant_at w1 a))
             (bees (place_at w0 p)) w0 C0
             (bees_wf_NoDup w0 p (proj1 C0))
             (fun b Hin => calm_bees_of_ant h w0 a p b C0 Hp0 Hin)).
  - unfold FireAnt_reduce_armor. mstep. cbn [armor place]. mstep.
    rewrite upd_same. wsimp. rewrite Hp.
    assert (S0 : sheltered h w
                   (with_ants_at
                      (upd (ant_at w) a
                           (set_a_armor (a_armor (ant_at w a) - d) (ant_at w a)))
                      w)).
    { apply (keeps_ok (sheltered h)
               (set_armor (IAnt a) (a_armor (ant_at w a) - d)) w tt);
        [|reflexivity].
      apply sheltered_of_waiting; unfold set_armor, write_ant.
      - bees_tac.
      - ants_tac.
      - static_tac.
      - waiting_tac. }
    destruct (a_armor (ant_at w a) - d <=? 0); exact S0.
Qed.
#[export] Hint Resolve sheltered_reduce_armor_ant : keeps.

(** *** What the bees do *)

Lemma sheltered_Bee_action h b : keeps (sheltered h) (Bee_action b).
Proof.
  apply keeps_of_ends_with. intros w.
  unfold Bee_action, Bee_blocked, at_place, bind, get, ret, raise.
  cbn [place].
  destruct (b_place (bee_at w b)) as [q|] eqn:Hq; cbv beta iota.
  2:{ cbn [ends_with]. apply frame_refl. }
  rewrite !Hq.
  assert (Move : ends_with
            ((if negb (name (place_at w q) =? "Hive")%string
                 && (0 <? b_armor (bee_at w b))
              then Bee_move_to b (exit (place_at w q))
              else fun w : World => Ok tt w) w)
            (sheltered h w)).
  { destruct (String.eqb_spec (name (place_at w q)) "Hive") as [Hn|Hn];
      cbn [negb andb]; [cbn [ends_with]; apply frame_refl|].
    destruct (0 <? b_armor (bee_at w b)); [|cbn [ends_with]; apply frame_refl].
    apply sheltered_of_calm. intros C.
    apply calm_step; auto with keeps.
    pose proof (keeps_ends_with (only_bee b) _ w
                  (only_bee_Bee_move_to b (exit (place_at w q)))) as O.
    revert O. apply ends_with_impl. intros w' O.
    apply (only_bee_waiting h b w w' O). rewrite Hq. intros E.
    injection E as ->. destruct C as (_ & _ & _ & Hname & _). contradiction. }
  destruct (ant (place_at w q)) as [a|] eqn:Ha; [|exact Move].
  destruct (blocks_path (cls (ant_at w a))); [|exact Move].
  unfold Bee_sting. apply keeps_ends_with. apply sheltered_reduce_armor_ant.
Qed.
#[export] Hint Resolve sheltered_Bee_action : keeps.

(** *** What the ants do *)

Lemma sheltered_throw_at h a b w :
  calm h w ->
  b_place (bee_at w b) <> Some h ->
  ends_with (throw_at a (Some b) w) (fun w' => calm h w' /\ waiting h w w').
Proof.
  intros C Hb. unfold throw_at. unfold bind at 1. unfold get at 1.
  assert (T : ends_with (ThrowerAnt_throw_at a (Some b) w)
                        (fun w' => calm h w' /\ waiting h w w')).
  { unfold ThrowerAnt_throw_at. unfold bind at 1. unfold get at 1.
    unfold reduce_armor.
    pose proof (hit_bee h b (a_damage (ant_at w a)) w C Hb) as K.
    revert K. apply ends_with_impl. tauto. }
  destruct (cls (ant_at w a)); try exact T;
    unfold SlowThrower_throw_at, apply_effect, ret; cbn [ends_with];
    (split; [exact C | apply frame_refl]).
Qed.

Lemma sheltered_ThrowerAnt_action h fuel a :
  keeps (sheltered h) (ThrowerAnt_action fuel a).
Proof.
  apply keeps_of_ends_with. intros w. apply sheltered_of_calm. intros C.
  unfold ThrowerAnt_action. unfold bind at 1. unfold get at 1.
  unfold ThrowerAnt_nearest_bee. unfold bind at 2. unfold get at 1.
  unfold bind.
  destruct (nearest_bee_loop fuel a (hive w) (a_place (ant_at w a)) 0 w)
    as [r w0|e w0|] eqn:E; [| |exact I].
  - pose proof (nearest_bee_loop_sound a (hive w) fuel w _ 0 r w0 E)
      as (F & Ep & Ea & Eb & Eh).
    assert (K0 : calm h w0 /\ waiting h w w0).
    { pose proof (calm_step h (nearest_bee_loop fuel a (hive w)
                                 (a_place (ant_at w a)) 0) w
                    (bees_wf_nearest_bee_loop _ _ _ _ _)
                    (ants_wf_nearest_bee_loop _ _ _ _ _)
                    (static_nearest_bee_loop _ _ _ _ _) C) as K.
      rewrite E in K. cbn [ends_with] in K. apply K.
      pose proof (keeps_ends_with (waiting h) _ w
                    (waiting_nearest_bee_loop h a (hive w) fuel
                       (a_place (ant_at w a)) 0)) as Wk.
      rewrite E in Wk. exact Wk. }
    destruct K0 as [C0 W0].
    destruct r as [b|].
    + cbn [found] in F. destruct F as (n & p & _ & Hp & _ & Hin & _).
      assert (Hb : b_place (bee_at w0 b) <> Some h).
      { rewrite Eb. destruct C as (B & _ & Hh & _).
        rewrite (bees_wf_place _ _ _ B Hin). congruence. }
      pose proof (sheltered_throw_at h a b w0 C0 Hb) as K.
      revert K. apply ends_with_impl. intros w' [C' W'].
      split; [exact C' | eapply waiting_trans; eassumption].
    + unfold throw_at. unfold bind at 1. unfold get at 1.
      destruct (cls (ant_at w0 a)); cbn [SlowThrower_throw_at
        ThrowerAnt_throw_at]; unfold ret; cbn [ends_with];
        (split; [exact C0 | exact W0]).
  - cbn [ends_with].
    pose proof (calm_step h (nearest_bee_loop fuel a (hive w)
                               (a_place (ant_at w a)) 0) w
                  (bees_wf_nearest_bee_loop _ _ _ _ _)
                  (ants_wf_nearest_bee_loop _ _ _ _ _)
                  (static_nearest_bee_loop _ _ _ _ _) C) as K.
    rewrite E in K. cbn [ends_with] in K. apply K.
    pose proof (keeps_ends_with (waiting h) _ w
                  (waiting_nearest_bee_loop h a (hive w) fuel
                     (a_place (ant_at w a)) 0)) as Wk.
    rewrite E in Wk. exact Wk.
Qed.
#[export] Hint Resolve sheltered_ThrowerAnt_action : keeps.

Lemma sheltered_NinjaAnt_action h a : keeps (sheltered h) (NinjaAnt_action a).
Proof.
  apply keeps_of_ends_with. intros w. apply sheltered_of_calm. intros C.
  unfold NinjaAnt_action. unfold bind at 1. unfold get at 1.
  unfold at_place. cbn [place].
  destruct (a_place (ant_at w a)) as [p|] eqn:Hp.
  - unfold bind at 1. unfold ret at 1.
    exact (hit_bees h (fun w1 => a_damage (ant_at w1 a))
             (bees (place_at w p)) w C
             (bees_wf_NoDup w p (proj1 C))
             (fun b Hin => calm_bees_of_ant h w a p b C Hp Hin)).
  - unfold bind, raise. cbn [ends_with]. split; [exact C | apply frame_refl].
Qed.
#[export] Hint Resolve sheltered_NinjaAnt_action : keeps.

Ltac sheltered_simple :=
  apply sheltered_of_waiting; [bees_tac | ants_tac | static_tac | waiting_tac].

Lemma sheltered_HungryAnt_action h a : keeps (sheltered h) (HungryAnt_action a).
Proof.
  apply keeps_of_ends_with. intros w.
  unfold HungryAnt_action. unfold bind at 1. unfold get at 1.
  destruct (0 <? digesting (ant_at w a)).
  { apply keeps_ends_with. unfold write_ant. sheltered_simple. }
  unfold at_place. cbn [place].
  destruct (a_place (ant_at w a)) as [p|] eqn:Hp.
  2:{ unfold bind, raise. cbn [ends_with]. apply frame_refl. }
  unfold bind at 1. unfold ret at 1.
  destruct (random_or_none_spec (bees (place_at w p)) w)
    as (r & w0 & E & Ep & Ea & Eb & Eh & Hr).
  unfold bind at 1. rewrite E.
  assert (S0 : sheltered h w w0).
  { apply (keeps_ok (sheltered h) (random_or_none (bees (place_at w p)))
             w r w0); [|exact E].
    unfold random_or_none, random_choice. sheltered_simple. }
  apply (sheltered_after h w w0); [exact S0|].
  destruct r as [b|]; [|unfold HungryAnt_eat_bee, ret; cbn [ends_with];
                         apply frame_refl].
  unfold HungryAnt_eat_bee. unfold bind at 1. unfold get at 1.
  apply sheltered_then.
  - apply sheltered_of_calm. intros C0.
    assert (Hb : b_place (bee_at w0 b) <> Some h).
    { apply (calm_bees_of_ant h w0 a p b C0).
      - now rewrite Ea.
      - now rewrite Ep. }
    unfold reduce_armor.
    pose proof (hit_bee h b (b_armor (bee_at w0 b)) w0 C0 Hb) as K.
    revert K. apply ends_with_impl. tauto.
  - intros []. unfold write_ant. sheltered_simple.
Qed.
#[export] Hint Resolve sheltered_HungryAnt_action : keeps.

Lemma sheltered_QueenAnt_action h fuel a :
  keeps (sheltered h) (QueenAnt_action fuel a).
Proof.
  unfold QueenAnt_action.
  apply keeps_bind; [typeclasses eauto | apply keeps_get; typeclasses eauto|].
  intros w. destruct (0 <? instance_num (ant_at w a))%nat.
  - apply sheltered_reduce_armor_ant.
  - apply keeps_bind; [typeclasses eauto | |intros []].
    + destruct (queen w); sheltered_simple.
    + apply keeps_bind; [typeclasses eauto | apply keeps_get; typeclasses eauto|].
      intros w1.
      apply keeps_bind; [typeclasses eauto | |intros start].
      * unfold at_place. destruct (place w1 (IAnt a)) as [p|].
        -- destruct (walk_back fuel w1 p); sheltered_simple.
        -- sheltered_simple.
      * apply keeps_bind; [typeclasses eauto | |intros []].
        -- apply sheltered_of_waiting; auto with keeps.
        -- apply sheltered_ThrowerAnt_action.
Qed.
#[export] Hint Resolve sheltered_QueenAnt_action : keeps.

Lemma sheltered_Ant_action h : forall fuel a,
  keeps (sheltered h) (Ant_action fuel a).
Proof.
  induction fuel as [|fuel IH]; intros a; cbn [Ant_action].
  - apply keeps_out_of_fuel.
  - apply keeps_bind; [typeclasses eauto | apply keeps_get; typeclasses eauto|].
    intros w. destruct (cls (ant_at w a)); auto with keeps;
      try (apply keeps_ret; typeclasses eauto).
    + unfold HarvesterAnt_action. sheltered_simple.
    + unfold BodyguardAnt_action.
      apply keeps_bind; [typeclasses eauto | apply keeps_get; typeclasses eauto|].
      intros w1. destruct (a_ant (ant_at w1 a));
        [apply IH | apply keeps_ret; typeclasses eauto].
Qed.
#[export] Hint Resolve sheltered_Ant_action : keeps.

(** *** What the strategy may do *)

Lemma waiting_Place_add_ant h p a :
  p <> h -> keeps (waiting h) (Place_add_insect p (IAnt a)).
Proof. intros Hp. unfold Place_add_insect. waiting_tac. Qed.

Lemma sheltered_remove_ant h pn : keeps (sheltered h) (AntColony_remove_ant pn).
Proof. unfold AntColony_remove_ant. sheltered_simple. Qed.

Lemma sheltered_add_new h p x w :
  p <> h ->
  calm h w -> new_to w x -> (x < fresh w)%nat ->
  ends_with (add_insect p (IAnt x) w) (fun w' => calm h w' /\ waiting h w w').
Proof.
  intros Hp C Hnew Hlt.
  assert (Add : forall w0, calm h w0 -> new_to w0 x -> (x < fresh w0)%nat ->
            ends_with (Place_add_insect p (IAnt x) w0)
                      (fun w' => calm h w' /\ waiting h w0 w')).
  { intros w0 C0 N0 L0.
    pose proof (ants_wf_Place_add_new p x w0 (proj1 (proj2 C0)) N0 L0) as A.
    pose proof (keeps_ends_with (invariant bees_wf) _ w0
                  (bees_wf_Place_add_ant p x)) as B.
    pose proof (keeps_ends_with static _ w0
                  (static_Place_add_insect p (IAnt x))) as S.
    pose proof (keeps_ends_with (waiting h) _ w0
                  (waiting_Place_add_ant h p x Hp)) as W.
    destruct (Place_add_insect p (IAnt x) w0) as [[] w1|e w1|];
      cbn [ends_with] in *; [| |exact I];
      (split; [|exact W]);
      (apply (calm_static h w0 w1 C0 S);
       [apply B, C0 | exact A | apply W, C0]). }
  unfold add_insect. unfold bind at 1. unfold get at 1.
  destruct (pclass (place_at w p)); try (now apply Add).
  unfold Water_add_insect. unfold bind at 1. unfold get at 1.
  unfold bind at 1. unfold print, modify.
  set (w0 := with_out _ w).
  assert (C0 : calm h w0 /\ waiting h w w0).
  { assert (K : keeps (sheltered h)
                  (print (Added (IAnt x) (insect_watersafe w (IAnt x))))).
    { unfold print. sheltered_simple. }
    exact (keeps_ok (sheltered h) _ w tt w0 K eq_refl C). }
  destruct C0 as [C0 W0].
  assert (N0 : new_to w0 x).
  { revert Hnew. apply new_to_ext; reflexivity. }
  pose proof (Add w0 C0 N0 Hlt) as H1.
  unfold bind at 1.
  destruct (Place_add_insect p (IAnt x) w0) as [[] w1|e w1|];
    cbv beta iota; cbn [ends_with] in H1 |- *; [| |exact I].
  2:{ destruct H1 as [C1 W1]. split; [exact C1|].
      exact (waiting_trans h w w0 w1 W0 W1). }
  destruct H1 as [C1 W1].
  assert (W01 : waiting h w w1) by exact (waiting_trans h w w0 w1 W0 W1).
  unfold bind at 1. unfold get at 1.
  destruct (negb _).
  - pose proof (keeps_ends_with (sheltered h) _ w1
                  (sheltered_reduce_armor_ant h x (armor w1 (IAnt x)))) as K.
    revert K. apply ends_with_impl. intros w2 S2.
    destruct (S2 C1) as [C2 W2]. split; [exact C2|].
    eapply waiting_trans; eassumption.
  - unfold ret. cbn [ends_with]. split; assumption.
Qed.

(** Deploying an ant anywhere but in the hive. *)
Lemma sheltered_deploy_ant h pn an :
  pn <> "Hive" -> keeps (sheltered h) (AntColony_deploy_ant pn an).
Proof.
  intros Hpn. apply keeps_of_ends_with. intros w.
  unfold AntColony_deploy_ant. unfold bind at 1. unfold get at 1.
  destruct (dict_get an (ant_types w)) as [c|];
    [|unfold raise; cbn [ends_with]; apply frame_refl].
  destruct (food w <? food_cost c).
  { apply keeps_ends_with. unfold print. sheltered_simple. }
  destruct (dict_get pn (places w)) as [p|] eqn:Ep;
    [|unfold raise; cbn [ends_with]; apply frame_refl].
  apply sheltered_of_calm. intros C.
  assert (Hp : p <> h).
  { intros ->. destruct C as (_ & _ & _ & _ & _ & Hk & _). apply Hpn.
    now apply Hk. }
  destruct (new_Ant_is_new c w (proj1 (proj2 C))) as (w1 & E1 & A1 & N1 & F1).
  assert (C1 : calm h w1 /\ waiting h w w1).
  { pose proof (keeps_ok (waiting h) _ w _ w1 (waiting_new_Ant h c) E1) as W1.
    split; [|exact W1].
    apply (calm_static h w w1 C).
    - exact (keeps_ok static _ w _ w1 (static_new_Ant c) E1).
    - exact (keeps_ok (invariant bees_wf) _ w _ w1 (bees_wf_new_Ant c) E1
               (proj1 C)).
    - exact A1.
    - apply W1, C. }
  destruct C1 as [C1 W1].
  unfold bind at 1. rewrite E1.
  apply ends_with_bind.
  - pose proof (sheltered_add_new h p (fresh w) w1 Hp C1 N1) as K.
    assert (Hlt : (fresh w < fresh w1)%nat) by lia.
    specialize (K Hlt). revert K. apply ends_with_impl.
    intros w2 [C2 W2]. split; [exact C2 | eapply waiting_trans; eassumption].
  - intros [] w2 E2.
    pose proof (sheltered_add_new h p (fresh w) w1 Hp C1 N1) as K.
    assert (Hlt : (fresh w < fresh w1)%nat) by lia.
    specialize (K Hlt). rewrite E2 in K. cbn [ends_with] in K.
    destruct K as [C2 W2].
    assert (Kf : keeps (sheltered h)
                   (modify (fun w => with_food (food w - food_cost c) w)))
      by sheltered_simple.
    pose proof (keeps_ends_with (sheltered h) _ w2 Kf) as K.
    revert K. apply ends_with_impl. intros w3 S3.
    destruct (S3 C2) as [C3 W3]. split; [exact C3|].
    eapply waiting_trans; [exact W1|]. eapply waiting_trans; eassumption.
Qed.

(** *** The waves of a plan *)

Lemma plan_get_In t d b :
  In b (plan_get t d) -> In b (flat_map (fun wave => snd wave) d).
Proof.
  induction d as [|[t0 wave] d IH]; cbn [plan_get flat_map snd]; [tauto|].
  intros H. apply in_or_app. destruct (Z.eqb t0 t); [now left|].
  right. now apply IH.
Qed.

(** No bee is in the waves of two turns. *)
Lemma waves_apart d :
  NoDup (flat_map (fun wave => snd wave) d) ->
  forall t t' b,
    t <> t' -> In b (plan_get t d) -> In b (plan_get t' d) -> False.
Proof.
  induction d as [|[t0 wave] d IH]; cbn [plan_get flat_map snd];
    intros Nd t t' b Hne H1 H2; [exact H1|].
  apply NoDup_app_inv in Nd. destruct Nd as (_ & Nd & Dis).
  destruct (Z.eqb_spec t0 t) as [E1|N1], (Z.eqb_spec t0 t') as [E2|N2].
  - congruence.
  - apply (Dis b H1). now apply (plan_get_In t').
  - apply (Dis b H2). now apply (plan_get_In t).
  - exact (IH Nd t t' b Hne H1 H2).
Qed.

(** *** The hive sends a wave *)

(** What the release of the bees in [l] leaves alone. *)
Definition only_bees (l : list BeeId) (w w' : World) : Prop :=
  (forall p, ant (place_at w' p) = ant (place_at w p))
  /\ time w' = time w
  /\ (forall p, assault_plan (place_at w' p) = assault_plan (place_at w p))
  /\ forall b, ~ In b l -> bee_at w' b = bee_at w b.

Lemma only_bees_refl l w : only_bees l w w.
Proof. repeat split. Qed.

Lemma only_bees_trans l w1 w2 w3 :
  only_bees l w1 w2 -> only_bees l w2 w3 -> only_bees l w1 w3.
Proof.
  intros (A1 & T1 & P1 & B1) (A2 & T2 & P2 & B2).
  split; [intros p; now rewrite A2, A1|]. split; [congruence|].
  split; [intros p; now rewrite P2, P1|].
  intros b Hb. now rewrite B2, B1.
Qed.

Lemma only_bee_only_bees b l w w' :
  In b l -> only_bee b w w' -> only_bees l w w'.
Proof.
  intros Hin (A & T & P & B). repeat split; try assumption; try apply A;
    try apply P.
  intros b' Hb'. apply B. intros ->. contradiction.
Qed.

Lemma release_loop exits : forall l l0 w,
  incl l l0 ->
  ends_with (for_each l (fun bee =>
               e <- random_choice exits ;; Bee_move_to bee (Some e)) w)
            (only_bees l0 w).
Proof.
  induction l as [|b l IH]; intros l0 w Hi.
  - rewrite for_each_nil. cbn [ends_with]. apply only_bees_refl.
  - rewrite for_each_cons.
    assert (K : keeps (only_bee b)
                  (e <- random_choice exits ;; Bee_move_to b (Some e))).
    { apply keeps_bind; [typeclasses eauto | |intros e;
                                              apply only_bee_Bee_move_to].
      unfold random_choice. only_bee_tac. }
    pose proof (keeps_ends_with (only_bee b) _ w K) as K1.
    assert (Hb : In b l0) by (apply Hi; now left).
    destruct (bind _ _ w) as [[] w1|e w1|]; cbn [ends_with] in K1 |- *;
      [|now apply (only_bee_only_bees b)|exact I].
    assert (Hi' : incl l l0) by (intros x Hx; apply Hi; now right).
    specialize (IH l0 w1 Hi').
    revert IH. apply ends_with_impl. intros w2 H2.
    eapply only_bees_trans; [|exact H2]. now apply (only_bee_only_bees b).
Qed.

(** The hive sends the wave of the turn; the other bees stay as they
    are. *)
Lemma Hive_release h w w1 :
  calm h w ->
  Hive_strategy h w = Ok tt w1 ->
  calm h w1
  /\ only_bees (plan_get (time w) (waves (assault_plan (place_at w h)))) w w1.
Proof.
  intros C E.
  assert (O : only_bees (plan_get (time w)
                           (waves (assault_plan (place_at w h)))) w w1).
  { revert E. unfold Hive_strategy. unfold bind at 1. unfold get at 1.
    cbv zeta. intros E.
    pose proof (release_loop
                  (filter (fun p => opt_eqb (entrance (place_at w p)) h)
                          (dict_values (places w)))
                  (plan_get (time w) (waves (assault_plan (place_at w h))))
                  (plan_get (time w) (waves (assault_plan (place_at w h))))
                  w (incl_refl _)) as K.
    rewrite E in K. exact K. }
  split; [|exact O].
  apply (calm_static h w w1 C).
  - exact (keeps_ok static _ w tt w1 (static_Hive_strategy h) E).
  - exact (keeps_ok (invariant bees_wf) _ w tt w1 (bees_wf_Hive_strategy h) E
             (proj1 C)).
  - exact (keeps_ok (invariant ants_wf) _ w tt w1 (ants_wf_Hive_strategy h) E
             (proj1 (proj2 C))).
  - destruct O as (A & _). rewrite A. apply C.
Qed.

(** *** A game with no ant in the hive *)

(** The turn of a wave has not come at time [t0]. *)
Definition unreleased (t0 t : Z) : Prop := t0 <= t \/ t < 0.

(** The bees of the waves whose turn has not come are in the hive. *)
Definition waves_wait (h : PlaceId) (plan : AssaultPlan) (w : World) : Prop :=
  forall t b,
    unreleased (time w) t ->
    In b (plan_get t (waves plan)) ->
    b_place (bee_at w b) = Some h.

(** A calm state of a game on the plan [plan], in which no bee is in two
    waves. *)
Definition ready (h : PlaceId) (plan : AssaultPlan) (w : World) : Prop :=
  calm h w
  /\ 0 <= time w
  /\ assault_plan (place_at w h) = plan
  /\ NoDup (all_bees plan)
  /\ waves_wait h plan w.

Lemma sheltered_ants_act h fuel l :
  keeps (sheltered h)
        (for_each l (fun a =>
           w <- get ;;
           if 0 <? a_armor (ant_at w a) then Ant_action fuel a else ret tt)).
Proof.
  apply keeps_for_each; [typeclasses eauto|]. intros a.
  apply keeps_bind; [typeclasses eauto | apply keeps_get; typeclasses eauto|].
  intros w. destruct (0 <? a_armor (ant_at w a));
    [apply sheltered_Ant_action | apply keeps_ret; typeclasses eauto].
Qed.

Lemma sheltered_bees_act h l :
  keeps (sheltered h)
        (for_each l (fun b =>
           w <- get ;;
           if 0 <? b_armor (bee_at w b) then Bee_action b else ret tt)).
Proof.
  apply keeps_for_each; [typeclasses eauto|]. intros b.
  apply keeps_bind; [typeclasses eauto | apply keeps_get; typeclasses eauto|].
  intros w. destruct (0 <? b_armor (bee_at w b));
    [apply sheltered_Bee_action | apply keeps_ret; typeclasses eauto].
Qed.

Lemma ready_printed h plan w o : ready h plan w -> ready h plan (with_out o w).
Proof.
  intros ((B & A & C) & T & P & N & W).
  split; [|split; [exact T|split; [exact P|split; [exact N|]]]].
  - split; [revert B; apply bees_wf_ext; reflexivity|].
    split; [revert A; apply ants_wf_ext; intros; wsimp; solve [reflexivity|lia]|].
    exact C.
  - exact W.
Qed.

(** One more turn: the wave of the turn leaves the hive, the strategy,
    the ants and the bees act, and the time advances. *)
Lemma ready_turn h plan (strategy : M unit) fuel w w1 w2 w3 w4 :
  keeps (sheltered h) strategy ->
  ready h plan w ->
  Hive_strategy h w = Ok tt w1 ->
  strategy w1 = Ok tt w2 ->
  for_each (AntColony_ants w2) (fun a =>
    w <- get ;;
    if 0 <? a_armor (ant_at w a) then Ant_action fuel a else ret tt) w2
  = Ok tt w3 ->
  for_each (AntColony_bees w3) (fun b =>
    w <- get ;;
    if 0 <? b_armor (bee_at w b) then Bee_action b else ret tt) w3
  = Ok tt w4 ->
  ready h plan (with_time (time w4 + 1) w4).
Proof.
  intros Hs (C & T & P & N & W) E1 E2 E3 E4.
  destruct (Hive_release h w w1 C E1) as (C1 & (_ & T1 & P1 & O1)).
  rewrite P in O1.
  destruct (keeps_ok (sheltered h) _ w1 tt w2 Hs E2 C1) as (C2 & W2).
  destruct (keeps_ok (sheltered h) _ w2 tt w3
              (sheltered_ants_act h fuel (AntColony_ants w2)) E3 C2)
    as (C3 & W3).
  destruct (keeps_ok (sheltered h) _ w3 tt w4
              (sheltered_bees_act h (AntColony_bees w3)) E4 C3)
    as (C4 & W4).
  pose proof (waiting_trans h w1 w2 w4 W2 (waiting_trans h w2 w3 w4 W3 W4))
    as (_ & T14 & P14 & B14).
  split; [|split; [|split; [|split]]].
  - destruct C4 as (B & A & C4).
    split; [revert B; apply bees_wf_ext; reflexivity|].
    split; [revert A; apply ants_wf_ext; intros; wsimp; solve [reflexivity|lia]|].
    exact C4.
  - wsimp. lia.
  - wsimp. rewrite P14, P1. exact P.
  - exact N.
  - intros t b Ht Hin. wsimp.
    assert (Hne : t <> time w).
    { destruct Ht as [Ht|Ht]; wsimp; lia. }
    assert (Hu : unreleased (time w) t).
    { destruct Ht as [Ht|Ht]; wsimp; [left|right]; lia. }
    pose proof (W t b Hu Hin) as Hb.
    assert (Hnot : ~ In b (plan_get (time w) (waves plan))).
    { intros Hin'. exact (waves_apart _ N t (time w) b Hne Hin Hin'). }
    rewrite B14; rewrite O1 by exact Hnot; exact Hb.
Qed.

Lemma ready_simulate h plan (strategy : M unit) :
  keeps (sheltered h) strategy ->
  forall fuel w r w',
    ready h plan w ->
    AntColony_simulate fuel strategy w = Ok r w' ->
    ready h plan w'.
Proof.
  intros Hs. induction fuel as [|fuel IH]; intros w r w' R H;
    rewrite simulate_eq in H;
    (destruct (bees_at_queen w) as [[|b0 l0]|]; [| |discriminate H]);
    try (injection H as _ <-; now apply ready_printed);
    (destruct (AntColony_bees w) as [|b1 l1];
     [injection H as _ <-; now apply ready_printed|]);
    [discriminate H|].
  assert (Hh : hive w = h) by apply R. rewrite Hh in H.
  apply bind_Ok_inv in H. destruct H as ([] & w1 & E1 & H).
  apply bind_Ok_inv in H. destruct H as ([] & w2 & E2 & H).
  unfold bind at 1 in H. unfold get at 1 in H.
  apply bind_Ok_inv in H. destruct H as ([] & w3 & E3 & H).
  unfold bind at 1 in H. unfold get at 1 in H.
  apply bind_Ok_inv in H. destruct H as ([] & w4 & E4 & H).
  unfold bind at 1 in H. unfold modify at 1 in H.
  apply (IH _ r w'
            (ready_turn h plan strategy (S fuel) w w1 w2 w3 w4 Hs R
                        E1 E2 E3 E4) H).
Qed.

(** When the game is won, no wave is left whose turn has not come. *)
Lemma ready_won h plan w :
  ready h plan w -> AntColony_bees w = [] ->
  forall t, unreleased (time w) t -> plan_get t (waves plan) = [].
Proof.
  intros (C & _ & _ & _ & W) He t Ht.
  destruct (plan_get t (waves plan)) as [|b l] eqn:E; [reflexivity|].
  assert (Hb : b_place (bee_at w b) = Some h).
  { apply (W t b Ht). rewrite E. now left. }
  destruct C as ((_ & B) & _ & _ & _ & Hr & _).
  apply B in Hb.
  assert (Hin : In b (AntColony_bees w)).
  { apply (registered_bees_count w h b); [|exact Hb].
    exact (dict_get_In _ _ _ Hr). }
  rewrite He in Hin. destruct Hin.
Qed.

(** *** A new colony is ready *)

Lemma dict_get_set_value {V} (k k' : string) (v x : V) d :
  dict_get k (dict_set k' v d) = Some x ->
  x = v \/ dict_get k d = Some x.
Proof.
  induction d as [|[k0 v0] d IH]; cbn [dict_set dict_get].
  - destruct (String.eqb k' k); [|discriminate].
    intros H. injection H as <-. now left.
  - destruct (String.eqb_spec k0 k') as [->|H0]; cbn [dict_get].
    + destruct (String.eqb k' k); [|tauto].
      intros H. injection H as <-. now left.
    + destruct (String.eqb k0 k); [tauto | exact IH].
Qed.

(** What the places of the tunnels leave alone: the names under which an
    older place [h] is registered, and the time. *)
Definition elder (h : PlaceId) (w w' : World) : Prop :=
  time w' = time w
  /\ ((h < fresh w)%nat ->
      (h < fresh w')%nat
      /\ forall k, dict_get k (places w') = Some h ->
                   dict_get k (places w) = Some h).

#[export] Instance elder_frame h : Frame (elder h).
Proof.
  split.
  - intros w. split; [reflexivity|]. intros H. split; [exact H | tauto].
  - intros w1 w2 w3 (T1 & H1) (T2 & H2). split; [congruence|].
    intros L1. destruct (H1 L1) as (L2 & K1). destruct (H2 L2) as (L3 & K2).
    split; [exact L3|]. intros k Hk. now apply K1, K2.
Qed.

Lemma elder_tunnel_loop h hv length moat tunnel : forall steps ex,
  keeps (elder h)
        (tunnel_loop (register_place hv) length moat tunnel steps ex).
Proof.
  induction steps as [|s steps IH]; intros ex.
  - cbn [tunnel_loop]. apply keeps_ret. typeclasses eauto.
  - assert (K : keeps (elder h)
                  (x <- (e <- (if negb (Nat.eqb moat 0)
                                  && Nat.eqb (Nat.modulo (s + 1) moat) 0
                               then new_Place Water (place_name "water" tunnel s)
                                              (Some ex)
                               else new_Place Place (place_name "tunnel" tunnel s)
                                              (Some ex)) ;;
                         register_place hv e (Nat.eqb (s + 1) length) ;;
                         ret e) ;;
                   tunnel_loop (register_place hv) length moat tunnel steps x)).
    { apply keeps_bind; [typeclasses eauto| |intros x; apply IH].
      intros w. unfold new_Place, register_place, elder.
      destruct (negb (Nat.eqb moat 0) && Nat.eqb (Nat.modulo (s + 1) moat) 0);
        destruct (Nat.eqb (s + 1) length); mstep;
        (split; [reflexivity|]); intros Hlt; (split; [lia|]);
        intros k Hk; apply dict_get_set_value in Hk;
        (destruct Hk as [Hk|Hk]; [lia | exact Hk]). }
    intros w. rewrite tunnel_loop_cons. apply K.
Qed.

Lemma elder_layout h hv length tunnels moat q :
  keeps (elder h) (mixed_layout length tunnels moat q (register_place hv)).
Proof.
  unfold mixed_layout. apply keeps_for_each; [typeclasses eauto|].
  intros tunnel. apply elder_tunnel_loop.
Qed.

(** [configure] leaves the time alone and enters the hive under no other
    name than its own. *)
Lemma configure_names_the_hive hv length tunnels moat w w' :
  name (place_at w (hive w)) = "Hive" ->
  (hive w < fresh w)%nat ->
  AntColony_configure hv (mixed_layout length tunnels moat) w = Ok tt w' ->
  time w' = time w
  /\ forall k, dict_get k (places w') = Some (hive w) -> k = "Hive".
Proof.
  intros Hn Hlt H.
  assert (P : exists w0,
    (q <- new_Place Place "AntQueen" None ;;
     modify (with_queen (QPlace q)) ;;
     modify (with_places []) ;;
     modify (with_bee_entrances []) ;;
     w <- get ;;
     register_place hv (hive w) false) w = Ok tt w0
    /\ queen w0 = QPlace (fresh w)
    /\ fresh w0 = S (fresh w)
    /\ time w0 = time w
    /\ places w0 = [("Hive", hive w)]).
  { unfold new_Place, register_place. mstep.
    eexists. split; [reflexivity|]. wsimp.
    split; [reflexivity|]. split; [reflexivity|]. split; [reflexivity|].
    rewrite !upd_other by lia. rewrite Hn. reflexivity. }
  destruct P as (w0 & E0 & Q0 & F0 & T0 & D0).
  assert (E : mixed_layout length tunnels moat (fresh w) (register_place hv) w0
              = Ok tt w').
  { revert H. unfold AntColony_configure.
    revert E0. unfold bind, get, modify.
    destruct (new_Place Place "AntQueen" None w) as [q wq|e wq|];
      try discriminate.
    cbv beta iota.
    destruct (register_place hv _ false _) as [[] wr|e wr|];
      try discriminate.
    intros E0. injection E0 as ->. rewrite Q0. tauto. }
  destruct (keeps_ok (elder (hive w)) _ w0 tt w'
              (elder_layout (hive w) hv length tunnels moat (fresh w)) E)
    as (T & K).
  split; [congruence|].
  destruct K as (_ & K); [lia|].
  intros k Hk. apply K in Hk. rewrite D0 in Hk. cbn [dict_get] in Hk.
  destruct (String.eqb_spec "Hive" k) as [Heq|_];
    [symmetry; exact Heq | discriminate Hk].
Qed.

(** A colony made as [start_with_strategy] makes it, from a plan of any
    waves and a layout of any size, has its hive entered in
    [colony.places] by [configure], and the hive holds every bee of the
    plan.  In every state with the layout of that colony (the
    states of a game) the hive is one of the registered places and its
    bees are among [colony.bees], so the condition of the [while] loop of
    [simulate] holds as long as the queen is safe and the hive is not
    empty; and when [simulate] ends with the win, the hive holds no bee.
    When the strategy puts no ant in the hive and leaves the bees that
    wait there, the plan and the time alone (as [deploy_ant] on any other
    place and [remove_ant] do), the hive has no ant when [simulate]
    returns, the bees of every wave whose turn has not come are in the
    hive and among [colony.bees], and with the win there is no such
    bee. *)
Theorem bees_in_hive_block_the_win :
  forall calls armor types d length tunnels moat fd seed,
    registry types [] = Some d ->
    exists plan w0 w,
      add_waves (mkPlan [] armor) calls (initial_world seed) = Ok plan w0
      /\ start_colony (add_waves (mkPlan [] armor) calls) types
                      (mixed_layout length tunnels moat) fd (initial_world seed)
         = Ok tt w
      /\ dict_get "Hive" (places w) = Some (hive w)
      /\ assault_plan (place_at w (hive w)) = plan
      /\ bees (place_at w (hive w)) = all_bees plan
      /\ (forall w1,
            static w w1 ->
            In (hive w1) (dict_values (places w1))
            /\ (forall b, In b (bees (place_at w1 (hive w1))) ->
                          In b (AntColony_bees w1))
            /\ (bees (place_at w1 (hive w1)) <> [] -> AntColony_bees w1 <> [])
            /\ forall fuel strategy w',
                 keeps static strategy ->
                 AntColony_simulate fuel strategy w1 = Ok won w' ->
                 In (hive w') (dict_values (places w'))
                 /\ bees (place_at w' (hive w')) = []
                 /\ AntColony_bees w' = [])
      /\ forall fuel (strategy : M unit) r w',
           keeps (sheltered (hive w)) strategy ->
           AntColony_simulate fuel strategy w = Ok r w' ->
           ant (place_at w' (hive w')) = None
           /\ (forall t b,
                 unreleased (time w') t ->
                 In b (plan_get t (waves plan)) ->
                 In b (bees (place_at w' (hive w')))
                 /\ In b (AntColony_bees w'))
           /\ (r = won ->
               forall t, unreleased (time w') t ->
                         plan_get t (waves plan) = []).
Proof.
  intros calls armor types d length tunnels moat fd seed Hr.
  destruct (add_waves_pristine calls (mkPlan [] armor) (initial_world seed)
              (pristine_initial_world seed))
    as (plan & w1 & E1 & P1 & K1).
  { split; [constructor | intros b []]. }
  destruct (new_Hive_is_the_hive plan w1) as (w2 & E2 & F2 & N2 & A2 & B2).
  assert (P2 : pristine w2).
  { destruct (new_Hive_pristine plan w1 P1 K1) as (w2' & E2' & P2').
    rewrite E2 in E2'. injection E2' as <-. exact P2'. }
  set (w3 := with_ant_types d
               (with_hive (fresh w1) (with_food fd (with_time 0 w2)))).
  assert (Hn3 : name (place_at w3 (hive w3)) = "Hive")
    by (subst w3; wsimp; exact N2).
  assert (Hl3 : (hive w3 < fresh w3)%nat) by (subst w3; wsimp; lia).
  destruct (configure_registers_the_hive (fresh w1) length tunnels moat w3
              Hn3 Hl3)
    as (w & E3 & D & Hv & Ph).
  destruct (configure_names_the_hive (fresh w1) length tunnels moat w3 w
              Hn3 Hl3 E3) as (T & Hk).
  assert (Hw3 : hive w3 = fresh w1) by (subst w3; reflexivity).
  assert (P3 : place_at w3 (fresh w1) = place_at w2 (fresh w1))
    by (subst w3; reflexivity).
  assert (T3 : time w3 = 0) by (subst w3; reflexivity).
  rewrite Hw3 in D, Hv, Ph, Hk.
  assert (E : start_colony (add_waves (mkPlan [] armor) calls) types
                           (mixed_layout length tunnels moat) fd
                           (initial_world seed) = Ok tt w).
  { unfold start_colony. unfold bind at 1. rewrite E1.
    unfold bind at 1. rewrite E2. unfold new_AntColony.
    unfold bind at 1 2 3. unfold modify at 1 2 3.
    rewrite Hr. unfold bind at 1. unfold modify at 1. exact E3. }
  assert (P : pristine w).
  { apply (keeps_ok (invariant pristine) _ w2 tt w
             (pristine_new_AntColony (fresh w1) types length tunnels moat fd));
      [|exact P2].
    unfold new_AntColony. unfold bind at 1 2 3. unfold modify at 1 2 3.
    rewrite Hr. unfold bind at 1. unfold modify at 1. exact E3. }
  assert (Hin : In (hive w) (dict_values (places w))).
  { rewrite Hv. exact (dict_get_In _ _ _ D). }
  assert (R : ready (hive w) plan w).
  { rewrite Hv. split; [|split; [|split; [|split]]].
    - split; [apply P|]. split; [now apply pristine_ants_wf|].
      split; [exact Hv|]. split; [rewrite Ph, P3; exact N2|].
      split; [exact D|]. split; [exact Hk|]. apply P.
    - rewrite T, T3. lia.
    - rewrite Ph, P3. exact A2.
    - apply K1.
    - intros t b _ Hb. apply plan_get_In in Hb.
      destruct P as ((_ & B) & _). apply B.
      rewrite Ph, P3, B2. exact Hb. }
  exists plan, w1, w. split; [exact E1|]. split; [exact E|].
  rewrite Hv, Ph, P3.
  split; [exact D|]. split; [exact A2|]. split; [exact B2|]. split.
  - intros w4 [_ L]. unfold layout_of in L. injection L as L1 L2 _ _.
    assert (Hin4 : In (hive w4) (dict_values (places w4))).
    { rewrite L1, L2. exact Hin. }
    split; [exact Hin4|].
    split; [intros b; now apply registered_bees_count|].
    split; [intros Hne He; apply Hne; now apply no_bees_anywhere|].
    intros fuel strategy w' Hs H.
    destruct (hive_empty_at_the_win fuel strategy w4 Hs Hin4) as (_ & _ & G).
    exact (G w' H).
  - intros fuel strategy r w' Hs H. rewrite <- Hv in Hs.
    pose proof (ready_simulate (hive w) plan strategy Hs fuel w r w' R H) as R'.
    assert (Hh' : hive w' = hive w) by apply R'.
    rewrite Hh'.
    split; [apply R'|]. split.
    + intros t b Ht Hb.
      destruct R' as (C' & _ & _ & _ & W').
      pose proof (W' t b Ht Hb) as Hp.
      destruct C' as ((_ & B') & _ & _ & _ & Hr' & _).
      apply B' in Hp. split; [exact Hp|].
      apply (registered_bees_count w' (hive w) b); [|exact Hp].
      exact (dict_get_In _ _ _ Hr').
    + intros -> t Ht.
      apply (ready_won (hive w) plan w' R'); [|exact Ht].
      exact (simulate_won_no_bees strategy fuel w w' H).
Qed.

(** A strategy that puts a thrower in each place of the tunnel in the
    first turn. *)
Definition three_throwers : M unit :=
  w <- get ;;
  if time w =? 0 then
    AntColony_deploy_ant "tunnel_0_0" "Thrower" ;;
    AntColony_deploy_ant "tunnel_0_1" "Thrower" ;;
    AntColony_deploy_ant "tunnel_0_2" "Thrower"
  else ret tt.

Lemma sheltered_three_throwers h : keeps (sheltered h) three_throwers.
Proof.
  unfold three_throwers.
  apply keeps_bind; [typeclasses eauto | apply keeps_get; typeclasses eauto|].
  intros w. destruct (time w =? 0); [|apply keeps_ret; typeclasses eauto].
  apply keeps_bind;
    [typeclasses eauto | apply sheltered_deploy_ant; discriminate | intros []].
  apply keeps_bind;
    [typeclasses eauto | apply sheltered_deploy_ant; discriminate | intros []].
  apply sheltered_deploy_ant. discriminate.
Qed.

Lemma bees_in_hive_block_the_win_witness :
  exists d plan w w' w'',
    registry implemented_types [] = Some d
    /\ start_colony (add_waves (mkPlan [] 3) [(2, 1); (9, 1)])
                    implemented_types (mixed_layout 3 1 0) 20
                    (initial_world (fun _ => O))
       = Ok tt w
    /\ dict_get "Hive" (places w) = Some (hive w)
    /\ assault_plan (place_at w (hive w)) = plan
    /\ waves plan = [(2, [0%nat]); (9, [1%nat])]
    /\ bees (place_at w (hive w)) = [0; 1]%nat
    /\ AntColony_bees w <> []
    /\ AntColony_simulate 12 (AntColony_deploy_ant "Hive" "Fire") w = Ok won w'
    /\ time w' = 1
    /\ bees (place_at w' (hive w')) = []
    /\ AntColony_simulate 12 three_throwers w = Ok won w''
    /\ time w'' = 10
    /\ forall t, 10 <= t -> plan_get t (waves plan) = [].
Proof.
  assert (R : exists d, registry implemented_types [] = Some d)
    by (eexists; by_compute).
  destruct R as (d & R).
  destruct (bees_in_hive_block_the_win [(2, 1); (9, 1)] 3 implemented_types
              d 3 1 0 20 (fun _ => O) R)
    as (plan & w0 & w & E0 & E & D & A & B & G1 & G2).
  assert (Hp : waves plan = [(2, [0%nat]); (9, [1%nat])]).
  { revert E0. vm_compute. intros E0.
    exact (f_equal (fun o => match o with
                             | Ok x _ => waves x
                             | _ => []
                             end) (eq_sym E0)). }
  unfold all_bees in B. rewrite Hp in B. cbn [flat_map snd app] in B.
  destruct (G1 w (frame_refl w)) as (_ & _ & N & W).
  set (c := run (start_colony (add_waves (mkPlan [] 3) [(2, 1); (9, 1)])
                              implemented_types (mixed_layout 3 1 0) 20)
                (initial_world (fun _ => O))).
  assert (E' : start_colony (add_waves (mkPlan [] 3) [(2, 1); (9, 1)])
                            implemented_types (mixed_layout 3 1 0) 20
                            (initial_world (fun _ => O))
               = Ok tt c) by by_compute.
  assert (Hw : c = w).
  { rewrite E' in E.
    exact (f_equal (fun o => match o with Ok _ x => x | _ => w end) E). }
  assert (S1 : exists w',
             AntColony_simulate 12 (AntColony_deploy_ant "Hive" "Fire") c
             = Ok won w' /\ time w' = 1)
    by (eexists; split; by_compute).
  assert (S2 : exists w'',
             AntColony_simulate 12 three_throwers c = Ok won w''
             /\ time w'' = 10)
    by (eexists; split; by_compute).
  clearbody c. subst c.
  destruct S1 as (w' & S1 & T1). destruct S2 as (w'' & S2 & T2).
  destruct (W 12%nat (AntColony_deploy_ant "Hive" "Fire") w'
              (static_deploy_ant _ _) S1) as (_ & Hb & _).
  destruct (G2 12%nat three_throwers won w''
              (sheltered_three_throwers _) S2) as (_ & _ & Hwon).
  exists d, plan, w, w', w''.
  split; [exact R|]. split; [exact E|]. split; [exact D|].
  split; [exact A|]. split; [exact Hp|]. split; [exact B|].
  split; [apply N; rewrite B; discriminate|].
  split; [exact S1|]. split; [exact T1|]. split; [exact Hb|].
  split; [exact S2|]. split; [exact T2|].
  intros t Ht. apply (Hwon eq_refl). left. rewrite T2. exact Ht.
Defined.

(** C9.  With an ant in the hive, which the comment in [Hive.__init__]
    rules out and [deploy_ant] allows, a wave waiting for its turn does
    not block the win.  The strategy deploys a fire ant in the place
    ["Hive"]; in the first turn the first waiting bee stings it, the fire
    ant burns the two bees in the hive, and the game is won at time 1,
    with the waves of the turns 2 and 3 still in the plan of the hive and
    neither bee ever in a tunnel. *)
Lemma win_with_waves_unreleased :
  exists w',
    AntColony_simulate 10 (AntColony_deploy_ant "Hive" "Fire") (small_colony 10)
    = Ok won w'
    /\ dict_get "Hive" (places (small_colony 10)) = Some (hive (small_colony 10))
    /\ bees (place_at (small_colony 10) (hive (small_colony 10))) = [0; 1]%nat
    /\ time w' = 1
    /\ waves (assault_plan (place_at w' (hive w'))) = [(2, [0%nat]); (3, [1%nat])]
    /\ bees (place_at w' (hive w')) = []
    /\ AntColony_bees w' = []
    /\ b_place (bee_at w' 0%nat) = None
    /\ b_place (bee_at w' 1%nat) = None
    /\ out w' = [Expired (IBee 0%nat); Expired (IBee 1%nat); Vanquished].
Proof.
  eexists. conj; by_compute.
Qed.
